(** * canadian-law-mcp: the Justice Laws FullText.html parser

    A shallow embedding of [scripts/lib/parser.ts] and the properties of
    [parseFullTextHtml] and its helpers [stripHtml], [extractSections],
    [extractDefinitions] and [extractSchedules], followed by the scripts
    that call the parser: the rate-limited client of [scripts/lib/fetcher.ts]
    and the ingestion loop of [scripts/ingest.ts], and by the citation
    formatter of [tools/format-citation.ts].

    Strings are sequences of UTF-16 code units, as in the JavaScript
    runtime, so that [length], [substring] and match offsets count what the
    source counts.  Regular expressions are kept as syntax trees that read
    like the literals of the source and are run by a backtracking matcher
    with the ECMAScript priorities (greedy and lazy quantifiers, ordered
    alternation, capture groups, lookahead).  The parser is also run in a
    realm that keeps the RegExp objects its literals create, each with its
    [lastIndex], to relate a call to the state earlier calls left. *)

From Stdlib Require Import String Ascii.
From Stdlib Require Import List NArith Arith Bool Lia Sorted.
Import ListNotations.

Set Warnings "-abstract-large-number".

(** ** JavaScript strings *)

Module Js.

Definition char := N.
Definition jsstring := list char.

(** An ASCII literal of the source as a code-unit sequence. *)
Definition lit (s : string) : jsstring :=
  List.map N_of_ascii (list_ascii_of_string s).

(** The double-quote character, U+0022. *)
Definition dq : jsstring := [34%N].

Definition char_eqb : char -> char -> bool := N.eqb.

Fixpoint str_eqb (a b : jsstring) : bool :=
  match a, b with
  | [], [] => true
  | x :: a', y :: b' => char_eqb x y && str_eqb a' b'
  | _, _ => false
  end.

(** Truthiness of a string: non-empty. *)
Definition truthy (s : jsstring) : bool :=
  match s with [] => false | _ => true end.

(** [s.substring(a, b)]: both indices clamped to the length, swapped when
    out of order. *)
Definition substring (s : jsstring) (a b : nat) : jsstring :=
  let a' := Nat.min a (length s) in
  let b' := Nat.min b (length s) in
  firstn (Nat.max a' b' - Nat.min a' b') (skipn (Nat.min a' b') s).

Fixpoint starts_with (p s : jsstring) : bool :=
  match p with
  | [] => true
  | x :: p' =>
      match s with
      | y :: s' => char_eqb x y && starts_with p' s'
      | [] => false
      end
  end.

(** [s.includes(p)] *)
Fixpoint includes (s p : jsstring) : bool :=
  starts_with p s ||
  match s with
  | [] => false
  | _ :: s' => includes s' p
  end.

(** White space and line terminators: the set matched by [\s] and removed by
    [trim()]. *)
Definition is_space (c : char) : bool :=
  ((9 <=? c) && (c <=? 13))%N
  || (c =? 32)%N || (c =? 160)%N || (c =? 5760)%N
  || ((8192 <=? c) && (c <=? 8202))%N
  || (c =? 8232)%N || (c =? 8233)%N || (c =? 8239)%N || (c =? 8287)%N
  || (c =? 12288)%N || (c =? 65279)%N.

(** Line terminators, which [.] does not match without the [s] flag. *)
Definition is_line_terminator (c : char) : bool :=
  (c =? 10)%N || (c =? 13)%N || (c =? 8232)%N || (c =? 8233)%N.

Definition is_digit (c : char) : bool := ((48 <=? c) && (c <=? 57))%N.

Fixpoint trim_start (s : jsstring) : jsstring :=
  match s with
  | c :: s' => if is_space c then trim_start s' else s
  | [] => []
  end.

Definition trim_end (s : jsstring) : jsstring := rev (trim_start (rev s)).

(** [s.trim()] *)
Definition trim (s : jsstring) : jsstring := trim_end (trim_start s).

End Js.
Import Js.

(** ** Regular expressions *)

Module Re.

(** Character classes of the source's regular expressions. *)
Inductive cclass : Type :=
| CDot                          (* .      *)
| CDigit                        (* \d     *)
| CSpace                        (* \s     *)
| CChar (c : char)              (* a single character inside a class *)
| CUnion (a b : cclass)         (* [ab]   *)
| CNot (a : cclass).            (* [^a], \S *)

Inductive regex : Type :=
| RLit (s : jsstring)           (* a literal run of characters *)
| RSet (c : cclass)             (* one character of a class *)
| RSeq (r1 r2 : regex)
| RAlt (r1 r2 : regex)          (* r1|r2, r1 tried first *)
| ROpt (r : regex)              (* (?:r)? greedy *)
| RStar (c : cclass)            (* c*  greedy *)
| RPlus (c : cclass)            (* c+  greedy *)
| RLazy (c : cclass)            (* c*? *)
| RRep (n : nat) (c : cclass)   (* c{n} *)
| RCap (i : nat) (r : regex)    (* capture group number i *)
| RAhead (r : regex)            (* (?=r) *)
| RBegin                        (* ^ without the m flag *)
| REnd.                         (* $ without the m flag *)

Declare Scope regex_scope.
Delimit Scope regex_scope with re.
Bind Scope regex_scope with regex.
Infix ">>" := RSeq (at level 61, right associativity) : regex_scope.

(** A regular expression literal with its flags. *)
Record RegExp : Type := mkRegExp {
  source : regex;
  global : bool;       (* g *)
  ignoreCase : bool;   (* i *)
  dotAll : bool        (* s *)
}.

(** Canonicalisation for the [i] flag.  Every pattern character of the
    source is ASCII; without the [u] flag a non-ASCII input character never
    canonicalises to an ASCII one, so only the ASCII letters are folded. *)
Definition canon (c : char) : char :=
  if ((97 <=? c) && (c <=? 122))%N then (c - 32)%N else c.

Record mstate : Type := mkState {
  mpos : nat;                       (* index of the next character *)
  mrest : jsstring;                 (* input from [mpos] on *)
  mcaps : list (nat * jsstring)     (* captures, most recent first *)
}.

Section Matcher.

Variable icase : bool.
Variable dotall : bool.

Definition chr_match (a c : char) : bool :=
  if icase then char_eqb (canon a) (canon c) else char_eqb a c.

(** None of the classes of the source contains a letter, so the [i] flag
    does not change what they match. *)
Fixpoint cls_match (cl : cclass) (c : char) : bool :=
  match cl with
  | CDot => dotall || negb (is_line_terminator c)
  | CDigit => is_digit c
  | CSpace => is_space c
  | CChar a => char_eqb a c
  | CUnion a b => cls_match a c || cls_match b c
  | CNot a => negb (cls_match a c)
  end.

Definition orelse {A} (x : option A) (y : unit -> option A) : option A :=
  match x with Some _ => x | None => y tt end.

Fixpoint lit_match (p : jsstring) (pos : nat) (rest : jsstring)
  : option (nat * jsstring) :=
  match p with
  | [] => Some (pos, rest)
  | a :: p' =>
      match rest with
      | c :: rest' => if chr_match a c then lit_match p' (S pos) rest' else None
      | [] => None
      end
  end.

(** Greedy [c*]: take as many characters as possible, give back one at a
    time. *)
Fixpoint star_greedy (cl : cclass) (pos : nat) (rest : jsstring)
  (caps : list (nat * jsstring)) (k : mstate -> option mstate) : option mstate :=
  match rest with
  | c :: rest' =>
      if cls_match cl c
      then orelse (star_greedy cl (S pos) rest' caps k)
                  (fun _ => k (mkState pos rest caps))
      else k (mkState pos rest caps)
  | [] => k (mkState pos rest caps)
  end.

(** Lazy [c*?]: try the continuation first, take one more character only
    when it fails. *)
Fixpoint star_lazy (cl : cclass) (pos : nat) (rest : jsstring)
  (caps : list (nat * jsstring)) (k : mstate -> option mstate) : option mstate :=
  orelse (k (mkState pos rest caps))
    (fun _ =>
       match rest with
       | c :: rest' =>
           if cls_match cl c then star_lazy cl (S pos) rest' caps k else None
       | [] => None
       end).

Fixpoint rep_exact (n : nat) (cl : cclass) (pos : nat) (rest : jsstring)
  : option (nat * jsstring) :=
  match n with
  | 0 => Some (pos, rest)
  | S n' =>
      match rest with
      | c :: rest' => if cls_match cl c then rep_exact n' cl (S pos) rest' else None
      | [] => None
      end
  end.

(** The backtracking matcher, in continuation-passing style: [rmatch r st k]
    matches [r] at [st] and calls [k] on each state [r] can end in, in
    priority order, until [k] succeeds. *)
Fixpoint rmatch (r : regex) (st : mstate) (k : mstate -> option mstate)
  : option mstate :=
  match r with
  | RLit p =>
      match lit_match p (mpos st) (mrest st) with
      | Some (pos', rest') => k (mkState pos' rest' (mcaps st))
      | None => None
      end
  | RSet cl =>
      match mrest st with
      | c :: rest' =>
          if cls_match cl c then k (mkState (S (mpos st)) rest' (mcaps st)) else None
      | [] => None
      end
  | RSeq r1 r2 => rmatch r1 st (fun st' => rmatch r2 st' k)
  | RAlt r1 r2 => orelse (rmatch r1 st k) (fun _ => rmatch r2 st k)
  | ROpt r1 =>
      orelse
        (rmatch r1 st
           (fun st' => if Nat.eqb (mpos st') (mpos st) then None else k st'))
        (fun _ => k st)
  | RStar cl => star_greedy cl (mpos st) (mrest st) (mcaps st) k
  | RPlus cl =>
      match mrest st with
      | c :: rest' =>
          if cls_match cl c
          then star_greedy cl (S (mpos st)) rest' (mcaps st) k
          else None
      | [] => None
      end
  | RLazy cl => star_lazy cl (mpos st) (mrest st) (mcaps st) k
  | RRep n cl =>
      match rep_exact n cl (mpos st) (mrest st) with
      | Some (pos', rest') => k (mkState pos' rest' (mcaps st))
      | None => None
      end
  | RCap i r1 =>
      rmatch r1 st
        (fun st' =>
           k (mkState (mpos st') (mrest st')
                ((i, firstn (mpos st' - mpos st) (mrest st)) :: mcaps st')))
  | RAhead r1 =>
      match rmatch r1 st (fun st' => Some st') with
      | Some st' => k (mkState (mpos st) (mrest st) (mcaps st'))
      | None => None
      end
  | RBegin => if Nat.eqb (mpos st) 0 then k st else None
  | REnd => match mrest st with [] => k st | _ :: _ => None end
  end.

(** One match attempt anchored at index [pos]. *)
Definition match_at (r : regex) (pos : nat) (rest : jsstring) : option mstate :=
  rmatch r (mkState pos rest []) (fun st => Some st).

End Matcher.

(** A successful match: where it starts, where it ends, what it matched and
    its capture groups. *)
Record rmatch_result : Type := mkMatch {
  index : nat;
  mend : nat;
  matched : jsstring;
  groups : list (nat * jsstring)
}.

(** [m[i]] for a capture group that took part in the match. *)
Fixpoint group_lookup (i : nat) (caps : list (nat * jsstring)) : option jsstring :=
  match caps with
  | [] => None
  | (j, s) :: caps' => if Nat.eqb i j then Some s else group_lookup i caps'
  end.

Definition group (i : nat) (m : rmatch_result) : jsstring :=
  match group_lookup i (groups m) with Some s => s | None => [] end.

(** The leftmost match starting at index [pos] or later. *)
Fixpoint search_from (re : RegExp) (pos : nat) (rest : jsstring)
  : option rmatch_result :=
  match match_at (ignoreCase re) (dotAll re) (source re) pos rest with
  | Some st =>
      Some (mkMatch pos (mpos st) (firstn (mpos st - pos) rest) (mcaps st))
  | None =>
      match rest with
      | [] => None
      | _ :: rest' => search_from re (S pos) rest'
      end
  end.

(** [re.exec(s)] with [re.lastIndex = lastIndex]: [null] when [lastIndex]
    is beyond the end of [s]. *)
Definition exec (re : RegExp) (s : jsstring) (lastIndex : nat)
  : option rmatch_result :=
  if Nat.ltb (length s) lastIndex then None
  else search_from re lastIndex (skipn lastIndex s).

(** [s.match(re)] for a regular expression without the [g] flag. *)
Definition match_first (re : RegExp) (s : jsstring) : option rmatch_result :=
  exec re s 0.

(** The loop [while ((m = re.exec(s)) !== null) { ... }] of a [g] regular
    expression: [lastIndex] is the end of the previous match.  [fuel] bounds
    the number of iterations. *)
Fixpoint exec_loop (fuel : nat) (re : RegExp) (s : jsstring) (lastIndex : nat)
  : list rmatch_result :=
  match fuel with
  | 0 => []
  | S fuel' =>
      match exec re s lastIndex with
      | None => []
      | Some m => m :: exec_loop fuel' re s (mend m)
      end
  end.

(** All matches of a [g] regular expression over [s], from [lastIndex = 0].
    Each match of the expressions of this program consumes at least one
    character, so [length s + 1] iterations reach the final [null]
    (lemma [exec_all_complete] below). *)
Definition exec_all (re : RegExp) (s : jsstring) : list rmatch_result :=
  exec_loop (S (length s)) re s 0.

(** Splice [repl] over the listed matches of [s]; [pos] is the index of the
    first character of [rest]. *)
Fixpoint splice (ms : list rmatch_result) (repl : jsstring) (pos : nat)
  (rest : jsstring) : jsstring :=
  match ms with
  | [] => rest
  | m :: ms' =>
      firstn (index m - pos) rest ++ repl
        ++ splice ms' repl (mend m) (skipn (mend m - pos) rest)
  end.

(** [s.replace(re, repl)] for a replacement string without [$] patterns:
    every match with the [g] flag, the first one without. *)
Definition replace (re : RegExp) (repl : jsstring) (s : jsstring) : jsstring :=
  if global re
  then splice (exec_all re s) repl 0 s
  else match exec re s 0 with
       | Some m => splice [m] repl 0 s
       | None => s
       end.

End Re.
Import Re.

(** ** Data model *)

Inductive Status : Type := in_force | amended | repealed | not_yet_in_force.

Inductive DocType : Type := statute.

Module ActIndexEntry.
Record t : Type := mk {
  id : jsstring;
  actPath : jsstring;
  title : jsstring;
  titleFr : jsstring;
  shortName : jsstring;
  status : Status;
  issuedDate : jsstring;
  inForceDate : jsstring;
  url : jsstring
}.
End ActIndexEntry.

Module ParsedProvision.
Record t : Type := mk {
  provision_ref : jsstring;
  chapter : option jsstring;     (* [chapter?: string] *)
  section : jsstring;
  title : jsstring;
  content : jsstring
}.
End ParsedProvision.

Module ParsedDefinition.
Record t : Type := mk {
  term : jsstring;
  definition : jsstring;
  source_provision : option jsstring
}.
End ParsedDefinition.

Module ParsedAct.
Record t : Type := mk {
  id : jsstring;
  type : DocType;
  title : jsstring;
  title_en : jsstring;
  short_name : jsstring;
  status : Status;
  issued_date : jsstring;
  in_force_date : jsstring;
  url : jsstring;
  description : option jsstring;
  provisions : list ParsedProvision.t;
  definitions : list ParsedDefinition.t
}.
End ParsedAct.

(** What the parser takes from the JavaScript engine besides strings and
    regular expressions: [String.prototype.toLowerCase], whose Unicode case
    table is the engine's.  The parser is verified for every such function. *)
Class Engine : Type := { toLowerCase : jsstring -> jsstring }.

(** Lower-casing of the ASCII letters, which is what [toLowerCase] does on
    ASCII text; used to run the parser on concrete ASCII pages. *)
Definition ascii_lower (c : char) : char :=
  if ((65 <=? c) && (c <=? 90))%N then (c + 32)%N else c.

Definition AsciiEngine : Engine := {| toLowerCase := List.map ascii_lower |}.

(** [console.log]: the lines written so far are threaded as state. *)
Definition Console (A : Type) : Type := list jsstring -> A * list jsstring.

Definition ret {A} (x : A) : Console A := fun out => (x, out).

Definition bind {A B} (c : Console A) (f : A -> Console B) : Console B :=
  fun out => let (x, out') := c out in f x out'.

Definition console_log (line : jsstring) : Console unit :=
  fun out => (tt, out ++ [line]).

Declare Scope console_scope.
Delimit Scope console_scope with console.
Notation "c ;; k" := (bind c (fun _ => k))
  (at level 100, right associativity) : console_scope.

(** ** The regular expressions of the parser *)

Definition ch (a : ascii) : char := N_of_ascii a.

(** [[^>]], [[^<]], [[23]], [[\d.]] and [[\s\S]] *)
Definition not_gt : cclass := CNot (CChar (ch ">")).
Definition not_lt : cclass := CNot (CChar (ch "<")).
Definition two_or_three : cclass := CUnion (CChar (ch "2")) (CChar (ch "3")).
Definition digit_or_dot : cclass := CUnion CDigit (CChar (ch ".")).
Definition any_char : cclass := CUnion CSpace (CNot CSpace).

(** A literal between double quotes, as in [class="Part"]. *)
Definition quoted (s : jsstring) : jsstring := dq ++ s ++ dq.

Module Rx.
Local Open Scope regex_scope.

(** [/<[^>]+>/g] *)
Definition tag : RegExp :=
  mkRegExp (RLit (lit "<") >> RPlus not_gt >> RLit (lit ">")) true false false.

(** [/&nbsp;/g] and the other entity literals *)
Definition entity (name : string) : RegExp :=
  mkRegExp (RLit (lit name)) true false false.

(** [/\s+/g] *)
Definition spaces : RegExp := mkRegExp (RPlus CSpace) true false false.

(** [/<title>([^<]+)<\/title>/] *)
Definition titleTag : RegExp :=
  mkRegExp (RLit (lit "<title>") >> RCap 1 (RPlus not_lt) >> RLit (lit "</title>"))
    false false false.

(** [/Act current to\s*(\d{4}-\d{2}-\d{2})/] *)
Definition currentTo : RegExp :=
  mkRegExp
    (RLit (lit "Act current to") >> RStar CSpace
     >> RCap 1 (RRep 4 CDigit >> RLit (lit "-") >> RRep 2 CDigit
                >> RLit (lit "-") >> RRep 2 CDigit))
    false false false.

(** [/id="s-(\d+(?:\.\d+)?)">/g] *)
Definition anchorRe : RegExp :=
  mkRegExp
    (RLit (lit "id=" ++ dq ++ lit "s-")
     >> RCap 1 (RPlus CDigit >> ROpt (RLit (lit ".") >> RPlus CDigit))
     >> RLit (dq ++ lit ">"))
    true false false.

(** [<h[23][^>]*class="(?:Part|Subheading)"[^>]*>], the opening of a Part
    or Division heading *)
Definition headingOpen : regex :=
  RLit (lit "<h") >> RSet two_or_three >> RStar not_gt
  >> RLit (lit "class=" ++ dq)
  >> RAlt (RLit (lit "Part")) (RLit (lit "Subheading"))
  >> RLit dq >> RStar not_gt >> RLit (lit ">").

(** [/<h[23][^>]*class="(?:Part|Subheading)"[^>]*>(.*?)<\/h[23]>/gi] *)
Definition partRe : RegExp :=
  mkRegExp
    (headingOpen >> RCap 1 (RLazy CDot)
     >> RLit (lit "</h") >> RSet two_or_three >> RLit (lit ">"))
    true true false.

(** [/class="MarginalNote"[^>]*>(?:<span[^>]*>Marginal note:<\/span>)?\s*(.*?)<\/p>/gi] *)
Definition mnRe : RegExp :=
  mkRegExp
    (RLit (lit "class=" ++ quoted (lit "MarginalNote")) >> RStar not_gt
     >> RLit (lit ">")
     >> ROpt (RLit (lit "<span") >> RStar not_gt
              >> RLit (lit ">Marginal note:</span>"))
     >> RStar CSpace >> RCap 1 (RLazy CDot) >> RLit (lit "</p>"))
    true true false.

(** [/<div class="HistoricalNote">.*?<\/div>/gs] *)
Definition historicalDiv : RegExp :=
  mkRegExp
    (RLit (lit "<div class=" ++ quoted (lit "HistoricalNote") ++ lit ">")
     >> RLazy CDot >> RLit (lit "</div>"))
    true false true.

(** [/<ul class="HistoricalNote">.*?<\/ul>/gs] *)
Definition historicalUl : RegExp :=
  mkRegExp
    (RLit (lit "<ul class=" ++ quoted (lit "HistoricalNote") ++ lit ">")
     >> RLazy CDot >> RLit (lit "</ul>"))
    true false true.

(** [/<p class="MarginalNote"[^>]*>.*?<\/p>/gs] *)
Definition marginalP : RegExp :=
  mkRegExp
    (RLit (lit "<p class=" ++ quoted (lit "MarginalNote")) >> RStar not_gt
     >> RLit (lit ">") >> RLazy CDot >> RLit (lit "</p>"))
    true false true.

(** [/<h[23][^>]*class="(?:Part|Subheading)"[^>]*>[\s\S]*$/i] *)
Definition headingToEnd : RegExp :=
  mkRegExp (headingOpen >> RStar any_char >> REnd) false true false.

(** [/<div class="Schedule"[\s\S]*$/i] *)
Definition scheduleToEnd : RegExp :=
  mkRegExp
    (RLit (lit "<div class=" ++ quoted (lit "Schedule")) >> RStar any_char >> REnd)
    false true false.

(** [/^\s*id="s-[\d.]+"\s*>\s*/] *)
Definition anchorResidue : RegExp :=
  mkRegExp
    (RBegin >> RStar CSpace >> RLit (lit "id=" ++ dq ++ lit "s-")
     >> RPlus digit_or_dot >> RLit dq >> RStar CSpace >> RLit (lit ">")
     >> RStar CSpace)
    false false false.

(** [/^\s*\d+(?:\.\d+)?\s+/] *)
Definition leadingNumber : RegExp :=
  mkRegExp
    (RBegin >> RStar CSpace >> RPlus CDigit
     >> ROpt (RLit (lit ".") >> RPlus CDigit) >> RPlus CSpace)
    false false false.

(** [/<[^>]*$/] *)
Definition partialTag : RegExp :=
  mkRegExp (RLit (lit "<") >> RStar not_gt >> REnd) false false false.

(** [/<p class="Definition"[^>]*>(.*?)<\/p>/gi] *)
Definition defRe : RegExp :=
  mkRegExp
    (RLit (lit "<p class=" ++ quoted (lit "Definition")) >> RStar not_gt
     >> RLit (lit ">") >> RCap 1 (RLazy CDot) >> RLit (lit "</p>"))
    true true false.

(** [/<dfn>([^<]+)<\/dfn>/] *)
Definition dfn : RegExp :=
  mkRegExp (RLit (lit "<dfn>") >> RCap 1 (RPlus not_lt) >> RLit (lit "</dfn>"))
    false false false.

(** [/<div class="Schedule"[^>]*>(.*?)<\/div>\s*(?=<div class="Schedule"|<section|<footer|$)/gis] *)
Definition scheduleRe : RegExp :=
  mkRegExp
    (RLit (lit "<div class=" ++ quoted (lit "Schedule")) >> RStar not_gt
     >> RLit (lit ">") >> RCap 1 (RLazy CDot) >> RLit (lit "</div>")
     >> RStar CSpace
     >> RAhead (RAlt (RLit (lit "<div class=" ++ quoted (lit "Schedule")))
                (RAlt (RLit (lit "<section"))
                   (RAlt (RLit (lit "<footer")) REnd))))
    true true true.

(** [/class="scheduleLabel"[^>]*>([^<]+)</] *)
Definition scheduleLabel : RegExp :=
  mkRegExp
    (RLit (lit "class=" ++ quoted (lit "scheduleLabel")) >> RStar not_gt
     >> RLit (lit ">") >> RCap 1 (RPlus not_lt) >> RLit (lit "<"))
    false false false.

(** [/class="scheduleTitleText"[^>]*>([^<]+)/] *)
Definition scheduleTitleText : RegExp :=
  mkRegExp
    (RLit (lit "class=" ++ quoted (lit "scheduleTitleText")) >> RStar not_gt
     >> RLit (lit ">") >> RCap 1 (RPlus not_lt))
    false false false.

(** [/<p class="SchedHeadL1"[^>]*>(.*?)<\/p>/gi] *)
Definition headingRe : RegExp :=
  mkRegExp
    (RLit (lit "<p class=" ++ quoted (lit "SchedHeadL1")) >> RStar not_gt
     >> RLit (lit ">") >> RCap 1 (RLazy CDot) >> RLit (lit "</p>"))
    true true false.

(** [/^(\d+(?:\.\d+)?)\s/] *)
Definition headingRef : RegExp :=
  mkRegExp
    (RBegin >> RCap 1 (RPlus CDigit >> ROpt (RLit (lit ".") >> RPlus CDigit))
     >> RSet CSpace)
    false false false.

End Rx.

(** ** The parser *)

(** Method chaining: [s |> f] is [f s]. *)
Notation "s |> f" := (f s) (at level 65, left associativity, only parsing).

(** Strip HTML tags and decode common entities to plain text. *)
Definition stripHtml (html : jsstring) : jsstring :=
  html
  |> replace Rx.tag (lit " ")
  |> replace (Rx.entity "&nbsp;") (lit " ")
  |> replace (Rx.entity "&#x00A0;") (lit " ")
  |> replace (Rx.entity "&amp;") (lit "&")
  |> replace (Rx.entity "&lt;") (lit "<")
  |> replace (Rx.entity "&gt;") (lit ">")
  |> replace (Rx.entity "&quot;") dq
  |> replace (Rx.entity "&#39;") (lit "'")
  |> replace (Rx.entity "&rsquo;") [8217%N]
  |> replace (Rx.entity "&ldquo;") [8220%N]
  |> replace (Rx.entity "&rdquo;") [8221%N]
  |> replace (Rx.entity "&mdash;") [8212%N]
  |> replace (Rx.entity "&ndash;") [8211%N]
  |> replace (Rx.entity "&eacute;") [233%N]
  |> replace (Rx.entity "&ccedil;") [231%N]
  |> replace Rx.spaces (lit " ")
  |> trim.

(** Extract the act description from the [<title>] tag or heading. *)
Definition extractDescription (html : jsstring) (act : ActIndexEntry.t) : jsstring :=
  match match_first Rx.titleTag html with
  | Some titleMatch =>
      let titleText := stripHtml (group 1 titleMatch) in
      titleText ++ lit " (" ++ ActIndexEntry.shortName act ++ lit ")"
  | None => ActIndexEntry.title act
  end.

(** Extract the last amendment date from the HTML. *)
Definition extractCurrentToDate (html : jsstring) : option jsstring :=
  match match_first Rx.currentTo html with
  | Some m => Some (group 1 m)
  | None => None
  end.

(** [Map<string, V>]: the entries in insertion order.  [set] on a key
    already present replaces its value and keeps its place. *)
Section JsMap.
Variable V : Type.

Definition JsMap : Type := list (jsstring * V).

Fixpoint map_set (k : jsstring) (v : V) (m : JsMap) : JsMap :=
  match m with
  | [] => [(k, v)]
  | (k', v') :: m' =>
      if str_eqb k k' then (k, v) :: m' else (k', v') :: map_set k v m'
  end.

Fixpoint map_get (k : jsstring) (m : JsMap) : option V :=
  match m with
  | [] => None
  | (k', v') :: m' => if str_eqb k k' then Some v' else map_get k m'
  end.
End JsMap.

Arguments map_set {V} k v m.
Arguments map_get {V} k m.

(** [arr.push(x)] *)
Definition push {A} (arr : list A) (x : A) : list A := arr ++ [x].

Module SectionData.
Record t : Type := mk { title : jsstring; content : jsstring; chapter : jsstring }.
End SectionData.

Module Anchor.
Record t : Type := mk { num : jsstring; pos : nat }.
End Anchor.

Module Part.
Record t : Type := mk { label : jsstring; pos : nat }.
End Part.

Module Note.
Record t : Type := mk { title : jsstring; pos : nat }.
End Note.

(** The section anchor positions: [id="s-{num}">]. *)
Definition sectionAnchors (html : jsstring) : list Anchor.t :=
  fold_left (fun arr m => push arr (Anchor.mk (group 1 m) (index m)))
    (exec_all Rx.anchorRe html) [].

(** The Part / Division headings with their positions. *)
Definition partPositions (html : jsstring) : list Part.t :=
  fold_left (fun arr m => push arr (Part.mk (stripHtml (group 1 m)) (index m)))
    (exec_all Rx.partRe html) [].

(** The marginal notes with their positions; empty notes and the bare
    [Marginal note:] label are not kept. *)
Definition marginalNotes (html : jsstring) : list Note.t :=
  fold_left
    (fun arr m =>
       let title := stripHtml (group 1 m) in
       if truthy title && negb (str_eqb title (lit "Marginal note:"))
       then push arr (Note.mk title (index m))
       else arr)
    (exec_all Rx.mnRe html) [].

(** The inner loop over [partPositions] that updates [currentChapter]. *)
Definition updateChapter (parts : list Part.t) (anchorPos : nat)
  (currentChapter : jsstring) : jsstring :=
  fold_left
    (fun cur part => if Part.pos part <? anchorPos then Part.label part else cur)
    parts currentChapter.

(** The backward loop over [marginalNotes], [j] from the last index down to
    0, with its [break]: [rnotes] is the list from the last note to the
    first. *)
Fixpoint nearestNote (rnotes : list Note.t) (anchorPos : nat) : jsstring :=
  match rnotes with
  | [] => []
  | mn :: rest =>
      if (Note.pos mn <? anchorPos) && (anchorPos - Note.pos mn <? 2000)
      then Note.title mn
      else nearestNote rest anchorPos
  end.

(** The plain text of one section: the raw block from the anchor to
    [nextAnchorPos], cleaned, stripped and with its leading number
    normalised to [num]. *)
Definition sectionText (html : jsstring) (num : jsstring)
  (anchorPos nextAnchorPos : nat) : jsstring :=
  let sectionHtml := substring html anchorPos nextAnchorPos in
  let cleanedHtml :=
    sectionHtml
    |> replace Rx.historicalDiv []
    |> replace Rx.historicalUl []
    |> replace Rx.marginalP []
    |> replace Rx.headingToEnd []
    |> replace Rx.scheduleToEnd [] in
  let text := stripHtml cleanedHtml in
  let text := replace Rx.anchorResidue [] text in
  let text := replace Rx.leadingNumber (num ++ lit " ") text in
  trim (replace Rx.partialTag [] text).

(** The state of the loop over the section anchors: [currentChapter] is
    declared outside the loop and carried from one anchor to the next. *)
Record SectionLoop : Type := mkLoop {
  currentChapter : jsstring;
  sections : JsMap SectionData.t
}.

Definition noAnchor : Anchor.t := Anchor.mk [] 0.

(** One iteration of [for (let i = 0; i < sectionAnchors.length; i++)]. *)
Definition sectionIteration (html : jsstring) (anchors : list Anchor.t)
  (parts : list Part.t) (notes : list Note.t) (st : SectionLoop) (i : nat)
  : SectionLoop :=
  let anchor := nth i anchors noAnchor in
  let nextAnchorPos :=
    if i + 1 <? length anchors
    then Anchor.pos (nth (i + 1) anchors noAnchor)
    else length html in
  let currentChapter := updateChapter parts (Anchor.pos anchor) (currentChapter st) in
  let title := nearestNote (rev notes) (Anchor.pos anchor) in
  let text := sectionText html (Anchor.num anchor) (Anchor.pos anchor) nextAnchorPos in
  if length text <? 10
  then mkLoop currentChapter (sections st)                       (* continue *)
  else
    let content := substring text 0 8000 in
    mkLoop currentChapter
      (map_set (Anchor.num anchor)
         (SectionData.mk title content currentChapter) (sections st)).

(** Build a section-content map from the FullText HTML. *)
Definition extractSections (html : jsstring) : JsMap SectionData.t :=
  let anchors := sectionAnchors html in
  if length anchors =? 0 then []
  else
    let parts := partPositions html in
    let notes := marginalNotes html in
    sections
      (fold_left (sectionIteration html anchors parts notes)
         (seq 0 (length anchors)) (mkLoop [] [])).

(** The body of the loop of [extractDefinitions], for one match of the
    definition expression. *)
Definition definitionIteration (sectionNum : jsstring)
  (defs : list ParsedDefinition.t) (m : rmatch_result) : list ParsedDefinition.t :=
  let defHtml := group 1 m in
  match match_first Rx.dfn defHtml with
  | None => defs                                                 (* continue *)
  | Some termMatch =>
      let term := stripHtml (group 1 termMatch) in
      let definition := stripHtml defHtml in
      if truthy term && truthy definition
      then push defs
             (ParsedDefinition.mk term definition (Some (lit "s" ++ sectionNum)))
      else defs
  end.

(** Extract definitions from [<p class="Definition">] elements. *)
Definition extractDefinitions (html : jsstring) (sectionNum : jsstring)
  : list ParsedDefinition.t :=
  fold_left (definitionIteration sectionNum) (exec_all Rx.defRe html) [].

Module Heading.
Record t : Type := mk { title : jsstring; pos : nat }.
End Heading.

Definition noHeading : Heading.t := Heading.mk [] 0.

(** The provision pushed for one entry of the section map. *)
Definition sectionProvision (entry : jsstring * SectionData.t) : ParsedProvision.t :=
  let (sectionNum, data) := entry in
  ParsedProvision.mk
    (lit "s" ++ sectionNum)
    (if truthy (SectionData.chapter data)
     then Some (SectionData.chapter data) else None)   (* [data.chapter || undefined] *)
    sectionNum
    (SectionData.title data)
    (SectionData.content data).

(** The result of the 404 branch: the static fields of the catalog entry. *)
Definition notFoundAct (act : ActIndexEntry.t) : ParsedAct.t :=
  ParsedAct.mk
    (ActIndexEntry.id act) statute
    (ActIndexEntry.title act) (ActIndexEntry.title act)
    (ActIndexEntry.shortName act) (ActIndexEntry.status act)
    (ActIndexEntry.issuedDate act) (ActIndexEntry.inForceDate act)
    (ActIndexEntry.url act)
    (Some (ActIndexEntry.title act))
    [] [].

Section WithEngine.
Context {engine : Engine}.

(** [scheduleLabel.toLowerCase().replace(/\s+/g, '')] *)
Definition labelSlug (scheduleLabel : jsstring) : jsstring :=
  replace Rx.spaces [] (toLowerCase scheduleLabel).

(** [scheduleLabel + (scheduleTitle ? ` - ${scheduleTitle}` : '')] *)
Definition scheduleChapter (scheduleLabel scheduleTitle : jsstring) : jsstring :=
  scheduleLabel ++ (if truthy scheduleTitle then lit " - " ++ scheduleTitle else []).

(** The principle headings ([SchedHeadL1]) of one schedule. *)
Definition headingPositions (scheduleHtml : jsstring) : list Heading.t :=
  fold_left
    (fun arr hm => push arr (Heading.mk (stripHtml (group 1 hm)) (index hm)))
    (exec_all Rx.headingRe scheduleHtml) [].

(** One iteration of the loop over the headings of a schedule. *)
Definition headingIteration (scheduleHtml scheduleLabel scheduleTitle : jsstring)
  (headings : list Heading.t) (provisions : list ParsedProvision.t) (i : nat)
  : list ParsedProvision.t :=
  let heading := nth i headings noHeading in
  let nextPos :=
    if i + 1 <? length headings
    then Heading.pos (nth (i + 1) headings noHeading)
    else length scheduleHtml in
  let blockHtml := substring scheduleHtml (Heading.pos heading) nextPos in
  let content := stripHtml blockHtml in
  if 10 <? length content
  then
    let ref :=
      match match_first Rx.headingRef (Heading.title heading) with
      | Some refMatch => group 1 refMatch
      | None => substring (Heading.title heading) 0 20
      end in
    push provisions
      (ParsedProvision.mk
         (lit "sched-" ++ labelSlug scheduleLabel ++ lit "-" ++ ref)
         (Some (scheduleChapter scheduleLabel scheduleTitle))
         ref
         (Heading.title heading)
         (substring content 0 8000))
  else provisions.

(** The body of the loop over the schedule blocks, for one match of the
    schedule expression. *)
Definition scheduleIteration (provisions : list ParsedProvision.t)
  (schedMatch : rmatch_result) : list ParsedProvision.t :=
  let scheduleHtml := group 1 schedMatch in
  match match_first Rx.scheduleLabel scheduleHtml with
  | None => provisions                                           (* continue *)
  | Some labelMatch =>
      let scheduleLabel := stripHtml (group 1 labelMatch) in
      let scheduleTitle :=
        match match_first Rx.scheduleTitleText scheduleHtml with
        | Some titleMatch => stripHtml (group 1 titleMatch)
        | None => []
        end in
      let headings := headingPositions scheduleHtml in
      if 0 <? length headings
      then
        fold_left
          (headingIteration scheduleHtml scheduleLabel scheduleTitle headings)
          (seq 0 (length headings)) provisions
      else
        let cleanedHtml := replace Rx.historicalDiv [] scheduleHtml in
        let content := stripHtml cleanedHtml in
        if 10 <? length content
        then
          push provisions
            (ParsedProvision.mk
               (lit "sched-" ++ labelSlug scheduleLabel)
               (Some (scheduleChapter scheduleLabel scheduleTitle))
               scheduleLabel
               (if truthy scheduleTitle then scheduleTitle else scheduleLabel)
               (substring content 0 8000))
        else provisions
  end.

(** Extract Schedule content as provisions.  The [definitions] array of the
    result is declared and returned, never filled. *)
Definition extractSchedules (html : jsstring)
  : list ParsedProvision.t * list ParsedDefinition.t :=
  (fold_left scheduleIteration (exec_all Rx.scheduleRe html) [], []).

(** Parse a Justice Laws Website FullText.html page into structured act
    data. *)
Definition parseFullTextHtml (html : jsstring) (act : ActIndexEntry.t)
  : Console ParsedAct.t :=
  if includes html (lit "Page not Found") || includes html (lit "Error 404")
  then
    (console_log (lit "    WARNING: " ++ ActIndexEntry.shortName act
                  ++ lit " returned a 404 page") ;;
     ret (notFoundAct act))%console
  else
    let description := extractDescription html act in
    let currentTo := extractCurrentToDate html in
    let sectionMap := extractSections html in
    let provisions := fold_left (fun arr e => push arr (sectionProvision e)) sectionMap [] in
    let allDefs := extractDefinitions html (lit "2") in
    let definitions := [] ++ allDefs in
    let scheduleData := extractSchedules html in
    let provisions := provisions ++ fst scheduleData in
    let definitions := definitions ++ snd scheduleData in
    ret (ParsedAct.mk
           (ActIndexEntry.id act) statute
           (ActIndexEntry.title act) (ActIndexEntry.title act)
           (ActIndexEntry.shortName act) (ActIndexEntry.status act)
           (ActIndexEntry.issuedDate act) (ActIndexEntry.inForceDate act)
           (ActIndexEntry.url act)
           (Some (match currentTo with
                  | Some d =>
                      if truthy d
                      then description ++ lit ". Current to " ++ d ++ lit "."
                      else description
                  | None => description
                  end))
           provisions definitions).

End WithEngine.

(** The string operations are unfolded last when two terms are compared. *)
Strategy 1000 [exec_loop exec_all exec search_from match_first replace splice
               substring trim includes stripHtml sectionText].

(** Keep [simpl] from unfolding the string operations. *)
Arguments lit : simpl never.
Arguments replace : simpl never.
Arguments exec_all : simpl never.
Arguments exec : simpl never.
Arguments stripHtml : simpl never.
Arguments sectionText : simpl never.
Arguments substring : simpl never.
Arguments trim : simpl never.
Arguments match_first : simpl never.

(** ** Specification-side notions *)

(** The least number of characters a match of [r] consumes. *)
Fixpoint minlen (r : regex) : nat :=
  match r with
  | RLit p => length p
  | RSet _ => 1
  | RSeq r1 r2 => minlen r1 + minlen r2
  | RAlt r1 r2 => Nat.min (minlen r1) (minlen r2)
  | ROpt _ => 0
  | RStar _ => 0
  | RPlus _ => 1
  | RLazy _ => 0
  | RRep n _ => n
  | RCap _ r1 => minlen r1
  | RAhead _ => 0
  | RBegin => 0
  | REnd => 0
  end.

(** [reaches st n st']: [st'] is [st] after at least [n] characters were consumed. *)
Definition reaches (st : mstate) (n : nat) (st' : mstate) : Prop :=
  mpos st + n <= mpos st' /\
  mpos st' + length (mrest st') = mpos st + length (mrest st).

(** The terminating runs of the loop
    [while ((m = re.exec(s)) !== null)], from [lastIndex = li]: the matches
    it visits, up to the [null] that ends it. *)
Inductive ExecRun (re : RegExp) (s : jsstring) : nat -> list rmatch_result -> Prop :=
| run_null : forall li, exec re s li = None -> ExecRun re s li []
| run_match : forall li m ms,
    exec re s li = Some m -> ExecRun re s (mend m) ms ->
    ExecRun re s li (m :: ms).

(** The last heading, in document order, that lies before offset [p]. *)
Fixpoint lastBefore (parts : list Part.t) (p : nat) : option Part.t :=
  match parts with
  | [] => None
  | q :: rest =>
      match lastBefore rest p with
      | Some q' => Some q'
      | None => if Part.pos q <? p then Some q else None
      end
  end.

Definition chapterAt (parts : list Part.t) (p : nat) : jsstring :=
  match lastBefore parts p with
  | Some q => Part.label q
  | None => []
  end.

(** The chapter rule: [c] is the label of the heading with the greatest
    offset below [p], and is empty when no heading lies before [p]. *)
Definition ChapterRule (parts : list Part.t) (p : nat) (c : jsstring) : Prop :=
  (exists q, In q parts /\ Part.pos q < p
             /\ (forall q', In q' parts -> Part.pos q' < p -> Part.pos q' <= Part.pos q)
             /\ c = Part.label q)
  \/ ((forall q, In q parts -> p <= Part.pos q) /\ c = []).

(** The title rule: [t] is the title of the nearest marginal note before
    [p] when that note is less than 2000 characters away, and is empty when
    no note before [p] is that close. *)
Definition TitleRule (notes : list Note.t) (p : nat) (t : jsstring) : Prop :=
  (exists mn, In mn notes /\ Note.pos mn < p /\ p - Note.pos mn < 2000
              /\ (forall mn', In mn' notes -> Note.pos mn' < p ->
                              Note.pos mn' <= Note.pos mn)
              /\ t = Note.title mn)
  \/ ((forall mn, In mn notes -> Note.pos mn < p -> 2000 <= p - Note.pos mn)
      /\ t = []).

(** A map filled by [set] in index order: entry [i] has key [key i] and
    value [data i], and is written only when [keep i] holds. *)
Section KeptMap.
Variable V : Type.
Variable key : nat -> jsstring.
Variable data : nat -> V.
Variable keep : nat -> bool.

Definition keptStep (m : JsMap V) (i : nat) : JsMap V :=
  if keep i then map_set (key i) (data i) m else m.

Definition keptMap (n : nat) : JsMap V := fold_left keptStep (seq 0 n) [].

(** The last index below [n] that is kept and has key [k]. *)
Fixpoint lastKept (n : nat) (k : jsstring) : option nat :=
  match n with
  | 0 => None
  | S n' => if keep n' && str_eqb k (key n') then Some n' else lastKept n' k
  end.
End KeptMap.

Arguments keptStep {V} key data keep m i.
Arguments keptMap {V} key data keep n.

(** Index [i] is the first kept index carrying its key among the first [n]
    indices. *)
Definition FirstKept (key : nat -> jsstring) (keep : nat -> bool) (n i : nat)
  : Prop :=
  i < n /\ keep i = true
  /\ (forall j, j < i -> keep j = true -> key j <> key i).

(** What the region of the [i]-th section anchor yields on its own. *)
Section PerAnchor.
Variable html : jsstring.

Definition anchorAt (i : nat) : Anchor.t := nth i (sectionAnchors html) noAnchor.

Definition nextAnchorPos (i : nat) : nat :=
  if i + 1 <? length (sectionAnchors html)
  then Anchor.pos (anchorAt (i + 1))
  else length html.

Definition anchorText (i : nat) : jsstring :=
  sectionText html (Anchor.num (anchorAt i)) (Anchor.pos (anchorAt i))
    (nextAnchorPos i).

(** The anchor is kept: its text has at least 10 characters. *)
Definition retained (i : nat) : bool := negb (length (anchorText i) <? 10).

Definition anchorData (i : nat) : SectionData.t :=
  SectionData.mk
    (nearestNote (rev (marginalNotes html)) (Anchor.pos (anchorAt i)))
    (substring (anchorText i) 0 8000)
    (chapterAt (partPositions html) (Anchor.pos (anchorAt i))).

(** The last kept anchor numbered [k] among the first [n] anchors. *)
Definition lastRetained (n : nat) (k : jsstring) : option nat :=
  lastKept (fun i => Anchor.num (anchorAt i)) retained n k.

(** The state of the loop of [extractSections] after its first [n]
    iterations. *)
Definition loopAfter (n : nat) : SectionLoop :=
  fold_left
    (sectionIteration html (sectionAnchors html) (partPositions html)
       (marginalNotes html))
    (seq 0 n) (mkLoop [] []).

End PerAnchor.

(** The note, if any, that one match of the marginal-note expression adds. *)
Definition noteOf (m : rmatch_result) : list Note.t :=
  let title := stripHtml (group 1 m) in
  if truthy title && negb (str_eqb title (lit "Marginal note:"))
  then [Note.mk title (index m)]
  else [].

(** What one block adds to the output, on its own: the definition of one
    definition block, the provisions of one schedule block, the provision
    of one schedule heading. *)
Definition definitionOf (sectionNum : jsstring) (m : rmatch_result)
  : list ParsedDefinition.t :=
  definitionIteration sectionNum [] m.

Definition headingProvisions {engine : Engine}
  (scheduleHtml scheduleLabel scheduleTitle : jsstring)
  (headings : list Heading.t) (i : nat) : list ParsedProvision.t :=
  headingIteration scheduleHtml scheduleLabel scheduleTitle headings [] i.

Definition scheduleProvisions {engine : Engine} (schedMatch : rmatch_result)
  : list ParsedProvision.t :=
  scheduleIteration [] schedMatch.

(** A provision that a schedule can yield: its key is in the [sched-]
    namespace and its content is the first 8000 characters of a stripped
    block of more than 10 characters. *)
Definition ScheduleDerived (p : ParsedProvision.t) : Prop :=
  (exists rest, ParsedProvision.provision_ref p = lit "sched-" ++ rest)
  /\ (exists block,
        10 < length (stripHtml block)
        /\ ParsedProvision.content p = substring (stripHtml block) 0 8000).

(** The 404 test of [parseFullTextHtml]. *)
Definition hasMarker (html : jsstring) : bool :=
  includes html (lit "Page not Found") || includes html (lit "Error 404").

(** The chapter of a provision as text: an absent chapter is the empty
    one. *)
Definition chapterText (p : ParsedProvision.t) : jsstring :=
  match ParsedProvision.chapter p with
  | Some c => c
  | None => []
  end.

(** The texts the parser extracts before capping: the text of a section
    anchor's region, or a stripped schedule block. *)
Definition ExtractedText (html text : jsstring) : Prop :=
  (exists i, i < length (sectionAnchors html) /\ text = anchorText html i)
  \/ (exists block, text = stripHtml block).

(** ** Sample pages *)

Module Sample.

Definition act : ActIndexEntry.t :=
  ActIndexEntry.mk (lit "test-act") (lit "T-1") (lit "Test Act")
    (lit "Loi d'essai") (lit "TA") in_force (lit "2000-01-01")
    (lit "2001-01-01") (lit "https://laws-lois.justice.gc.ca/eng/acts/T-1/").

(** [<tag class="cls">] *)
Definition open_tag (tag cls : string) : jsstring :=
  lit "<" ++ lit tag ++ lit " class=" ++ quoted (lit cls) ++ lit ">".

(** [<a class="sectionLabel" id="s-n">n</a>] *)
Definition anchor (n : string) : jsstring :=
  lit "<a class=" ++ quoted (lit "sectionLabel") ++ lit " id="
  ++ quoted (lit "s-" ++ lit n) ++ lit ">" ++ lit n ++ lit "</a>".

(** A page with a Part heading, a marginal note, two sections, a definition
    and a schedule with two principle headings. *)
Definition page : jsstring :=
  lit "<title>Test Act</title> Act current to 2024-01-02 "
  ++ open_tag "h2" "Part" ++ lit "PART 1</h2>"
  ++ open_tag "p" "MarginalNote" ++ lit "Short title</p>"
  ++ open_tag "p" "Section" ++ anchor "1"
  ++ lit " This Act may be cited as the Test Act.</p>"
  ++ open_tag "p" "Section" ++ anchor "2" ++ lit " In this Act,</p>"
  ++ open_tag "p" "Definition" ++ lit "<dfn>record</dfn> means any document.</p>"
  ++ open_tag "div" "Schedule"
  ++ open_tag "h2" "scheduleLabel" ++ lit "SCHEDULE 1</h2>"
  ++ open_tag "p" "SchedHeadL1" ++ lit "1 Principle one - Accountability</p>"
  ++ lit " An organization is responsible. "
  ++ open_tag "p" "SchedHeadL1" ++ lit "2 Principle two - Consent</p>"
  ++ lit " Consent is required. </div>".

(** A marginal note, [pad] filler characters, then section 1: the note is
    at offset 3 and the anchor at offset [61 + pad]. *)
Definition noted (pad : nat) : jsstring :=
  open_tag "p" "MarginalNote" ++ lit "Far title</p>" ++ repeat (ch "x") pad
  ++ anchor "1" ++ lit " This is the body of the section.".

(** Three definition blocks: the term [record] twice, and a block without a
    [dfn] element between them. *)
Definition twoDefs : jsstring :=
  open_tag "p" "Definition" ++ lit "<dfn>record</dfn> means any document.</p>"
  ++ open_tag "p" "Definition" ++ lit "no term here</p>"
  ++ open_tag "p" "Definition" ++ lit "<dfn>record</dfn> includes a copy.</p>".

(** A schedule whose two principle headings have the same text and no
    number. *)
Definition dupSchedule : jsstring :=
  open_tag "div" "Schedule"
  ++ open_tag "h2" "scheduleLabel" ++ lit "SCHEDULE 1</h2>"
  ++ open_tag "p" "SchedHeadL1" ++ lit "Principle</p>"
  ++ lit " The first principle text. "
  ++ open_tag "p" "SchedHeadL1" ++ lit "Principle</p>"
  ++ lit " The second principle text. "
  ++ lit "</div>".

(** The anchor of section 1 twice: first with a body, then with a text of
    3 characters. *)
Definition twice : jsstring :=
  anchor "1" ++ lit " This is the first body." ++ anchor "1" ++ lit " x".

(** A schedule without headings whose text, [SCHEDULE 1], has exactly 10
    characters, and one whose text has 11. *)
Definition sched10 : jsstring :=
  open_tag "div" "Schedule"
  ++ open_tag "h2" "scheduleLabel" ++ lit "SCHEDULE 1</h2></div>".

Definition sched11 : jsstring :=
  open_tag "div" "Schedule"
  ++ open_tag "h2" "scheduleLabel" ++ lit "SCHEDULE 12</h2></div>".

(** A schedule with a heading block of exactly 10 characters and one of
    11. *)
Definition head10 : jsstring :=
  open_tag "div" "Schedule"
  ++ open_tag "h2" "scheduleLabel" ++ lit "SCHEDULE 1</h2>"
  ++ open_tag "p" "SchedHeadL1" ++ lit "1 abcdefgh</p>"
  ++ open_tag "p" "SchedHeadL1" ++ lit "2 abcdefghi</p></div>".

(** Section 1 with a text of exactly 10 characters, section 2 with one of
    9. *)
Definition sect10 : jsstring :=
  anchor "1" ++ lit " abcdefgh" ++ anchor "2" ++ lit " abcdefg".

(** Section 1 before any heading, then a Part heading and sections 2
    and 3. *)
Definition chaptered : jsstring :=
  anchor "1" ++ lit " This is section one."
  ++ open_tag "h2" "Part" ++ lit "PART I</h2>"
  ++ anchor "2" ++ lit " This is section two."
  ++ anchor "3" ++ lit " This is section three.".

(** Section 1, section 2, and the anchor of section 1 again with another
    body. *)
Definition repeated : jsstring :=
  anchor "1" ++ lit " First body of section one."
  ++ anchor "2" ++ lit " The body of section two."
  ++ anchor "1" ++ lit " Second body of section one.".

(** The same page served as a soft 404. *)
Definition page404 : jsstring := page ++ lit "Error 404" ++ lit "</html>".

End Sample.

(** [mn] is the nearest marginal note before offset [p]. *)
Definition NearestNoteBefore (notes : list Note.t) (p : nat) (mn : Note.t) : Prop :=
  In mn notes /\ Note.pos mn < p
  /\ (forall mn', In mn' notes -> Note.pos mn' < p -> Note.pos mn' <= Note.pos mn).

(** A section key: [s] and a number that starts with a digit. *)
Definition SectionKey (ref : jsstring) : Prop :=
  exists d tl, is_digit d = true /\ ref = lit "s" ++ d :: tl.

(** A schedule key: in the [sched-] namespace. *)
Definition ScheduleKey (ref : jsstring) : Prop :=
  exists rest, ref = lit "sched-" ++ rest.

(** The [g] expressions of the parser: those run by [exec] loops and by
    [replace]. *)
Definition globalExpressions : list RegExp :=
  [ Rx.tag; Rx.entity "&nbsp;"; Rx.entity "&#x00A0;"; Rx.entity "&amp;";
    Rx.entity "&lt;"; Rx.entity "&gt;"; Rx.entity "&quot;"; Rx.entity "&#39;";
    Rx.entity "&rsquo;"; Rx.entity "&ldquo;"; Rx.entity "&rdquo;";
    Rx.entity "&mdash;"; Rx.entity "&ndash;"; Rx.entity "&eacute;";
    Rx.entity "&ccedil;"; Rx.spaces; Rx.anchorRe; Rx.partRe; Rx.mnRe;
    Rx.historicalDiv; Rx.historicalUl; Rx.marginalP; Rx.defRe; Rx.scheduleRe;
    Rx.headingRe ].

(** The words a regular expression can consume, whatever surrounds them:
    the anchors and the lookahead consume nothing. *)
Fixpoint lang (icase dotall : bool) (r : regex) (w : jsstring) : Prop :=
  match r with
  | RLit p => Forall2 (fun a c => chr_match icase a c = true) p w
  | RSet cl => exists c, w = [c] /\ cls_match dotall cl c = true
  | RSeq r1 r2 =>
      exists w1 w2, w = w1 ++ w2 /\ lang icase dotall r1 w1 /\ lang icase dotall r2 w2
  | RAlt r1 r2 => lang icase dotall r1 w \/ lang icase dotall r2 w
  | ROpt r1 => w = [] \/ lang icase dotall r1 w
  | RStar cl => Forall (fun c => cls_match dotall cl c = true) w
  | RPlus cl => w <> [] /\ Forall (fun c => cls_match dotall cl c = true) w
  | RLazy cl => Forall (fun c => cls_match dotall cl c = true) w
  | RRep n cl => length w = n /\ Forall (fun c => cls_match dotall cl c = true) w
  | RCap _ r1 => lang icase dotall r1 w
  | RAhead _ => w = []
  | RBegin => w = []
  | REnd => w = []
  end.

(** [st'] is [st] after the word [w] was consumed. *)
Definition consumed (st : mstate) (w : jsstring) (st' : mstate) : Prop :=
  mrest st = w ++ mrest st' /\ mpos st' = mpos st + length w.

(** The longest prefix of characters that satisfy [p], and what follows. *)
Fixpoint span (p : char -> bool) (s : jsstring) : jsstring * jsstring :=
  match s with
  | c :: s' => if p c then let (a, b) := span p s' in (c :: a, b) else ([], s)
  | [] => ([], [])
  end.

(** The literal an expression starts with, if it starts with one. *)
Definition lead (r : regex) : option jsstring :=
  match r with
  | RLit p => Some p
  | RSeq (RLit p) _ => Some p
  | _ => None
  end.

(** Whitespace normalisation: every run of white space becomes one space.
    [in_run] is true inside a run. *)
Fixpoint collapse (in_run : bool) (s : jsstring) : jsstring :=
  match s with
  | [] => []
  | c :: s' =>
      if is_space c
      then if in_run then collapse true s' else 32%N :: collapse true s'
      else c :: collapse false s'
  end.

Definition not_space (c : char) : bool := negb (is_space c).

(** Single-spaced text: its only white space is the space character, and
    never two in a row. *)
Definition SingleSpaced (s : jsstring) : Prop :=
  (forall c, In c s -> is_space c = true -> c = 32%N)
  /\ (forall a b, s <> a ++ 32%N :: 32%N :: b).

(** Trimmed text: no white space at either end. *)
Definition Trimmed (s : jsstring) : Prop :=
  (forall c t, s = c :: t -> is_space c = false)
  /\ (forall t c, s = t ++ [c] -> is_space c = false).

(** Whitespace-normalised text. *)
Definition Normalised (s : jsstring) : Prop := SingleSpaced s /\ Trimmed s.

(** A capped text: the first 8000 characters of a normalised text. *)
Definition CappedText (content : jsstring) : Prop :=
  exists text, Normalised text /\ content = firstn 8000 text.

(** Expressions without a capture group. *)
Fixpoint capfree (r : regex) : bool :=
  match r with
  | RSeq r1 r2 | RAlt r1 r2 => capfree r1 && capfree r2
  | ROpt r1 | RAhead r1 => capfree r1
  | RCap _ _ => false
  | _ => true
  end.

(** A date as [\d{4}-\d{2}-\d{2}] writes it. *)
Definition isoDate (d : jsstring) : Prop :=
  exists y m dd,
    d = y ++ lit "-" ++ m ++ lit "-" ++ dd
    /\ length y = 4 /\ length m = 2 /\ length dd = 2
    /\ Forall (fun c => is_digit c = true) (y ++ m ++ dd).

(** A section number as the anchor expression writes it: digits, and
    possibly a point and more digits. *)
Definition sectionNumber (n : jsstring) : Prop :=
  exists a b,
    n = a ++ b /\ a <> [] /\ Forall (fun c => is_digit c = true) a
    /\ (b = [] \/ exists f, b = lit "." ++ f /\ f <> []
                            /\ Forall (fun c => is_digit c = true) f).

(** The opening of a section anchor (id=, a double quote, s-) and its end
    (a double quote and [>]). *)
Definition anchorOpen : jsstring := lit "id=" ++ dq ++ lit "s-".
Definition anchorClose : jsstring := dq ++ lit ">".

From Stdlib Require Import BinInt.

(** ** The host of the scripts

    [fetcher.ts] and [ingest.ts] read the clock, set timers, call [fetch],
    use the file system and write to the console.  Each of these calls is
    recorded as an event, in the order the calls are made, and what the host
    answers is a function of the events so far, so that nothing is assumed
    about the clock, the network or the file system. *)

Inductive Event : Type :=
| DateNow                                            (* [Date.now()] *)
| SetTimeout (ms : Z)                                (* an awaited timer *)
| FetchUrl (url : jsstring) (headers : list (jsstring * jsstring))
                                                     (* [fetch(url, ...)] *)
| ResponseText                                       (* [response.text()] *)
| ConsoleLog (line : jsstring)                       (* [console.log] *)
| StdoutWrite (text : jsstring)                      (* [process.stdout.write] *)
| MkdirSync (path : jsstring)                        (* [fs.mkdirSync] *)
| ExistsSync (path : jsstring)                       (* [fs.existsSync] *)
| ReadFileSync (path : jsstring)                     (* [fs.readFileSync] *)
| WriteFileSync (path data : jsstring).              (* [fs.writeFileSync] *)

(** The part of a [Response] the fetcher reads before the body. *)
Module Response.
Record t : Type := mk {
  status : nat;
  contentType : option jsstring          (* [headers.get('content-type')] *)
}.
End Response.

(** A call of the host that can throw or reject gives the message of the
    error ([inl]) or a value ([inr]). *)
Class Host : Type := {
  (* JavaScript values that are added and printed: numbers, and whatever
     [length] a cached seed file holds *)
  value : Type;
  number : Z -> value;
  plus : value -> value -> value;                    (* [a + b] *)
  toString : value -> jsstring;                      (* [String(v)] *)
  kilobytes : nat -> jsstring;                       (* [(n / 1024).toFixed(0)] *)
  (* [JSON.stringify(parsed, null, 2)], and the lengths of [provisions] and
     [definitions] in [JSON.parse(text)], if reading them does not throw *)
  stringify : ParsedAct.t -> jsstring;
  seedLengths : jsstring -> jsstring + value * value;
  (* paths *)
  SOURCE_DIR : jsstring;
  SEED_DIR : jsstring;
  pathJoin : jsstring -> jsstring -> jsstring;
  (* the answers of the host after the events so far, the call included *)
  dateNow : list Event -> Z;
  fetchResponse : list Event -> jsstring + Response.t;
  responseText : list Event -> jsstring + jsstring;
  mkdirSync : list Event -> option jsstring;
  existsSync : list Event -> bool;
  readFileSync : list Event -> jsstring + jsstring;
  writeFileSync : list Event -> option jsstring
}.

(** The state of a run: the module variable [lastRequestTime] of the
    fetcher and the events so far, the oldest first. *)
Record World : Type := mkWorld {
  lastRequestTime : Z;
  history : list Event
}.

(** How a computation ends: with a value, with a thrown error (a rejected
    promise), or, for the loops that are run with fuel, without fuel. *)
Inductive Outcome (A : Type) : Type :=
| Returns (x : A)
| Throws (message : jsstring)
| OutOfFuel.
Arguments Returns {A} x.
Arguments Throws {A} message.
Arguments OutOfFuel {A}.

Definition IO (A : Type) : Type := World -> Outcome A * World.

Definition ioret {A} (x : A) : IO A := fun w => (Returns x, w).

Definition iobind {A B} (c : IO A) (f : A -> IO B) : IO B :=
  fun w =>
    match c w with
    | (Returns x, w') => f x w'
    | (Throws e, w') => (Throws e, w')
    | (OutOfFuel, w') => (OutOfFuel, w')
    end.

Definition throw {A} (message : jsstring) : IO A := fun w => (Throws message, w).

(** [try { body } catch (error) { handler }], where the handler reads the
    message of the error. *)
Definition try_catch {A} (body : IO A) (handler : jsstring -> IO A) : IO A :=
  fun w =>
    match body w with
    | (Throws e, w') => handler e w'
    | r => r
    end.

Declare Scope io_scope.
Delimit Scope io_scope with io.
Notation "x <- c ;; k" := (iobind c (fun x => k))
  (at level 100, c at next level, right associativity) : io_scope.
Notation "c ;; k" := (iobind c (fun _ => k))
  (at level 100, right associativity) : io_scope.

(** One call of the host: the event is recorded, then the host answers. *)
Definition record (e : Event) (w : World) : World :=
  mkWorld (lastRequestTime w) (history w ++ [e]).

Definition call {A} (e : Event) (answer : list Event -> A) : IO A :=
  fun w => let w' := record e w in (Returns (answer (history w')), w').

Definition rejecting {A} (c : IO (jsstring + A)) : IO A :=
  (r <- c ;; match r with inl e => throw e | inr x => ioret x end)%io.

Definition throwing (c : IO (option jsstring)) : IO unit :=
  (r <- c ;; match r with Some e => throw e | None => ioret tt end)%io.

(** What [fetchWithRateLimit] returns. *)
Module FetchResult.
Record t : Type := mk {
  status : nat;
  body : jsstring;
  contentType : jsstring;
  url : jsstring
}.
End FetchResult.

Section Scripts.
Context {engine : Engine} {host : Host}.

Definition date_now : IO Z := call DateNow dateNow.
Definition set_timeout (ms : Z) : IO unit := call (SetTimeout ms) (fun _ => tt).
Definition log (line : jsstring) : IO unit := call (ConsoleLog line) (fun _ => tt).
Definition stdout_write (text : jsstring) : IO unit :=
  call (StdoutWrite text) (fun _ => tt).
Definition exists_sync (path : jsstring) : IO bool := call (ExistsSync path) existsSync.
Definition read_file (path : jsstring) : IO jsstring :=
  rejecting (call (ReadFileSync path) readFileSync).
Definition write_file (path data : jsstring) : IO unit :=
  throwing (call (WriteFileSync path data) writeFileSync).
Definition mkdir (path : jsstring) : IO unit :=
  throwing (call (MkdirSync path) mkdirSync).

(** [`${n}`] for a number. *)
Definition show (n : Z) : jsstring := toString (number n).
Definition show_nat (n : nat) : jsstring := show (Z.of_nat n).

(** *** fetcher.ts *)

Definition USER_AGENT : jsstring :=
  lit "Canadian-Law-MCP/1.0 (https://github.com/Ansvar-Systems/canadian-law-mcp; hello@ansvar.ai)".

Definition MIN_DELAY_MS : Z := 500.

Definition rateLimit : IO unit :=
  (now <- date_now ;;
   elapsed <- (fun w => (Returns (now - lastRequestTime w)%Z, w)) ;;
   (if (elapsed <? MIN_DELAY_MS)%Z
    then set_timeout (MIN_DELAY_MS - elapsed)%Z
    else ioret tt) ;;
   t <- date_now ;;
   fun w => (Returns tt, mkWorld t (history w)))%io.

Definition fetch (url : jsstring) : IO Response.t :=
  rejecting
    (call (FetchUrl url [ (lit "User-Agent", USER_AGENT);
                          (lit "Accept", lit "text/html, */*") ])
          fetchResponse).

Definition response_text : IO jsstring := rejecting (call ResponseText responseText).

(** The statuses that are tried again: [429] and [5xx]. *)
Definition retryable (status : nat) : bool := (status =? 429) || (500 <=? status).

(** The loop [for (let attempt = 0; attempt <= maxRetries; attempt++)] of
    [fetchWithRateLimit], from [attempt] on, and the [throw] after it. *)
Fixpoint attempts (fuel : nat) (url : jsstring) (maxRetries attempt : Z)
  : IO FetchResult.t :=
  if (attempt <=? maxRetries)%Z
  then
    match fuel with
    | 0 => fun w => (OutOfFuel, w)
    | S fuel' =>
        (response <- fetch url ;;
         if retryable (Response.status response) && (attempt <? maxRetries)%Z
         then
           let backoff := (2 ^ (attempt + 1) * 1000)%Z in
           log (lit "  HTTP " ++ show_nat (Response.status response)
                ++ lit " for " ++ url ++ lit ", retrying in " ++ show backoff
                ++ lit "ms...") ;;
           set_timeout backoff ;;
           attempts fuel' url maxRetries (attempt + 1)%Z            (* continue *)
         else
           body <- response_text ;;
           ioret (FetchResult.mk
                    (Response.status response)
                    body
                    (match Response.contentType response with
                     | Some c => c
                     | None => []
                     end)
                    url))%io
    end
  else
    throw (lit "Failed to fetch " ++ url ++ lit " after " ++ show maxRetries
           ++ lit " retries").

(** Fetch a URL with rate limiting and proper headers.  [maxRetries] is an
    integer; the loop runs at most [maxRetries + 1] times. *)
Definition fetchWithRateLimit (url : jsstring) (maxRetries : Z) : IO FetchResult.t :=
  (rateLimit ;;
   attempts (Z.to_nat (maxRetries + 1)) url maxRetries 0)%io.

Definition fullTextUrl (actPath language : jsstring) : jsstring :=
  lit "https://laws-lois.justice.gc.ca/" ++ language ++ lit "/acts/" ++ actPath
  ++ lit "/FullText.html".

(** Fetch the full-text HTML page for a specific Act; [language] defaults to
    [eng] and [maxRetries] to 3. *)
Definition fetchActFullText (actPath : jsstring) (language : option jsstring)
  : IO FetchResult.t :=
  let language := match language with Some l => l | None => lit "eng" end in
  let url := fullTextUrl actPath language in
  fetchWithRateLimit url 3.

End Scripts.

(** Pre-configured list of key Canadian federal Acts to ingest. *)
Definition KEY_CANADIAN_ACTS : list ActIndexEntry.t :=
  [
    ActIndexEntry.mk (lit "pipeda") (lit "P-8.6")
      (lit "Personal Information Protection and Electronic Documents Act")
      (lit "Loi sur la protection des renseignements personnels et les "
       ++ lit "documents electroniques")
      (lit "PIPEDA") in_force (lit "2000-04-13") (lit "2001-01-01")
      (lit "https://laws-lois.justice.gc.ca/eng/acts/P-8.6/");
    ActIndexEntry.mk (lit "privacy-act") (lit "P-21")
      (lit "Privacy Act")
      (lit "Loi sur la protection des renseignements personnels")
      (lit "Privacy Act") in_force (lit "1982-07-07") (lit "1983-07-01")
      (lit "https://laws-lois.justice.gc.ca/eng/acts/P-21/");
    ActIndexEntry.mk (lit "casl") (lit "E-1.6")
      (lit "An Act to promote the efficiency and adaptability of the "
       ++ lit "Canadian economy by regulating certain activities that "
       ++ lit "discourage reliance on electronic means of carrying out "
       ++ lit "commercial activities, and to amend the Canadian "
       ++ lit "Radio-television and Telecommunications Commission Act, the "
       ++ lit "Competition Act, the Personal Information Protection and "
       ++ lit "Electronic Documents Act and the Telecommunications Act")
      (lit "Loi visant a promouvoir l'efficacite et la capacite d'adaptation "
       ++ lit "de l'economie canadienne")
      (lit "CASL") in_force (lit "2010-12-15") (lit "2014-07-01")
      (lit "https://laws-lois.justice.gc.ca/eng/acts/E-1.6/");
    ActIndexEntry.mk (lit "criminal-code") (lit "C-46")
      (lit "Criminal Code")
      (lit "Code criminel")
      (lit "Criminal Code") in_force (lit "1985-01-01") (lit "1985-01-01")
      (lit "https://laws-lois.justice.gc.ca/eng/acts/C-46/");
    ActIndexEntry.mk (lit "cbca") (lit "C-44")
      (lit "Canada Business Corporations Act")
      (lit "Loi canadienne sur les societes par actions")
      (lit "CBCA") in_force (lit "1985-01-01") (lit "1985-01-01")
      (lit "https://laws-lois.justice.gc.ca/eng/acts/C-44/");
    ActIndexEntry.mk (lit "competition-act") (lit "C-34")
      (lit "Competition Act")
      (lit "Loi sur la concurrence")
      (lit "Competition Act") in_force (lit "1985-01-01") (lit "1986-06-19")
      (lit "https://laws-lois.justice.gc.ca/eng/acts/C-34/");
    ActIndexEntry.mk (lit "telecommunications-act") (lit "T-3.4")
      (lit "Telecommunications Act")
      (lit "Loi sur les telecommunications")
      (lit "Telecommunications Act") in_force (lit "1993-06-23") (lit "1993-10-25")
      (lit "https://laws-lois.justice.gc.ca/eng/acts/T-3.4/");
    ActIndexEntry.mk (lit "bank-act") (lit "B-1.01")
      (lit "Bank Act")
      (lit "Loi sur les banques")
      (lit "Bank Act") in_force (lit "1991-12-13") (lit "1992-06-01")
      (lit "https://laws-lois.justice.gc.ca/eng/acts/B-1.01/");
    ActIndexEntry.mk (lit "copyright-act") (lit "C-42")
      (lit "Copyright Act")
      (lit "Loi sur le droit d'auteur")
      (lit "Copyright Act") in_force (lit "1985-01-01") (lit "1985-01-01")
      (lit "https://laws-lois.justice.gc.ca/eng/acts/C-42/")
  ].

(** *** ingest.ts *)

(** A row of the ingestion report. *)
Module Row.
Record t {host : Host} : Type := mk {
  act : jsstring;
  provisions : value;
  definitions : value;
  status : jsstring
}.
Arguments mk {host} act provisions definitions status.
End Row.

(** The variables of [fetchAndParseActs] that its loop updates. *)
Record Tally {host : Host} : Type := mkTally {
  processed : nat;
  skipped : nat;
  failed : nat;
  totalProvisions : value;
  totalDefinitions : value;
  report : list Row.t
}.
Arguments mkTally {host} processed skipped failed totalProvisions totalDefinitions report.

(** How the [try] block of one iteration ends when it does not throw: with
    a [continue], or at its end, from where the statements after the
    [try ... catch] are run. *)
Inductive Flow {host : Host} : Type :=
| Continue (t : Tally)
| Next (t : Tally).
Arguments Continue {host} t.
Arguments Next {host} t.

(** What [parseInt] returns: [NaN] or an integer.  The integer is kept
    exact; the host rounds it where it is printed. *)
Inductive JsNumber : Type := NaN | Int (z : Z).

Definition number_truthy (n : JsNumber) : bool :=
  match n with
  | NaN => false
  | Int z => negb (z =? 0)%Z
  end.

(** The value of a run of decimal digits. *)
Definition digits_value (ds : jsstring) : Z :=
  fold_left (fun acc d => (10 * acc + (Z.of_N d - 48))%Z) ds 0%Z.

(** [parseInt(s, 10)]: leading white space is skipped, then a sign is
    read, then the longest run of digits; without a digit the result is
    [NaN]. *)
Definition parseInt10 (s : jsstring) : JsNumber :=
  let s := trim_start s in
  let sign := match s with c :: _ => if char_eqb c (ch "-") then (-1)%Z else 1%Z | [] => 1%Z end in
  let s :=
    match s with
    | c :: s' => if char_eqb c (ch "+") || char_eqb c (ch "-") then s' else s
    | [] => s
    end in
  let z := fst (span is_digit s) in
  match z with
  | [] => NaN
  | _ :: _ => Int (sign * digits_value z)
  end.

(** The loop of [parseArgs] over [args], from the argument it has reached:
    after [--limit] and its value, the loop skips the value. *)
Fixpoint parseArgsFrom (args : list jsstring) (limit : option JsNumber)
  (skipFetch : bool) : option JsNumber * bool :=
  match args with
  | [] => (limit, skipFetch)
  | arg :: rest =>
      match rest with
      | next :: rest' =>
          if str_eqb arg (lit "--limit") && truthy next
          then parseArgsFrom rest' (Some (parseInt10 next)) skipFetch      (* i++ *)
          else if str_eqb arg (lit "--skip-fetch")
          then parseArgsFrom rest limit true
          else parseArgsFrom rest limit skipFetch
      | [] =>                                     (* [args[i + 1]] is undefined *)
          if str_eqb arg (lit "--skip-fetch")
          then parseArgsFrom rest limit true
          else parseArgsFrom rest limit skipFetch
      end
  end.

(** [argv] is [process.argv]. *)
Definition parseArgs (argv : list jsstring) : option JsNumber * bool :=
  let args := skipn 2 argv in
  parseArgsFrom args None false.

(** [array.slice(0, end)] for an integer [end]: a negative [end] counts
    from the end of the array. *)
Definition slice0 {A} (array : list A) (e : Z) : list A :=
  let len := Z.of_nat (length array) in
  let final := if (e <? 0)%Z then Z.max (len + e) 0 else Z.min e len in
  firstn (Z.to_nat final) array.

(** [limit ? KEY_CANADIAN_ACTS.slice(0, limit) : KEY_CANADIAN_ACTS] *)
Definition selectActs (limit : option JsNumber) (acts : list ActIndexEntry.t)
  : list ActIndexEntry.t :=
  match limit with
  | Some (Int z) => if number_truthy (Int z) then slice0 acts z else acts
  | Some NaN => acts
  | None => acts
  end.

(** [s.padEnd(n)] and [c.repeat(n)] *)
Definition padEnd (s : jsstring) (n : nat) : jsstring :=
  s ++ repeat 32%N (n - length s).

Definition newline : jsstring := [10%N].

Section Ingest.
Context {engine : Engine} {host : Host}.

Definition sourceFile (act : ActIndexEntry.t) : jsstring :=
  pathJoin SOURCE_DIR (ActIndexEntry.id act ++ lit ".html").

Definition seedFile (act : ActIndexEntry.t) : jsstring :=
  pathJoin SEED_DIR (ActIndexEntry.id act ++ lit ".json").

(** [parseFullTextHtml] run by the script: what it logs goes to the
    console. *)
Definition parse (html : jsstring) (act : ActIndexEntry.t) : IO ParsedAct.t :=
  fun w =>
    let (parsed, lines) := parseFullTextHtml html act [] in
    (Returns parsed,
     mkWorld (lastRequestTime w) (history w ++ map ConsoleLog lines)).

(** The row pushed for an act that gave nothing. *)
Definition emptyRow (act : ActIndexEntry.t) (status : jsstring) : Row.t :=
  Row.mk (ActIndexEntry.shortName act) (number 0) (number 0) status.

(** A [continue] after a failure: the row is pushed, [failed] and
    [processed] are incremented. *)
Definition skipAct (act : ActIndexEntry.t) (t : Tally) (status : jsstring) : Flow :=
  Continue
    (mkTally (processed t + 1) (skipped t) (failed t + 1)
       (totalProvisions t) (totalDefinitions t)
       (push (report t) (emptyRow act status))).

(** The end of the [try] block, from
    [const parsed = parseFullTextHtml(html, act)] on. *)
Definition parseAndStore (act : ActIndexEntry.t) (t : Tally) (html : jsstring)
  : IO Flow :=
  (parsed <- parse html act ;;
   write_file (seedFile act) (stringify parsed) ;;
   let provisions := length (ParsedAct.provisions parsed) in
   let definitions := length (ParsedAct.definitions parsed) in
   log (lit "    -> " ++ show_nat provisions ++ lit " provisions, "
        ++ show_nat definitions ++ lit " definitions") ;;
   ioret
     (Next
        (mkTally (processed t) (skipped t) (failed t)
           (plus (totalProvisions t) (number (Z.of_nat provisions)))
           (plus (totalDefinitions t) (number (Z.of_nat definitions)))
           (push (report t)
              (Row.mk (ActIndexEntry.shortName act)
                 (number (Z.of_nat provisions)) (number (Z.of_nat definitions))
                 (lit "OK"))))))%io.

(** The [try] block of one iteration. *)
Definition tryBlock (skipFetch : bool) (act : ActIndexEntry.t) (t : Tally)
  : IO Flow :=
  (sourceExists <- exists_sync (sourceFile act) ;;
   if sourceExists && skipFetch
   then
     html <- read_file (sourceFile act) ;;
     log (lit "  Using cached " ++ ActIndexEntry.shortName act ++ lit " ("
          ++ ActIndexEntry.actPath act ++ lit ")") ;;
     parseAndStore act t html
   else
     stdout_write (lit "  Fetching " ++ ActIndexEntry.shortName act ++ lit " ("
                   ++ ActIndexEntry.actPath act ++ lit ")...") ;;
     result <- fetchActFullText (ActIndexEntry.actPath act) None ;;
     if negb (FetchResult.status result =? 200)
     then
       log (lit " HTTP " ++ show_nat (FetchResult.status result)
            ++ lit " -- SKIPPED") ;;
       ioret (skipAct act t (lit "HTTP " ++ show_nat (FetchResult.status result)))
     else if includes (FetchResult.body result) (lit "Page not Found")
             || includes (FetchResult.body result) (lit "Error 404")
     then
       log (lit " SOFT 404 -- SKIPPED") ;;
       ioret (skipAct act t (lit "soft 404"))
     else
       let html := FetchResult.body result in
       write_file (sourceFile act) html ;;
       log (lit " OK (" ++ kilobytes (length html) ++ lit " KB)") ;;
       parseAndStore act t html)%io.

(** The [catch] block: [msg] is the message of the error. *)
Definition catchBlock (act : ActIndexEntry.t) (t : Tally) (msg : jsstring)
  : IO Flow :=
  (log (lit "  ERROR parsing " ++ ActIndexEntry.shortName act ++ lit ": " ++ msg) ;;
   ioret
     (Next
        (mkTally (processed t) (skipped t) (failed t + 1)
           (totalProvisions t) (totalDefinitions t)
           (push (report t) (emptyRow act (lit "ERROR: " ++ msg))))))%io.

(** One iteration of [for (const act of acts)]. *)
Definition iteration (skipFetch : bool) (t : Tally) (act : ActIndexEntry.t)
  : IO Tally :=
  (seedExists <- (if skipFetch then exists_sync (seedFile act) else ioret false) ;;
   if seedExists
   then
     text <- read_file (seedFile act) ;;
     existing <- rejecting (ioret (seedLengths text)) ;;
     ioret
       (mkTally (processed t + 1) (skipped t + 1) (failed t)
          (plus (totalProvisions t) (fst existing))
          (plus (totalDefinitions t) (snd existing))
          (push (report t)
             (Row.mk (ActIndexEntry.shortName act) (fst existing) (snd existing)
                (lit "cached"))))                                     (* continue *)
   else
     flow <- try_catch (tryBlock skipFetch act t) (catchBlock act t) ;;
     match flow with
     | Continue t' => ioret t'
     | Next t' =>
         ioret
           (mkTally (processed t' + 1) (skipped t') (failed t')
              (totalProvisions t') (totalDefinitions t') (report t'))
     end)%io.

Fixpoint actsLoop (skipFetch : bool) (acts : list ActIndexEntry.t) (t : Tally)
  : IO Tally :=
  match acts with
  | [] => ioret t
  | act :: rest =>
      (t' <- iteration skipFetch t act ;; actsLoop skipFetch rest t')%io
  end.

Fixpoint logRows (rows : list Row.t) : IO unit :=
  match rows with
  | [] => ioret tt
  | r :: rest =>
      (log (padEnd (Row.act r) 25 ++ lit " "
            ++ padEnd (toString (Row.provisions r)) 12 ++ lit " "
            ++ padEnd (toString (Row.definitions r)) 12 ++ lit " "
            ++ Row.status r) ;;
       logRows rest)%io
  end.

(** The summary report printed after the loop. *)
Definition printReport (t : Tally) : IO unit :=
  (log (newline ++ repeat (ch "=") 70) ;;
   log (lit "INGESTION REPORT") ;;
   log (repeat (ch "=") 70) ;;
   log (padEnd (lit "Act") 25 ++ lit " " ++ padEnd (lit "Provisions") 12 ++ lit " "
        ++ padEnd (lit "Definitions") 12 ++ lit " Status") ;;
   log (repeat (ch "-") 70) ;;
   logRows (report t) ;;
   log (repeat (ch "-") 70) ;;
   log (padEnd (lit "TOTAL") 25 ++ lit " "
        ++ padEnd (toString (totalProvisions t)) 12 ++ lit " "
        ++ padEnd (toString (totalDefinitions t)) 12) ;;
   log (newline ++ lit "  Acts processed: " ++ show_nat (processed t)) ;;
   log (lit "  Acts cached:    " ++ show_nat (skipped t)) ;;
   log (lit "  Acts failed:    " ++ show_nat (failed t)) ;;
   log (lit "  Total provisions:  " ++ toString (totalProvisions t)) ;;
   log (lit "  Total definitions: " ++ toString (totalDefinitions t)))%io.

Definition fetchAndParseActs (acts : list ActIndexEntry.t) (skipFetch : bool)
  : IO unit :=
  (log (newline ++ lit "Processing " ++ show_nat (length acts)
        ++ lit " federal Acts..." ++ newline) ;;
   mkdir SOURCE_DIR ;;
   mkdir SEED_DIR ;;
   t <- actsLoop skipFetch acts (mkTally 0 0 0 (number 0) (number 0) []) ;;
   printReport t)%io.

Definition main (argv : list jsstring) : IO unit :=
  let (limit, skipFetch) := parseArgs argv in
  (log (lit "Canadian Law MCP -- Ingestion Pipeline") ;;
   log (lit "======================================" ++ newline) ;;
   log (lit "  Source:  Justice Laws Website (laws-lois.justice.gc.ca)") ;;
   log (lit "  Method:  FullText.html (structured HTML)") ;;
   log (lit "  License: Open Government Licence - Canada") ;;
   (match limit with
    | Some (Int z) =>
        if number_truthy (Int z) then log (lit "  --limit " ++ show z) else ioret tt
    | _ => ioret tt
    end) ;;
   (if skipFetch then log (lit "  --skip-fetch") else ioret tt) ;;
   let acts := selectActs limit KEY_CANADIAN_ACTS in
   fetchAndParseActs acts skipFetch)%io.

End Ingest.

(** *** What a run did *)

(** The requests, the timers, the files written and the files read among
    some events, in order. *)
Definition requests (evs : list Event) : list jsstring :=
  flat_map (fun e => match e with FetchUrl url _ => [url] | _ => [] end) evs.

Definition timers (evs : list Event) : list Z :=
  flat_map (fun e => match e with SetTimeout ms => [ms] | _ => [] end) evs.

Definition writes (evs : list Event) : list (jsstring * jsstring) :=
  flat_map (fun e => match e with WriteFileSync p d => [(p, d)] | _ => [] end) evs.

Definition reads (evs : list Event) : list jsstring :=
  flat_map (fun e => match e with ReadFileSync p => [p] | _ => [] end) evs.

(** The [fetch] calls among some events, each with its url and its
    headers, in order. *)
Definition fetches (evs : list Event) : list (jsstring * list (jsstring * jsstring)) :=
  flat_map (fun e => match e with FetchUrl url headers => [(url, headers)] | _ => [] end)
    evs.

(** The delay before retry [i], counted from 0: 2, 4, 8, ... seconds. *)
Definition backoff (i : nat) : Z := (2 ^ (Z.of_nat i + 1) * 1000)%Z.

(** The run of [c] from [w] adds events to the history of [w]; [Q] holds of
    how the run ends, the events it adds and the [lastRequestTime] it
    leaves. *)
Definition post {A} (c : IO A) (w : World)
  (Q : Outcome A -> list Event -> Z -> Prop) : Prop :=
  exists evs,
    history (snd (c w)) = history w ++ evs
    /\ Q (fst (c w)) evs (lastRequestTime (snd (c w))).

(** The events of one [rateLimit] that starts after the history [h] with
    the previous request at [last]: the clock is read, a timer is awaited
    when less than [MIN_DELAY_MS] have passed, the clock is read again. *)
Definition rateLimitEvents {host : Host} (h : list Event) (last : Z) : list Event :=
  let elapsed := (dateNow (h ++ [DateNow]) - last)%Z in
  DateNow
  :: (if (elapsed <? 500)%Z then [SetTimeout (500 - elapsed)%Z] else [])
  ++ [DateNow].

(** What the loop of [fetchWithRateLimit] does from [attempt] on. *)
Definition AttemptsSpec (url : jsstring) (maxRetries attempt : Z)
  (o : Outcome FetchResult.t) (evs : list Event) : Prop :=
  o <> OutOfFuel
  /\ requests evs = repeat url (length (requests evs))
  /\ (Z.of_nat (length (requests evs)) <= Z.max 0 (maxRetries + 1 - attempt))%Z
  /\ timers evs
     = map (fun i => backoff (Z.to_nat attempt + i))
         (seq 0 (length (requests evs) - 1))
  /\ writes evs = [] /\ reads evs = []
  /\ (forall r, o = Returns r ->
        FetchResult.url r = url
        /\ (retryable (FetchResult.status r) = true ->
            Z.of_nat (length (requests evs)) = (maxRetries + 1 - attempt)%Z))
  /\ ((attempt <= maxRetries)%Z -> requests evs <> [])
  /\ ((maxRetries < attempt)%Z -> evs = [] /\ exists e, o = Throws e).

(** What [fetchAndParseActs] may write for [act]: the fetched page, which
    has no failure marker, to the source file, or the document parsed from a
    page to the seed file; without [--skip-fetch] that page has no failure
    marker either. *)
Definition CleanWrite {engine : Engine} {host : Host} (skipFetch : bool)
  (act : ActIndexEntry.t) (write : jsstring * jsstring) : Prop :=
  (fst write = sourceFile act /\ hasMarker (snd write) = false)
  \/ (fst write = seedFile act
      /\ exists html,
           snd write = stringify (fst (parseFullTextHtml html act []))
           /\ (skipFetch = false -> hasMarker html = false)).

(** The rows of the report with a status. *)
Definition rowsWith {host : Host} (status : jsstring) (rows : list Row.t) : list Row.t :=
  filter (fun r => str_eqb (Row.status r) status) rows.

(** The counters agree with the report: one row per act processed, one
    [cached] row per act skipped, and every other row that is not [OK] is a
    failure. *)
Definition Consistent {host : Host} (t : Tally) : Prop :=
  processed t = length (report t)
  /\ skipped t = length (rowsWith (lit "cached") (report t))
  /\ processed t
     = skipped t + failed t + length (rowsWith (lit "OK") (report t)).

(** The tally [fetchAndParseActs] starts from. *)
Definition emptyTally {host : Host} : Tally :=
  mkTally 0 0 0 (number 0) (number 0) [].

(** One more act processed: a row was pushed, and counters that agreed
    with the report still do. *)
Definition Advanced {host : Host} (t t' : Tally) : Prop :=
  processed t' = processed t + 1
  /\ length (report t') = length (report t) + 1
  /\ (Consistent t -> Consistent t').

(** The statements after the [try ... catch] of an iteration. *)
Definition afterTry {host : Host} (flow : Flow) : Tally :=
  match flow with
  | Continue t' => t'
  | Next t' =>
      mkTally (processed t' + 1) (skipped t') (failed t')
        (totalProvisions t') (totalDefinitions t') (report t')
  end.

(** What one iteration of the loop does for [act]; [seedFound] is the
    answer of the host to [existsSync(seedFile)]. *)
Definition IterationSpec {engine : Engine} {host : Host} (skipFetch : bool)
  (act : ActIndexEntry.t) (t : Tally) (seedFound : bool)
  (o : Outcome Tally) (evs : list Event) : Prop :=
  o <> OutOfFuel
  /\ Forall (CleanWrite skipFetch act) (writes evs)
  /\ length (requests evs) <= 4
  /\ (skipFetch = false -> reads evs = [] /\ exists t', o = Returns t')
  /\ (skipFetch = true -> seedFound = true -> requests evs = [] /\ writes evs = [])
  /\ (forall t', o = Returns t' -> Advanced t t').

(** What the loop over [acts] does from the tally [t]. *)
Definition LoopSpec {engine : Engine} {host : Host} (skipFetch : bool)
  (acts : list ActIndexEntry.t) (t : Tally) (o : Outcome Tally)
  (evs : list Event) : Prop :=
  o <> OutOfFuel
  /\ Forall (fun write => exists act, In act acts /\ CleanWrite skipFetch act write)
       (writes evs)
  /\ Forall (fun url => exists act,
               In act acts /\ url = fullTextUrl (ActIndexEntry.actPath act) (lit "eng"))
       (requests evs)
  /\ length (requests evs) <= 4 * length acts
  /\ (skipFetch = false -> reads evs = [] /\ exists t', o = Returns t')
  /\ (forall t', o = Returns t' ->
        processed t' = processed t + length acts
        /\ length (report t') = length (report t) + length acts
        /\ (Consistent t -> Consistent t')).

(** The host finds the seed file of every act of [acts], whenever it is
    asked. *)
Definition SeedsCached {host : Host} (acts : list ActIndexEntry.t) : Prop :=
  forall h act, In act acts -> existsSync (h ++ [ExistsSync (seedFile act)]) = true.

(** *** A host to run the scripts on *)

Fixpoint uint_digits (u : Decimal.uint) : jsstring :=
  match u with
  | Decimal.Nil => []
  | Decimal.D0 u => ch "0" :: uint_digits u
  | Decimal.D1 u => ch "1" :: uint_digits u
  | Decimal.D2 u => ch "2" :: uint_digits u
  | Decimal.D3 u => ch "3" :: uint_digits u
  | Decimal.D4 u => ch "4" :: uint_digits u
  | Decimal.D5 u => ch "5" :: uint_digits u
  | Decimal.D6 u => ch "6" :: uint_digits u
  | Decimal.D7 u => ch "7" :: uint_digits u
  | Decimal.D8 u => ch "8" :: uint_digits u
  | Decimal.D9 u => ch "9" :: uint_digits u
  end.

Definition decimal (n : nat) : jsstring := uint_digits (Nat.to_uint n).

Definition decimalZ (z : Z) : jsstring :=
  if (z <? 0)%Z then lit "-" ++ decimal (Z.abs_nat z) else decimal (Z.abs_nat z).

(** The time the timers of a history have taken, when each takes its
    delay. *)
Definition timersTotal (h : list Event) : Z :=
  fold_right
    (fun e acc => match e with SetTimeout ms => (Z.max 0 ms + acc)%Z | _ => acc end)
    0%Z h.

(** A host whose server answers every request with [status] and the sample
    page, whose clock advances with the timers, and whose file system holds
    every file that is asked for ([cached]) or none; the numbers are the
    integers, printed in decimal. *)
Definition SampleHost (status : nat) (cached : bool) : Host :=
  {| value := Z;
     number := fun z => z;
     plus := Z.add;
     toString := decimalZ;
     kilobytes := fun n => decimal ((n + 512) / 1024);
     stringify := fun parsed =>
       lit "{ id: " ++ ParsedAct.id parsed ++ lit ", provisions: "
       ++ decimal (length (ParsedAct.provisions parsed)) ++ lit " }";
     seedLengths := fun _ => inr (1%Z, 0%Z);
     SOURCE_DIR := lit "data/source";
     SEED_DIR := lit "data/seed";
     pathJoin := fun dir name => dir ++ lit "/" ++ name;
     dateNow := timersTotal;
     fetchResponse := fun _ => inr (Response.mk status (Some (lit "text/html")));
     responseText := fun _ => inr Sample.page;
     mkdirSync := fun _ => None;
     existsSync := fun _ => cached;
     readFileSync := fun _ => if cached then inr Sample.page else inl (lit "ENOENT");
     writeFileSync := fun _ => None |}.

(** Where a run starts: no request yet, no event. *)
Definition initialWorld : World := mkWorld 0 [].

(** [n] is the number that starts [title]: a section number followed by a
    white-space character. *)
Definition LeadingNumber (title n : jsstring) : Prop :=
  exists c rest, title = n ++ c :: rest /\ sectionNumber n /\ is_space c = true.

(** How [extractSchedules] keys the provision [p] of the schedule block
    [schedMatch].  The label is the stripped text of the first
    [scheduleLabel] element of the block; the key is made from the label in
    lower case without white space and, under a principle heading, from the
    reference of the heading: the leading number of its title or, when the
    title has none, the first 20 characters of the title. *)
Definition ScheduleKeyed {engine : Engine} (schedMatch : rmatch_result)
  (p : ParsedProvision.t) : Prop :=
  exists labelMatch,
    match_first Rx.scheduleLabel (group 1 schedMatch) = Some labelMatch
    /\ let label := stripHtml (group 1 labelMatch) in
       let slug := filter not_space (toLowerCase label) in
       (headingPositions (group 1 schedMatch) = []
        /\ ParsedProvision.provision_ref p = lit "sched-" ++ slug
        /\ ParsedProvision.section p = label)
       \/ (exists heading,
             In heading (headingPositions (group 1 schedMatch))
             /\ ParsedProvision.title p = Heading.title heading
             /\ ParsedProvision.provision_ref p
                = lit "sched-" ++ slug ++ lit "-" ++ ParsedProvision.section p
             /\ ((LeadingNumber (ParsedProvision.title p) (ParsedProvision.section p)
                  /\ forall n, LeadingNumber (ParsedProvision.title p) n ->
                               n = ParsedProvision.section p)
                 \/ ((forall n, ~ LeadingNumber (ParsedProvision.title p) n)
                     /\ ParsedProvision.section p
                        = firstn 20 (ParsedProvision.title p)))).

(** ** The citation formatter ([tools/format-citation.ts]) *)

Module Cite.
Local Open Scope regex_scope.

(** [(?:Section|s\.)] *)
Definition keyword : regex := RAlt (RLit (lit "Section")) (RLit (lit "s.")).

(** [\d+(?:\.\d+)?(?:\(\d+\))?] *)
Definition number : regex :=
  RPlus CDigit >> ROpt (RLit (lit ".") >> RPlus CDigit)
  >> ROpt (RLit (lit "(") >> RPlus CDigit >> RLit (lit ")")).

(** [/^(?:Section|s\.)\s*(\d+(?:\.\d+)?(?:\(\d+\))?)\s+(.+)$/i] *)
Definition sectionFirst : RegExp :=
  mkRegExp
    (RBegin >> keyword >> RStar CSpace >> RCap 1 number >> RPlus CSpace
     >> RCap 2 (RPlus CDot) >> REnd)
    false true false.

(** [/^(.+?)[,;]?\s*(?:Section|s\.)\s*(\d+(?:\.\d+)?(?:\(\d+\))?)$/i] *)
Definition sectionLast : RegExp :=
  mkRegExp
    (RBegin >> RCap 1 (RSet CDot >> RLazy CDot)
     >> ROpt (RSet (CUnion (CChar (ch ",")) (CChar (ch ";"))))
     >> RStar CSpace >> keyword >> RStar CSpace >> RCap 2 number >> REnd)
    false true false.

End Cite.

Module FormatCitationInput.
Record t : Type := mk {
  citation : jsstring;
  format : option jsstring       (* [format?: 'full' | 'short' | 'pinpoint'] *)
}.
End FormatCitationInput.

Module FormatCitationResult.
Record t : Type := mk {
  original : jsstring;
  formatted : jsstring;
  format : jsstring
}.
End FormatCitationResult.

(** [s.split('(')[0]]: what stands before the first [(]. *)
Definition beforeParen (s : jsstring) : jsstring :=
  fst (span (fun c => negb (char_eqb c (ch "("))) s).

(** [a?.[i] ?? b] for a match [a] and a value [b] that may be undefined. *)
Definition groupOr (i : nat) (m : option rmatch_result) (other : option jsstring)
  : option jsstring :=
  match m with
  | Some m => Some (group i m)
  | None => other
  end.

(** Format a Canadian legal citation per standard conventions. *)
Definition formatCitationTool (input : FormatCitationInput.t)
  : FormatCitationResult.t :=
  let format :=
    match FormatCitationInput.format input with
    | Some f => f
    | None => lit "full"
    end in
  let trimmed := trim (FormatCitationInput.citation input) in
  let sectionFirst := match_first Cite.sectionFirst trimmed in
  let sectionLast := match_first Cite.sectionLast trimmed in
  let section := groupOr 1 sectionFirst (groupOr 2 sectionLast None) in
  let law :=
    match groupOr 2 sectionFirst (groupOr 1 sectionLast None) with
    | Some l => l
    | None => trimmed
    end in
  let formatted :=
    if str_eqb format (lit "short")
    then
      match section with
      | Some section =>
          if truthy section
          then lit "s. " ++ section ++ lit " " ++ trim (beforeParen law)
          else law
      | None => law
      end
    else if str_eqb format (lit "pinpoint")
    then
      match section with
      | Some section => if truthy section then lit "s. " ++ section else law
      | None => law
      end
    else
      match section with
      | Some section =>
          if truthy section then lit "Section " ++ section ++ lit " " ++ law else law
      | None => law
      end in
  FormatCitationResult.mk (FormatCitationInput.citation input) formatted format.

(** A section number as the citation expressions write it: digits,
    possibly a point and digits, possibly digits in parentheses. *)
Definition citationNumber (n : jsstring) : Prop :=
  exists a b c,
    n = a ++ b ++ c
    /\ a <> [] /\ Forall (fun x => is_digit x = true) a
    /\ (b = [] \/ exists f, b = lit "." ++ f /\ f <> []
                            /\ Forall (fun x => is_digit x = true) f)
    /\ (c = [] \/ exists g, c = lit "(" ++ g ++ lit ")" /\ g <> []
                            /\ Forall (fun x => is_digit x = true) g).

(** What [formatCitationTool] prints for a section and a law. *)
Definition citationText (format section law : jsstring) : jsstring :=
  if str_eqb format (lit "short")
  then lit "s. " ++ section ++ lit " " ++ trim (beforeParen law)
  else if str_eqb format (lit "pinpoint")
  then lit "s. " ++ section
  else lit "Section " ++ section ++ lit " " ++ law.

(** ** The definition blocks *)

(** The text of the first [<dfn>] element of a definition block, if the
    block has one. *)
Definition blockTerm (m : rmatch_result) : option jsstring :=
  match match_first Rx.dfn (group 1 m) with
  | Some termMatch => Some (group 1 termMatch)
  | None => None
  end.

(** A definition block that defines a term: it has a [<dfn>] element, and
    neither the text of that element nor the block is empty once
    stripped. *)
Definition definesTerm (m : rmatch_result) : bool :=
  match blockTerm m with
  | Some t => truthy (stripHtml t) && truthy (stripHtml (group 1 m))
  | None => false
  end.

(** The definition of a block: its stripped term and its stripped text. *)
Definition DefinitionOfBlock (m : rmatch_result) (d : ParsedDefinition.t) : Prop :=
  exists t,
    blockTerm m = Some t
    /\ ParsedDefinition.term d = stripHtml t
    /\ ParsedDefinition.definition d = stripHtml (group 1 m).

(** A block that defines the term [term]. *)
Definition definesTheTerm (term : jsstring) (m : rmatch_result) : bool :=
  definesTerm m
  && match blockTerm m with
     | Some t => str_eqb (stripHtml t) term
     | None => false
     end.

(** ** The parser with its RegExp objects

    Every regular expression of the parser is a literal inside a function
    body.  Evaluating a literal creates a RegExp object, and [exec] and
    [replace] read and write the [lastIndex] of the object they are called
    on.  The objects and the console are the state a call of the parser
    leaves behind.  Here that state is explicit: a realm holds the RegExp
    objects created so far, a reference to an object is its index, and the
    functions of the parser are run in the realm, one [exec] at a time,
    with the body of a loop run between two calls of [exec]. *)

Module RegExpObject.
Record t : Type := mk { pattern : RegExp; lastIndex : nat }.
End RegExpObject.

Record Realm : Type := mkRealm {
  objects : list RegExpObject.t;    (* the RegExp objects, oldest first *)
  lines : list jsstring             (* what [console.log] has written *)
}.

Definition Run (A : Type) : Type := Realm -> A * Realm.

Declare Scope run_scope.
Delimit Scope run_scope with run.

Module InRealm.

Definition ret {A} (x : A) : Run A := fun realm => (x, realm).

Definition bind {A B} (c : Run A) (f : A -> Run B) : Run B :=
  fun realm => let (x, realm') := c realm in f x realm'.

Notation "x <- c ;; k" := (bind c (fun x => k))
  (at level 100, c at next level, right associativity) : run_scope.
Notation "c ;; k" := (bind c (fun _ => k))
  (at level 100, right associativity) : run_scope.

Definition console_log (line : jsstring) : Run unit :=
  fun realm => (tt, mkRealm (objects realm) (lines realm ++ [line])).

(** A regular expression literal: a new object with [lastIndex = 0]. *)
Definition literal (re : RegExp) : Run nat :=
  fun realm =>
    (length (objects realm),
     mkRealm (objects realm ++ [RegExpObject.mk re 0]) (lines realm)).

Definition noObject : RegExpObject.t :=
  RegExpObject.mk (mkRegExp (RLit []) false false false) 0.

Definition objectAt (r : nat) (realm : Realm) : RegExpObject.t :=
  nth r (objects realm) noObject.

(** [re.lastIndex = lastIndex] *)
Definition setLastIndex (r lastIndex : nat) : Run unit :=
  fun realm =>
    (tt,
     mkRealm
       (firstn r (objects realm)
        ++ match skipn r (objects realm) with
           | o :: rest => RegExpObject.mk (RegExpObject.pattern o) lastIndex :: rest
           | [] => []
           end)
       (lines realm)).

(** [re.exec(s)].  With the [g] flag the search starts at [lastIndex],
    which is then set to the end of the match, or to 0 when there is none;
    without it the search starts at 0 and [lastIndex] is left as it is. *)
Definition exec (r : nat) (s : jsstring) : Run (option rmatch_result) :=
  fun realm =>
    let o := objectAt r realm in
    let re := RegExpObject.pattern o in
    if global re
    then
      let result := Re.exec re s (RegExpObject.lastIndex o) in
      let lastIndex := match result with Some m => mend m | None => 0 end in
      (result, snd (setLastIndex r lastIndex realm))
    else (Re.exec re s 0, realm).

(** The loop [while ((m = re.exec(s)) !== null) { body }], the value of
    the variables the body assigns passed from one iteration to the
    next.  [fuel] bounds the number of iterations. *)
Fixpoint while_exec {A} (fuel : nat) (r : nat) (s : jsstring)
  (body : A -> rmatch_result -> Run A) (vars : A) : Run A :=
  match fuel with
  | 0 => ret vars
  | S fuel' =>
      (m <- exec r s ;;
       match m with
       | None => ret vars
       | Some m => (vars' <- body vars m ;; while_exec fuel' r s body vars')
       end)%run
  end.

(** A [for] loop over the indices [xs]. *)
Fixpoint for_each {A B} (xs : list A) (body : B -> A -> Run B) (vars : B) : Run B :=
  match xs with
  | [] => ret vars
  | x :: xs' => (vars' <- body vars x ;; for_each xs' body vars')%run
  end.

(** [s.match(/re/)] for a literal without the [g] flag. *)
Definition match_first (re : RegExp) (s : jsstring) : Run (option rmatch_result) :=
  (r <- literal re ;; exec r s)%run.

(** [s.replace(/re/, repl)] for a literal and a replacement string without
    [$] patterns.  With the [g] flag [lastIndex] is set to 0 and [exec] is
    called until it returns [null]; without it [exec] is called once. *)
Definition replace (re : RegExp) (repl : jsstring) (s : jsstring) : Run jsstring :=
  (r <- literal re ;;
   if global re
   then
     setLastIndex r 0 ;;
     ms <- while_exec (S (length s)) r s (fun ms m => ret (push ms m)) [] ;;
     ret (splice ms repl 0 s)
   else
     m <- exec r s ;;
     ret (match m with
          | Some m => splice [m] repl 0 s
          | None => s
          end))%run.

(** Strip HTML tags and decode common entities to plain text. *)
Definition stripHtml (html : jsstring) : Run jsstring :=
  (s <- replace Rx.tag (lit " ") html ;;
   s <- replace (Rx.entity "&nbsp;") (lit " ") s ;;
   s <- replace (Rx.entity "&#x00A0;") (lit " ") s ;;
   s <- replace (Rx.entity "&amp;") (lit "&") s ;;
   s <- replace (Rx.entity "&lt;") (lit "<") s ;;
   s <- replace (Rx.entity "&gt;") (lit ">") s ;;
   s <- replace (Rx.entity "&quot;") dq s ;;
   s <- replace (Rx.entity "&#39;") (lit "'") s ;;
   s <- replace (Rx.entity "&rsquo;") [8217%N] s ;;
   s <- replace (Rx.entity "&ldquo;") [8220%N] s ;;
   s <- replace (Rx.entity "&rdquo;") [8221%N] s ;;
   s <- replace (Rx.entity "&mdash;") [8212%N] s ;;
   s <- replace (Rx.entity "&ndash;") [8211%N] s ;;
   s <- replace (Rx.entity "&eacute;") [233%N] s ;;
   s <- replace (Rx.entity "&ccedil;") [231%N] s ;;
   s <- replace Rx.spaces (lit " ") s ;;
   ret (trim s))%run.

(** Extract the act description from the [<title>] tag or heading. *)
Definition extractDescription (html : jsstring) (act : ActIndexEntry.t)
  : Run jsstring :=
  (titleMatch <- match_first Rx.titleTag html ;;
   match titleMatch with
   | Some titleMatch =>
       titleText <- stripHtml (group 1 titleMatch) ;;
       ret (titleText ++ lit " (" ++ ActIndexEntry.shortName act ++ lit ")")
   | None => ret (ActIndexEntry.title act)
   end)%run.

(** Extract the last amendment date from the HTML. *)
Definition extractCurrentToDate (html : jsstring) : Run (option jsstring) :=
  (m <- match_first Rx.currentTo html ;;
   ret (match m with
        | Some m => Some (group 1 m)
        | None => None
        end))%run.

(** The plain text of one section. *)
Definition sectionText (html : jsstring) (num : jsstring)
  (anchorPos nextAnchorPos : nat) : Run jsstring :=
  let sectionHtml := substring html anchorPos nextAnchorPos in
  (s <- replace Rx.historicalDiv [] sectionHtml ;;
   s <- replace Rx.historicalUl [] s ;;
   s <- replace Rx.marginalP [] s ;;
   s <- replace Rx.headingToEnd [] s ;;
   cleanedHtml <- replace Rx.scheduleToEnd [] s ;;
   text <- stripHtml cleanedHtml ;;
   text <- replace Rx.anchorResidue [] text ;;
   text <- replace Rx.leadingNumber (num ++ lit " ") text ;;
   text <- replace Rx.partialTag [] text ;;
   ret (trim text))%run.

(** One iteration of [for (let i = 0; i < sectionAnchors.length; i++)]. *)
Definition sectionIteration (html : jsstring) (anchors : list Anchor.t)
  (parts : list Part.t) (notes : list Note.t) (st : SectionLoop) (i : nat)
  : Run SectionLoop :=
  let anchor := nth i anchors noAnchor in
  let nextAnchorPos :=
    if i + 1 <? length anchors
    then Anchor.pos (nth (i + 1) anchors noAnchor)
    else length html in
  let currentChapter := updateChapter parts (Anchor.pos anchor) (currentChapter st) in
  let title := nearestNote (rev notes) (Anchor.pos anchor) in
  (text <- sectionText html (Anchor.num anchor) (Anchor.pos anchor) nextAnchorPos ;;
   if length text <? 10
   then ret (mkLoop currentChapter (sections st))                (* continue *)
   else
     let content := substring text 0 8000 in
     ret (mkLoop currentChapter
            (map_set (Anchor.num anchor)
               (SectionData.mk title content currentChapter) (sections st))))%run.

(** Build a section-content map from the FullText HTML. *)
Definition extractSections (html : jsstring) : Run (JsMap SectionData.t) :=
  (anchorRe <- literal Rx.anchorRe ;;
   sectionAnchors <-
     while_exec (S (length html)) anchorRe html
       (fun arr m => ret (push arr (Anchor.mk (group 1 m) (index m)))) [] ;;
   if length sectionAnchors =? 0 then ret []
   else
     partRe <- literal Rx.partRe ;;
     partPositions <-
       while_exec (S (length html)) partRe html
         (fun arr m =>
            label <- stripHtml (group 1 m) ;;
            ret (push arr (Part.mk label (index m)))) [] ;;
     mnRe <- literal Rx.mnRe ;;
     marginalNotes <-
       while_exec (S (length html)) mnRe html
         (fun arr m =>
            title <- stripHtml (group 1 m) ;;
            ret (if truthy title && negb (str_eqb title (lit "Marginal note:"))
                 then push arr (Note.mk title (index m))
                 else arr)) [] ;;
     st <- for_each (seq 0 (length sectionAnchors))
             (sectionIteration html sectionAnchors partPositions marginalNotes)
             (mkLoop [] []) ;;
     ret (sections st))%run.

(** Extract definitions from [<p class="Definition">] elements. *)
Definition extractDefinitions (html : jsstring) (sectionNum : jsstring)
  : Run (list ParsedDefinition.t) :=
  (defRe <- literal Rx.defRe ;;
   while_exec (S (length html)) defRe html
     (fun defs m =>
        let defHtml := group 1 m in
        termMatch <- match_first Rx.dfn defHtml ;;
        match termMatch with
        | None => ret defs                                       (* continue *)
        | Some termMatch =>
            term <- stripHtml (group 1 termMatch) ;;
            definition <- stripHtml defHtml ;;
            ret (if truthy term && truthy definition
                 then push defs
                        (ParsedDefinition.mk term definition
                           (Some (lit "s" ++ sectionNum)))
                 else defs)
        end) [])%run.

Section WithEngine.
Context {engine : Engine}.

(** One iteration of the loop over the headings of a schedule. *)
Definition headingIteration (scheduleHtml scheduleLabel scheduleTitle : jsstring)
  (headings : list Heading.t) (provisions : list ParsedProvision.t) (i : nat)
  : Run (list ParsedProvision.t) :=
  let heading := nth i headings noHeading in
  let nextPos :=
    if i + 1 <? length headings
    then Heading.pos (nth (i + 1) headings noHeading)
    else length scheduleHtml in
  let blockHtml := substring scheduleHtml (Heading.pos heading) nextPos in
  (content <- stripHtml blockHtml ;;
   if 10 <? length content
   then
     refMatch <- match_first Rx.headingRef (Heading.title heading) ;;
     let ref :=
       match refMatch with
       | Some refMatch => group 1 refMatch
       | None => substring (Heading.title heading) 0 20
       end in
     slug <- replace Rx.spaces [] (toLowerCase scheduleLabel) ;;
     ret (push provisions
            (ParsedProvision.mk
               (lit "sched-" ++ slug ++ lit "-" ++ ref)
               (Some (scheduleChapter scheduleLabel scheduleTitle))
               ref
               (Heading.title heading)
               (substring content 0 8000)))
   else ret provisions)%run.

(** The body of the loop over the schedule blocks. *)
Definition scheduleIteration (provisions : list ParsedProvision.t)
  (schedMatch : rmatch_result) : Run (list ParsedProvision.t) :=
  let scheduleHtml := group 1 schedMatch in
  (labelMatch <- match_first Rx.scheduleLabel scheduleHtml ;;
   match labelMatch with
   | None => ret provisions                                      (* continue *)
   | Some labelMatch =>
       scheduleLabel <- stripHtml (group 1 labelMatch) ;;
       titleMatch <- match_first Rx.scheduleTitleText scheduleHtml ;;
       scheduleTitle <-
         match titleMatch with
         | Some titleMatch => stripHtml (group 1 titleMatch)
         | None => ret []
         end ;;
       headingRe <- literal Rx.headingRe ;;
       headings <-
         while_exec (S (length scheduleHtml)) headingRe scheduleHtml
           (fun arr hm =>
              title <- stripHtml (group 1 hm) ;;
              ret (push arr (Heading.mk title (index hm)))) [] ;;
       if 0 <? length headings
       then
         for_each (seq 0 (length headings))
           (headingIteration scheduleHtml scheduleLabel scheduleTitle headings)
           provisions
       else
         cleanedHtml <- replace Rx.historicalDiv [] scheduleHtml ;;
         content <- stripHtml cleanedHtml ;;
         if 10 <? length content
         then
           slug <- replace Rx.spaces [] (toLowerCase scheduleLabel) ;;
           ret (push provisions
                  (ParsedProvision.mk
                     (lit "sched-" ++ slug)
                     (Some (scheduleChapter scheduleLabel scheduleTitle))
                     scheduleLabel
                     (if truthy scheduleTitle then scheduleTitle else scheduleLabel)
                     (substring content 0 8000)))
         else ret provisions
   end)%run.

(** Extract Schedule content as provisions. *)
Definition extractSchedules (html : jsstring)
  : Run (list ParsedProvision.t * list ParsedDefinition.t) :=
  (scheduleRe <- literal Rx.scheduleRe ;;
   provisions <-
     while_exec (S (length html)) scheduleRe html scheduleIteration [] ;;
   ret (provisions, []))%run.

(** Parse a Justice Laws Website FullText.html page into structured act
    data. *)
Definition parseFullTextHtml (html : jsstring) (act : ActIndexEntry.t)
  : Run ParsedAct.t :=
  if includes html (lit "Page not Found") || includes html (lit "Error 404")
  then
    (console_log (lit "    WARNING: " ++ ActIndexEntry.shortName act
                  ++ lit " returned a 404 page") ;;
     ret (notFoundAct act))%run
  else
    (description <- extractDescription html act ;;
     currentTo <- extractCurrentToDate html ;;
     sectionMap <- extractSections html ;;
     let provisions :=
       fold_left (fun arr e => push arr (sectionProvision e)) sectionMap [] in
     allDefs <- extractDefinitions html (lit "2") ;;
     let definitions := [] ++ allDefs in
     scheduleData <- extractSchedules html ;;
     let provisions := provisions ++ fst scheduleData in
     let definitions := definitions ++ snd scheduleData in
     ret (ParsedAct.mk
            (ActIndexEntry.id act) statute
            (ActIndexEntry.title act) (ActIndexEntry.title act)
            (ActIndexEntry.shortName act) (ActIndexEntry.status act)
            (ActIndexEntry.issuedDate act) (ActIndexEntry.inForceDate act)
            (ActIndexEntry.url act)
            (Some (match currentTo with
                   | Some d =>
                       if truthy d
                       then description ++ lit ". Current to " ++ d ++ lit "."
                       else description
                   | None => description
                   end))
            provisions definitions))%run.

End WithEngine.

End InRealm.

(** [c] returns [v] from every realm.  It leaves the objects it found as
    they were, and each object it creates has [lastIndex = 0] when it
    returns: the loops over its matches have run to their final [null]. *)
Definition computes {A} (c : Run A) (v : A) : Prop :=
  forall realm,
    exists created out,
      c realm = (v, mkRealm (objects realm ++ created) out)
      /\ Forall (fun o => RegExpObject.lastIndex o = 0) created.

(** ** Facts about the matcher *)

Section MatcherFacts.
Variables icase dotall : bool.

Lemma orelse_some {A} (x : option A) (y : unit -> option A) (a : A) :
  orelse x y = Some a -> x = Some a \/ (x = None /\ y tt = Some a).
Proof. destruct x; simpl; intros H; [left | right]; auto. Qed.

Lemma lit_match_reaches p : forall pos rest pos' rest',
  lit_match icase p pos rest = Some (pos', rest') ->
  pos' = pos + length p /\ pos' + length rest' = pos + length rest.
Proof.
  induction p as [|a p IH]; simpl; intros pos rest pos' rest' H.
  - inversion H; subst; lia.
  - destruct rest as [|c rest]; [discriminate|].
    destruct (chr_match icase a c); [|discriminate].
    apply IH in H. simpl. lia.
Qed.

Lemma rep_exact_reaches n cl : forall pos rest pos' rest',
  rep_exact dotall n cl pos rest = Some (pos', rest') ->
  pos' = pos + n /\ pos' + length rest' = pos + length rest.
Proof.
  induction n as [|n IH]; simpl; intros pos rest pos' rest' H.
  - inversion H; subst; lia.
  - destruct rest as [|c rest]; [discriminate|].
    destruct (cls_match dotall cl c); [|discriminate].
    apply IH in H. simpl. lia.
Qed.

Lemma star_greedy_reaches cl k res : forall rest pos caps,
  star_greedy dotall cl pos rest caps k = Some res ->
  exists st', k st' = Some res /\ reaches (mkState pos rest caps) 0 st'.
Proof.
  induction rest as [|c rest IH]; simpl; intros pos caps H.
  - eexists; split; [exact H|]. unfold reaches; simpl; lia.
  - destruct (cls_match dotall cl c).
    + apply orelse_some in H. destruct H as [H | [_ H]].
      * apply IH in H. destruct H as (st' & Hk & Hr).
        exists st'; split; auto. unfold reaches in *; simpl in *; lia.
      * eexists; split; [exact H|]. unfold reaches; simpl; lia.
    + eexists; split; [exact H|]. unfold reaches; simpl; lia.
Qed.

Lemma star_lazy_reaches cl k res : forall rest pos caps,
  star_lazy dotall cl pos rest caps k = Some res ->
  exists st', k st' = Some res /\ reaches (mkState pos rest caps) 0 st'.
Proof.
  induction rest as [|c rest IH]; simpl; intros pos caps H.
  - apply orelse_some in H. destruct H as [H | [_ H]]; [|discriminate].
    eexists; split; [exact H|]. unfold reaches; simpl; lia.
  - apply orelse_some in H. destruct H as [H | [_ H]].
    + eexists; split; [exact H|]. unfold reaches; simpl; lia.
    + destruct (cls_match dotall cl c); [|discriminate].
      apply IH in H. destruct H as (st' & Hk & Hr).
      exists st'; split; auto. unfold reaches in *; simpl in *; lia.
Qed.

Lemma rmatch_reaches r : forall st k res,
  rmatch icase dotall r st k = Some res ->
  exists st', k st' = Some res /\ reaches st (minlen r) st'.
Proof.
  induction r; intros st k res H; simpl in H.
  - destruct (lit_match icase s (mpos st) (mrest st)) as [[pos' rest']|] eqn:E;
      [|discriminate].
    apply lit_match_reaches in E. eexists; split; [exact H|].
    unfold reaches; simpl; lia.
  - destruct st as [pos rest caps]; simpl in *.
    destruct rest as [|c0 rest]; [discriminate|].
    destruct (cls_match dotall c c0); [|discriminate].
    eexists; split; [exact H|]. unfold reaches; simpl; lia.
  - apply IHr1 in H. destruct H as (st1 & H & R1).
    apply IHr2 in H. destruct H as (st2 & H & R2).
    exists st2; split; auto. unfold reaches in *; simpl; lia.
  - apply orelse_some in H. destruct H as [H | [_ H]].
    + apply IHr1 in H. destruct H as (st1 & H & R1).
      exists st1; split; auto. unfold reaches in *; simpl; lia.
    + apply IHr2 in H. destruct H as (st1 & H & R1).
      exists st1; split; auto. unfold reaches in *; simpl; lia.
  - apply orelse_some in H. destruct H as [H | [_ H]].
    + apply IHr in H. destruct H as (st1 & H & R1).
      destruct (Nat.eqb (mpos st1) (mpos st)); [discriminate|].
      exists st1; split; auto. unfold reaches in *; simpl; lia.
    + exists st; split; auto. unfold reaches; simpl; lia.
  - destruct st as [pos rest caps]; simpl in *.
    apply star_greedy_reaches in H. exact H.
  - destruct st as [pos rest caps]; simpl in *.
    destruct rest as [|c0 rest]; [discriminate|].
    destruct (cls_match dotall c c0); [|discriminate].
    apply star_greedy_reaches in H. destruct H as (st' & Hk & Hr).
    exists st'; split; auto. unfold reaches in *; simpl in *; lia.
  - destruct st as [pos rest caps]; simpl in *.
    apply star_lazy_reaches in H. exact H.
  - destruct (rep_exact dotall n c (mpos st) (mrest st)) as [[pos' rest']|] eqn:E;
      [|discriminate].
    apply rep_exact_reaches in E. eexists; split; [exact H|].
    unfold reaches; simpl; lia.
  - apply IHr in H. destruct H as (st1 & H & R1).
    eexists; split; [exact H|]. unfold reaches in *; simpl in *; lia.
  - destruct (rmatch icase dotall r st (fun st' => Some st')) as [st1|] eqn:E;
      [|discriminate].
    eexists; split; [exact H|]. unfold reaches; simpl; lia.
  - destruct (Nat.eqb (mpos st) 0); [|discriminate].
    exists st; split; auto. unfold reaches; simpl; lia.
  - destruct (mrest st) eqn:E; [|discriminate].
    exists st; split; auto. unfold reaches; simpl; lia.
Qed.

End MatcherFacts.

Lemma search_from_eq re pos rest :
  search_from re pos rest =
  match match_at (ignoreCase re) (dotAll re) (source re) pos rest with
  | Some st =>
      Some (mkMatch pos (mpos st) (firstn (mpos st - pos) rest) (mcaps st))
  | None =>
      match rest with
      | [] => None
      | _ :: rest' => search_from re (S pos) rest'
      end
  end.
Proof. destruct rest; reflexivity. Qed.

Lemma search_from_bounds re : forall rest pos m,
  search_from re pos rest = Some m ->
  pos <= index m /\ index m + minlen (source re) <= mend m
  /\ mend m <= pos + length rest.
Proof.
  induction rest as [|c rest IH]; intros pos m H; rewrite search_from_eq in H;
    unfold match_at in H;
    destruct (rmatch _ _ _ _ _) as [st|] eqn:E.
  - apply rmatch_reaches in E. destruct E as (st' & E & Hle & Hlen).
    inversion E; subst st'. inversion H; subst m; simpl in *. lia.
  - discriminate.
  - apply rmatch_reaches in E. destruct E as (st' & E & Hle & Hlen).
    inversion E; subst st'. inversion H; subst m; simpl in *. lia.
  - apply IH in H. simpl. lia.
Qed.

Lemma exec_bounds re s li m :
  exec re s li = Some m ->
  li <= index m /\ index m + minlen (source re) <= mend m /\ mend m <= length s.
Proof.
  unfold exec. destruct (Nat.ltb_spec (length s) li) as [Hlt|Hle]; [discriminate|].
  intros H. apply search_from_bounds in H.
  rewrite length_skipn in H. lia.
Qed.

(** The loop reaches its final [null] within [length s + 1] iterations when
    every match consumes a character: [exec_loop] then computes the run of
    the source's [while] loop. *)
Lemma exec_loop_run re s :
  0 < minlen (source re) ->
  forall fuel li, length s < fuel + li -> ExecRun re s li (exec_loop fuel re s li).
Proof.
  intros Hmin. induction fuel as [|fuel IH]; intros li Hf; simpl.
  - apply run_null. unfold exec.
    destruct (Nat.ltb_spec (length s) li); [reflexivity | lia].
  - destruct (exec re s li) as [m|] eqn:E.
    + apply run_match; [exact E|]. apply IH.
      apply exec_bounds in E. lia.
    + apply run_null. exact E.
Qed.

Lemma exec_all_complete re s :
  0 < minlen (source re) -> ExecRun re s 0 (exec_all re s).
Proof. intros H. apply exec_loop_run; [exact H | lia]. Qed.

(** Every [g] expression of the parser consumes a character per match, so
    each of its loops runs to its final [null]: the parser is total. *)
Lemma global_expressions_consume :
  Forall (fun re => global re = true /\ 0 < minlen (source re)) globalExpressions.
Proof.
  unfold globalExpressions.
  repeat (constructor; [split; [reflexivity | vm_compute; lia]|]).
  constructor.
Qed.

Lemma global_runs_complete re s :
  In re globalExpressions -> ExecRun re s 0 (exec_all re s).
Proof.
  intros Hin. apply exec_all_complete.
  pose proof global_expressions_consume as H. rewrite Forall_forall in H.
  apply (H re Hin).
Qed.

(** The matches of a run come in document order and do not overlap. *)
Lemma exec_loop_sorted re s :
  forall fuel li,
    Forall (fun m => li <= index m) (exec_loop fuel re s li)
    /\ StronglySorted (fun a b => mend a <= index b) (exec_loop fuel re s li).
Proof.
  induction fuel as [|fuel IH]; intros li; simpl.
  - split; constructor.
  - destruct (exec re s li) as [m|] eqn:E; [|split; constructor].
    destruct (IH (mend m)) as [Hall Hs].
    apply exec_bounds in E. split.
    + constructor; [lia|].
      eapply Forall_impl; [|exact Hall]. simpl; intros; lia.
    + constructor; assumption.
Qed.

Lemma exec_loop_consumes re s :
  forall fuel li,
    Forall (fun m => index m + minlen (source re) <= mend m /\ mend m <= length s)
      (exec_loop fuel re s li).
Proof.
  induction fuel as [|fuel IH]; intros li; simpl; [constructor|].
  destruct (exec re s li) as [m|] eqn:E; [|constructor].
  constructor; [|apply IH]. apply exec_bounds in E. lia.
Qed.

(** With matches that consume a character, the match offsets are strictly
    increasing. *)
Lemma exec_all_increasing re s :
  0 < minlen (source re) ->
  StronglySorted (fun a b => index a < index b) (exec_all re s).
Proof.
  intros Hmin. unfold exec_all.
  generalize (exec_loop_consumes re s (S (length s)) 0).
  destruct (exec_loop_sorted re s (S (length s)) 0) as [_ Hs].
  induction Hs as [|m ms Hs IH Hm]; intros Hc; constructor.
  - apply IH. inversion Hc; assumption.
  - inversion Hc; subst.
    rewrite Forall_forall in *. intros b Hb. specialize (Hm b Hb). lia.
Qed.

(** ** Facts about strings *)

Lemma char_eqb_eq a b : char_eqb a b = true <-> a = b.
Proof. unfold char_eqb. apply N.eqb_eq. Qed.

Lemma str_eqb_eq : forall a b, str_eqb a b = true <-> a = b.
Proof.
  induction a as [|x a IH]; destruct b as [|y b]; simpl; split; intros H;
    try reflexivity; try discriminate.
  - apply andb_true_iff in H. destruct H as [H1 H2].
    apply char_eqb_eq in H1. apply IH in H2. congruence.
  - inversion H; subst. apply andb_true_iff. split.
    + apply char_eqb_eq; reflexivity.
    + apply IH; reflexivity.
Qed.

Lemma str_eqb_refl a : str_eqb a a = true.
Proof. apply str_eqb_eq; reflexivity. Qed.

Lemma str_eqb_neq a b : str_eqb a b = false <-> a <> b.
Proof.
  split; intros H.
  - intros E. apply str_eqb_eq in E. congruence.
  - destruct (str_eqb a b) eqn:E; [|reflexivity].
    apply str_eqb_eq in E. contradiction.
Qed.

Lemma starts_with_spec : forall p s,
  starts_with p s = true <-> exists post, s = p ++ post.
Proof.
  induction p as [|x p IH]; simpl; intros s.
  - split; [intros _; exists s; reflexivity | reflexivity].
  - destruct s as [|y s].
    + split; [discriminate | intros [post H]; discriminate].
    + rewrite andb_true_iff, char_eqb_eq, IH. split.
      * intros [-> [post ->]]. exists post; reflexivity.
      * intros [post H]. inversion H; subst. split; [reflexivity|].
        exists post; reflexivity.
Qed.

(** [s.includes(p)] holds exactly when [p] occurs in [s]. *)
Lemma includes_spec p : forall s,
  includes s p = true <-> exists pre post, s = pre ++ p ++ post.
Proof.
  induction s as [|c s IH].
  - simpl. rewrite orb_false_r, starts_with_spec. split.
    + intros [post H]. exists [], post. exact H.
    + intros (pre & post & H). destruct pre as [|x pre]; [|discriminate].
      exists post. exact H.
  - cbn [includes]. rewrite orb_true_iff, starts_with_spec, IH. split.
    + intros [[post H] | (pre & post & H)].
      * exists [], post. exact H.
      * exists (c :: pre), post. simpl. rewrite H. reflexivity.
    + intros (pre & post & H). destruct pre as [|x pre].
      * left. exists post. exact H.
      * right. inversion H; subst. exists pre, post. reflexivity.
Qed.

Lemma substring_length s a b : length (substring s a b) <= Nat.max a b - Nat.min a b.
Proof.
  unfold substring. rewrite length_firstn. lia.
Qed.

Lemma substring_cap s n : length (substring s 0 n) <= n.
Proof. pose proof (substring_length s 0 n). lia. Qed.

(** ** Facts about arrays and maps *)

Lemma fold_left_push_map {A B} (f : A -> B) : forall l init,
  fold_left (fun arr x => push arr (f x)) l init = init ++ map f l.
Proof.
  induction l as [|x l IH]; intros init; simpl.
  - rewrite app_nil_r; reflexivity.
  - rewrite IH. unfold push. rewrite <- app_assoc. reflexivity.
Qed.

Lemma fold_left_append {A B} (step : list B -> A -> list B) (g : A -> list B) :
  (forall arr x, step arr x = arr ++ g x) ->
  forall l init, fold_left step l init = init ++ flat_map g l.
Proof.
  intros Hstep. induction l as [|x l IH]; intros init; simpl.
  - rewrite app_nil_r; reflexivity.
  - rewrite IH, Hstep, <- app_assoc. reflexivity.
Qed.

Lemma fold_left_invariant {A S} (P : S -> Prop) (step : S -> A -> S) :
  (forall st x, P st -> P (step st x)) ->
  forall l st, P st -> P (fold_left step l st).
Proof.
  intros Hstep. induction l as [|x l IH]; intros st H; simpl; auto.
Qed.

Section MapFacts.
Variable V : Type.
Implicit Types (m : JsMap V) (k : jsstring) (v : V).

Lemma map_set_keys k v : forall m,
  map fst (map_set k v m) =
  if existsb (str_eqb k) (map fst m) then map fst m else map fst m ++ [k].
Proof.
  induction m as [|[k' v'] m IH]; simpl; [reflexivity|].
  destruct (str_eqb k k') eqn:E; simpl.
  - apply str_eqb_eq in E. subst. reflexivity.
  - rewrite IH. destruct (existsb _ _); reflexivity.
Qed.

Lemma existsb_str_In k (l : list jsstring) :
  existsb (str_eqb k) l = true <-> In k l.
Proof.
  rewrite existsb_exists. split.
  - intros (x & Hx & E). apply str_eqb_eq in E. subst. exact Hx.
  - intros H. exists k. split; [exact H | apply str_eqb_refl].
Qed.

Lemma map_set_NoDup k v m : NoDup (map fst m) -> NoDup (map fst (map_set k v m)).
Proof.
  intros H. rewrite map_set_keys.
  destruct (existsb (str_eqb k) (map fst m)) eqn:E; [exact H|].
  apply NoDup_app; [exact H | repeat constructor; simpl; tauto |].
  intros x Hx [Hk | []]. subst x.
  apply existsb_str_In in Hx. congruence.
Qed.

Lemma map_get_set k v k2 : forall m,
  map_get k2 (map_set k v m) = if str_eqb k2 k then Some v else map_get k2 m.
Proof.
  induction m as [|[k' v'] m IH]; simpl.
  - destruct (str_eqb k2 k); reflexivity.
  - destruct (str_eqb k k') eqn:E; simpl.
    + apply str_eqb_eq in E. subst k'. destruct (str_eqb k2 k); reflexivity.
    + rewrite IH. destruct (str_eqb k2 k') eqn:E2; [|reflexivity].
      apply str_eqb_eq in E2. subst k'.
      destruct (str_eqb k2 k) eqn:E3; [|reflexivity].
      apply str_eqb_eq in E3. subst. rewrite str_eqb_refl in E. discriminate.
Qed.

Lemma map_get_In k v : forall m, map_get k m = Some v -> In (k, v) m.
Proof.
  induction m as [|[k' v'] m IH]; simpl; [discriminate|].
  destruct (str_eqb k k') eqn:E.
  - apply str_eqb_eq in E. subst. intros H; inversion H; subst. left; reflexivity.
  - intros H. right. apply IH. exact H.
Qed.

Lemma In_map_get k v : forall m,
  NoDup (map fst m) -> In (k, v) m -> map_get k m = Some v.
Proof.
  induction m as [|[k' v'] m IH]; simpl; intros Hnd Hin; [contradiction|].
  inversion Hnd; subst.
  destruct Hin as [E | Hin].
  - inversion E; subst. rewrite str_eqb_refl. reflexivity.
  - destruct (str_eqb k k') eqn:E.
    + apply str_eqb_eq in E. subst k'. exfalso. apply H1.
      change k with (fst (k, v)). apply in_map. exact Hin.
    + apply IH; assumption.
Qed.

End MapFacts.

(** ** Facts about the marker lists *)

Lemma StronglySorted_flat_map {A B} (R : A -> A -> Prop) (R' : B -> B -> Prop)
  (g : A -> list B) :
  (forall x, StronglySorted R' (g x)) ->
  (forall x y, R x y -> forall a b, In a (g x) -> In b (g y) -> R' a b) ->
  forall l, StronglySorted R l -> StronglySorted R' (flat_map g l).
Proof.
  intros Hg HR. induction 1 as [|x l Hs IH Hx]; simpl; [constructor|].
  specialize (Hg x). revert Hg.
  assert (Hall : forall a, In a (g x) -> Forall (R' a) (flat_map g l)).
  { intros a Ha. apply Forall_forall. intros b Hb.
    apply in_flat_map in Hb. destruct Hb as (y & Hy & Hb).
    rewrite Forall_forall in Hx. eapply HR; eauto. }
  induction (g x) as [|a ga IHg]; simpl; intros Hg; [exact IH|].
  inversion Hg; subst. constructor.
  - apply IHg; [|assumption]. intros a' Ha'. apply Hall. right; exact Ha'.
  - apply Forall_app. split; [assumption|]. apply Hall. left; reflexivity.
Qed.

Lemma StronglySorted_nth {A} (R : A -> A -> Prop) (d : A) : forall l,
  StronglySorted R l ->
  forall i j, i < j -> j < length l -> R (nth i l d) (nth j l d).
Proof.
  induction 1 as [|x l Hs IH Hx]; intros i j Hij Hj; simpl in Hj; [lia|].
  destruct j as [|j]; [lia|]. destruct i as [|i]; simpl.
  - rewrite Forall_forall in Hx. apply Hx. apply nth_In. lia.
  - apply IH; lia.
Qed.

Lemma anchorRe_consumes : 0 < minlen (source Rx.anchorRe).
Proof. vm_compute. lia. Qed.

Lemma partRe_consumes : 0 < minlen (source Rx.partRe).
Proof. vm_compute. lia. Qed.

Lemma mnRe_consumes : 0 < minlen (source Rx.mnRe).
Proof. vm_compute. lia. Qed.

Lemma sectionAnchors_eq html :
  sectionAnchors html =
  map (fun m => Anchor.mk (group 1 m) (index m)) (exec_all Rx.anchorRe html).
Proof. unfold sectionAnchors. rewrite fold_left_push_map. reflexivity. Qed.

Lemma partPositions_eq html :
  partPositions html =
  map (fun m => Part.mk (stripHtml (group 1 m)) (index m)) (exec_all Rx.partRe html).
Proof. unfold partPositions. rewrite fold_left_push_map. reflexivity. Qed.

Lemma marginalNotes_eq html :
  marginalNotes html = flat_map noteOf (exec_all Rx.mnRe html).
Proof.
  unfold marginalNotes.
  rewrite fold_left_append with (g := noteOf); [reflexivity|].
  intros arr x. unfold noteOf, push.
  destruct (_ && _); [reflexivity | rewrite app_nil_r; reflexivity].
Qed.

(** The three marker lists are in document order: their offsets increase
    strictly. *)
Lemma sectionAnchors_sorted html :
  StronglySorted (fun a b => Anchor.pos a < Anchor.pos b) (sectionAnchors html).
Proof.
  rewrite sectionAnchors_eq.
  pose proof (exec_all_increasing Rx.anchorRe html anchorRe_consumes) as H.
  induction H as [|m ms Hs IH Hm]; simpl; constructor; [exact IH|].
  apply Forall_map. exact Hm.
Qed.

Lemma partPositions_sorted html :
  StronglySorted (fun a b => Part.pos a < Part.pos b) (partPositions html).
Proof.
  rewrite partPositions_eq.
  pose proof (exec_all_increasing Rx.partRe html partRe_consumes) as H.
  induction H as [|m ms Hs IH Hm]; simpl; constructor; [exact IH|].
  apply Forall_map. exact Hm.
Qed.

Lemma marginalNotes_sorted html :
  StronglySorted (fun a b => Note.pos a < Note.pos b) (marginalNotes html).
Proof.
  rewrite marginalNotes_eq.
  apply StronglySorted_flat_map
    with (R := fun a b : rmatch_result => index a < index b).
  - intros x. unfold noteOf. destruct (_ && _); repeat constructor.
  - intros x y Hxy a b. unfold noteOf.
    destruct (_ && _); [|contradiction].
    destruct (_ && _); [|contradiction].
    intros [<-|[]] [<-|[]]. exact Hxy.
  - apply exec_all_increasing. exact mnRe_consumes.
Qed.

(** Marginal notes that are empty or the bare label are not in the list. *)
Lemma noteOf_kept m mn :
  In mn (noteOf m) ->
  Note.title mn <> [] /\ Note.title mn <> lit "Marginal note:".
Proof.
  unfold noteOf. cbv zeta.
  destruct (truthy (stripHtml (group 1 m))) eqn:E1; [|intros []].
  cbn [andb].
  destruct (str_eqb (stripHtml (group 1 m)) (lit "Marginal note:")) eqn:E2;
    [intros []|].
  cbn [negb]. intros [<-|[]]. cbn [Note.title]. split.
  - intros E. rewrite E in E1. discriminate.
  - apply str_eqb_neq. exact E2.
Qed.

Lemma marginalNotes_kept html mn :
  In mn (marginalNotes html) ->
  Note.title mn <> [] /\ Note.title mn <> lit "Marginal note:".
Proof.
  rewrite marginalNotes_eq, in_flat_map. intros (m & _ & H).
  apply noteOf_kept in H. exact H.
Qed.

(** ** The chapter and title rules *)

Lemma updateChapter_lastBefore p : forall parts cur,
  updateChapter parts p cur =
  match lastBefore parts p with
  | Some q => Part.label q
  | None => cur
  end.
Proof.
  unfold updateChapter.
  induction parts as [|q parts IH]; intros cur; simpl; [reflexivity|].
  rewrite IH. destruct (lastBefore parts p); [reflexivity|].
  destruct (Part.pos q <? p); reflexivity.
Qed.

Lemma lastBefore_None parts p :
  lastBefore parts p = None <-> (forall q, In q parts -> p <= Part.pos q).
Proof.
  induction parts as [|q parts IH]; simpl.
  - split; [intros _ q [] | reflexivity].
  - destruct (lastBefore parts p) as [q'|].
    + split; [discriminate|]. intros H.
      destruct IH as [_ IH]. discriminate IH. intros q0 Hq0. apply H. right; exact Hq0.
    + destruct (Nat.ltb_spec (Part.pos q) p) as [Hlt|Hge].
      * split; [discriminate|]. intros H. specialize (H q (or_introl eq_refl)). lia.
      * split; [|reflexivity]. intros _ q0 [<-|Hq0]; [exact Hge|].
        apply IH; [reflexivity | exact Hq0].
Qed.

Lemma lastBefore_Some parts p q :
  StronglySorted (fun a b => Part.pos a < Part.pos b) parts ->
  lastBefore parts p = Some q ->
  In q parts /\ Part.pos q < p
  /\ (forall q', In q' parts -> Part.pos q' < p -> Part.pos q' <= Part.pos q).
Proof.
  induction 1 as [|q0 parts Hs IH Hq0]; simpl; [discriminate|].
  destruct (lastBefore parts p) as [q1|] eqn:E.
  - intros H; inversion H; subst q1.
    destruct (IH eq_refl) as (Hin & Hlt & Hmax).
    split; [right; exact Hin|]. split; [exact Hlt|].
    intros q' [<-|Hq'] Hq'p.
    + rewrite Forall_forall in Hq0. specialize (Hq0 q Hin). lia.
    + apply Hmax; assumption.
  - destruct (Nat.ltb_spec (Part.pos q0) p) as [Hlt|Hge]; [|discriminate].
    intros H; inversion H; subst q0.
    split; [left; reflexivity|]. split; [exact Hlt|].
    intros q' [<-|Hq'] Hq'p; [lia|].
    apply lastBefore_None with (q := q') in E; [lia | exact Hq'].
Qed.

Lemma chapterAt_rule parts p :
  StronglySorted (fun a b => Part.pos a < Part.pos b) parts ->
  ChapterRule parts p (chapterAt parts p).
Proof.
  intros Hs. unfold chapterAt. destruct (lastBefore parts p) as [q|] eqn:E.
  - left. exists q. destruct (lastBefore_Some parts p q Hs E) as (H1 & H2 & H3).
    repeat split; assumption.
  - right. split; [|reflexivity]. apply lastBefore_None. exact E.
Qed.

Lemma nearestNote_rule p : forall rnotes,
  StronglySorted (fun a b => Note.pos b < Note.pos a) rnotes ->
  TitleRule rnotes p (nearestNote rnotes p).
Proof.
  induction 1 as [|mn rest Hs IH Hmn]; simpl.
  - right. split; [intros mn [] | reflexivity].
  - rewrite Forall_forall in Hmn.
    destruct (Nat.ltb_spec (Note.pos mn) p) as [Hlt|Hge]; simpl.
    + destruct (Nat.ltb_spec (p - Note.pos mn) 2000) as [Hnear|Hfar].
      * left. exists mn. split; [left; reflexivity|].
        split; [exact Hlt|]. split; [exact Hnear|]. split; [|reflexivity].
        intros mn' [<-|Hin] _; [lia|]. specialize (Hmn mn' Hin). lia.
      * destruct IH as [(mn0 & Hin & H0 & H1 & H2 & H3) | [Hnone Ht]].
        -- specialize (Hmn mn0 Hin). lia.
        -- right. split; [|exact Ht].
           intros mn' [<-|Hin] Hp; [exact Hfar | apply Hnone; assumption].
    + destruct IH as [(mn0 & Hin & H0 & H1 & H2 & H3) | [Hnone Ht]].
      * left. exists mn0. split; [right; exact Hin|].
        split; [exact H0|]. split; [exact H1|]. split; [|exact H3].
        intros mn' [<-|Hin'] Hp; [lia | apply H2; assumption].
      * right. split; [|exact Ht].
        intros mn' [<-|Hin] Hp; [lia | apply Hnone; assumption].
Qed.

Lemma StronglySorted_rev {A} (R : A -> A -> Prop) : forall l,
  StronglySorted R l -> StronglySorted (fun a b => R b a) (rev l).
Proof.
  induction 1 as [|x l Hs IH Hx]; simpl; [constructor|].
  clear Hs. revert IH. generalize (rev_involutive l).
  assert (Hx' : Forall (R x) (rev l)).
  { apply Forall_forall. intros y Hy. rewrite Forall_forall in Hx.
    apply Hx. apply in_rev. exact Hy. }
  clear Hx. intros _. induction (rev l) as [|y rl IHr]; simpl; intros Hs.
  - repeat constructor.
  - inversion Hs; subst. inversion Hx'; subst. constructor.
    + apply IHr; assumption.
    + apply Forall_app. split; [assumption|]. repeat constructor. assumption.
Qed.

Lemma TitleRule_rev notes p t : TitleRule (rev notes) p t -> TitleRule notes p t.
Proof.
  intros [(mn & Hin & H0 & H1 & H2 & H3) | [Hnone Ht]].
  - left. exists mn. split; [apply in_rev; exact Hin|].
    repeat split; try assumption.
    intros mn' Hin' Hp. apply H2; [|exact Hp]. apply in_rev in Hin'. exact Hin'.
  - right. split; [|exact Ht]. intros mn Hin Hp. apply Hnone; [|exact Hp].
    apply in_rev in Hin. exact Hin.
Qed.

Lemma title_rule html p :
  TitleRule (marginalNotes html) p (nearestNote (rev (marginalNotes html)) p).
Proof.
  apply TitleRule_rev. apply nearestNote_rule.
  apply StronglySorted_rev with (R := fun a b => Note.pos a < Note.pos b).
  apply marginalNotes_sorted.
Qed.

(** ** Maps filled in index order *)

Section KeptMapFacts.
Variable V : Type.
Variable key : nat -> jsstring.
Variable data : nat -> V.
Variable keep : nat -> bool.

Lemma keptMap_S n :
  keptMap key data keep (S n) =
  if keep n then map_set (key n) (data n) (keptMap key data keep n)
  else keptMap key data keep n.
Proof. unfold keptMap. rewrite seq_S, fold_left_app. reflexivity. Qed.

Lemma keptMap_NoDup n : NoDup (map fst (keptMap key data keep n)).
Proof.
  induction n as [|n IH]; [constructor|].
  rewrite keptMap_S. destruct (keep n); [apply map_set_NoDup|]; exact IH.
Qed.

Lemma keptMap_get k n :
  map_get k (keptMap key data keep n) = option_map data (lastKept key keep n k).
Proof.
  induction n as [|n IH]; [reflexivity|].
  rewrite keptMap_S. cbn [lastKept]. destruct (keep n); cbn [andb].
  - rewrite map_get_set, IH. destruct (str_eqb k (key n)); reflexivity.
  - exact IH.
Qed.

Lemma sorted_snoc n : forall idxs,
  StronglySorted lt idxs -> Forall (fun i => i < n) idxs ->
  StronglySorted lt (idxs ++ [n]).
Proof.
  induction 1 as [|i idxs Hs IH Hi]; intros Hall; simpl.
  - repeat constructor.
  - inversion Hall; subst. constructor; [apply IH; assumption|].
    apply Forall_app. split; [exact Hi|]. repeat constructor. assumption.
Qed.

Lemma map_set_keys_In (k k' : jsstring) (v : V) (m : JsMap V) :
  In k (map fst (map_set k' v m)) <-> In k (map fst m) \/ k = k'.
Proof.
  rewrite map_set_keys.
  destruct (existsb (str_eqb k') (map fst m)) eqn:E.
  - apply existsb_str_In in E. split; [left; assumption|].
    intros [H | ->]; assumption.
  - rewrite in_app_iff. simpl. split.
    + intros [H | [<-|[]]]; [left; exact H | right; reflexivity].
    + intros [H | ->]; [left; exact H | right; left; reflexivity].
Qed.

Lemma keptMap_keys n k :
  In k (map fst (keptMap key data keep n)) <->
  exists j, j < n /\ keep j = true /\ key j = k.
Proof.
  induction n as [|n IH].
  - simpl. split; [intros [] | intros (j & Hj & _); lia].
  - rewrite keptMap_S. destruct (keep n) eqn:Hr.
    + rewrite map_set_keys_In, IH. split.
      * intros [(j & Hj & Hk & E) | ->].
        -- exists j. repeat split; [lia | exact Hk | exact E].
        -- exists n. repeat split; [lia | exact Hr].
      * intros (j & Hj & Hk & E). destruct (Nat.eq_dec j n) as [->|Hne].
        -- right. symmetry. exact E.
        -- left. exists j. repeat split; [lia | exact Hk | exact E].
    + rewrite IH. split; intros (j & Hj & Hk & E).
      * exists j. repeat split; [lia | exact Hk | exact E].
      * destruct (Nat.eq_dec j n) as [->|Hne]; [congruence|].
        exists j. repeat split; [lia | exact Hk | exact E].
Qed.

(** The keys of the map are those of the first kept index of each key, in
    the order of the indices. *)
Lemma keptMap_order n :
  exists idxs,
    StronglySorted lt idxs
    /\ (forall i, In i idxs <-> FirstKept key keep n i)
    /\ map fst (keptMap key data keep n) = map key idxs.
Proof.
  induction n as [|n IH].
  - exists []. split; [constructor|]. split; [|reflexivity].
    intros i. split; [intros [] | intros (Hi & _); lia].
  - destruct IH as (idxs & Hs & Hall & Hk).
    assert (Hold : forall i, i < n ->
                     (FirstKept key keep n i <-> FirstKept key keep (S n) i)).
    { intros i Hi. unfold FirstKept. split; intros (H1 & H2 & H3);
        (split; [lia | split; assumption]). }
    assert (Hbelow : Forall (fun i => i < n) idxs).
    { apply Forall_forall. intros i Hin. apply Hall in Hin.
      destruct Hin as (Hi & _). exact Hi. }
    rewrite keptMap_S. destruct (keep n) eqn:Hr.
    + rewrite map_set_keys.
      destruct (existsb (str_eqb (key n)) (map fst (keptMap key data keep n))) eqn:E.
      * exists idxs. split; [exact Hs|]. split; [|exact Hk].
        apply existsb_str_In, keptMap_keys in E. destruct E as (j & Hj & Hkj & Ej).
        intros i. rewrite Hall. split.
        -- intros H. pose proof H as (Hi & _). apply Hold; assumption.
        -- intros (Hi & Hki & Hfirst). destruct (Nat.eq_dec i n) as [->|Hne].
           ++ exfalso. apply (Hfirst j Hj Hkj Ej).
           ++ split; [lia | split; assumption].
      * exists (idxs ++ [n]). split; [apply sorted_snoc; assumption|].
        split; [|rewrite Hk, map_app; reflexivity].
        assert (Hnew : forall j, j < n -> keep j = true -> key j <> key n).
        { intros j Hj Hkj Ej.
          assert (Hin : In (key n) (map fst (keptMap key data keep n))).
          { apply keptMap_keys. exists j. repeat split; assumption. }
          apply existsb_str_In in Hin. congruence. }
        intros i. rewrite in_app_iff, Hall. split.
        -- intros [H | [<-|[]]].
           ++ pose proof H as (Hi & _). apply Hold; assumption.
           ++ split; [lia | split; assumption].
        -- intros (Hi & Hki & Hfirst). destruct (Nat.eq_dec i n) as [->|Hne].
           ++ right. left. reflexivity.
           ++ left. split; [lia | split; assumption].
    + exists idxs. split; [exact Hs|]. split; [|exact Hk].
      intros i. rewrite Hall. split.
      * intros H. pose proof H as (Hi & _). apply Hold; assumption.
      * intros (Hi & Hki & Hfirst). destruct (Nat.eq_dec i n) as [->|Hne];
          [congruence|]. split; [lia | split; assumption].
Qed.

Lemma lastKept_Some k : forall n i,
  lastKept key keep n k = Some i ->
  i < n /\ keep i = true /\ key i = k
  /\ (forall j, i < j -> j < n -> keep j = true -> key j <> k).
Proof.
  induction n as [|n IH]; intros i H; cbn [lastKept] in H; [discriminate|].
  destruct (keep n && str_eqb k (key n)) eqn:E.
  - inversion H; subst i. apply andb_true_iff in E. destruct E as [E1 E2].
    apply str_eqb_eq in E2. split; [lia|]. split; [exact E1|].
    split; [congruence|]. intros j H1 H2. lia.
  - destruct (IH i H) as (H1 & H2 & H3 & H4).
    split; [lia|]. split; [exact H2|]. split; [exact H3|].
    intros j Hij Hj Hr. destruct (Nat.eq_dec j n) as [->|Hne].
    + rewrite Hr in E. cbn [andb] in E. apply str_eqb_neq in E. congruence.
    + apply H4; [exact Hij | lia | exact Hr].
Qed.

Lemma lastKept_intro k : forall n i,
  i < n -> keep i = true -> key i = k ->
  (forall j, i < j -> j < n -> keep j = true -> key j <> k) ->
  lastKept key keep n k = Some i.
Proof.
  induction n as [|n IH]; intros i Hi Hr Hk Hlast; [lia|].
  cbn [lastKept].
  destruct (Nat.eq_dec i n) as [->|Hne].
  - rewrite Hr, <- Hk, str_eqb_refl. reflexivity.
  - destruct (keep n && str_eqb k (key n)) eqn:E.
    + apply andb_true_iff in E. destruct E as [E1 E2]. apply str_eqb_eq in E2.
      exfalso. apply (Hlast n); [lia | lia | exact E1 | congruence].
    + apply IH; [lia | exact Hr | exact Hk |].
      intros j H1 H2. apply Hlast; lia.
Qed.

(** The entries of the map: one per key, from the last kept index carrying
    that key. *)
Lemma keptMap_In n k d :
  In (k, d) (keptMap key data keep n) <->
  exists i, lastKept key keep n k = Some i /\ d = data i.
Proof.
  split.
  - intros H. apply In_map_get in H; [|apply keptMap_NoDup].
    rewrite keptMap_get in H.
    destruct (lastKept key keep n k) as [i|]; [|discriminate].
    exists i. split; [reflexivity|]. inversion H; reflexivity.
  - intros (i & Hi & ->). apply map_get_In.
    rewrite keptMap_get, Hi. reflexivity.
Qed.

End KeptMapFacts.

(** ** The loop of [extractSections] *)

Section LoopFacts.
Variable html : jsstring.

Lemma loopAfter_S n :
  loopAfter html (S n) =
  sectionIteration html (sectionAnchors html) (partPositions html)
    (marginalNotes html) (loopAfter html n) n.
Proof. unfold loopAfter. rewrite seq_S, fold_left_app. reflexivity. Qed.

Lemma iteration_chapter anchors parts notes st i :
  currentChapter (sectionIteration html anchors parts notes st i) =
  updateChapter parts (Anchor.pos (nth i anchors noAnchor)) (currentChapter st).
Proof.
  unfold sectionIteration. cbv zeta.
  destruct (length _ <? 10); reflexivity.
Qed.

Lemma anchors_mono i j :
  i <= j -> j < length (sectionAnchors html) ->
  Anchor.pos (anchorAt html i) <= Anchor.pos (anchorAt html j).
Proof.
  intros Hij Hj. destruct (Nat.eq_dec i j) as [->|Hne]; [lia|].
  apply Nat.lt_le_incl. unfold anchorAt.
  apply (StronglySorted_nth (fun a b => Anchor.pos a < Anchor.pos b));
    [apply sectionAnchors_sorted | lia | exact Hj].
Qed.

Lemma lastBefore_None_mono parts p p' :
  p <= p' -> lastBefore parts p' = None -> lastBefore parts p = None.
Proof.
  intros Hle H. apply lastBefore_None. intros q Hq.
  apply (proj1 (lastBefore_None parts p') H) in Hq. lia.
Qed.

(** The chapter carried by the loop is, at each anchor, the chapter of that
    anchor alone: nothing is inherited from the anchors before it. *)
Lemma loop_chapter n :
  n < length (sectionAnchors html) ->
  currentChapter (loopAfter html (S n)) =
  chapterAt (partPositions html) (Anchor.pos (anchorAt html n)).
Proof.
  induction n as [|n IH]; intros Hn; rewrite loopAfter_S, iteration_chapter,
    updateChapter_lastBefore; fold (anchorAt html 0); unfold chapterAt.
  - reflexivity.
  - fold (anchorAt html (S n)).
    destruct (lastBefore _ (Anchor.pos (anchorAt html (S n)))) eqn:E; [reflexivity|].
    rewrite IH by lia. unfold chapterAt.
    rewrite (lastBefore_None_mono (partPositions html)
               (Anchor.pos (anchorAt html n)) (Anchor.pos (anchorAt html (S n))));
      [reflexivity | apply anchors_mono; lia | exact E].
Qed.

Lemma loop_chapter_before n :
  n < length (sectionAnchors html) ->
  updateChapter (partPositions html) (Anchor.pos (anchorAt html n))
    (currentChapter (loopAfter html n)) =
  chapterAt (partPositions html) (Anchor.pos (anchorAt html n)).
Proof.
  intros Hn. rewrite <- loop_chapter by exact Hn.
  rewrite loopAfter_S, iteration_chapter. reflexivity.
Qed.

Lemma loop_sections n :
  n < length (sectionAnchors html) ->
  sections (loopAfter html (S n)) =
  if retained html n
  then map_set (Anchor.num (anchorAt html n)) (anchorData html n)
         (sections (loopAfter html n))
  else sections (loopAfter html n).
Proof.
  intros Hn. rewrite loopAfter_S.
  unfold retained, anchorData, anchorText, nextAnchorPos.
  rewrite <- (loop_chapter_before n Hn).
  unfold anchorAt, sectionIteration. cbv zeta.
  destruct (length _ <? 10); cbn [negb sections]; reflexivity.
Qed.

(** The section map after [n] iterations is the map of the per-anchor
    entries. *)
Lemma loop_keptMap n :
  n <= length (sectionAnchors html) ->
  sections (loopAfter html n) =
  keptMap (fun i => Anchor.num (anchorAt html i)) (anchorData html)
    (retained html) n.
Proof.
  induction n as [|n IH]; intros Hn; [reflexivity|].
  rewrite loop_sections, keptMap_S, IH by lia. reflexivity.
Qed.

Lemma extractSections_loop :
  extractSections html = sections (loopAfter html (length (sectionAnchors html))).
Proof.
  unfold extractSections. cbv zeta.
  destruct (Nat.eqb_spec (length (sectionAnchors html)) 0) as [E|E].
  - rewrite E. reflexivity.
  - reflexivity.
Qed.

Lemma extractSections_keptMap :
  extractSections html =
  keptMap (fun i => Anchor.num (anchorAt html i)) (anchorData html)
    (retained html) (length (sectionAnchors html)).
Proof. rewrite extractSections_loop. apply loop_keptMap. lia. Qed.

Lemma extractSections_NoDup : NoDup (map fst (extractSections html)).
Proof. rewrite extractSections_keptMap. apply keptMap_NoDup. Qed.

(** The entries of the section map: one per number, from the last kept
    anchor carrying that number. *)
Lemma extractSections_In k d :
  In (k, d) (extractSections html) <->
  exists i, lastRetained html (length (sectionAnchors html)) k = Some i
            /\ d = anchorData html i.
Proof. rewrite extractSections_keptMap. apply keptMap_In. Qed.

Lemma lastRetained_Some k n i :
  lastRetained html n k = Some i ->
  i < n /\ retained html i = true /\ Anchor.num (anchorAt html i) = k
  /\ (forall j, i < j -> j < n -> retained html j = true ->
                Anchor.num (anchorAt html j) <> k).
Proof.
  apply (lastKept_Some (fun i => Anchor.num (anchorAt html i)) (retained html)).
Qed.

Lemma lastRetained_intro k n i :
  i < n -> retained html i = true -> Anchor.num (anchorAt html i) = k ->
  (forall j, i < j -> j < n -> retained html j = true ->
             Anchor.num (anchorAt html j) <> k) ->
  lastRetained html n k = Some i.
Proof.
  apply (lastKept_intro (fun i => Anchor.num (anchorAt html i)) (retained html)).
Qed.

End LoopFacts.

(** ** The schedule and definition loops *)

Section ScheduleFacts.
Context {engine : Engine}.

Lemma headingIteration_app scheduleHtml scheduleLabel scheduleTitle headings
  provisions i :
  headingIteration scheduleHtml scheduleLabel scheduleTitle headings provisions i =
  provisions
  ++ headingProvisions scheduleHtml scheduleLabel scheduleTitle headings i.
Proof.
  unfold headingProvisions, headingIteration. cbv zeta.
  destruct (10 <? length _); [reflexivity|].
  rewrite app_nil_r. reflexivity.
Qed.

Lemma heading_loop scheduleHtml scheduleLabel scheduleTitle headings provisions idxs :
  fold_left (headingIteration scheduleHtml scheduleLabel scheduleTitle headings)
    idxs provisions =
  provisions
  ++ flat_map (headingProvisions scheduleHtml scheduleLabel scheduleTitle headings)
       idxs.
Proof.
  apply fold_left_append. intros arr x. apply headingIteration_app.
Qed.

Lemma scheduleIteration_app provisions schedMatch :
  scheduleIteration provisions schedMatch =
  provisions ++ scheduleProvisions schedMatch.
Proof.
  unfold scheduleProvisions, scheduleIteration. cbv zeta.
  destruct (match_first Rx.scheduleLabel _) as [labelMatch|];
    [|rewrite app_nil_r; reflexivity].
  destruct (0 <? length _).
  - rewrite !heading_loop. reflexivity.
  - destruct (10 <? length _); [reflexivity|].
    rewrite app_nil_r. reflexivity.
Qed.

(** The schedule provisions: those of each schedule block, block after
    block. *)
Lemma extractSchedules_eq html :
  fst (extractSchedules html) =
  flat_map scheduleProvisions (exec_all Rx.scheduleRe html).
Proof.
  unfold extractSchedules. cbn [fst].
  rewrite fold_left_append with (g := scheduleProvisions); [reflexivity|].
  intros arr x. apply scheduleIteration_app.
Qed.

Lemma extractSchedules_definitions html : snd (extractSchedules html) = [].
Proof. reflexivity. Qed.

Lemma headingProvisions_derived scheduleHtml scheduleLabel scheduleTitle headings i p :
  In p (headingProvisions scheduleHtml scheduleLabel scheduleTitle headings i) ->
  ScheduleDerived p.
Proof.
  unfold headingProvisions, headingIteration. cbv zeta.
  match goal with |- context [stripHtml ?b] => generalize b end. intros block.
  destruct (Nat.ltb_spec 10 (length (stripHtml block))) as [Hlen|Hlen];
    [|intros []].
  intros [<-|[]]. split.
  - cbn [ParsedProvision.provision_ref]. eexists. reflexivity.
  - exists block. split; [exact Hlen | reflexivity].
Qed.

Lemma scheduleProvisions_derived schedMatch p :
  In p (scheduleProvisions schedMatch) -> ScheduleDerived p.
Proof.
  unfold scheduleProvisions, scheduleIteration. cbv zeta.
  destruct (match_first Rx.scheduleLabel _) as [labelMatch|]; [|intros []].
  destruct (0 <? length _).
  - rewrite heading_loop. cbn [app]. rewrite in_flat_map.
    intros (i & _ & Hp). eapply headingProvisions_derived. exact Hp.
  - match goal with |- context [stripHtml (replace ?re ?x ?b)] =>
      generalize (replace re x b) end.
    intros block.
    destruct (Nat.ltb_spec 10 (length (stripHtml block))) as [Hlen|Hlen];
      [|intros []].
    intros [<-|[]]. split.
    + cbn [ParsedProvision.provision_ref]. eexists. reflexivity.
    + exists block. split; [exact Hlen | reflexivity].
Qed.

Lemma extractSchedules_derived html p :
  In p (fst (extractSchedules html)) -> ScheduleDerived p.
Proof.
  rewrite extractSchedules_eq, in_flat_map.
  intros (m & _ & Hp). eapply scheduleProvisions_derived. exact Hp.
Qed.

End ScheduleFacts.

Lemma definitionIteration_app sectionNum defs m :
  definitionIteration sectionNum defs m = defs ++ definitionOf sectionNum m.
Proof.
  unfold definitionOf, definitionIteration. cbv zeta.
  destruct (match_first Rx.dfn _) as [termMatch|];
    [|rewrite app_nil_r; reflexivity].
  destruct (truthy _ && truthy _); [reflexivity|].
  rewrite app_nil_r. reflexivity.
Qed.

(** The definitions: that of each qualifying block, block after block. *)
Lemma extractDefinitions_eq html sectionNum :
  extractDefinitions html sectionNum =
  flat_map (definitionOf sectionNum) (exec_all Rx.defRe html).
Proof.
  unfold extractDefinitions.
  rewrite fold_left_append with (g := definitionOf sectionNum); [reflexivity|].
  intros arr x. apply definitionIteration_app.
Qed.

Lemma definitionOf_source sectionNum m d :
  In d (definitionOf sectionNum m) ->
  ParsedDefinition.source_provision d = Some (lit "s" ++ sectionNum).
Proof.
  unfold definitionOf, definitionIteration. cbv zeta.
  destruct (match_first Rx.dfn _) as [termMatch|]; [|intros []].
  destruct (truthy _ && truthy _); [|intros []].
  intros [<-|[]]. reflexivity.
Qed.

Lemma defRe_consumes : 0 < minlen (source Rx.defRe).
Proof. vm_compute. lia. Qed.

Lemma scheduleRe_consumes : 0 < minlen (source Rx.scheduleRe).
Proof. vm_compute. lia. Qed.

Lemma headingRe_consumes : 0 < minlen (source Rx.headingRe).
Proof. vm_compute. lia. Qed.

(** ** The numbers of the section anchors *)

Lemma search_from_match re : forall rest pos m,
  search_from re pos rest = Some m ->
  exists p r st,
    match_at (ignoreCase re) (dotAll re) (source re) p r = Some st
    /\ groups m = mcaps st.
Proof.
  induction rest as [|c rest IH]; intros pos m H; rewrite search_from_eq in H;
    destruct (match_at _ _ _ _ _) as [st|] eqn:E.
  - inversion H; subst m. exists pos, [], st. split; [exact E | reflexivity].
  - discriminate.
  - inversion H; subst m. exists pos, (c :: rest), st. split; [exact E | reflexivity].
  - apply IH in H. exact H.
Qed.

Lemma exec_loop_matches re s : forall fuel li,
  Forall (fun m => exists p r st,
            match_at (ignoreCase re) (dotAll re) (source re) p r = Some st
            /\ groups m = mcaps st)
    (exec_loop fuel re s li).
Proof.
  induction fuel as [|fuel IH]; intros li; cbn [exec_loop]; [constructor|].
  destruct (exec re s li) as [m|] eqn:E; [|constructor].
  constructor; [|apply IH].
  unfold exec in E. destruct (length s <? li); [discriminate|].
  apply search_from_match in E. exact E.
Qed.

Lemma rmatch_plus_head icase dotall cl r st k res :
  rmatch icase dotall (RSeq (RPlus cl) r) st k = Some res ->
  exists c tl, mrest st = c :: tl /\ cls_match dotall cl c = true.
Proof.
  cbn [rmatch]. destruct (mrest st) as [|c tl]; [discriminate|].
  destruct (cls_match dotall cl c) eqn:E; [|discriminate].
  intros _. exists c, tl. split; [reflexivity | exact E].
Qed.

(** A match of the anchor expression captures a number that starts with a
    digit. *)
Lemma anchor_capture pos rest st :
  match_at false false (source Rx.anchorRe) pos rest = Some st ->
  exists d tl, group_lookup 1 (mcaps st) = Some (d :: tl) /\ is_digit d = true.
Proof.
  unfold match_at, Rx.anchorRe. cbn [source].
  remember (RSeq (RPlus CDigit) (ROpt (RSeq (RLit (lit ".")) (RPlus CDigit))))
    as number eqn:Hnumber.
  cbn [rmatch mpos mrest mcaps].
  destruct (lit_match false _ pos rest) as [[pos1 rest1]|]; [|discriminate].
  intros H. subst number.
  destruct (rmatch_plus_head _ _ _ _ _ _ _ H) as (d & tl & Hrest & Hd).
  cbn [mrest] in Hrest. subst rest1.
  apply rmatch_reaches in H. destruct H as (st1 & H & Hpos & _).
  cbn [mpos mrest mcaps minlen length] in H, Hpos.
  destruct (lit_match false _ _ _) as [[pos2 rest2]|]; [|discriminate].
  inversion H; subst st. cbn [mcaps group_lookup Nat.eqb].
  exists d. destruct (mpos st1 - pos1) as [|n] eqn:E; [lia|].
  exists (firstn n tl). split; [reflexivity | exact Hd].
Qed.

Lemma sectionAnchors_digit html a :
  In a (sectionAnchors html) ->
  exists d tl, Anchor.num a = d :: tl /\ is_digit d = true.
Proof.
  rewrite sectionAnchors_eq, in_map_iff. intros (m & <- & Hm).
  pose proof (exec_loop_matches Rx.anchorRe html (S (length html)) 0) as Hall.
  rewrite Forall_forall in Hall. destruct (Hall m Hm) as (p & r & st & Hst & Hg).
  apply anchor_capture in Hst. destruct Hst as (d & tl & Hcap & Hd).
  exists d, tl. split; [|exact Hd].
  cbn [Anchor.num]. unfold group. rewrite Hg, Hcap. reflexivity.
Qed.

(** Section keys and schedule keys are in different namespaces. *)
Lemma section_key_not_schedule d tl rest :
  is_digit d = true -> lit "s" ++ d :: tl <> lit "sched-" ++ rest.
Proof.
  intros Hd E. vm_compute in E. inversion E; subst d. discriminate.
Qed.

(** ** The assembled document *)

Section ParseFacts.
Context {engine : Engine}.

Lemma parse_not_found html act out :
  hasMarker html = true ->
  fst (parseFullTextHtml html act out) = notFoundAct act.
Proof.
  unfold parseFullTextHtml, hasMarker. intros ->. reflexivity.
Qed.

Lemma parse_provisions html act out :
  ParsedAct.provisions (fst (parseFullTextHtml html act out)) =
  if hasMarker html then []
  else map sectionProvision (extractSections html) ++ fst (extractSchedules html).
Proof.
  unfold parseFullTextHtml, hasMarker.
  destruct (includes html _ || includes html _); [reflexivity|].
  cbv zeta. cbn [ret fst ParsedAct.provisions].
  rewrite fold_left_push_map. reflexivity.
Qed.

Lemma parse_definitions html act out :
  ParsedAct.definitions (fst (parseFullTextHtml html act out)) =
  if hasMarker html then [] else extractDefinitions html (lit "2").
Proof.
  unfold parseFullTextHtml, hasMarker.
  destruct (includes html _ || includes html _); [reflexivity|].
  cbv zeta. cbn [ret fst ParsedAct.definitions snd extractSchedules].
  rewrite app_nil_r. reflexivity.
Qed.

End ParseFacts.

(** ** Where the provisions of the document come from *)

Lemma sectionProvision_ref k d :
  ParsedProvision.provision_ref (sectionProvision (k, d)) = lit "s" ++ k.
Proof. reflexivity. Qed.

Lemma sectionProvision_section k d :
  ParsedProvision.section (sectionProvision (k, d)) = k.
Proof. reflexivity. Qed.

Lemma sectionProvision_title k d :
  ParsedProvision.title (sectionProvision (k, d)) = SectionData.title d.
Proof. reflexivity. Qed.

Lemma sectionProvision_content k d :
  ParsedProvision.content (sectionProvision (k, d)) = SectionData.content d.
Proof. reflexivity. Qed.

(** [data.chapter || undefined], read back as text, is [data.chapter]. *)
Lemma sectionProvision_chapter k d :
  chapterText (sectionProvision (k, d)) = SectionData.chapter d.
Proof.
  unfold chapterText, sectionProvision. cbn [ParsedProvision.chapter].
  destruct (SectionData.chapter d); reflexivity.
Qed.

Lemma retained_length html i :
  retained html i = true <-> 10 <= length (anchorText html i).
Proof.
  unfold retained. generalize (length (anchorText html i)). intros n.
  rewrite negb_true_iff, Nat.ltb_ge. reflexivity.
Qed.

Lemma anchorAt_In html i :
  i < length (sectionAnchors html) -> In (anchorAt html i) (sectionAnchors html).
Proof. intros H. unfold anchorAt. apply nth_In. exact H. Qed.

Lemma anchorAt_key html i :
  i < length (sectionAnchors html) ->
  SectionKey (lit "s" ++ Anchor.num (anchorAt html i)).
Proof.
  intros H. apply anchorAt_In, sectionAnchors_digit in H.
  destruct H as (d & tl & -> & Hd). exists d, tl. split; [exact Hd | reflexivity].
Qed.

Lemma SectionKey_not_ScheduleKey ref : SectionKey ref -> ~ ScheduleKey ref.
Proof.
  intros (d & tl & Hd & ->) [rest E].
  exact (section_key_not_schedule d tl rest Hd E).
Qed.

Lemma lit_s_inj a b : lit "s" ++ a = lit "s" ++ b -> a = b.
Proof. apply app_inv_head. Qed.

(** Every entry of the section map comes from the last kept anchor that
    carries its number. *)
Lemma section_entry_origin html k d :
  In (k, d) (extractSections html) ->
  exists i,
    i < length (sectionAnchors html)
    /\ lastRetained html (length (sectionAnchors html)) k = Some i
    /\ Anchor.num (anchorAt html i) = k
    /\ retained html i = true
    /\ d = anchorData html i.
Proof.
  intros H. apply extractSections_In in H. destruct H as (i & Hi & ->).
  exists i. destruct (lastRetained_Some html k _ i Hi) as (H1 & H2 & H3 & _).
  repeat split; assumption.
Qed.

Section OriginFacts.
Context {engine : Engine}.

(** Every provision of the document is a section provision, taken from the
    last kept anchor with its number, or a schedule provision. *)
Lemma provision_origin html act out p :
  In p (ParsedAct.provisions (fst (parseFullTextHtml html act out))) ->
  (exists i,
     i < length (sectionAnchors html)
     /\ lastRetained html (length (sectionAnchors html))
          (Anchor.num (anchorAt html i)) = Some i
     /\ retained html i = true
     /\ p = sectionProvision (Anchor.num (anchorAt html i), anchorData html i))
  \/ (In p (fst (extractSchedules html)) /\ ScheduleDerived p).
Proof.
  rewrite parse_provisions. destruct (hasMarker html); [intros []|].
  rewrite in_app_iff, in_map_iff. intros [([k d] & <- & Hin) | Hin].
  - left. apply section_entry_origin in Hin.
    destruct Hin as (i & H1 & H2 & H3 & H4 & ->). subst k.
    exists i. repeat split; assumption.
  - right. split; [exact Hin|]. apply extractSchedules_derived in Hin. exact Hin.
Qed.

(** Conversely, the last kept anchor of each number has its provision in
    the document of a page that is not a 404 page. *)
Lemma provision_of_anchor html act out i :
  hasMarker html = false ->
  lastRetained html (length (sectionAnchors html))
    (Anchor.num (anchorAt html i)) = Some i ->
  In (sectionProvision (Anchor.num (anchorAt html i), anchorData html i))
    (ParsedAct.provisions (fst (parseFullTextHtml html act out))).
Proof.
  intros Hm Hi. rewrite parse_provisions, Hm. apply in_or_app. left.
  apply in_map. apply extractSections_In. exists i. split; [exact Hi | reflexivity].
Qed.

End OriginFacts.

(** ** What the loop stores for one anchor *)

Lemma stored_entry html i :
  i < length (sectionAnchors html) ->
  retained html i = true ->
  map_get (Anchor.num (anchorAt html i)) (sections (loopAfter html (S i))) =
  Some (anchorData html i).
Proof.
  intros Hi Hr. rewrite loop_sections by exact Hi. rewrite Hr.
  rewrite map_get_set, str_eqb_refl. reflexivity.
Qed.

Lemma loop_chapter_rule html i :
  i < length (sectionAnchors html) ->
  ChapterRule (partPositions html) (Anchor.pos (anchorAt html i))
    (currentChapter (loopAfter html (S i))).
Proof.
  intros Hi. rewrite loop_chapter by exact Hi.
  apply chapterAt_rule. apply partPositions_sorted.
Qed.

Lemma anchorData_chapter_rule html i :
  ChapterRule (partPositions html) (Anchor.pos (anchorAt html i))
    (SectionData.chapter (anchorData html i)).
Proof. apply chapterAt_rule. apply partPositions_sorted. Qed.

Lemma anchorData_title_rule html i :
  TitleRule (marginalNotes html) (Anchor.pos (anchorAt html i))
    (SectionData.title (anchorData html i)).
Proof. apply title_rule. Qed.

Lemma sorted_notes_pos_inj notes a b :
  StronglySorted (fun x y => Note.pos x < Note.pos y) notes ->
  In a notes -> In b notes -> Note.pos a = Note.pos b -> a = b.
Proof.
  induction 1 as [|x l Hs IH Hx]; intros Ha Hb E; [contradiction|].
  rewrite Forall_forall in Hx.
  destruct Ha as [<-|Ha], Hb as [<-|Hb].
  - reflexivity.
  - specialize (Hx b Hb). lia.
  - specialize (Hx a Ha). lia.
  - apply IH; assumption.
Qed.

(** The boundary of the title rule: the nearest note before the anchor gives
    the title when it is less than 2000 characters away, and no note gives
    it otherwise. *)
Lemma TitleRule_nearest notes p t mn :
  StronglySorted (fun x y => Note.pos x < Note.pos y) notes ->
  TitleRule notes p t ->
  NearestNoteBefore notes p mn ->
  (p - Note.pos mn < 2000 -> t = Note.title mn)
  /\ (2000 <= p - Note.pos mn -> t = []).
Proof.
  intros Hs Ht (Hin & Hlt & Hmax).
  destruct Ht as [(mn0 & Hin0 & Hlt0 & Hnear0 & Hmax0 & ->) | [Hnone ->]].
  - assert (E : mn0 = mn).
    { apply (sorted_notes_pos_inj notes); try assumption.
      specialize (Hmax mn0 Hin0 Hlt0). specialize (Hmax0 mn Hin Hlt). lia. }
    subst mn0. split; [reflexivity|]. intros Hfar. lia.
  - split; [|reflexivity]. intros Hnear. specialize (Hnone mn Hin Hlt). lia.
Qed.

Lemma anchorData_title_boundary html i mn :
  NearestNoteBefore (marginalNotes html) (Anchor.pos (anchorAt html i)) mn ->
  (Anchor.pos (anchorAt html i) - Note.pos mn = 1999 ->
   SectionData.title (anchorData html i) = Note.title mn)
  /\ (2000 <= Anchor.pos (anchorAt html i) - Note.pos mn ->
      SectionData.title (anchorData html i) = []).
Proof.
  intros Hmn.
  destruct (TitleRule_nearest (marginalNotes html) (Anchor.pos (anchorAt html i))
              (SectionData.title (anchorData html i)) mn
              (marginalNotes_sorted html) (anchorData_title_rule html i) Hmn)
    as [Hnear Hfar].
  split; [|exact Hfar]. intros E. apply Hnear. rewrite E.
  apply Nat.ltb_lt. vm_compute. reflexivity.
Qed.

(** ** Document order *)

Lemma extractSections_order html :
  exists idxs,
    StronglySorted lt idxs
    /\ (forall i,
          In i idxs <->
          FirstKept (fun i => Anchor.num (anchorAt html i)) (retained html)
            (length (sectionAnchors html)) i)
    /\ map fst (extractSections html) =
       map (fun i => Anchor.num (anchorAt html i)) idxs.
Proof.
  rewrite extractSections_keptMap.
  apply (keptMap_order _ (fun i => Anchor.num (anchorAt html i)) (anchorData html)
           (retained html)).
Qed.

Lemma section_provisions_sections html :
  map ParsedProvision.section (map sectionProvision (extractSections html)) =
  map fst (extractSections html).
Proof.
  rewrite map_map. apply map_ext. intros [k d]. reflexivity.
Qed.

Lemma section_provisions_keys html :
  Forall (fun p => SectionKey (ParsedProvision.provision_ref p))
    (map sectionProvision (extractSections html)).
Proof.
  apply Forall_forall. intros p Hp. apply in_map_iff in Hp.
  destruct Hp as ([k d] & <- & Hin). apply section_entry_origin in Hin.
  destruct Hin as (i & Hi & _ & <- & _). rewrite sectionProvision_ref.
  apply anchorAt_key. exact Hi.
Qed.

Lemma headingPositions_eq scheduleHtml :
  headingPositions scheduleHtml =
  map (fun hm => Heading.mk (stripHtml (group 1 hm)) (index hm))
    (exec_all Rx.headingRe scheduleHtml).
Proof. unfold headingPositions. rewrite fold_left_push_map. reflexivity. Qed.

Lemma headingPositions_sorted scheduleHtml :
  StronglySorted (fun a b => Heading.pos a < Heading.pos b)
    (headingPositions scheduleHtml).
Proof.
  rewrite headingPositions_eq.
  pose proof (exec_all_increasing Rx.headingRe scheduleHtml headingRe_consumes) as H.
  induction H as [|m ms Hs IH Hm]; simpl; constructor; [exact IH|].
  apply Forall_map. exact Hm.
Qed.

Section OrderFacts.
Context {engine : Engine}.

Lemma schedule_provisions_keys html :
  Forall (fun p => ScheduleKey (ParsedProvision.provision_ref p))
    (fst (extractSchedules html)).
Proof.
  apply Forall_forall. intros p Hp. apply extractSchedules_derived in Hp.
  destruct Hp as [Hkey _]. exact Hkey.
Qed.

(** The provisions of one schedule block: none, the whole schedule, or
    those of its headings in heading order. *)
Lemma scheduleProvisions_shape m :
  scheduleProvisions m = []
  \/ (headingPositions (group 1 m) = [] /\ exists p, scheduleProvisions m = [p])
  \/ (exists scheduleLabel scheduleTitle,
        scheduleProvisions m =
        flat_map
          (headingProvisions (group 1 m) scheduleLabel scheduleTitle
             (headingPositions (group 1 m)))
          (seq 0 (length (headingPositions (group 1 m))))).
Proof.
  unfold scheduleProvisions, scheduleIteration. cbv zeta.
  destruct (match_first Rx.scheduleLabel _) as [labelMatch|]; [|left; reflexivity].
  destruct (Nat.ltb_spec 0 (length (headingPositions (group 1 m)))) as [Hpos|Hzero].
  - rewrite heading_loop. cbn [app]. right. right. eexists. eexists. reflexivity.
  - destruct (10 <? length _); [|left; reflexivity].
    right. left. split.
    + destruct (headingPositions (group 1 m)); [reflexivity | simpl in Hzero; lia].
    + eexists. reflexivity.
Qed.

End OrderFacts.

(** ** Keys *)

Lemma filter_key_le_1 {A} (f : A -> jsstring) k : forall l,
  NoDup (map f l) ->
  length (filter (fun x => str_eqb (f x) k) l) <= 1.
Proof.
  induction l as [|x l IH]; simpl; intros Hnd; [lia|].
  inversion Hnd as [|? ? Hnotin Hnd']; subst.
  destruct (str_eqb (f x) k) eqn:E; [|apply IH; exact Hnd'].
  apply str_eqb_eq in E. simpl.
  assert (Hnone : filter (fun y => str_eqb (f y) k) l = []).
  { clear IH Hnd Hnd'. induction l as [|y l IHl]; simpl; [reflexivity|].
    destruct (str_eqb (f y) k) eqn:Ey.
    - apply str_eqb_eq in Ey. exfalso. apply Hnotin. left. congruence.
    - apply IHl. intros Hin. apply Hnotin. right. exact Hin. }
  rewrite Hnone. simpl. lia.
Qed.

Lemma filter_none {A} (g : A -> bool) : forall l,
  (forall x, In x l -> g x = false) -> filter g l = [].
Proof.
  induction l as [|x l IH]; simpl; intros H; [reflexivity|].
  rewrite (H x (or_introl eq_refl)). apply IH. intros y Hy. apply H. right; exact Hy.
Qed.

Lemma section_provisions_refs (m : JsMap SectionData.t) :
  map ParsedProvision.provision_ref (map sectionProvision m) =
  map (fun k => lit "s" ++ k) (map fst m).
Proof.
  rewrite !map_map. apply map_ext. intros [k d]. reflexivity.
Qed.

Lemma section_provisions_NoDup html :
  NoDup (map ParsedProvision.provision_ref
           (map sectionProvision (extractSections html))).
Proof.
  rewrite section_provisions_refs.
  pose proof (extractSections_NoDup html) as H.
  induction H as [|k ks Hnotin Hnd IH]; simpl; constructor; [|exact IH].
  intros Hin. apply in_map_iff in Hin. destruct Hin as (k' & E & Hin).
  apply lit_s_inj in E. subst k'. contradiction.
Qed.

Section KeyFacts.
Context {engine : Engine}.

Lemma section_schedule_keys_differ html p q :
  In p (map sectionProvision (extractSections html)) ->
  In q (fst (extractSchedules html)) ->
  ParsedProvision.provision_ref p <> ParsedProvision.provision_ref q.
Proof.
  intros Hp Hq E.
  pose proof (section_provisions_keys html) as Hs.
  pose proof (schedule_provisions_keys html) as Hd.
  rewrite Forall_forall in Hs, Hd.
  apply (SectionKey_not_ScheduleKey (ParsedProvision.provision_ref p) (Hs p Hp)).
  rewrite E. apply Hd. exact Hq.
Qed.

End KeyFacts.

(** ** Properties of [parseFullTextHtml] *)

(** C2.  A page that contains the text [Page not Found] or [Error 404]
    parses to a document with no provisions and no definitions, whose other
    fields are the static fields of the catalog entry, whatever else the page
    contains. *)
Theorem soft_404_short_circuit {engine : Engine} html act out :
  (exists pre post, html = pre ++ lit "Page not Found" ++ post)
  \/ (exists pre post, html = pre ++ lit "Error 404" ++ post) ->
  fst (parseFullTextHtml html act out) =
  ParsedAct.mk
    (ActIndexEntry.id act) statute
    (ActIndexEntry.title act) (ActIndexEntry.title act)
    (ActIndexEntry.shortName act) (ActIndexEntry.status act)
    (ActIndexEntry.issuedDate act) (ActIndexEntry.inForceDate act)
    (ActIndexEntry.url act)
    (Some (ActIndexEntry.title act))
    [] [].
Proof.
  intros H. rewrite parse_not_found; [reflexivity|].
  unfold hasMarker. apply orb_true_iff.
  destruct H as [H|H]; [left|right]; apply includes_spec; exact H.
Qed.

Lemma soft_404_short_circuit_witness :
  ((exists pre post, Sample.page404 = pre ++ lit "Page not Found" ++ post)
   \/ (exists pre post, Sample.page404 = pre ++ lit "Error 404" ++ post))
  /\ fst (parseFullTextHtml (engine := AsciiEngine) Sample.page404 Sample.act []) =
     ParsedAct.mk
       (lit "test-act") statute (lit "Test Act") (lit "Test Act") (lit "TA")
       in_force (lit "2000-01-01") (lit "2001-01-01")
       (lit "https://laws-lois.justice.gc.ca/eng/acts/T-1/")
       (Some (lit "Test Act")) [] [].
Proof.
  assert (H : (exists pre post, Sample.page404 = pre ++ lit "Page not Found" ++ post)
              \/ (exists pre post, Sample.page404 = pre ++ lit "Error 404" ++ post)).
  { right. exists Sample.page, (lit "</html>"). reflexivity. }
  split; [exact H|].
  apply (soft_404_short_circuit (engine := AsciiEngine) Sample.page404 Sample.act [] H).
Defined.

(** C3.  Every provision of the parsed document, from a section or from a
    schedule, holds the first 8000 characters of an extracted text of at
    least 10 characters, so its content has at most 8000 characters. *)
Theorem provision_content_bounds {engine : Engine} html act out p :
  In p (ParsedAct.provisions (fst (parseFullTextHtml html act out))) ->
  exists text,
    ExtractedText html text
    /\ 10 <= length text
    /\ ParsedProvision.content p = substring text 0 8000
    /\ length (ParsedProvision.content p) <= 8000.
Proof.
  rewrite parse_provisions. destruct (hasMarker html); [intros []|].
  rewrite in_app_iff, in_map_iff. intros [([k d] & <- & Hin) | Hin].
  - apply extractSections_In in Hin. destruct Hin as (i & Hi & ->).
    apply lastRetained_Some in Hi. destruct Hi as (Hlt & Hkeep & _ & _).
    exists (anchorText html i). split; [left; exists i; split; [exact Hlt | reflexivity]|].
    split; [|split].
    + unfold retained in Hkeep. apply negb_true_iff, Nat.ltb_ge in Hkeep. exact Hkeep.
    + reflexivity.
    + apply substring_cap.
  - apply extractSchedules_derived in Hin. destruct Hin as [_ (block & Hlen & Hc)].
    exists (stripHtml block). split; [right; exists block; reflexivity|].
    split; [lia|]. split; [exact Hc|]. rewrite Hc. apply substring_cap.
Qed.

Lemma provision_content_bounds_witness :
  exists p,
    In p (ParsedAct.provisions
            (fst (parseFullTextHtml (engine := AsciiEngine) Sample.page Sample.act [])))
    /\ exists text,
         ExtractedText Sample.page text
         /\ 10 <= length text
         /\ ParsedProvision.content p = substring text 0 8000
         /\ length (ParsedProvision.content p) <= 8000.
Proof.
  exists (ParsedProvision.mk (lit "s1") (Some (lit "PART 1")) (lit "1")
            (lit "Short title") (lit "1 This Act may be cited as the Test Act.")).
  assert (H : In (ParsedProvision.mk (lit "s1") (Some (lit "PART 1")) (lit "1")
                    (lit "Short title") (lit "1 This Act may be cited as the Test Act."))
                (ParsedAct.provisions
                   (fst (parseFullTextHtml (engine := AsciiEngine) Sample.page Sample.act [])))).
  { vm_compute. left. reflexivity. }
  split; [exact H|].
  exact (provision_content_bounds (engine := AsciiEngine) Sample.page Sample.act [] _ H).
Defined.

(** C4.  For every section anchor, the chapter the loop assigns is the label
    of the Part or Division heading with the greatest offset below the
    anchor's offset, and is empty when no heading lies before the anchor;
    the entry stored for a kept anchor carries that chapter, and so does
    every section provision of the document, for the anchor it comes from
    (an absent chapter being the empty one). *)
Theorem chapter_of_section {engine : Engine} html act out :
  (forall i,
     i < length (sectionAnchors html) ->
     ChapterRule (partPositions html) (Anchor.pos (anchorAt html i))
       (currentChapter (loopAfter html (S i)))
     /\ (retained html i = true ->
         exists d,
           map_get (Anchor.num (anchorAt html i)) (sections (loopAfter html (S i)))
           = Some d
           /\ SectionData.chapter d = currentChapter (loopAfter html (S i))))
  /\ (forall p,
        In p (ParsedAct.provisions (fst (parseFullTextHtml html act out))) ->
        ScheduleKey (ParsedProvision.provision_ref p)
        \/ exists i,
             i < length (sectionAnchors html)
             /\ lastRetained html (length (sectionAnchors html))
                  (ParsedProvision.section p) = Some i
             /\ ChapterRule (partPositions html) (Anchor.pos (anchorAt html i))
                  (chapterText p)).
Proof.
  split.
  - intros i Hi. split; [apply loop_chapter_rule; exact Hi|].
    intros Hr. exists (anchorData html i). split.
    + apply stored_entry; assumption.
    + rewrite loop_chapter by exact Hi. reflexivity.
  - intros p Hp. apply provision_origin in Hp.
    destruct Hp as [(i & Hi & Hlast & _ & ->) | [_ [Hkey _]]].
    + right. exists i. split; [exact Hi|].
      rewrite sectionProvision_section, sectionProvision_chapter.
      split; [exact Hlast | apply anchorData_chapter_rule].
    + left. exact Hkey.
Qed.

Lemma chapter_of_section_witness :
  ChapterRule (partPositions Sample.page) (Anchor.pos (anchorAt Sample.page 0))
    (currentChapter (loopAfter Sample.page 1))
  /\ (ScheduleKey (lit "s1")
      \/ exists i,
           i < length (sectionAnchors Sample.page)
           /\ lastRetained Sample.page (length (sectionAnchors Sample.page))
                (lit "1") = Some i
           /\ ChapterRule (partPositions Sample.page)
                (Anchor.pos (anchorAt Sample.page i)) (lit "PART 1")).
Proof.
  destruct (chapter_of_section (engine := AsciiEngine) Sample.page Sample.act [])
    as [Hloop Hout].
  split.
  - apply (Hloop 0). apply Nat.ltb_lt. vm_compute. reflexivity.
  - apply (Hout (ParsedProvision.mk (lit "s1") (Some (lit "PART 1")) (lit "1")
                   (lit "Short title")
                   (lit "1 This Act may be cited as the Test Act."))).
    vm_compute. left. reflexivity.
Defined.

(** A section before the first heading has no chapter; the sections after
    the heading have its label. *)
Example chapters_on_page :
  map (fun p => (ParsedProvision.provision_ref p, ParsedProvision.chapter p,
                 ParsedProvision.content p))
    (ParsedAct.provisions
       (fst (parseFullTextHtml (engine := AsciiEngine) Sample.chaptered Sample.act [])))
  = [ (lit "s1", None, lit "1 This is section one.");
      (lit "s2", Some (lit "PART I"), lit "2 This is section two.");
      (lit "s3", Some (lit "PART I"), lit "3 This is section three.") ].
Proof. vm_compute. reflexivity. Qed.

(** C5.  The marginal notes kept are neither empty nor the bare label.  For
    every kept section anchor, the title stored is that of the nearest kept
    marginal note before the anchor when that note is less than 2000
    characters before it, and is empty when no note before the anchor is
    that close: the nearest note is attached at distance 1999 and no note is
    attached when it is at distance 2000 or more.  Every section provision
    of the document has the title of the anchor it comes from. *)
Theorem title_of_section {engine : Engine} html act out :
  (forall mn,
     In mn (marginalNotes html) ->
     Note.title mn <> [] /\ Note.title mn <> lit "Marginal note:")
  /\ (forall i,
        i < length (sectionAnchors html) ->
        retained html i = true ->
        exists d,
          map_get (Anchor.num (anchorAt html i)) (sections (loopAfter html (S i)))
          = Some d
          /\ TitleRule (marginalNotes html) (Anchor.pos (anchorAt html i))
               (SectionData.title d)
          /\ (forall mn,
                NearestNoteBefore (marginalNotes html)
                  (Anchor.pos (anchorAt html i)) mn ->
                (Anchor.pos (anchorAt html i) - Note.pos mn = 1999 ->
                 SectionData.title d = Note.title mn)
                /\ (2000 <= Anchor.pos (anchorAt html i) - Note.pos mn ->
                    SectionData.title d = [])))
  /\ (forall p,
        In p (ParsedAct.provisions (fst (parseFullTextHtml html act out))) ->
        ScheduleKey (ParsedProvision.provision_ref p)
        \/ exists i,
             i < length (sectionAnchors html)
             /\ lastRetained html (length (sectionAnchors html))
                  (ParsedProvision.section p) = Some i
             /\ TitleRule (marginalNotes html) (Anchor.pos (anchorAt html i))
                  (ParsedProvision.title p)).
Proof.
  split; [|split].
  - apply marginalNotes_kept.
  - intros i Hi Hr. exists (anchorData html i). split; [|split].
    + apply stored_entry; assumption.
    + apply anchorData_title_rule.
    + apply anchorData_title_boundary.
  - intros p Hp. apply provision_origin in Hp.
    destruct Hp as [(i & Hi & Hlast & _ & ->) | [_ [Hkey _]]].
    + right. exists i. split; [exact Hi|].
      rewrite sectionProvision_section, sectionProvision_title.
      split; [exact Hlast | apply anchorData_title_rule].
    + left. exact Hkey.
Qed.

(** The note of [Sample.noted 1941] is 1999 characters before the anchor and
    is attached. *)
Lemma title_of_section_witness :
  (Note.title (Note.mk (lit "Far title") 3) <> []
   /\ Note.title (Note.mk (lit "Far title") 3) <> lit "Marginal note:")
  /\ (exists d,
        map_get (Anchor.num (anchorAt (Sample.noted 1941) 0))
          (sections (loopAfter (Sample.noted 1941) 1)) = Some d
        /\ SectionData.title d = lit "Far title")
  /\ (ScheduleKey (lit "s1")
      \/ exists i,
           i < length (sectionAnchors (Sample.noted 1941))
           /\ lastRetained (Sample.noted 1941)
                (length (sectionAnchors (Sample.noted 1941))) (lit "1") = Some i
           /\ TitleRule (marginalNotes (Sample.noted 1941))
                (Anchor.pos (anchorAt (Sample.noted 1941) i)) (lit "Far title")).
Proof.
  destruct (title_of_section (engine := AsciiEngine) (Sample.noted 1941) Sample.act [])
    as (Hkept & Hloop & Hout).
  split; [|split].
  - apply Hkept. vm_compute. left. reflexivity.
  - destruct (Hloop 0) as (d & Hd & _ & Hnear).
    + apply Nat.ltb_lt. vm_compute. reflexivity.
    + vm_compute. reflexivity.
    + exists d. split; [exact Hd|].
      apply (Hnear (Note.mk (lit "Far title") 3)).
      * split; [|split].
        -- vm_compute. left. reflexivity.
        -- apply Nat.ltb_lt. vm_compute. reflexivity.
        -- intros mn' Hin _. apply Nat.leb_le. revert Hin. vm_compute.
           intros [<-|[]]. reflexivity.
      * vm_compute. reflexivity.
  - apply (Hout (ParsedProvision.mk (lit "s1") None (lit "1") (lit "Far title")
                   (lit "1 This is the body of the section."))).
    vm_compute. left. reflexivity.
Defined.

(** At distance 1999 the note is attached, at distance 2000 it is not. *)
Example title_attached_at_1999 :
  map ParsedProvision.title
    (ParsedAct.provisions
       (fst (parseFullTextHtml (engine := AsciiEngine) (Sample.noted 1941) Sample.act [])))
  = [lit "Far title"]
  /\ map (fun a => Anchor.pos a) (sectionAnchors (Sample.noted 1941)) = [2002]
  /\ map (fun mn => Note.pos mn) (marginalNotes (Sample.noted 1941)) = [3].
Proof. vm_compute. repeat split. Qed.

Example title_dropped_at_2000 :
  map ParsedProvision.title
    (ParsedAct.provisions
       (fst (parseFullTextHtml (engine := AsciiEngine) (Sample.noted 1942) Sample.act [])))
  = [ [] ]
  /\ map (fun a => Anchor.pos a) (sectionAnchors (Sample.noted 1942)) = [2003]
  /\ map (fun mn => Note.pos mn) (marginalNotes (Sample.noted 1942)) = [3].
Proof. vm_compute. repeat split. Qed.

(** C7 (amended).  For a page that is not a 404 page, the provisions of the document
    are the section provisions, in the order of their anchors (one per
    number, at the place of the first kept anchor of that number), followed
    by the schedule provisions, schedule block after schedule block and,
    within a block, heading after heading; the definitions are a list of
    their own, those of the definition extractor. *)
Theorem sections_then_schedules {engine : Engine} html act out :
  includes html (lit "Page not Found") || includes html (lit "Error 404") = false ->
  ParsedAct.provisions (fst (parseFullTextHtml html act out)) =
    map sectionProvision (extractSections html) ++ fst (extractSchedules html)
  /\ ParsedAct.definitions (fst (parseFullTextHtml html act out)) =
     extractDefinitions html (lit "2")
  /\ (exists idxs,
        StronglySorted lt idxs
        /\ (forall i,
              In i idxs <->
              FirstKept (fun i => Anchor.num (anchorAt html i)) (retained html)
                (length (sectionAnchors html)) i)
        /\ map ParsedProvision.section
             (map sectionProvision (extractSections html)) =
           map (fun i => Anchor.num (anchorAt html i)) idxs)
  /\ StronglySorted (fun a b => Anchor.pos a < Anchor.pos b) (sectionAnchors html)
  /\ Forall (fun p => SectionKey (ParsedProvision.provision_ref p))
       (map sectionProvision (extractSections html))
  /\ fst (extractSchedules html) =
     flat_map scheduleProvisions (exec_all Rx.scheduleRe html)
  /\ StronglySorted (fun a b => index a < index b) (exec_all Rx.scheduleRe html)
  /\ Forall (fun p => ScheduleKey (ParsedProvision.provision_ref p))
       (fst (extractSchedules html))
  /\ (forall m,
        StronglySorted (fun a b => Heading.pos a < Heading.pos b)
          (headingPositions (group 1 m))
        /\ (scheduleProvisions m = []
            \/ (headingPositions (group 1 m) = []
                /\ exists p, scheduleProvisions m = [p])
            \/ (exists scheduleLabel scheduleTitle,
                  scheduleProvisions m =
                  flat_map
                    (headingProvisions (group 1 m) scheduleLabel scheduleTitle
                       (headingPositions (group 1 m)))
                    (seq 0 (length (headingPositions (group 1 m))))))).
Proof.
  intros Hm. fold (hasMarker html) in Hm.
  rewrite parse_provisions, parse_definitions, Hm.
  split; [reflexivity|]. split; [reflexivity|].
  split.
  { rewrite section_provisions_sections. apply extractSections_order. }
  split; [apply sectionAnchors_sorted|].
  split; [apply section_provisions_keys|].
  split; [apply extractSchedules_eq|].
  split; [apply exec_all_increasing; exact scheduleRe_consumes|].
  split; [apply schedule_provisions_keys|].
  intros m. split; [apply headingPositions_sorted | apply scheduleProvisions_shape].
Qed.

Lemma sections_then_schedules_witness :
  includes Sample.page (lit "Page not Found")
  || includes Sample.page (lit "Error 404") = false
  /\ ParsedAct.provisions
       (fst (parseFullTextHtml (engine := AsciiEngine) Sample.page Sample.act [])) =
     map sectionProvision (extractSections Sample.page)
     ++ fst (extractSchedules (engine := AsciiEngine) Sample.page).
Proof.
  assert (H : includes Sample.page (lit "Page not Found")
              || includes Sample.page (lit "Error 404") = false).
  { vm_compute. reflexivity. }
  split; [exact H|].
  exact (proj1 (sections_then_schedules (engine := AsciiEngine)
                  Sample.page Sample.act [] H)).
Defined.

(** C7, as stated, fails: on [Sample.repeated] the anchors of the numbers
    1, 2 and 1 are at the offsets 24, 89 and 152, and the document has the
    provision of number 1, computed from the region of the anchor at 152,
    before the provision of number 2, computed from the region of the
    anchor at 89.  So the section provisions are not the provisions of
    anchors taken in increasing order. *)
Lemma repeated_number_keeps_first_place :
  map (fun a => (Anchor.num a, Anchor.pos a)) (sectionAnchors Sample.repeated)
  = [(lit "1", 24); (lit "2", 89); (lit "1", 152)]
  /\ ParsedAct.provisions
       (fst (parseFullTextHtml (engine := AsciiEngine) Sample.repeated Sample.act []))
     = [ ParsedProvision.mk (lit "s1") None (lit "1") []
           (lit "1 Second body of section one.");
         ParsedProvision.mk (lit "s2") None (lit "2") []
           (lit "2 The body of section two.") ]
  /\ ParsedAct.provisions
       (fst (parseFullTextHtml (engine := AsciiEngine) Sample.repeated Sample.act []))
     = map (fun i => sectionProvision (Anchor.num (anchorAt Sample.repeated i),
                                       anchorData Sample.repeated i))
         [2; 1]
  /\ ~ (exists idxs,
          StronglySorted lt idxs
          /\ ParsedAct.provisions
               (fst (parseFullTextHtml (engine := AsciiEngine)
                       Sample.repeated Sample.act []))
             = map (fun i => sectionProvision
                               (Anchor.num (anchorAt Sample.repeated i),
                                anchorData Sample.repeated i))
                 idxs).
Proof.
  assert (E : ParsedAct.provisions
                (fst (parseFullTextHtml (engine := AsciiEngine)
                        Sample.repeated Sample.act []))
              = [ ParsedProvision.mk (lit "s1") None (lit "1") []
                    (lit "1 Second body of section one.");
                  ParsedProvision.mk (lit "s2") None (lit "2") []
                    (lit "2 The body of section two.") ]).
  { vm_compute. reflexivity. }
  split; [vm_compute; reflexivity|].
  split; [exact E|].
  split; [vm_compute; reflexivity|].
  intros (idxs & Hs & H). rewrite E in H. clear E.
  remember (fun i => sectionProvision (Anchor.num (anchorAt Sample.repeated i),
                                       anchorData Sample.repeated i)) as f eqn:Hf.
  destruct idxs as [|i [|j [|k idxs]]]; cbn [map] in H; try discriminate H.
  injection H as H0 H1.
  assert (Hij : i < j).
  { apply StronglySorted_inv in Hs. destruct Hs as [_ Hall].
    apply Forall_inv in Hall. exact Hall. }
  clear Hs.
  assert (L : length (sectionAnchors Sample.repeated) = 3)
    by (vm_compute; reflexivity).
  assert (Hj : j = 1).
  { apply (f_equal ParsedProvision.provision_ref) in H1. rewrite Hf in H1.
    rewrite sectionProvision_ref in H1. cbn [ParsedProvision.provision_ref] in H1.
    clear H0 Hf.
    destruct j as [|[|[|j]]]; [| reflexivity | |].
    - vm_compute in H1. discriminate H1.
    - vm_compute in H1. discriminate H1.
    - unfold anchorAt in H1. rewrite nth_overflow in H1 by (rewrite L; lia).
      vm_compute in H1. discriminate H1. }
  subst j. assert (i = 0) by lia. subst i.
  apply (f_equal ParsedProvision.content) in H0. rewrite Hf in H0.
  vm_compute in H0. discriminate H0.
Qed.

(** The keys of the sample page, in the order of the document. *)
Example sample_page_keys :
  map ParsedProvision.provision_ref
    (ParsedAct.provisions
       (fst (parseFullTextHtml (engine := AsciiEngine) Sample.page Sample.act [])))
  = [lit "s1"; lit "s2"; lit "sched-schedule1-1"; lit "sched-schedule1-2"].
Proof. vm_compute. reflexivity. Qed.

(** C1 (amended).  The keys of the section provisions are pairwise
    distinct; they are [s] followed by a number, the keys of the schedule
    provisions start with [sched-], and no section key equals a schedule
    key.  The provisions of the document are the section provisions
    followed by the schedule provisions.  (Two schedule provisions can have
    the same key.) *)
Theorem section_keys_distinct_from_schedule_keys {engine : Engine} html act out :
  ParsedAct.provisions (fst (parseFullTextHtml html act out)) =
    (if includes html (lit "Page not Found") || includes html (lit "Error 404")
     then []
     else map sectionProvision (extractSections html) ++ fst (extractSchedules html))
  /\ NoDup (map ParsedProvision.provision_ref
              (map sectionProvision (extractSections html)))
  /\ Forall (fun p => SectionKey (ParsedProvision.provision_ref p))
       (map sectionProvision (extractSections html))
  /\ Forall (fun q => ScheduleKey (ParsedProvision.provision_ref q))
       (fst (extractSchedules html))
  /\ (forall p q,
        In p (map sectionProvision (extractSections html)) ->
        In q (fst (extractSchedules html)) ->
        ParsedProvision.provision_ref p <> ParsedProvision.provision_ref q).
Proof.
  split; [apply parse_provisions|].
  split; [apply section_provisions_NoDup|].
  split; [apply section_provisions_keys|].
  split; [apply schedule_provisions_keys|].
  apply section_schedule_keys_differ.
Qed.

Lemma section_keys_distinct_from_schedule_keys_witness :
  lit "s1" <> lit "sched-schedule1-1".
Proof.
  destruct (section_keys_distinct_from_schedule_keys (engine := AsciiEngine)
              Sample.page Sample.act []) as (_ & _ & _ & _ & Hdiff).
  apply (Hdiff
           (ParsedProvision.mk (lit "s1") (Some (lit "PART 1")) (lit "1")
              (lit "Short title") (lit "1 This Act may be cited as the Test Act."))
           (ParsedProvision.mk (lit "sched-schedule1-1") (Some (lit "SCHEDULE 1"))
              (lit "1") (lit "1 Principle one - Accountability")
              (lit "1 Principle one - Accountability An organization is responsible."))).
  - vm_compute. left. reflexivity.
  - vm_compute. left. reflexivity.
Defined.

(** C1, as stated, fails: the two headings of [Sample.dupSchedule] yield two
    provisions with the key [sched-schedule1-Principle]. *)
Lemma duplicate_schedule_keys :
  map ParsedProvision.provision_ref
    (ParsedAct.provisions
       (fst (parseFullTextHtml (engine := AsciiEngine) Sample.dupSchedule Sample.act [])))
  = [lit "sched-schedule1-Principle"; lit "sched-schedule1-Principle"]
  /\ ~ NoDup
         (map ParsedProvision.provision_ref
            (ParsedAct.provisions
               (fst (parseFullTextHtml (engine := AsciiEngine)
                       Sample.dupSchedule Sample.act [])))).
Proof.
  assert (E : map ParsedProvision.provision_ref
                (ParsedAct.provisions
                   (fst (parseFullTextHtml (engine := AsciiEngine)
                           Sample.dupSchedule Sample.act [])))
              = [lit "sched-schedule1-Principle"; lit "sched-schedule1-Principle"]).
  { vm_compute. reflexivity. }
  split; [exact E|]. rewrite E. intros H.
  inversion H as [|? ? Hnotin _]; subst. apply Hnotin. left. reflexivity.
Qed.

(** C9 (amended).  For the number of any section anchor, the document has at
    most one provision keyed by that number, and this provision is the one
    computed from the region of the last occurrence of the number whose
    extracted text has at least 10 characters: later kept occurrences
    overwrite earlier ones, occurrences that are dropped overwrite
    nothing.  On a page that is not a 404 page, that provision is in the
    document. *)
Theorem last_kept_occurrence_wins {engine : Engine} html act out i :
  i < length (sectionAnchors html) ->
  length
    (filter
       (fun p => str_eqb (ParsedProvision.provision_ref p)
                   (lit "s" ++ Anchor.num (anchorAt html i)))
       (ParsedAct.provisions (fst (parseFullTextHtml html act out)))) <= 1
  /\ (forall p,
       In p (ParsedAct.provisions (fst (parseFullTextHtml html act out))) ->
       ParsedProvision.provision_ref p = lit "s" ++ Anchor.num (anchorAt html i) ->
       exists j,
         j < length (sectionAnchors html)
         /\ Anchor.num (anchorAt html j) = Anchor.num (anchorAt html i)
         /\ 10 <= length (anchorText html j)
         /\ (forall j', j < j' -> j' < length (sectionAnchors html) ->
                        Anchor.num (anchorAt html j') = Anchor.num (anchorAt html i) ->
                        length (anchorText html j') < 10)
         /\ p = sectionProvision (Anchor.num (anchorAt html j), anchorData html j))
  /\ (forall j,
        includes html (lit "Page not Found") || includes html (lit "Error 404")
        = false ->
        j < length (sectionAnchors html) ->
        Anchor.num (anchorAt html j) = Anchor.num (anchorAt html i) ->
        10 <= length (anchorText html j) ->
        (forall j', j < j' -> j' < length (sectionAnchors html) ->
                    Anchor.num (anchorAt html j') = Anchor.num (anchorAt html i) ->
                    length (anchorText html j') < 10) ->
        In (sectionProvision (Anchor.num (anchorAt html j), anchorData html j))
          (ParsedAct.provisions (fst (parseFullTextHtml html act out)))).
Proof.
  intros Hi. split; [|split].
  - rewrite parse_provisions. destruct (hasMarker html); [simpl; lia|].
    rewrite filter_app.
    rewrite (filter_none _ (fst (extractSchedules html))).
    + rewrite app_nil_r. apply filter_key_le_1. apply section_provisions_NoDup.
    + intros q Hq. apply str_eqb_neq. intros E.
      pose proof (schedule_provisions_keys html) as Hd.
      rewrite Forall_forall in Hd. specialize (Hd q Hq). rewrite E in Hd.
      exact (SectionKey_not_ScheduleKey _ (anchorAt_key html i Hi) Hd).
  - intros p Hp Hkey. apply provision_origin in Hp.
    destruct Hp as [(j & Hj & Hlast & Hr & ->) | [_ [Hsched _]]].
    + rewrite sectionProvision_ref in Hkey. apply lit_s_inj in Hkey.
      exists j. split; [exact Hj|]. split; [exact Hkey|].
      split; [apply retained_length; exact Hr|]. split; [|reflexivity].
      intros j' Hlt Hj' Hnum.
      destruct (lastRetained_Some html _ _ j Hlast) as (_ & _ & _ & Hafter).
      destruct (retained html j') eqn:Hr'.
      * exfalso. apply (Hafter j' Hlt Hj' Hr'). congruence.
      * apply Nat.nle_gt. intros Hge. apply retained_length in Hge. congruence.
    + exfalso. rewrite Hkey in Hsched.
      exact (SectionKey_not_ScheduleKey _ (anchorAt_key html i Hi) Hsched).
  - intros j Hm Hj Hnum Hlen Hafter. apply provision_of_anchor; [exact Hm|].
    apply lastRetained_intro; [exact Hj | apply retained_length; exact Hlen
                              | reflexivity |].
    intros j' Hlt Hj' Hr' Hnum'. apply retained_length in Hr'.
    assert (Hsame : Anchor.num (anchorAt html j') = Anchor.num (anchorAt html i))
      by congruence.
    specialize (Hafter j' Hlt Hj' Hsame). lia.
Qed.

(** On [Sample.twice] the provision of number 1 comes from the first anchor:
    the second one is dropped. *)
Lemma last_kept_occurrence_wins_witness :
  1 < length (sectionAnchors Sample.twice)
  /\ exists j,
       j < length (sectionAnchors Sample.twice)
       /\ Anchor.num (anchorAt Sample.twice j) = Anchor.num (anchorAt Sample.twice 1)
       /\ 10 <= length (anchorText Sample.twice j)
       /\ (forall j', j < j' -> j' < length (sectionAnchors Sample.twice) ->
                      Anchor.num (anchorAt Sample.twice j')
                      = Anchor.num (anchorAt Sample.twice 1) ->
                      length (anchorText Sample.twice j') < 10)
       /\ ParsedProvision.mk (lit "s1") None (lit "1") [] (lit "1 This is the first body.")
          = sectionProvision (Anchor.num (anchorAt Sample.twice j),
                              anchorData Sample.twice j).
Proof.
  assert (Hi : 1 < length (sectionAnchors Sample.twice)).
  { apply Nat.ltb_lt. vm_compute. reflexivity. }
  split; [exact Hi|].
  destruct (last_kept_occurrence_wins (engine := AsciiEngine)
              Sample.twice Sample.act [] 1 Hi) as (_ & Hfrom & _).
  apply Hfrom.
  - vm_compute. left. reflexivity.
  - vm_compute. reflexivity.
Defined.

(** C9, as stated, fails: on [Sample.twice] number 1 occurs at offsets 24
    and 86, the region of the last occurrence yields the text [1 x], and the
    provision of number 1 has the content of the first occurrence. *)
Lemma last_occurrence_not_used :
  map (fun a => (Anchor.num a, Anchor.pos a)) (sectionAnchors Sample.twice)
  = [(lit "1", 24); (lit "1", 86)]
  /\ anchorText Sample.twice 1 = lit "1 x"
  /\ SectionData.content (anchorData Sample.twice 1) = lit "1 x"
  /\ map (fun p => (ParsedProvision.provision_ref p, ParsedProvision.content p))
       (ParsedAct.provisions
          (fst (parseFullTextHtml (engine := AsciiEngine) Sample.twice Sample.act [])))
     = [(lit "s1", lit "1 This is the first body.")]
  /\ ~ (forall p,
          In p (ParsedAct.provisions
                  (fst (parseFullTextHtml (engine := AsciiEngine)
                          Sample.twice Sample.act []))) ->
          ParsedProvision.provision_ref p = lit "s1" ->
          ParsedProvision.content p = SectionData.content (anchorData Sample.twice 1)).
Proof.
  split; [vm_compute; reflexivity|].
  split; [vm_compute; reflexivity|].
  split; [vm_compute; reflexivity|].
  split; [vm_compute; reflexivity|].
  intros H.
  specialize (H (ParsedProvision.mk (lit "s1") None (lit "1") []
                   (lit "1 This is the first body."))).
  assert (E : lit "1 This is the first body." = lit "1 x");
    [|vm_compute in E; discriminate E].
  transitivity (SectionData.content (anchorData Sample.twice 1)).
  - apply H; [vm_compute; left; reflexivity | reflexivity].
  - vm_compute. reflexivity.
Qed.

(** C10.  A schedule provision is in the document only when its stripped
    text has more than 10 characters: a schedule without headings, or a
    heading block, whose text has exactly 10 characters adds nothing.  A
    section whose text has exactly 10 characters is stored. *)
Theorem schedule_floor_is_strict {engine : Engine} html act out :
  (forall p,
     In p (ParsedAct.provisions (fst (parseFullTextHtml html act out))) ->
     ScheduleKey (ParsedProvision.provision_ref p) ->
     exists block,
       10 < length (stripHtml block)
       /\ ParsedProvision.content p = substring (stripHtml block) 0 8000)
  /\ (forall provisions schedMatch labelMatch,
        match_first Rx.scheduleLabel (group 1 schedMatch) = Some labelMatch ->
        headingPositions (group 1 schedMatch) = [] ->
        length (stripHtml (replace Rx.historicalDiv [] (group 1 schedMatch))) = 10 ->
        scheduleIteration provisions schedMatch = provisions)
  /\ (forall scheduleHtml scheduleLabel scheduleTitle headings provisions i,
        length
          (stripHtml
             (substring scheduleHtml (Heading.pos (nth i headings noHeading))
                (if i + 1 <? length headings
                 then Heading.pos (nth (i + 1) headings noHeading)
                 else length scheduleHtml))) = 10 ->
        headingIteration scheduleHtml scheduleLabel scheduleTitle headings
          provisions i = provisions)
  /\ (forall i,
        i < length (sectionAnchors html) ->
        length (anchorText html i) = 10 ->
        sections (loopAfter html (S i)) =
        map_set (Anchor.num (anchorAt html i)) (anchorData html i)
          (sections (loopAfter html i))).
Proof.
  split; [|split; [|split]].
  - intros p Hp Hkey. apply provision_origin in Hp.
    destruct Hp as [(i & Hi & _ & _ & ->) | [_ [_ Hblock]]]; [|exact Hblock].
    exfalso. rewrite sectionProvision_ref in Hkey.
    exact (SectionKey_not_ScheduleKey _ (anchorAt_key html i Hi) Hkey).
  - intros provisions schedMatch labelMatch Hlabel Hnone Hlen.
    unfold scheduleIteration. cbv zeta. rewrite Hlabel, Hnone, Hlen. reflexivity.
  - intros scheduleHtml scheduleLabel scheduleTitle headings provisions i Hlen.
    unfold headingIteration. cbv zeta. rewrite Hlen. reflexivity.
  - intros i Hi Hlen. rewrite loop_sections by exact Hi.
    assert (Hr : retained html i = true) by (apply retained_length; lia).
    rewrite Hr. reflexivity.
Qed.

Lemma schedule_floor_is_strict_witness :
  (exists block,
     10 < length (stripHtml block)
     /\ lit "SCHEDULE 12" = substring (stripHtml block) 0 8000)
  /\ scheduleIteration (engine := AsciiEngine) []
       (nth 0 (exec_all Rx.scheduleRe Sample.sched10) (mkMatch 0 0 [] [])) = []
  /\ headingIteration (engine := AsciiEngine)
       (group 1 (nth 0 (exec_all Rx.scheduleRe Sample.head10) (mkMatch 0 0 [] [])))
       (lit "SCHEDULE 1") []
       (headingPositions
          (group 1 (nth 0 (exec_all Rx.scheduleRe Sample.head10) (mkMatch 0 0 [] []))))
       [] 0 = []
  /\ sections (loopAfter Sample.sect10 1) =
     map_set (Anchor.num (anchorAt Sample.sect10 0)) (anchorData Sample.sect10 0)
       (sections (loopAfter Sample.sect10 0)).
Proof.
  split; [|split; [|split]].
  - apply (proj1 (schedule_floor_is_strict (engine := AsciiEngine)
                    Sample.sched11 Sample.act [])
             (ParsedProvision.mk (lit "sched-schedule12") (Some (lit "SCHEDULE 12"))
                (lit "SCHEDULE 12") (lit "SCHEDULE 12") (lit "SCHEDULE 12"))).
    + vm_compute. left. reflexivity.
    + exists (lit "schedule12"). vm_compute. reflexivity.
  - eapply (proj1 (proj2 (schedule_floor_is_strict (engine := AsciiEngine)
                            Sample.sched10 Sample.act []))).
    + vm_compute. reflexivity.
    + vm_compute. reflexivity.
    + vm_compute. reflexivity.
  - apply (proj1 (proj2 (proj2 (schedule_floor_is_strict (engine := AsciiEngine)
                                  Sample.head10 Sample.act [])))).
    vm_compute. reflexivity.
  - apply (proj2 (proj2 (proj2 (schedule_floor_is_strict (engine := AsciiEngine)
                                  Sample.sect10 Sample.act []))) 0).
    + apply Nat.ltb_lt. vm_compute. reflexivity.
    + vm_compute. reflexivity.
Defined.

(** The two floors on whole pages: a schedule text of 10 characters is
    dropped and one of 11 is kept; a heading block of 10 characters is
    dropped and one of 11 is kept; a section text of 10 characters is kept and
    one of 9 is dropped. *)
Example floors_on_pages :
  map ParsedProvision.content
    (ParsedAct.provisions
       (fst (parseFullTextHtml (engine := AsciiEngine) Sample.sched10 Sample.act [])))
  = []
  /\ map ParsedProvision.content
       (ParsedAct.provisions
          (fst (parseFullTextHtml (engine := AsciiEngine) Sample.sched11 Sample.act [])))
     = [lit "SCHEDULE 12"]
  /\ map ParsedProvision.content
       (ParsedAct.provisions
          (fst (parseFullTextHtml (engine := AsciiEngine) Sample.head10 Sample.act [])))
     = [lit "2 abcdefghi"]
  /\ map ParsedProvision.content
       (ParsedAct.provisions
          (fst (parseFullTextHtml (engine := AsciiEngine) Sample.sect10 Sample.act [])))
     = [lit "1 abcdefgh"].
Proof. vm_compute. repeat split. Qed.

(** ** Soundness of the matcher *)

Section MatcherSound.
Variables icase dotall : bool.

Lemma consumed_refl st : consumed st [] st.
Proof. unfold consumed. simpl. split; [reflexivity | lia]. Qed.

Lemma consumed_trans st1 w1 st2 w2 st3 :
  consumed st1 w1 st2 -> consumed st2 w2 st3 -> consumed st1 (w1 ++ w2) st3.
Proof.
  unfold consumed. intros [H1 H2] [H3 H4]. split.
  - rewrite H1, H3, app_assoc. reflexivity.
  - rewrite H4, H2, length_app. lia.
Qed.

Lemma lit_match_sound p : forall pos rest pos' rest',
  lit_match icase p pos rest = Some (pos', rest') ->
  exists w, rest = w ++ rest' /\ pos' = pos + length w
            /\ Forall2 (fun a c => chr_match icase a c = true) p w.
Proof.
  induction p as [|a p IH]; simpl; intros pos rest pos' rest' H.
  - inversion H; subst. exists []. simpl. repeat split; [lia | constructor].
  - destruct rest as [|c rest]; [discriminate|].
    destruct (chr_match icase a c) eqn:E; [|discriminate].
    apply IH in H. destruct H as (w & -> & -> & Hw).
    exists (c :: w). simpl. repeat split; [lia | constructor; assumption].
Qed.

Lemma rep_exact_sound n cl : forall pos rest pos' rest',
  rep_exact dotall n cl pos rest = Some (pos', rest') ->
  exists w, rest = w ++ rest' /\ pos' = pos + length w /\ length w = n
            /\ Forall (fun c => cls_match dotall cl c = true) w.
Proof.
  induction n as [|n IH]; simpl; intros pos rest pos' rest' H.
  - inversion H; subst. exists []. simpl. repeat split; [lia | constructor].
  - destruct rest as [|c rest]; [discriminate|].
    destruct (cls_match dotall cl c) eqn:E; [|discriminate].
    apply IH in H. destruct H as (w & -> & -> & Hn & Hw).
    exists (c :: w). simpl. repeat split; [lia | lia | constructor; assumption].
Qed.

Lemma star_greedy_sound cl k res : forall rest pos caps,
  star_greedy dotall cl pos rest caps k = Some res ->
  exists st' w,
    k st' = Some res /\ consumed (mkState pos rest caps) w st'
    /\ mcaps st' = caps
    /\ Forall (fun c => cls_match dotall cl c = true) w.
Proof.
  induction rest as [|c rest IH]; simpl; intros pos caps H.
  - eexists; exists []. split; [exact H|]. split; [apply consumed_refl|].
    split; [reflexivity | constructor].
  - destruct (cls_match dotall cl c) eqn:E.
    + apply orelse_some in H. destruct H as [H | [_ H]].
      * apply IH in H. destruct H as (st' & w & Hk & [Hr Hp] & Hc & Hw).
        exists st', (c :: w). split; [exact Hk|]. unfold consumed. simpl in *.
        split; [split|].
        -- rewrite Hr. reflexivity.
        -- lia.
        -- split; [exact Hc | constructor; assumption].
      * eexists; exists []. split; [exact H|]. split; [apply consumed_refl|].
        split; [reflexivity | constructor].
    + eexists; exists []. split; [exact H|]. split; [apply consumed_refl|].
      split; [reflexivity | constructor].
Qed.

Lemma star_lazy_sound cl k res : forall rest pos caps,
  star_lazy dotall cl pos rest caps k = Some res ->
  exists st' w,
    k st' = Some res /\ consumed (mkState pos rest caps) w st'
    /\ mcaps st' = caps
    /\ Forall (fun c => cls_match dotall cl c = true) w.
Proof.
  induction rest as [|c rest IH]; simpl; intros pos caps H.
  - apply orelse_some in H. destruct H as [H | [_ H]]; [|discriminate].
    eexists; exists []. split; [exact H|]. split; [apply consumed_refl|].
    split; [reflexivity | constructor].
  - apply orelse_some in H. destruct H as [H | [_ H]].
    + eexists; exists []. split; [exact H|]. split; [apply consumed_refl|].
      split; [reflexivity | constructor].
    + destruct (cls_match dotall cl c) eqn:E; [|discriminate].
      apply IH in H. destruct H as (st' & w & Hk & [Hr Hp] & Hc & Hw).
      exists st', (c :: w). split; [exact Hk|]. unfold consumed. simpl in *.
        split; [split|].
      * rewrite Hr. reflexivity.
      * lia.
      * split; [exact Hc | constructor; assumption].
Qed.

(** Whatever the matcher consumes between a state and the state its
    continuation accepts is a word of the expression. *)
Lemma rmatch_sound r : forall st k res,
  rmatch icase dotall r st k = Some res ->
  exists st' w,
    k st' = Some res /\ consumed st w st' /\ lang icase dotall r w.
Proof.
  induction r; intros st k res H; simpl in H.
  - destruct (lit_match icase s (mpos st) (mrest st)) as [[pos' rest']|] eqn:E;
      [|discriminate].
    apply lit_match_sound in E. destruct E as (w & Hr & Hp & Hw).
    eexists; exists w. split; [exact H|]. split; [split; assumption | exact Hw].
  - destruct st as [pos rest caps]; simpl in *.
    destruct rest as [|c0 rest]; [discriminate|].
    destruct (cls_match dotall c c0) eqn:E; [|discriminate].
    eexists; exists [c0]. split; [exact H|]. split.
    + split; simpl; [reflexivity | lia].
    + exists c0. split; [reflexivity | exact E].
  - apply IHr1 in H. destruct H as (st1 & w1 & H & C1 & L1).
    apply IHr2 in H. destruct H as (st2 & w2 & H & C2 & L2).
    exists st2, (w1 ++ w2). split; [exact H|].
    split; [eapply consumed_trans; eassumption|].
    exists w1, w2. repeat split; assumption.
  - apply orelse_some in H. destruct H as [H | [_ H]].
    + apply IHr1 in H. destruct H as (st1 & w & H & C & L).
      exists st1, w. repeat split; try assumption; try apply C. left; exact L.
    + apply IHr2 in H. destruct H as (st1 & w & H & C & L).
      exists st1, w. repeat split; try assumption; try apply C. right; exact L.
  - apply orelse_some in H. destruct H as [H | [_ H]].
    + apply IHr in H. destruct H as (st1 & w & H & C & L).
      destruct (Nat.eqb (mpos st1) (mpos st)); [discriminate|].
      exists st1, w. split; [exact H|]. split; [exact C | right; exact L].
    + exists st, []. split; [exact H|]. split; [apply consumed_refl | left; reflexivity].
  - destruct st as [pos rest caps]; simpl in *.
    apply star_greedy_sound in H. destruct H as (st' & w & Hk & C & _ & Hw).
    exists st', w. repeat split; try assumption; apply C.
  - destruct st as [pos rest caps]; simpl in *.
    destruct rest as [|c0 rest]; [discriminate|].
    destruct (cls_match dotall c c0) eqn:E; [|discriminate].
    apply star_greedy_sound in H. destruct H as (st' & w & Hk & [Hr Hp] & _ & Hw).
    exists st', (c0 :: w). split; [exact Hk|]. unfold consumed. simpl in *.
    split; [split|].
    + rewrite Hr. reflexivity.
    + lia.
    + split; [discriminate | constructor; assumption].
  - destruct st as [pos rest caps]; simpl in *.
    apply star_lazy_sound in H. destruct H as (st' & w & Hk & C & _ & Hw).
    exists st', w. repeat split; try assumption; apply C.
  - destruct (rep_exact dotall n c (mpos st) (mrest st)) as [[pos' rest']|] eqn:E;
      [|discriminate].
    apply rep_exact_sound in E. destruct E as (w & Hr & Hp & Hn & Hw).
    eexists; exists w. split; [exact H|]. split; [split; assumption|].
    split; assumption.
  - apply IHr in H. destruct H as (st1 & w & H & C & L).
    eexists; exists w. split; [exact H|]. split; [exact C | exact L].
  - destruct (rmatch icase dotall r st (fun st' => Some st')) as [st1|] eqn:E;
      [|discriminate].
    eexists; exists []. split; [exact H|].
    split; [split; simpl; [reflexivity | lia] | reflexivity].
  - destruct (Nat.eqb (mpos st) 0); [|discriminate].
    exists st, []. split; [exact H|]. split; [apply consumed_refl | reflexivity].
  - destruct (mrest st) eqn:E; [|discriminate].
    exists st, []. split; [exact H|]. split; [apply consumed_refl | reflexivity].
Qed.

(** What a capture group records is the word its body consumed. *)
Lemma rmatch_cap_sound i r st k res :
  rmatch icase dotall (RCap i r) st k = Some res ->
  exists st' w,
    k (mkState (mpos st') (mrest st') ((i, w) :: mcaps st')) = Some res
    /\ consumed st w st' /\ lang icase dotall r w.
Proof.
  cbn [rmatch]. intros H. apply rmatch_sound in H.
  destruct H as (st' & w & H & [Hr Hp] & L).
  exists st', w. split; [|split; [split; assumption | exact L]].
  replace (mpos st' - mpos st) with (length w) in H by lia.
  rewrite Hr, firstn_app, Nat.sub_diag, firstn_all in H. simpl in H.
  rewrite app_nil_r in H. exact H.
Qed.

End MatcherSound.

(** ** Where matches are found *)

Lemma search_from_sound re : forall rest pos m,
  search_from re pos rest = Some m ->
  exists a b st,
    rest = a ++ b /\ index m = pos + length a
    /\ match_at (ignoreCase re) (dotAll re) (source re) (index m) b = Some st
    /\ mend m = mpos st /\ groups m = mcaps st.
Proof.
  induction rest as [|c rest IH]; intros pos m H; rewrite search_from_eq in H;
    destruct (match_at _ _ _ pos _) as [st|] eqn:E.
  - inversion H; subst m. exists [], [], st. simpl.
    rewrite Nat.add_0_r. repeat split; [exact E].
  - discriminate.
  - inversion H; subst m. exists [], (c :: rest), st. simpl.
    rewrite Nat.add_0_r. repeat split; [exact E].
  - apply IH in H. destruct H as (a & b & st & -> & Hi & Hm & He & Hg).
    exists (c :: a), b, st. simpl. repeat split; try assumption. lia.
Qed.

(** A match of [exec] splits the input at its index. *)
Lemma exec_sound re s li m :
  exec re s li = Some m ->
  exists pre b st,
    s = pre ++ b /\ length pre = index m
    /\ match_at (ignoreCase re) (dotAll re) (source re) (index m) b = Some st
    /\ mend m = mpos st /\ groups m = mcaps st.
Proof.
  unfold exec. destruct (Nat.ltb_spec (length s) li) as [Hlt|Hle]; [discriminate|].
  intros H. apply search_from_sound in H.
  destruct H as (a & b & st & Hs & Hi & Hm & He & Hg).
  exists (firstn li s ++ a), b, st. repeat split; try assumption.
  - rewrite <- app_assoc, <- Hs. symmetry. apply firstn_skipn.
  - rewrite length_app, length_firstn. lia.
Qed.

Lemma exec_loop_sound re s : forall fuel li,
  Forall (fun m => exists pre b st,
            s = pre ++ b /\ length pre = index m
            /\ match_at (ignoreCase re) (dotAll re) (source re) (index m) b = Some st
            /\ mend m = mpos st /\ groups m = mcaps st)
    (exec_loop fuel re s li).
Proof.
  induction fuel as [|fuel IH]; intros li; cbn [exec_loop]; [constructor|].
  destruct (exec re s li) as [m|] eqn:E; [|constructor].
  constructor; [|apply IH]. apply exec_sound in E. exact E.
Qed.

Lemma Forall2_chr_exact p : forall w,
  Forall2 (fun a c => chr_match false a c = true) p w -> w = p.
Proof.
  induction p as [|a p IH]; intros w H; inversion H; subst; [reflexivity|].
  f_equal; [|apply IH; assumption].
  unfold chr_match in *. symmetry. apply char_eqb_eq. assumption.
Qed.

(** A match of a case-sensitive expression that starts with a literal
    starts with that literal. *)
Lemma match_at_lead dotall r p pos b st :
  lead r = Some p ->
  match_at false dotall r pos b = Some st ->
  exists post, b = p ++ post.
Proof.
  unfold match_at. intros Hlead H. apply rmatch_sound in H.
  destruct H as (st' & w & _ & [Hr _] & L). cbn [mrest] in Hr.
  destruct r; try discriminate.
  - injection Hlead as <-. cbn [lang] in L. apply Forall2_chr_exact in L.
    exists (mrest st'). rewrite Hr, L. reflexivity.
  - destruct r1; try discriminate. injection Hlead as <-.
    cbn [lang] in L. destruct L as (w1 & w2 & Hw & L1 & _).
    apply Forall2_chr_exact in L1.
    exists (w2 ++ mrest st'). rewrite Hr, Hw, L1, <- app_assoc. reflexivity.
Qed.

(** Such an expression finds nothing in a string that does not contain the
    literal. *)
Lemma exec_no_literal re s li p :
  ignoreCase re = false ->
  lead (source re) = Some p ->
  includes s p = false ->
  exec re s li = None.
Proof.
  intros Hcase Hlead Hnone. destruct (exec re s li) as [m|] eqn:E; [|reflexivity].
  exfalso. apply exec_sound in E. destruct E as (pre & b & st & -> & _ & Hm & _).
  rewrite Hcase in Hm. apply (match_at_lead _ _ p) in Hm; [|exact Hlead].
  destruct Hm as [post ->].
  assert (Hin : includes (pre ++ p ++ post) p = true).
  { apply includes_spec. exists pre, post. reflexivity. }
  congruence.
Qed.

Lemma exec_all_no_literal re s p :
  ignoreCase re = false ->
  lead (source re) = Some p ->
  includes s p = false ->
  exec_all re s = [].
Proof.
  intros Hcase Hlead Hnone. unfold exec_all. cbn [exec_loop].
  rewrite (exec_no_literal re s 0 p Hcase Hlead Hnone). reflexivity.
Qed.

Lemma replace_no_literal re repl s p :
  ignoreCase re = false ->
  lead (source re) = Some p ->
  includes s p = false ->
  replace re repl s = s.
Proof.
  intros Hcase Hlead Hnone. unfold replace.
  rewrite (exec_all_no_literal re s p Hcase Hlead Hnone).
  rewrite (exec_no_literal re s 0 p Hcase Hlead Hnone).
  destruct (global re); reflexivity.
Qed.

(** ** Lengths *)

Lemma splice_length repl : forall ms pos rest,
  Forall (fun m => pos <= index m) ms ->
  StronglySorted (fun a b => mend a <= index b) ms ->
  Forall (fun m => index m + length repl <= mend m /\ mend m <= pos + length rest) ms ->
  length (splice ms repl pos rest) <= length rest.
Proof.
  induction ms as [|m ms IH]; intros pos rest Hlo Hs Hb; cbn [splice]; [lia|].
  inversion Hlo as [|? ? Hlo1 Hlo2]; subst.
  inversion Hs as [|? ? Hs1 Hs2]; subst.
  inversion Hb as [|? ? [Hb1 Hb2] Hb3]; subst.
  rewrite !length_app, length_firstn.
  specialize (IH (mend m) (skipn (mend m - pos) rest) Hs2 Hs1).
  rewrite length_skipn in IH.
  assert (IH' : length (splice ms repl (mend m) (skipn (mend m - pos) rest))
                <= length rest - (mend m - pos)).
  { apply IH. eapply Forall_impl; [|exact Hb3]. simpl. intros a [H1 H2]. lia. }
  lia.
Qed.

Lemma Forall_and {A} (P Q : A -> Prop) l : Forall P l -> Forall Q l -> Forall (fun x => P x /\ Q x) l.
Proof.
  intros HP HQ. rewrite Forall_forall in *. intros x Hx. split; auto.
Qed.

(** A replacement no longer than the shortest match never lengthens the
    string. *)
Lemma replace_length re repl s :
  length repl <= minlen (source re) ->
  length (replace re repl s) <= length s.
Proof.
  intros Hmin. unfold replace. destruct (global re).
  - unfold exec_all.
    destruct (exec_loop_sorted re s (S (length s)) 0) as [Hlo Hs].
    pose proof (exec_loop_consumes re s (S (length s)) 0) as Hc.
    apply splice_length; try assumption.
    eapply Forall_impl; [|exact Hc]. simpl. intros m [H1 H2]. lia.
  - destruct (exec re s 0) as [m|] eqn:E; [|lia].
    apply exec_bounds in E. apply splice_length.
    + repeat constructor. lia.
    + repeat constructor.
    + repeat constructor; simpl; lia.
Qed.

Lemma trim_start_length s : length (trim_start s) <= length s.
Proof.
  induction s as [|c s IH]; simpl; [lia|].
  destruct (is_space c); simpl; lia.
Qed.

Lemma trim_length s : length (trim s) <= length s.
Proof.
  unfold trim, trim_end. rewrite length_rev.
  etransitivity; [apply trim_start_length|]. rewrite length_rev.
  apply trim_start_length.
Qed.

(** ** The whitespace pass of [stripHtml] *)

Lemma span_app p : forall s, s = fst (span p s) ++ snd (span p s).
Proof.
  induction s as [|c s IH]; simpl; [reflexivity|].
  destruct (p c); [|reflexivity].
  destruct (span p s) as [a b]. simpl in *. rewrite <- IH. reflexivity.
Qed.

Lemma span_all p : forall s, Forall (fun c => p c = true) (fst (span p s)).
Proof.
  induction s as [|c s IH]; simpl; [constructor|].
  destruct (p c) eqn:E; [|constructor].
  destruct (span p s) as [a b]. simpl in *. constructor; assumption.
Qed.

Lemma span_stop p : forall s,
  snd (span p s) = [] \/ exists c t, snd (span p s) = c :: t /\ p c = false.
Proof.
  induction s as [|c s IH]; simpl; [left; reflexivity|].
  destruct (p c) eqn:E.
  - destruct (span p s) as [a b]. simpl in *. exact IH.
  - right. exists c, s. split; [reflexivity | exact E].
Qed.

Lemma span_firstn p : forall s, firstn (length (fst (span p s))) s = fst (span p s).
Proof.
  induction s as [|c s IH]; simpl; [reflexivity|].
  destruct (p c); [|reflexivity].
  destruct (span p s) as [a b]. simpl in *. rewrite IH. reflexivity.
Qed.

Lemma span_skipn p : forall s, skipn (length (fst (span p s))) s = snd (span p s).
Proof.
  induction s as [|c s IH]; simpl; [reflexivity|].
  destruct (p c); [|reflexivity].
  destruct (span p s) as [a b]. simpl in *. rewrite IH. reflexivity.
Qed.

(** A greedy star with nothing after it takes the longest run. *)
Lemma star_greedy_total dotall cl caps : forall rest pos,
  star_greedy dotall cl pos rest caps (fun st => Some st) =
  Some (mkState (pos + length (fst (span (cls_match dotall cl) rest)))
          (snd (span (cls_match dotall cl) rest)) caps).
Proof.
  induction rest as [|c rest IH]; intros pos; simpl.
  - rewrite Nat.add_0_r. reflexivity.
  - destruct (cls_match dotall cl c).
    + rewrite IH. destruct (span (cls_match dotall cl) rest) as [a b]. simpl.
      f_equal. f_equal. lia.
    + simpl. rewrite Nat.add_0_r. reflexivity.
Qed.

Lemma spaces_match_at pos rest :
  match_at false false (source Rx.spaces) pos rest =
  match rest with
  | c :: r =>
      if is_space c
      then Some (mkState (S pos + length (fst (span is_space r)))
                   (snd (span is_space r)) [])
      else None
  | [] => None
  end.
Proof.
  unfold match_at. cbn [Rx.spaces source rmatch mrest mpos mcaps cls_match].
  destruct rest as [|c r]; [reflexivity|].
  destruct (is_space c); [|reflexivity].
  apply (star_greedy_total false CSpace []).
Qed.

(** The first run of white space at or after [pos]. *)
Lemma spaces_search : forall rest pos,
  search_from Rx.spaces pos rest =
  match snd (span not_space rest) with
  | [] => None
  | c :: r =>
      Some (mkMatch (pos + length (fst (span not_space rest)))
              (pos + length (fst (span not_space rest)) + S (length (fst (span is_space r))))
              (c :: fst (span is_space r)) [])
  end.
Proof.
  induction rest as [|c rest IH]; intros pos; rewrite search_from_eq;
    cbn [Rx.spaces ignoreCase dotAll]; rewrite spaces_match_at.
  - reflexivity.
  - cbn [span].
    assert (Hn : not_space c = negb (is_space c)) by reflexivity.
    destruct (is_space c) eqn:E; cbn [negb] in Hn; rewrite Hn.
    + cbn [fst snd length mpos mcaps]. rewrite !Nat.add_0_r.
      replace (S pos + length (fst (span is_space rest)) - pos)
        with (S (length (fst (span is_space rest)))) by lia.
      replace (S pos + length (fst (span is_space rest)))
        with (pos + S (length (fst (span is_space rest)))) by lia.
      cbn [firstn]. rewrite span_firstn. reflexivity.
    + rewrite IH. destruct (span not_space rest) as [a b]. cbn [fst snd length].
      destruct b as [|c' r]; [reflexivity|]. f_equal. f_equal; lia.
Qed.

Lemma collapse_not_space : forall a s,
  Forall (fun c => not_space c = true) a ->
  collapse false (a ++ s) = a ++ collapse false s.
Proof.
  induction a as [|c a IH]; intros s Ha; simpl; [reflexivity|].
  inversion Ha as [|? ? Hc Ha']; subst. unfold not_space in Hc.
  apply negb_true_iff in Hc. rewrite Hc, IH by exact Ha'. reflexivity.
Qed.

Lemma collapse_spaces : forall w s,
  Forall (fun c => is_space c = true) w ->
  collapse true (w ++ s) = collapse true s.
Proof.
  induction w as [|c w IH]; intros s Hw; simpl; [reflexivity|].
  inversion Hw as [|? ? Hc Hw']; subst. rewrite Hc. apply IH. exact Hw'.
Qed.

Lemma collapse_true_stop s :
  (s = [] \/ exists c t, s = c :: t /\ is_space c = false) ->
  collapse true s = collapse false s.
Proof.
  intros [-> | (c & t & -> & Hc)]; simpl; [reflexivity|]. rewrite Hc. reflexivity.
Qed.

Lemma spaces_loop : forall fuel s pos,
  pos <= length s -> length s < fuel + pos ->
  splice (exec_loop fuel Rx.spaces s pos) [32%N] pos (skipn pos s) =
  collapse false (skipn pos s).
Proof.
  induction fuel as [|fuel IH]; intros s pos Hpos Hfuel; [lia|].
  cbn [exec_loop]. unfold exec.
  destruct (Nat.ltb_spec (length s) pos) as [Hlt|_]; [lia|].
  rewrite spaces_search.
  pose proof (span_app not_space (skipn pos s)) as Hsplit.
  pose proof (span_all not_space (skipn pos s)) as Hall.
  pose proof (span_stop not_space (skipn pos s)) as Hstop.
  pose proof (span_firstn not_space (skipn pos s)) as Hfirst.
  pose proof (span_skipn not_space (skipn pos s)) as Hskip.
  destruct (span not_space (skipn pos s)) as [a b]. cbn [fst snd] in *.
  destruct b as [|c r].
  - cbn [splice]. rewrite Hsplit, collapse_not_space by exact Hall. reflexivity.
  - assert (Hc : is_space c = true).
    { destruct Hstop as [Hs | (c' & t & Hs & Hc')]; [discriminate|].
      inversion Hs; subst. unfold not_space in Hc'.
      apply negb_false_iff in Hc'. exact Hc'. }
    pose proof (span_app is_space r) as Hsplit2.
    pose proof (span_all is_space r) as Hall2.
    pose proof (span_stop is_space r) as Hstop2.
    pose proof (span_skipn is_space r) as Hskip2.
    destruct (span is_space r) as [w b]. cbn [fst snd] in *.
    assert (Hlen : length (skipn pos s) = length a + S (length w + length b)).
    { rewrite Hsplit, Hsplit2, !length_app. simpl. rewrite length_app. lia. }
    rewrite length_skipn in Hlen.
    cbn [splice index mend].
    replace (pos + length a - pos) with (length a) by lia.
    replace (pos + length a + S (length w) - pos) with (length a + S (length w)) by lia.
    rewrite Hfirst.
    assert (Hb : skipn (length a + S (length w)) (skipn pos s) = b).
    { rewrite Nat.add_comm, <- skipn_skipn, Hskip. cbn [skipn]. exact Hskip2. }
    rewrite Hb.
    assert (Hb' : b = skipn (pos + length a + S (length w)) s).
    { rewrite <- Hb, skipn_skipn. f_equal. lia. }
    rewrite Hb' at 1. rewrite IH by lia. rewrite <- Hb'.
    rewrite Hsplit at 1. rewrite collapse_not_space by exact Hall.
    f_equal. cbn [collapse]. rewrite Hc. cbn [app]. f_equal.
    rewrite Hsplit2, collapse_spaces by exact Hall2.
    symmetry. apply collapse_true_stop. exact Hstop2.
Qed.

(** The pass [.replace(/\s+/g, ' ')] turns every run of white space into one
    space. *)
Lemma replace_spaces s : replace Rx.spaces (lit " ") s = collapse false s.
Proof.
  unfold replace. cbn [Rx.spaces global]. unfold exec_all.
  change (lit " ") with [32%N].
  apply (spaces_loop (S (length s)) s 0); lia.
Qed.

(** ** The shape of stripped text *)

Lemma collapse_only_spaces : forall s r c,
  In c (collapse r s) -> is_space c = true -> c = 32%N.
Proof.
  induction s as [|x s IH]; intros r c Hin Hc; simpl in Hin; [contradiction|].
  destruct (is_space x) eqn:Ex.
  - destruct r; [eapply IH; eassumption|].
    destruct Hin as [<-|Hin]; [reflexivity | eapply IH; eassumption].
  - destruct Hin as [<-|Hin]; [congruence | eapply IH; eassumption].
Qed.

Lemma collapse_true_head s c t : collapse true s = c :: t -> is_space c = false.
Proof.
  induction s as [|x s IH]; simpl; [discriminate|].
  destruct (is_space x) eqn:Ex; [exact IH|].
  intros H. inversion H; subst. exact Ex.
Qed.

Lemma collapse_no_double : forall s r a b,
  collapse r s <> a ++ 32%N :: 32%N :: b.
Proof.
  induction s as [|x s IH]; intros r a b H; simpl in H.
  - destruct a; discriminate.
  - destruct (is_space x) eqn:Ex.
    + destruct r; [exact (IH _ _ _ H)|].
      destruct a as [|y a]; simpl in H; inversion H; subst.
      * match goal with E : collapse true s = _ |- _ =>
          apply collapse_true_head in E; discriminate E end.
      * match goal with E : collapse true s = _ |- _ => exact (IH _ _ _ E) end.
    + destruct a as [|y a]; simpl in H; inversion H; subst.
      * discriminate Ex.
      * match goal with E : collapse false s = _ |- _ => exact (IH _ _ _ E) end.
Qed.

Lemma collapse_SingleSpaced s : SingleSpaced (collapse false s).
Proof.
  split.
  - intros c. apply collapse_only_spaces.
  - intros a b. apply collapse_no_double.
Qed.

Lemma trim_start_factor s :
  exists l, s = l ++ trim_start s /\ Forall (fun c => is_space c = true) l.
Proof.
  induction s as [|c s IH]; simpl.
  - exists []. split; [reflexivity | constructor].
  - destruct (is_space c) eqn:E.
    + destruct IH as (l & Hs & Hl). exists (c :: l). split.
      * simpl. rewrite <- Hs. reflexivity.
      * constructor; assumption.
    + exists []. split; [reflexivity | constructor].
Qed.

Lemma trim_start_head s c t : trim_start s = c :: t -> is_space c = false.
Proof.
  induction s as [|x s IH]; simpl; [discriminate|].
  destruct (is_space x) eqn:E; [exact IH|].
  intros H. inversion H; subst. exact E.
Qed.

Lemma trim_end_factor s :
  exists r, s = trim_end s ++ r /\ Forall (fun c => is_space c = true) r.
Proof.
  unfold trim_end. destruct (trim_start_factor (rev s)) as (l & Hs & Hl).
  exists (rev l). split.
  - rewrite <- rev_app_distr, <- Hs, rev_involutive. reflexivity.
  - apply Forall_rev. exact Hl.
Qed.

Lemma trim_factor s :
  exists l r, s = l ++ trim s ++ r
              /\ Forall (fun c => is_space c = true) l
              /\ Forall (fun c => is_space c = true) r.
Proof.
  unfold trim. destruct (trim_start_factor s) as (l & Hs & Hl).
  destruct (trim_end_factor (trim_start s)) as (r & Hr & Hr').
  exists l, r. split; [|split; assumption].
  rewrite <- Hr. exact Hs.
Qed.

Lemma trim_Trimmed s : Trimmed (trim s).
Proof.
  unfold trim. split.
  - intros c t H. destruct (trim_end_factor (trim_start s)) as (r & Hr & _).
    rewrite H in Hr. simpl in Hr. apply trim_start_head in Hr. exact Hr.
  - intros t c H. unfold trim_end in H.
    apply (f_equal (@rev char)) in H. rewrite rev_involutive, rev_app_distr in H.
    simpl in H. apply trim_start_head in H. exact H.
Qed.

Lemma SingleSpaced_factor l s r : SingleSpaced (l ++ s ++ r) -> SingleSpaced s.
Proof.
  intros [H1 H2]. split.
  - intros c Hin. apply H1. apply in_or_app. right. apply in_or_app. left. exact Hin.
  - intros a b E. apply (H2 (l ++ a) (b ++ r)). rewrite E.
    rewrite <- !app_assoc. reflexivity.
Qed.

Lemma stripHtml_shape html : SingleSpaced (stripHtml html) /\ Trimmed (stripHtml html).
Proof.
  unfold stripHtml. rewrite replace_spaces.
  match goal with |- context [collapse false ?x] => generalize x end.
  intros s. split; [|apply trim_Trimmed].
  destruct (trim_factor (collapse false s)) as (l & r & Hs & _).
  apply (SingleSpaced_factor l _ r). rewrite <- Hs. apply collapse_SingleSpaced.
Qed.

(** ** Plain text *)

Lemma includes_head_false s c p :
  includes s [c] = false -> includes s (c :: p) = false.
Proof.
  intros H. destruct (includes s (c :: p)) eqn:E; [|reflexivity].
  apply includes_spec in E. destruct E as (pre & post & ->).
  assert (Hin : includes (pre ++ (c :: p) ++ post) [c] = true).
  { apply includes_spec. exists pre, (p ++ post). reflexivity. }
  congruence.
Qed.

Lemma filter_collapse : forall s r, filter not_space (collapse r s) = filter not_space s.
Proof.
  induction s as [|c s IH]; intros r; simpl; [reflexivity|].
  unfold not_space at 2. destruct (is_space c) eqn:E; simpl.
  - destruct r; simpl; apply IH.
  - unfold not_space at 1. rewrite E. simpl. f_equal. apply IH.
Qed.

Lemma filter_trim_start s : filter not_space (trim_start s) = filter not_space s.
Proof.
  induction s as [|c s IH]; simpl; [reflexivity|].
  unfold not_space at 2. destruct (is_space c) eqn:E; simpl; [exact IH|].
  unfold not_space at 1. rewrite E. reflexivity.
Qed.

Lemma filter_trim s : filter not_space (trim s) = filter not_space s.
Proof.
  unfold trim, trim_end.
  rewrite <- (rev_involutive (filter not_space (rev (trim_start (rev (trim_start s)))))).
  rewrite <- filter_rev, rev_involutive, filter_trim_start, filter_rev, rev_involutive.
  apply filter_trim_start.
Qed.

(** On text without [<] and [&], [stripHtml] is whitespace normalisation. *)
Lemma stripHtml_plain html :
  includes html (lit "<") = false ->
  includes html (lit "&") = false ->
  stripHtml html = trim (collapse false html).
Proof.
  intros Hlt Hamp. unfold stripHtml.
  rewrite (replace_no_literal Rx.tag _ html (lit "<")) by (reflexivity || exact Hlt).
  repeat match goal with
  | |- context [replace (Rx.entity ?n) ?r html] =>
      rewrite (replace_no_literal (Rx.entity n) r html (lit n))
        by (reflexivity || (apply includes_head_false; exact Hamp))
  end.
  rewrite replace_spaces. reflexivity.
Qed.

(** ** Clean text *)

Lemma collapse_clean : forall s r,
  SingleSpaced s ->
  (r = true -> forall c t, s = c :: t -> is_space c = false) ->
  collapse r s = s.
Proof.
  induction s as [|c s IH]; intros r Hs Hr; simpl; [reflexivity|].
  assert (Htail : SingleSpaced s).
  { apply (SingleSpaced_factor [c] s []). rewrite app_nil_r. exact Hs. }
  destruct Hs as [H1 H2].
  destruct (is_space c) eqn:E.
  - destruct r; [rewrite (Hr eq_refl c s eq_refl) in E; discriminate|].
    assert (Hc : c = 32%N) by (apply H1; [left; reflexivity | exact E]).
    subst c. f_equal. apply IH; [exact Htail|].
    intros _ d t ->. destruct (is_space d) eqn:Ed; [|reflexivity].
    assert (Hd : d = 32%N) by (apply H1; [right; left; reflexivity | exact Ed]).
    subst d. exfalso. apply (H2 [] t). reflexivity.
  - f_equal. apply IH; [exact Htail|]. intros; discriminate.
Qed.

Lemma trim_start_clean s :
  (forall c t, s = c :: t -> is_space c = false) -> trim_start s = s.
Proof.
  destruct s as [|c s]; simpl; [reflexivity|]. intros H.
  rewrite (H c s eq_refl). reflexivity.
Qed.

Lemma trim_clean s : Trimmed s -> trim s = s.
Proof.
  intros [H1 H2]. unfold trim. rewrite (trim_start_clean s H1).
  unfold trim_end. rewrite trim_start_clean; [apply rev_involutive|].
  intros c t E. apply (H2 (rev t) c).
  rewrite <- (rev_involutive s), E. reflexivity.
Qed.

Lemma includes_factor l s r p :
  includes (l ++ s ++ r) p = false -> includes s p = false.
Proof.
  intros H. destruct (includes s p) eqn:E; [|reflexivity].
  apply includes_spec in E. destruct E as (a & b & ->).
  assert (Hin : includes (l ++ (a ++ p ++ b) ++ r) p = true).
  { apply includes_spec. exists (l ++ a), (b ++ r).
    rewrite <- !app_assoc. reflexivity. }
  congruence.
Qed.

Lemma includes_char s c : includes s [c] = false <-> ~ In c s.
Proof.
  split.
  - intros H Hin. apply in_split in Hin. destruct Hin as (l1 & l2 & ->).
    assert (E : includes (l1 ++ c :: l2) [c] = true).
    { apply includes_spec. exists l1, l2. reflexivity. }
    congruence.
  - intros H. destruct (includes s [c]) eqn:E; [|reflexivity].
    apply includes_spec in E. destruct E as (a & b & ->).
    exfalso. apply H. apply in_or_app. right. left. reflexivity.
Qed.

Lemma collapse_In : forall s r c, In c (collapse r s) -> In c s \/ c = 32%N.
Proof.
  induction s as [|x s IH]; intros r c H; simpl in H; [contradiction|].
  destruct (is_space x).
  - destruct r.
    + destruct (IH _ _ H) as [Hin|Hc]; [left; right; exact Hin | right; exact Hc].
    + destruct H as [<-|H]; [right; reflexivity|].
      destruct (IH _ _ H) as [Hin|Hc]; [left; right; exact Hin | right; exact Hc].
  - destruct H as [<-|H]; [left; left; reflexivity|].
    destruct (IH _ _ H) as [Hin|Hc]; [left; right; exact Hin | right; exact Hc].
Qed.

Lemma trim_In s c : In c (trim s) -> In c s.
Proof.
  intros H. destruct (trim_factor s) as (l & r & Hs & _). rewrite Hs.
  apply in_or_app. right. apply in_or_app. left. exact H.
Qed.

Lemma normalise_keeps_absent s c :
  c <> 32%N -> includes s [c] = false ->
  includes (trim (collapse false s)) [c] = false.
Proof.
  intros Hc H. apply includes_char. apply includes_char in H.
  intros Hin. apply trim_In in Hin. apply collapse_In in Hin.
  destruct Hin as [Hin|E]; [exact (H Hin) | exact (Hc E)].
Qed.

Lemma stripHtml_clean s :
  includes s (lit "<") = false ->
  includes s (lit "&") = false ->
  SingleSpaced s -> Trimmed s ->
  stripHtml s = s.
Proof.
  intros Hlt Hamp Hs Ht. rewrite (stripHtml_plain s Hlt Hamp).
  rewrite collapse_clean; [apply trim_clean; exact Ht | exact Hs | discriminate].
Qed.

(** ** Properties of [stripHtml] *)

(** X1.  Stripping never lengthens the text: every replacement of
    [stripHtml] puts at most as many characters as the match it replaces,
    and trimming only removes. *)
Theorem stripHtml_never_longer html : length (stripHtml html) <= length html.
Proof.
  unfold stripHtml.
  etransitivity; [apply trim_length|].
  repeat (etransitivity; [apply replace_length; vm_compute; lia|]).
  apply le_n.
Qed.

(** X2.  The result of [stripHtml] is whitespace-normalised, whatever the
    input: its only white space characters are single spaces (U+0020), never
    two in a row, and none at either end. *)
Theorem stripHtml_normalised html :
  (forall c, In c (stripHtml html) -> is_space c = true -> c = 32%N)
  /\ (forall a b, stripHtml html <> a ++ 32%N :: 32%N :: b)
  /\ (forall c t, stripHtml html = c :: t -> is_space c = false)
  /\ (forall t c, stripHtml html = t ++ [c] -> is_space c = false).
Proof.
  destruct (stripHtml_shape html) as [[Hspace Hdouble] [Hhead Hlast]].
  split; [exact Hspace|]. split; [exact Hdouble|].
  split; [exact Hhead | exact Hlast].
Qed.

(** X3.  On text with no [<] and no [&], [stripHtml] only touches white
    space: it collapses each white-space run to one space and trims, so the
    characters other than white space are kept, in order. *)
Theorem stripHtml_plain_text html :
  includes html (lit "<") = false ->
  includes html (lit "&") = false ->
  stripHtml html = trim (collapse false html)
  /\ filter not_space (stripHtml html) = filter not_space html.
Proof.
  intros Hlt Hamp. rewrite (stripHtml_plain html Hlt Hamp). split; [reflexivity|].
  rewrite filter_trim. apply filter_collapse.
Qed.

Lemma stripHtml_plain_text_witness :
  stripHtml (lit "  An  Act ") = trim (collapse false (lit "  An  Act "))
  /\ filter not_space (stripHtml (lit "  An  Act "))
     = filter not_space (lit "  An  Act ").
Proof. apply (stripHtml_plain_text (lit "  An  Act ")); reflexivity. Defined.

(** X4.  On text with no [<] and no [&], [stripHtml] is idempotent:
    stripping the stripped text changes nothing. *)
Theorem stripHtml_idempotent_on_plain_text html :
  includes html (lit "<") = false ->
  includes html (lit "&") = false ->
  stripHtml (stripHtml html) = stripHtml html.
Proof.
  intros Hlt Hamp. destruct (stripHtml_shape html) as [Hs Ht].
  apply stripHtml_clean; try assumption;
    rewrite (stripHtml_plain html Hlt Hamp);
    apply normalise_keeps_absent; (discriminate || assumption).
Qed.

Lemma stripHtml_idempotent_on_plain_text_witness :
  stripHtml (stripHtml (lit "  An  Act ")) = stripHtml (lit "  An  Act ").
Proof.
  apply (stripHtml_idempotent_on_plain_text (lit "  An  Act ")); reflexivity.
Defined.

(** ** Capture groups *)

Section Captures.
Variables icase dotall : bool.

(** An expression without groups leaves the captures as they are. *)
Lemma rmatch_capfree r : forall st k res,
  capfree r = true ->
  rmatch icase dotall r st k = Some res ->
  exists st' w,
    k st' = Some res /\ consumed st w st' /\ lang icase dotall r w
    /\ mcaps st' = mcaps st.
Proof.
  induction r; intros st k res Hfree H; simpl in H; simpl in Hfree.
  - destruct (lit_match icase s (mpos st) (mrest st)) as [[pos' rest']|] eqn:E;
      [|discriminate].
    apply lit_match_sound in E. destruct E as (w & Hr & Hp & Hw).
    eexists; exists w. split; [exact H|].
    split; [split; assumption | split; [exact Hw | reflexivity]].
  - destruct st as [pos rest caps]; simpl in *.
    destruct rest as [|c0 rest]; [discriminate|].
    destruct (cls_match dotall c c0) eqn:E; [|discriminate].
    eexists; exists [c0]. split; [exact H|]. split; [|split; [|reflexivity]].
    + split; simpl; [reflexivity | lia].
    + exists c0. split; [reflexivity | exact E].
  - apply andb_true_iff in Hfree. destruct Hfree as [F1 F2].
    apply (IHr1 _ _ _ F1) in H. destruct H as (st1 & w1 & H & C1 & L1 & K1).
    apply (IHr2 _ _ _ F2) in H. destruct H as (st2 & w2 & H & C2 & L2 & K2).
    exists st2, (w1 ++ w2). split; [exact H|].
    split; [eapply consumed_trans; eassumption|].
    split; [exists w1, w2; repeat split; assumption | congruence].
  - apply andb_true_iff in Hfree. destruct Hfree as [F1 F2].
    apply orelse_some in H. destruct H as [H | [_ H]].
    + apply (IHr1 _ _ _ F1) in H. destruct H as (st1 & w & H & C & L & K).
      exists st1, w. split; [exact H|]. split; [exact C|].
      split; [left; exact L | exact K].
    + apply (IHr2 _ _ _ F2) in H. destruct H as (st1 & w & H & C & L & K).
      exists st1, w. split; [exact H|]. split; [exact C|].
      split; [right; exact L | exact K].
  - apply orelse_some in H. destruct H as [H | [_ H]].
    + apply (IHr _ _ _ Hfree) in H. destruct H as (st1 & w & H & C & L & K).
      destruct (Nat.eqb (mpos st1) (mpos st)); [discriminate|].
      exists st1, w. split; [exact H|]. split; [exact C|].
      split; [right; exact L | exact K].
    + exists st, []. split; [exact H|]. split; [apply consumed_refl|].
      split; [left; reflexivity | reflexivity].
  - destruct st as [pos rest caps]; simpl in *.
    apply star_greedy_sound in H. destruct H as (st' & w & Hk & C & K & Hw).
    exists st', w. repeat split; try assumption; apply C.
  - destruct st as [pos rest caps]; simpl in *.
    destruct rest as [|c0 rest]; [discriminate|].
    destruct (cls_match dotall c c0) eqn:E; [|discriminate].
    apply star_greedy_sound in H. destruct H as (st' & w & Hk & [Hr Hp] & K & Hw).
    exists st', (c0 :: w). split; [exact Hk|]. unfold consumed. simpl in *.
    split; [split|].
    + rewrite Hr. reflexivity.
    + lia.
    + split; [split; [discriminate | constructor; assumption] | exact K].
  - destruct st as [pos rest caps]; simpl in *.
    apply star_lazy_sound in H. destruct H as (st' & w & Hk & C & K & Hw).
    exists st', w. repeat split; try assumption; apply C.
  - destruct (rep_exact dotall n c (mpos st) (mrest st)) as [[pos' rest']|] eqn:E;
      [|discriminate].
    apply rep_exact_sound in E. destruct E as (w & Hr & Hp & Hn & Hw).
    eexists; exists w. split; [exact H|]. split; [split; assumption|].
    split; [split; assumption | reflexivity].
  - discriminate.
  - destruct (rmatch icase dotall r st (fun st' => Some st')) as [st1|] eqn:E;
      [|discriminate].
    apply (IHr _ _ _ Hfree) in E. destruct E as (st2 & w & E & _ & _ & K).
    injection E as ->.
    eexists; exists []. split; [exact H|].
    split; [split; simpl; [reflexivity | lia] | split; [reflexivity | exact K]].
  - destruct (Nat.eqb (mpos st) 0); [|discriminate].
    exists st, []. split; [exact H|]. split; [apply consumed_refl|].
    split; reflexivity.
  - destruct (mrest st) eqn:E; [|discriminate].
    exists st, []. split; [exact H|]. split; [apply consumed_refl|].
    split; reflexivity.
Qed.

(** A match of [before (group) after]: the text splits into a word of each
    part, and the group holds the middle one. *)
Lemma match_at_group_mid before body after i pos b st :
  capfree after = true ->
  match_at icase dotall (RSeq before (RSeq (RCap i body) after)) pos b = Some st ->
  exists w0 w w1,
    b = w0 ++ w ++ w1 ++ mrest st
    /\ mpos st = pos + length w0 + length w + length w1
    /\ lang icase dotall before w0 /\ lang icase dotall body w
    /\ lang icase dotall after w1
    /\ group_lookup i (mcaps st) = Some w.
Proof.
  unfold match_at. intros Hfree H. cbn [rmatch] in H.
  apply rmatch_sound in H. destruct H as (st0 & w0 & H & [R0 P0] & L0).
  apply rmatch_sound in H. destruct H as (st1 & w & H & [R1 P1] & L1).
  replace (mpos st1 - mpos st0) with (length w) in H by lia.
  rewrite R1, firstn_app, Nat.sub_diag, firstn_all in H. simpl in H.
  rewrite app_nil_r in H.
  apply (rmatch_capfree _ _ _ _ Hfree) in H.
  destruct H as (st2 & w1 & H & [R2 P2] & L2 & K2). injection H as ->.
  simpl in *. exists w0, w, w1. split; [rewrite R0, R1, R2; reflexivity|].
  split; [lia|]. split; [exact L0|]. split; [exact L1|]. split; [exact L2|].
  rewrite K2. simpl. rewrite Nat.eqb_refl. reflexivity.
Qed.

(** A match of [before (group)]. *)
Lemma match_at_group_last before body i pos b st :
  match_at icase dotall (RSeq before (RCap i body)) pos b = Some st ->
  exists w0 w,
    b = w0 ++ w ++ mrest st
    /\ mpos st = pos + length w0 + length w
    /\ lang icase dotall before w0 /\ lang icase dotall body w
    /\ group_lookup i (mcaps st) = Some w.
Proof.
  unfold match_at. intros H. cbn [rmatch] in H.
  apply rmatch_sound in H. destruct H as (st0 & w0 & H & [R0 P0] & L0).
  apply rmatch_sound in H. destruct H as (st1 & w & H & [R1 P1] & L1).
  replace (mpos st1 - mpos st0) with (length w) in H by lia.
  rewrite R1, firstn_app, Nat.sub_diag, firstn_all in H. simpl in H.
  rewrite app_nil_r in H. injection H as <-.
  simpl in *. exists w0, w. split; [rewrite R0, R1; reflexivity|].
  split; [lia|]. split; [exact L0|]. split; [exact L1|].
  rewrite Nat.eqb_refl. reflexivity.
Qed.

End Captures.

Lemma lang_seq_assoc icase dotall r1 r2 r3 w :
  lang icase dotall (RSeq r1 (RSeq r2 r3)) w <->
  lang icase dotall (RSeq (RSeq r1 r2) r3) w.
Proof.
  simpl. split.
  - intros (w1 & w23 & -> & L1 & w2 & w3 & -> & L2 & L3).
    exists (w1 ++ w2), w3. rewrite app_assoc. split; [reflexivity|].
    split; [exists w1, w2; repeat split; assumption | exact L3].
  - intros (w12 & w3 & -> & (w1 & w2 & -> & L1 & L2) & L3).
    exists w1, (w2 ++ w3). rewrite app_assoc. split; [reflexivity|].
    split; [exact L1 | exists w2, w3; repeat split; assumption].
Qed.

Lemma rmatch_seq_assoc icase dotall r1 r2 r3 st k :
  rmatch icase dotall (RSeq r1 (RSeq r2 r3)) st k =
  rmatch icase dotall (RSeq (RSeq r1 r2) r3) st k.
Proof. reflexivity. Qed.

(** ** The date the page is current to *)

Lemma currentTo_match pos b st :
  match_at false false (source Rx.currentTo) pos b = Some st ->
  exists ws d post,
    b = lit "Act current to" ++ ws ++ d ++ post
    /\ Forall (fun c => is_space c = true) ws
    /\ isoDate d
    /\ group_lookup 1 (mcaps st) = Some d.
Proof.
  unfold Rx.currentTo. cbn [source]. unfold match_at.
  rewrite rmatch_seq_assoc. intros H.
  apply match_at_group_last in H.
  destruct H as (w0 & d & Hb & _ & L0 & Ld & Hg).
  cbn [lang] in L0. destruct L0 as (w1 & ws & -> & L1 & Lws).
  apply Forall2_chr_exact in L1. subst w1.
  exists ws, d, (mrest st). split; [rewrite Hb, <- app_assoc; reflexivity|].
  split; [exact Lws|]. split; [|exact Hg].
  cbn [lang] in Ld.
  destruct Ld as (y & r1 & -> & [Hy Fy] & h1 & r2 & -> & Lh1 & m & r3 & -> & [Hm Fm]
                  & h2 & dd & -> & Lh2 & [Hd Fd]).
  apply Forall2_chr_exact in Lh1, Lh2. subst h1 h2.
  exists y, m, dd. split; [reflexivity|]. repeat (split; [assumption|]).
  apply Forall_app; split; [exact Fy|]. apply Forall_app; split; assumption.
Qed.

Lemma extractCurrentToDate_shape html d :
  extractCurrentToDate html = Some d ->
  exists pre ws post,
    html = pre ++ lit "Act current to" ++ ws ++ d ++ post
    /\ Forall (fun c => is_space c = true) ws
    /\ isoDate d.
Proof.
  unfold extractCurrentToDate, match_first.
  destruct (exec Rx.currentTo html 0) as [m|] eqn:E; [|discriminate].
  intros H. injection H as <-.
  apply exec_sound in E. destruct E as (pre & b & st & -> & _ & Hm & _ & Hg).
  apply currentTo_match in Hm. destruct Hm as (ws & d & post & -> & Hws & Hd & Hc).
  exists pre, ws, post. unfold group. rewrite Hg, Hc.
  split; [reflexivity|]. split; assumption.
Qed.

Lemma isoDate_length d : isoDate d -> length d = 10.
Proof.
  intros (y & m & dd & -> & Hy & Hm & Hd & _).
  rewrite !length_app, Hy, Hm, Hd. reflexivity.
Qed.

Lemma extractCurrentToDate_none html :
  includes html (lit "Act current to") = false -> extractCurrentToDate html = None.
Proof.
  intros H. unfold extractCurrentToDate, match_first.
  rewrite (exec_no_literal Rx.currentTo html 0 (lit "Act current to"));
    [reflexivity | reflexivity | reflexivity | exact H].
Qed.

Lemma extractDescription_none html act :
  includes html (lit "<title>") = false ->
  extractDescription html act = ActIndexEntry.title act.
Proof.
  intros H. unfold extractDescription, match_first.
  rewrite (exec_no_literal Rx.titleTag html 0 (lit "<title>"));
    [reflexivity | reflexivity | reflexivity | exact H].
Qed.

(** ** The first match *)

Lemma lit_match_app p : forall pos rest,
  lit_match false p pos (p ++ rest) = Some (pos + length p, rest).
Proof.
  induction p as [|a p IH]; intros pos rest; simpl.
  - rewrite Nat.add_0_r. reflexivity.
  - unfold chr_match. rewrite (proj2 (char_eqb_eq a a) eq_refl), IH.
    f_equal. f_equal. lia.
Qed.

(** A greedy star takes the whole run when what follows then matches. *)
Lemma star_greedy_max dotall cl caps k res : forall a b pos,
  Forall (fun c => cls_match dotall cl c = true) a ->
  (b = [] \/ exists c t, b = c :: t /\ cls_match dotall cl c = false) ->
  k (mkState (pos + length a) b caps) = Some res ->
  star_greedy dotall cl pos (a ++ b) caps k = Some res.
Proof.
  induction a as [|c a IH]; intros b pos Ha Hb Hk.
  - simpl in *. rewrite Nat.add_0_r in Hk.
    destruct Hb as [-> | (c & t & -> & Hc)]; simpl; [exact Hk|].
    rewrite Hc. exact Hk.
  - inversion Ha as [|? ? Hc Ha']; subst. simpl. rewrite Hc.
    rewrite (IH b (S pos) Ha' Hb); [reflexivity|].
    simpl in Hk. rewrite <- Nat.add_succ_comm in Hk. exact Hk.
Qed.

Lemma match_at_no_lead dotall r p pos b :
  lead r = Some p -> starts_with p b = false ->
  match_at false dotall r pos b = None.
Proof.
  intros Hlead Hb. destruct (match_at false dotall r pos b) as [st|] eqn:E;
    [|reflexivity].
  destruct (match_at_lead _ _ _ _ _ _ Hlead E) as (post & ->).
  assert (H : starts_with p (p ++ post) = true).
  { apply starts_with_spec. exists post. reflexivity. }
  congruence.
Qed.

(** The search skips the positions where the expression does not match. *)
Lemma search_from_skip re : forall a b pos,
  (forall i, i < length a ->
     match_at (ignoreCase re) (dotAll re) (source re) (pos + i) (skipn i (a ++ b))
     = None) ->
  search_from re pos (a ++ b) = search_from re (pos + length a) b.
Proof.
  induction a as [|c a IH]; intros b pos H.
  - simpl. rewrite Nat.add_0_r. reflexivity.
  - rewrite search_from_eq.
    pose proof (H 0 (Nat.lt_0_succ _)) as H0. rewrite Nat.add_0_r in H0.
    cbn [skipn] in H0. rewrite H0. cbn [app].
    rewrite IH; [simpl; f_equal; lia|].
    intros i Hi. specialize (H (S i)). simpl in H.
    rewrite <- Nat.add_succ_comm in H. apply H. lia.
Qed.

(** A literal whose first character does not come back in it cannot start
    before its first occurrence. *)
Lemma prefix_of_overlap (c0 : char) : forall p u z x,
  ~ In c0 p -> u ++ c0 :: z = p ++ x -> exists y, u = p ++ y.
Proof.
  induction p as [|d p IH]; intros u z x Hn E.
  - exists u. reflexivity.
  - destruct u as [|e u]; simpl in E; inversion E; subst.
    + exfalso. apply Hn. left. reflexivity.
    + match goal with E' : u ++ _ = p ++ _ |- _ =>
        destruct (IH u z x (fun H => Hn (or_intror H)) E') as (y & ->) end.
      exists y. reflexivity.
Qed.

Lemma no_earlier_start c0 p pre tail i :
  ~ In c0 p ->
  includes pre (c0 :: p) = false ->
  i < length pre ->
  starts_with (c0 :: p) (skipn i (pre ++ (c0 :: p) ++ tail)) = false.
Proof.
  intros Hn Hpre Hi.
  destruct (starts_with (c0 :: p) _) eqn:E; [|reflexivity].
  apply starts_with_spec in E. destruct E as (x & E).
  rewrite skipn_app in E. replace (i - length pre) with 0 in E by lia.
  cbn [skipn] in E.
  destruct (skipn i pre) as [|e u] eqn:Eu.
  { apply (f_equal (@length char)) in Eu. rewrite length_skipn in Eu.
    simpl in Eu. lia. }
  simpl in E. inversion E; subst e.
  match goal with E' : u ++ _ = p ++ _ |- _ =>
    destruct (prefix_of_overlap c0 p u _ _ Hn E') as (y & ->) end.
  assert (Hin : includes pre (c0 :: p) = true).
  { apply includes_spec. exists (firstn i pre), y.
    rewrite <- (firstn_skipn i pre) at 1. rewrite Eu. reflexivity. }
  congruence.
Qed.

(** The first match starts at the first occurrence of the leading literal
    when the expression matches there. *)
Lemma match_first_at re c0 p pre tail st :
  ignoreCase re = false ->
  lead (source re) = Some (c0 :: p) ->
  ~ In c0 p ->
  includes pre (c0 :: p) = false ->
  match_at false (dotAll re) (source re) (length pre) ((c0 :: p) ++ tail) = Some st ->
  match_first re (pre ++ (c0 :: p) ++ tail) =
  Some (mkMatch (length pre) (mpos st)
          (firstn (mpos st - length pre) ((c0 :: p) ++ tail)) (mcaps st)).
Proof.
  intros Hcase Hlead Hn Hpre Hst. unfold match_first, exec.
  cbn [Nat.ltb Nat.leb skipn].
  rewrite search_from_skip.
  - rewrite search_from_eq. cbn [Nat.add]. rewrite Hcase, Hst. reflexivity.
  - intros i Hi. rewrite Hcase. cbn [Nat.add].
    apply (match_at_no_lead _ _ (c0 :: p)); [exact Hlead|].
    apply no_earlier_start; assumption.
Qed.

(** ** The description *)

Lemma titleTag_at pos c inner post :
  includes (c :: inner) (lit "<") = false ->
  match_at false false (source Rx.titleTag) pos
    (lit "<title>" ++ (c :: inner) ++ lit "</title>" ++ post)
  = Some (mkState (pos + 7 + S (length inner) + 8) post [(1, c :: inner)]).
Proof.
  intros Hlt. apply includes_char in Hlt.
  unfold match_at, Rx.titleTag. cbn [source rmatch mpos mrest mcaps].
  rewrite lit_match_app. cbn [app mrest mpos mcaps].
  assert (Hc : forall x, In x (c :: inner) -> cls_match false not_lt x = true).
  { intros x Hx. unfold not_lt, ch. cbn [cls_match].
    destruct (char_eqb _ x) eqn:E; [|reflexivity].
    apply char_eqb_eq in E. subst x. contradiction. }
  rewrite (Hc c (or_introl eq_refl)).
  apply star_greedy_max.
  - apply Forall_forall. intros x Hx. apply Hc. right. exact Hx.
  - right. eexists. eexists. split; [reflexivity | reflexivity].
  - cbn [mpos mrest mcaps].
    rewrite lit_match_app. change (length (lit "<title>")) with 7.
    change (length (lit "</title>")) with 8.
    replace (S (pos + 7) + length inner - (pos + 7)) with (length (c :: inner))
      by (cbn [length]; lia).
    change (c :: inner ++ lit "</title>" ++ post)
      with ((c :: inner) ++ (lit "</title>" ++ post)).
    rewrite firstn_app, Nat.sub_diag, firstn_all. cbn [firstn].
    rewrite app_nil_r. f_equal. f_equal. lia.
Qed.

(** ** Properties of the description *)

(** X5.  A date returned by [extractCurrentToDate] is ten characters of the
    form dddd-dd-dd, and it stands in the page after the words
    [Act current to] and possibly white space. *)
Theorem current_to_date_shape html d :
  extractCurrentToDate html = Some d ->
  exists pre ws post,
    html = pre ++ lit "Act current to" ++ ws ++ d ++ post
    /\ Forall (fun c => is_space c = true) ws
    /\ isoDate d /\ length d = 10.
Proof.
  intros H. destruct (extractCurrentToDate_shape html d H)
    as (pre & ws & post & Hh & Hws & Hd).
  exists pre, ws, post. repeat split; try assumption.
  apply isoDate_length. exact Hd.
Qed.

Lemma current_to_date_shape_witness :
  exists pre ws post,
    Sample.page = pre ++ lit "Act current to" ++ ws ++ lit "2024-01-02" ++ post
    /\ Forall (fun c => is_space c = true) ws
    /\ isoDate (lit "2024-01-02") /\ length (lit "2024-01-02") = 10.
Proof.
  apply (current_to_date_shape Sample.page (lit "2024-01-02")).
  vm_compute. reflexivity.
Defined.

(** X6.  On a page that is not an error page, the description of the
    document is the description of [extractDescription], followed by
    [. Current to <date>.] exactly when [extractCurrentToDate] finds a date:
    a date that was found is never dropped. *)
Theorem description_carries_date {engine : Engine} html act out :
  hasMarker html = false ->
  ParsedAct.description (fst (parseFullTextHtml html act out)) =
  Some (extractDescription html act ++
        match extractCurrentToDate html with
        | Some d => lit ". Current to " ++ d ++ lit "."
        | None => []
        end).
Proof.
  unfold hasMarker, parseFullTextHtml. intros ->. cbv zeta.
  cbn [ret fst ParsedAct.description].
  destruct (extractCurrentToDate html) as [d|] eqn:E;
    [|rewrite app_nil_r; reflexivity].
  apply extractCurrentToDate_shape in E. destruct E as (_ & _ & _ & _ & _ & Hd).
  apply isoDate_length in Hd. destruct d; [discriminate Hd | reflexivity].
Qed.

Lemma description_carries_date_witness :
  ParsedAct.description
    (fst (parseFullTextHtml (engine := AsciiEngine) Sample.page Sample.act [])) =
  Some (extractDescription Sample.page Sample.act ++
        match extractCurrentToDate Sample.page with
        | Some d => lit ". Current to " ++ d ++ lit "."
        | None => []
        end).
Proof.
  apply (description_carries_date (engine := AsciiEngine) Sample.page Sample.act []).
  vm_compute. reflexivity.
Defined.

(** X7.  A page with no [<title>] and without the words [Act current to],
    that is not an error page, gets the title of the catalog entry as its
    description. *)
Theorem description_falls_back_to_title {engine : Engine} html act out :
  hasMarker html = false ->
  includes html (lit "<title>") = false ->
  includes html (lit "Act current to") = false ->
  ParsedAct.description (fst (parseFullTextHtml html act out)) =
  Some (ActIndexEntry.title act).
Proof.
  intros Hm Ht Hd. unfold hasMarker in Hm. unfold parseFullTextHtml.
  rewrite Hm. cbv zeta. cbn [ret fst ParsedAct.description].
  rewrite (extractCurrentToDate_none html Hd), (extractDescription_none html act Ht).
  reflexivity.
Qed.

Lemma description_falls_back_to_title_witness :
  ParsedAct.description
    (fst (parseFullTextHtml (engine := AsciiEngine) (Sample.anchor "1") Sample.act []))
  = Some (lit "Test Act").
Proof.
  apply (description_falls_back_to_title (engine := AsciiEngine)
           (Sample.anchor "1") Sample.act []); reflexivity.
Defined.

(** X8.  The description is taken from the first [<title>] element: when the
    first [<title>] of the page is followed by text without [<] and then
    [</title>], [extractDescription] returns that text, stripped, with the
    short name of the act in parentheses. *)
Theorem description_from_first_title pre inner post act :
  includes pre (lit "<title>") = false ->
  inner <> [] ->
  includes inner (lit "<") = false ->
  extractDescription (pre ++ lit "<title>" ++ inner ++ lit "</title>" ++ post) act
  = stripHtml inner ++ lit " (" ++ ActIndexEntry.shortName act ++ lit ")".
Proof.
  intros Hpre Hne Hlt. destruct inner as [|c inner]; [congruence|].
  unfold extractDescription.
  pose proof (titleTag_at (length pre) c inner post Hlt) as Hst.
  change (lit "<title>") with (@cons char 60%N (lit "title>")) in *.
  rewrite (match_first_at Rx.titleTag 60%N (lit "title>") pre _ _
             eq_refl eq_refl (fun H => ltac:(vm_compute in H; intuition discriminate))
             Hpre Hst).
  unfold group. cbn [groups mcaps group_lookup Nat.eqb]. reflexivity.
Qed.

Lemma description_from_first_title_witness :
  extractDescription
    (lit "<head>" ++ lit "<title>" ++ lit " Test &amp; Trial  Act "
     ++ lit "</title>" ++ lit "</head>") Sample.act
  = stripHtml (lit " Test &amp; Trial  Act ") ++ lit " (" ++ lit "TA" ++ lit ")".
Proof.
  apply (description_from_first_title (lit "<head>") (lit " Test &amp; Trial  Act ")
           (lit "</head>") Sample.act); [reflexivity | discriminate | reflexivity].
Defined.

(** ** The section anchors *)

Lemma number_lang w :
  lang false false
    (RSeq (RPlus CDigit) (ROpt (RSeq (RLit (lit ".")) (RPlus CDigit)))) w ->
  sectionNumber w.
Proof.
  cbn [lang]. intros (a & b & -> & [Ha Fa] & Hb).
  exists a, b. split; [reflexivity|]. split; [exact Ha|]. split; [exact Fa|].
  destruct Hb as [-> | (u & f & -> & Hu & Hf & Ff)]; [left; reflexivity|].
  apply Forall2_chr_exact in Hu. subst u.
  right. exists f. split; [reflexivity|]. split; assumption.
Qed.

Lemma anchor_match pos b st :
  match_at false false (source Rx.anchorRe) pos b = Some st ->
  exists n,
    b = anchorOpen ++ n ++ anchorClose ++ mrest st
    /\ sectionNumber n
    /\ group_lookup 1 (mcaps st) = Some n.
Proof.
  unfold Rx.anchorRe. cbn [source]. intros H.
  apply match_at_group_mid in H; [|reflexivity].
  destruct H as (w0 & n & w1 & Hb & _ & L0 & Ln & L1 & Hg).
  cbn [lang] in L0, L1. apply Forall2_chr_exact in L0, L1. subst w0 w1.
  exists n. split; [exact Hb|]. split; [apply number_lang; exact Ln | exact Hg].
Qed.

Lemma exec_all_sound re s :
  Forall (fun m => exists pre b st,
            s = pre ++ b /\ length pre = index m
            /\ match_at (ignoreCase re) (dotAll re) (source re) (index m) b = Some st
            /\ mend m = mpos st /\ groups m = mcaps st)
    (exec_all re s).
Proof. apply exec_loop_sound. Qed.

Lemma sectionAnchors_written html a :
  In a (sectionAnchors html) ->
  exists pre post,
    html = pre ++ anchorOpen ++ Anchor.num a ++ anchorClose ++ post
    /\ length pre = Anchor.pos a
    /\ sectionNumber (Anchor.num a).
Proof.
  rewrite sectionAnchors_eq, in_map_iff. intros (m & <- & Hm).
  pose proof (exec_all_sound Rx.anchorRe html) as Hall.
  rewrite Forall_forall in Hall.
  destruct (Hall m Hm) as (pre & b & st & -> & Hpre & Hst & _ & Hg).
  apply anchor_match in Hst. destruct Hst as (n & -> & Hn & Hc).
  exists pre, (mrest st). cbn [Anchor.num Anchor.pos]. unfold group.
  rewrite Hg, Hc. split; [reflexivity|]. split; assumption.
Qed.

Lemma sectionAnchors_none html :
  includes html anchorOpen = false -> sectionAnchors html = [].
Proof.
  intros H. rewrite sectionAnchors_eq.
  rewrite (exec_all_no_literal Rx.anchorRe html anchorOpen);
    [reflexivity | reflexivity | reflexivity | exact H].
Qed.

Lemma extractSections_none html :
  includes html anchorOpen = false -> extractSections html = [].
Proof.
  intros H. unfold extractSections. cbv zeta.
  rewrite (sectionAnchors_none html H). reflexivity.
Qed.

Lemma digit_not_space c : is_digit c = true -> not_space c = true.
Proof.
  unfold is_digit, not_space, is_space. intros H.
  apply andb_true_iff in H. destruct H as [H1 H2]. apply N.leb_le in H1, H2.
  repeat (match goal with
          | |- context [(?a <=? ?b)%N] => destruct (N.leb_spec a b)
          | |- context [(?a =? ?b)%N] => destruct (N.eqb_spec a b)
          end; try lia).
Qed.

Lemma sectionNumber_no_space n :
  sectionNumber n -> Forall (fun c => not_space c = true) n.
Proof.
  assert (Hd : forall l, Forall (fun c => is_digit c = true) l ->
                         Forall (fun c => not_space c = true) l).
  { intros l. apply Forall_impl. exact digit_not_space. }
  intros (a & b & -> & _ & Fa & Hb). apply Forall_app. split; [apply Hd; exact Fa|].
  destruct Hb as [-> | (f & -> & _ & Ff)]; [constructor|].
  apply Forall_app. split; [repeat constructor | apply Hd; exact Ff].
Qed.

(** ** Single replacements *)

Lemma rmatch_seq icase dotall r1 r2 st k :
  rmatch icase dotall (RSeq r1 r2) st k =
  rmatch icase dotall r1 st (fun st' => rmatch icase dotall r2 st' k).
Proof. reflexivity. Qed.

Lemma match_at_word icase dotall r pos b st :
  match_at icase dotall r pos b = Some st ->
  exists w, b = w ++ mrest st /\ mpos st = pos + length w /\ lang icase dotall r w.
Proof.
  unfold match_at. intros H. apply rmatch_sound in H.
  destruct H as (st' & w & H & [Hr Hp] & L). injection H as ->.
  exists w. simpl in *. repeat split; assumption.
Qed.

(** [s.replace(re, repl)] without the [g] flag leaves [s] as it is or
    replaces one word of the expression. *)
Lemma replace_first re repl s :
  global re = false ->
  replace re repl s = s
  \/ exists pre w post st,
       s = pre ++ w ++ post
       /\ match_at (ignoreCase re) (dotAll re) (source re) (length pre) (w ++ post)
          = Some st
       /\ mrest st = post
       /\ lang (ignoreCase re) (dotAll re) (source re) w
       /\ replace re repl s = pre ++ repl ++ post.
Proof.
  intros Hg. unfold replace. rewrite Hg.
  destruct (exec re s 0) as [m|] eqn:E; [right | left; reflexivity].
  apply exec_sound in E. destruct E as (pre & b & st & -> & Hpre & Hst & Hend & _).
  destruct (match_at_word _ _ _ _ _ _ Hst) as (w & Hb & Hp & L).
  exists pre, w, (mrest st), st. rewrite <- Hb.
  split; [reflexivity|]. split; [rewrite Hpre; exact Hst|].
  split; [reflexivity|]. split; [exact L|].
  cbn [splice]. rewrite !Nat.sub_0_r, <- Hpre.
  rewrite firstn_app, Nat.sub_diag, firstn_all. cbn [firstn]. rewrite app_nil_r.
  f_equal. f_equal. rewrite Hend, Hp, <- Hpre, Hb.
  rewrite skipn_app, skipn_all2 by lia.
  replace (length pre + length w - length pre) with (length w) by lia.
  rewrite skipn_app, Nat.sub_diag, skipn_all. reflexivity.
Qed.

Lemma match_at_begin icase dotall r pos b st :
  match_at icase dotall (RSeq RBegin r) pos b = Some st -> pos = 0.
Proof.
  unfold match_at. cbn [rmatch mpos].
  destruct (Nat.eqb_spec pos 0); [intros _; assumption | discriminate].
Qed.

Lemma match_at_end icase dotall r pos b st :
  match_at icase dotall (RSeq r REnd) pos b = Some st -> mrest st = [].
Proof.
  unfold match_at. rewrite rmatch_seq. intros H. apply rmatch_sound in H.
  destruct H as (st' & w & H & _ & _). cbn [rmatch] in H.
  destruct (mrest st') eqn:E; [|discriminate]. injection H as <-. exact E.
Qed.

(** ** Single-spaced text *)

Lemma SingleSpaced_fixed s : SingleSpaced s <-> collapse false s = s.
Proof.
  split.
  - intros H. apply collapse_clean; [exact H | discriminate].
  - intros <-. apply collapse_SingleSpaced.
Qed.

Lemma SingleSpaced_nil : SingleSpaced [].
Proof. apply SingleSpaced_fixed. reflexivity. Qed.

Lemma Trimmed_nil : Trimmed [].
Proof.
  split; [intros c t H; discriminate|].
  intros t c H. destruct t; discriminate.
Qed.

Lemma SingleSpaced_prefix s t : SingleSpaced (s ++ t) -> SingleSpaced s.
Proof. apply (SingleSpaced_factor [] s t). Qed.

Lemma SingleSpaced_suffix s t : SingleSpaced (s ++ t) -> SingleSpaced t.
Proof.
  intros H. apply (SingleSpaced_factor s t []). rewrite app_nil_r. exact H.
Qed.

Lemma SingleSpaced_trim s : SingleSpaced s -> SingleSpaced (trim s).
Proof.
  intros H. destruct (trim_factor s) as (l & r & Hs & _).
  apply (SingleSpaced_factor l _ r). rewrite <- Hs. exact H.
Qed.

(** After a white space character, single-spaced text goes on with another
    kind of character. *)
Lemma SingleSpaced_after_space u c post :
  SingleSpaced (u ++ [c] ++ post) -> is_space c = true ->
  post = [] \/ exists x t, post = x :: t /\ is_space x = false.
Proof.
  intros [H1 H2] Hc. destruct post as [|x t]; [left; reflexivity|].
  right. exists x, t. split; [reflexivity|].
  destruct (is_space x) eqn:Ex; [|reflexivity]. exfalso.
  assert (c = 32%N).
  { apply H1; [|exact Hc]. apply in_or_app. right. left. reflexivity. }
  assert (x = 32%N).
  { apply H1; [|exact Ex]. apply in_or_app. right. right. left. reflexivity. }
  subst c x. apply (H2 u t). reflexivity.
Qed.

Lemma SingleSpaced_number num post :
  Forall (fun c => not_space c = true) num ->
  SingleSpaced post ->
  (post = [] \/ exists x t, post = x :: t /\ is_space x = false) ->
  SingleSpaced ((num ++ lit " ") ++ post).
Proof.
  intros Hnum Hpost Hhead. apply SingleSpaced_fixed.
  rewrite <- app_assoc. rewrite collapse_not_space by exact Hnum.
  change (lit " " ++ post) with (32%N :: post). cbn [collapse].
  change (is_space 32%N) with true. cbv iota.
  rewrite (collapse_true_stop post Hhead).
  apply SingleSpaced_fixed in Hpost. rewrite Hpost. reflexivity.
Qed.

Lemma substring_0 s n : substring s 0 n = firstn n s.
Proof.
  unfold substring. cbn [Nat.min Nat.max Nat.sub skipn].
  rewrite Nat.sub_0_r. destruct (Nat.le_ge_cases n (length s)) as [H|H].
  - rewrite Nat.min_l by exact H. reflexivity.
  - rewrite Nat.min_r by exact H. rewrite !firstn_all2 by lia. reflexivity.
Qed.

Lemma firstn_clean n s :
  SingleSpaced s -> Trimmed s ->
  SingleSpaced (firstn n s)
  /\ (forall c t, firstn n s = c :: t -> is_space c = false).
Proof.
  intros Hs [Hh _]. split.
  - apply (SingleSpaced_prefix _ (skipn n s)). rewrite firstn_skipn. exact Hs.
  - intros c t E. destruct s as [|x s]; [destruct n; discriminate|].
    destruct n; [discriminate|]. simpl in E. injection E as -> _.
    apply (Hh c s). reflexivity.
Qed.

(** ** The text of a section *)

Lemma anchorResidue_suffix text :
  exists pre, text = pre ++ replace Rx.anchorResidue [] text.
Proof.
  destruct (replace_first Rx.anchorResidue [] text eq_refl)
    as [-> | (pre & w & post & st & -> & Hst & _ & _ & ->)].
  - exists []. reflexivity.
  - apply match_at_begin in Hst. apply length_zero_iff_nil in Hst. subst pre.
    exists w. reflexivity.
Qed.

Lemma leadingNumber_word w :
  lang false false (source Rx.leadingNumber) w ->
  exists u c, w = u ++ [c] /\ is_space c = true.
Proof.
  unfold Rx.leadingNumber. cbn [source lang].
  intros (w0 & r0 & -> & -> & ws & r1 & -> & _ & ds & r2 & -> & _
          & opt & sp & -> & _ & Hne & Hsp).
  destruct (exists_last Hne) as (sp' & c & ->).
  exists (ws ++ ds ++ opt ++ sp'), c. split.
  - cbn [app]. rewrite <- !app_assoc. reflexivity.
  - rewrite Forall_forall in Hsp. apply Hsp. apply in_or_app. right. left.
    reflexivity.
Qed.

Lemma leadingNumber_clean num text :
  Forall (fun c => not_space c = true) num ->
  SingleSpaced text ->
  SingleSpaced (replace Rx.leadingNumber (num ++ lit " ") text).
Proof.
  intros Hnum Htext.
  destruct (replace_first Rx.leadingNumber (num ++ lit " ") text eq_refl)
    as [-> | (pre & w & post & st & -> & Hst & _ & L & ->)]; [exact Htext|].
  apply match_at_begin in Hst. apply length_zero_iff_nil in Hst. subst pre.
  cbn [app] in *. apply leadingNumber_word in L. destruct L as (u & c & -> & Hc).
  rewrite <- app_assoc in Htext.
  apply SingleSpaced_number; [exact Hnum | |].
  - apply SingleSpaced_suffix in Htext. apply SingleSpaced_suffix in Htext.
    exact Htext.
  - apply (SingleSpaced_after_space u c post Htext Hc).
Qed.

Lemma partialTag_prefix text :
  exists post, text = replace Rx.partialTag [] text ++ post.
Proof.
  destruct (replace_first Rx.partialTag [] text eq_refl)
    as [-> | (pre & w & post & st & -> & Hst & Hpost & _ & ->)].
  - exists []. rewrite app_nil_r. reflexivity.
  - unfold Rx.partialTag in Hst. cbn [source ignoreCase dotAll] in Hst.
    change (match_at false false
              (RSeq (RSeq (RLit (lit "<")) (RStar not_gt)) REnd)
              (length pre) (w ++ post) = Some st) in Hst.
    apply match_at_end in Hst. rewrite Hpost in Hst. subst post.
    exists w. cbn [app]. rewrite !app_nil_r. reflexivity.
Qed.

Lemma sectionText_clean html num anchorPos nextAnchorPos :
  Forall (fun c => not_space c = true) num ->
  SingleSpaced (sectionText html num anchorPos nextAnchorPos)
  /\ Trimmed (sectionText html num anchorPos nextAnchorPos).
Proof.
  intros Hnum. unfold sectionText. cbv zeta. split; [|apply trim_Trimmed].
  apply SingleSpaced_trim.
  match goal with |- context [stripHtml ?x] =>
    pose proof (proj1 (stripHtml_shape x)) as H0; generalize dependent (stripHtml x)
  end.
  intros text0 H0.
  assert (H1 : SingleSpaced (replace Rx.anchorResidue [] text0)).
  { destruct (anchorResidue_suffix text0) as (pre & E).
    rewrite E in H0. apply SingleSpaced_suffix in H0. exact H0. }
  clear H0. generalize dependent (replace Rx.anchorResidue [] text0).
  intros text1 H1.
  pose proof (leadingNumber_clean num text1 Hnum H1) as H2. clear H1.
  generalize dependent (replace Rx.leadingNumber (num ++ lit " ") text1).
  intros text2 H2.
  destruct (partialTag_prefix text2) as (post & H3).
  rewrite H3 in H2. apply SingleSpaced_prefix in H2. exact H2.
Qed.

(** ** Normalised output *)

Lemma Normalised_nil : Normalised [].
Proof. split; [apply SingleSpaced_nil | apply Trimmed_nil]. Qed.

Lemma Normalised_stripHtml html : Normalised (stripHtml html).
Proof. apply stripHtml_shape. Qed.

Lemma nearestNote_source p : forall rnotes,
  nearestNote rnotes p = []
  \/ exists mn, In mn rnotes /\ nearestNote rnotes p = Note.title mn.
Proof.
  induction rnotes as [|mn rest IH]; simpl; [left; reflexivity|].
  destruct ((Note.pos mn <? p) && (p - Note.pos mn <? 2000)).
  - right. exists mn. split; [left; reflexivity | reflexivity].
  - destruct IH as [E | (mn' & Hin & E)]; [left; exact E|].
    right. exists mn'. split; [right; exact Hin | exact E].
Qed.

Lemma marginalNotes_stripped html mn :
  In mn (marginalNotes html) -> Normalised (Note.title mn).
Proof.
  rewrite marginalNotes_eq, in_flat_map. intros (m & _ & H).
  unfold noteOf in H. cbv zeta in H.
  destruct (truthy _ && negb _); [|destruct H].
  destruct H as [<-|[]]. apply Normalised_stripHtml.
Qed.

Lemma anchorData_clean html i :
  i < length (sectionAnchors html) ->
  Normalised (SectionData.title (anchorData html i))
  /\ CappedText (SectionData.content (anchorData html i)).
Proof.
  intros Hi. unfold anchorData. cbn [SectionData.title SectionData.content]. split.
  - destruct (nearestNote_source (Anchor.pos (anchorAt html i))
                (rev (marginalNotes html))) as [-> | (mn & Hin & ->)];
      [apply Normalised_nil|].
    apply in_rev in Hin. apply (marginalNotes_stripped html mn Hin).
  - exists (anchorText html i). split; [|apply substring_0].
    unfold anchorText. apply sectionText_clean.
    apply sectionNumber_no_space.
    destruct (sectionAnchors_written html (anchorAt html i) (anchorAt_In html i Hi))
      as (_ & _ & _ & _ & Hn).
    exact Hn.
Qed.

Section ScheduleOutput.
Context {engine : Engine}.

Lemma headingProvisions_clean scheduleHtml scheduleLabel scheduleTitle headings i p :
  (forall h, In h headings -> Normalised (Heading.title h)) ->
  In p (headingProvisions scheduleHtml scheduleLabel scheduleTitle headings i) ->
  Normalised (ParsedProvision.title p) /\ CappedText (ParsedProvision.content p).
Proof.
  intros Hh. unfold headingProvisions, headingIteration. cbv zeta.
  destruct (10 <? length _); [|intros []].
  intros [<-|[]]. cbn [ParsedProvision.title ParsedProvision.content]. split.
  - destruct (nth_in_or_default i headings noHeading) as [Hin | ->].
    + apply Hh. exact Hin.
    + apply Normalised_nil.
  - eexists. split; [apply Normalised_stripHtml | apply substring_0].
Qed.

Lemma headingPositions_stripped scheduleHtml h :
  In h (headingPositions scheduleHtml) -> Normalised (Heading.title h).
Proof.
  rewrite headingPositions_eq, in_map_iff. intros (m & <- & _).
  apply Normalised_stripHtml.
Qed.

Lemma scheduleProvisions_clean schedMatch p :
  In p (scheduleProvisions schedMatch) ->
  Normalised (ParsedProvision.title p) /\ CappedText (ParsedProvision.content p).
Proof.
  unfold scheduleProvisions, scheduleIteration. cbv zeta.
  destruct (match_first Rx.scheduleLabel _) as [labelMatch|]; [|intros []].
  destruct (0 <? length _).
  - rewrite heading_loop. cbn [app]. rewrite in_flat_map.
    intros (i & _ & Hp). eapply headingProvisions_clean; [|exact Hp].
    apply headingPositions_stripped.
  - destruct (10 <? length _); [|intros []].
    intros [<-|[]]. cbn [ParsedProvision.title ParsedProvision.content]. split.
    + destruct (match_first Rx.scheduleTitleText _) as [titleMatch|].
      * destruct (truthy _); apply Normalised_stripHtml.
      * cbn [truthy]. apply Normalised_stripHtml.
    + eexists. split; [apply Normalised_stripHtml | apply substring_0].
Qed.

Lemma provisions_clean html act out p :
  In p (ParsedAct.provisions (fst (parseFullTextHtml html act out))) ->
  Normalised (ParsedProvision.title p) /\ CappedText (ParsedProvision.content p).
Proof.
  rewrite parse_provisions. destruct (hasMarker html); [intros []|].
  rewrite in_app_iff, in_map_iff. intros [([k d] & <- & Hin) | Hin].
  - apply section_entry_origin in Hin. destruct Hin as (i & Hi & _ & _ & _ & ->).
    rewrite sectionProvision_title, sectionProvision_content.
    apply anchorData_clean. exact Hi.
  - rewrite extractSchedules_eq, in_flat_map in Hin.
    destruct Hin as (m & _ & Hp). eapply scheduleProvisions_clean. exact Hp.
Qed.

End ScheduleOutput.

Lemma CappedText_clean content :
  CappedText content ->
  SingleSpaced content /\ (forall c t, content = c :: t -> is_space c = false)
  /\ length content <= 8000.
Proof.
  intros (text & [Hs Ht] & ->). destruct (firstn_clean 8000 text Hs Ht) as [H1 H2].
  split; [exact H1|]. split; [exact H2 | apply firstn_le_length].
Qed.

(** ** The definitions *)

Lemma not_lt_word w :
  Forall (fun c => cls_match false not_lt c = true) w ->
  includes w (lit "<") = false.
Proof.
  intros H. apply includes_char. intros Hin.
  rewrite Forall_forall in H. specialize (H _ Hin).
  unfold not_lt, ch in H. cbn [cls_match] in H.
  rewrite (proj2 (char_eqb_eq _ _) eq_refl) in H. discriminate.
Qed.

Lemma dfn_match s termMatch :
  match_first Rx.dfn s = Some termMatch ->
  exists pre post,
    s = pre ++ lit "<dfn>" ++ group 1 termMatch ++ lit "</dfn>" ++ post
    /\ group 1 termMatch <> []
    /\ includes (group 1 termMatch) (lit "<") = false.
Proof.
  unfold match_first. intros E. apply exec_sound in E.
  destruct E as (pre & b & st & -> & _ & Hst & _ & Hg).
  unfold Rx.dfn in Hst. cbn [source ignoreCase dotAll] in Hst.
  apply match_at_group_mid in Hst; [|reflexivity].
  destruct Hst as (w0 & w & w1 & -> & _ & L0 & [Hne Hw] & L1 & Hc).
  cbn [lang] in L0, L1. apply Forall2_chr_exact in L0, L1. subst w0 w1.
  exists pre, (mrest st). unfold group. rewrite Hg, Hc.
  split; [reflexivity|]. split; [exact Hne | apply not_lt_word; exact Hw].
Qed.

Lemma definitionOf_shape sectionNum m d :
  In d (definitionOf sectionNum m) ->
  exists pre t post,
    group 1 m = pre ++ lit "<dfn>" ++ t ++ lit "</dfn>" ++ post
    /\ t <> [] /\ includes t (lit "<") = false
    /\ ParsedDefinition.term d = stripHtml t
    /\ ParsedDefinition.definition d = stripHtml (group 1 m)
    /\ ParsedDefinition.term d <> []
    /\ ParsedDefinition.definition d <> [].
Proof.
  unfold definitionOf, definitionIteration. cbv zeta.
  destruct (match_first Rx.dfn (group 1 m)) as [termMatch|] eqn:E; [|intros []].
  destruct (truthy (stripHtml (group 1 termMatch))) eqn:T1; [|intros []].
  destruct (truthy (stripHtml (group 1 m))) eqn:T2; [|intros []].
  cbn [andb]. intros [<-|[]].
  apply dfn_match in E. destruct E as (pre & post & E & Hne & Hlt).
  exists pre, (group 1 termMatch), post.
  cbn [ParsedDefinition.term ParsedDefinition.definition].
  split; [exact E|]. split; [exact Hne|]. split; [exact Hlt|].
  split; [reflexivity|]. split; [reflexivity|].
  split; intros H; rewrite H in *; discriminate.
Qed.

(** ** Properties of the sections *)

(** X9.  A page without the opening of a section anchor (id=, a double
    quote, s-) has no section anchor: [extractSections]
    returns the empty map at once, and the provisions of the document are
    those of the schedules alone. *)
Theorem no_anchor_no_section {engine : Engine} html act out :
  hasMarker html = false ->
  includes html anchorOpen = false ->
  extractSections html = []
  /\ ParsedAct.provisions (fst (parseFullTextHtml html act out))
     = fst (extractSchedules html).
Proof.
  intros Hm Ha. pose proof (extractSections_none html Ha) as E.
  split; [exact E|]. rewrite parse_provisions, Hm, E. reflexivity.
Qed.

Lemma no_anchor_no_section_witness :
  extractSections (lit "<title>Test Act</title><p>No sections here.</p>") = []
  /\ ParsedAct.provisions
       (fst (parseFullTextHtml (engine := AsciiEngine)
               (lit "<title>Test Act</title><p>No sections here.</p>")
               Sample.act []))
     = fst (extractSchedules (engine := AsciiEngine)
              (lit "<title>Test Act</title><p>No sections here.</p>")).
Proof.
  apply (no_anchor_no_section (engine := AsciiEngine)
           (lit "<title>Test Act</title><p>No sections here.</p>") Sample.act []);
    reflexivity.
Defined.

(** X10.  Every section provision carries a number that is written in the
    page between the opening and the end of a section anchor (an [id]
    attribute whose value is s-N), where N is made of digits, possibly followed by a
    point and more digits; its key is [s] followed by that number.  The other
    provisions have a schedule key. *)
Theorem section_numbers_written_in_page {engine : Engine} html act out p :
  In p (ParsedAct.provisions (fst (parseFullTextHtml html act out))) ->
  ScheduleKey (ParsedProvision.provision_ref p)
  \/ exists n pre post,
       html = pre ++ anchorOpen ++ n ++ anchorClose ++ post
       /\ sectionNumber n
       /\ ParsedProvision.provision_ref p = lit "s" ++ n
       /\ ParsedProvision.section p = n.
Proof.
  intros H. apply provision_origin in H.
  destruct H as [(i & Hi & _ & _ & ->) | [_ [Hkey _]]]; [right | left; exact Hkey].
  destruct (sectionAnchors_written html (anchorAt html i) (anchorAt_In html i Hi))
    as (pre & post & Hh & _ & Hn).
  exists (Anchor.num (anchorAt html i)), pre, post.
  split; [exact Hh|]. split; [exact Hn|]. split; reflexivity.
Qed.

Lemma section_numbers_written_in_page_witness :
  exists p,
    In p (ParsedAct.provisions
            (fst (parseFullTextHtml (engine := AsciiEngine) Sample.page Sample.act [])))
    /\ (ScheduleKey (ParsedProvision.provision_ref p)
        \/ exists n pre post,
             Sample.page = pre ++ anchorOpen ++ n ++ anchorClose ++ post
             /\ sectionNumber n
             /\ ParsedProvision.provision_ref p = lit "s" ++ n
             /\ ParsedProvision.section p = n).
Proof.
  exists (ParsedProvision.mk (lit "s1") (Some (lit "PART 1")) (lit "1")
            (lit "Short title") (lit "1 This Act may be cited as the Test Act.")).
  assert (H : In (ParsedProvision.mk (lit "s1") (Some (lit "PART 1")) (lit "1")
                    (lit "Short title") (lit "1 This Act may be cited as the Test Act."))
                (ParsedAct.provisions
                   (fst (parseFullTextHtml (engine := AsciiEngine) Sample.page Sample.act [])))).
  { vm_compute. left. reflexivity. }
  split; [exact H|].
  exact (section_numbers_written_in_page (engine := AsciiEngine)
           Sample.page Sample.act [] _ H).
Defined.

(** X11.  Every provision of the document, from a section or from a
    schedule, has a whitespace-normalised title, and its content is the
    first 8000 characters of a whitespace-normalised text: the content is
    single-spaced and does not start with white space. *)
Theorem provisions_whitespace_normalised {engine : Engine} html act out p :
  In p (ParsedAct.provisions (fst (parseFullTextHtml html act out))) ->
  Normalised (ParsedProvision.title p)
  /\ CappedText (ParsedProvision.content p)
  /\ SingleSpaced (ParsedProvision.content p)
  /\ (forall c t, ParsedProvision.content p = c :: t -> is_space c = false).
Proof.
  intros H. destruct (provisions_clean html act out p H) as [Ht Hc].
  split; [exact Ht|]. split; [exact Hc|].
  destruct (CappedText_clean _ Hc) as (H1 & H2 & _). split; assumption.
Qed.

Lemma provisions_whitespace_normalised_witness :
  exists p,
    In p (ParsedAct.provisions
            (fst (parseFullTextHtml (engine := AsciiEngine) Sample.page Sample.act [])))
    /\ Normalised (ParsedProvision.title p)
    /\ CappedText (ParsedProvision.content p)
    /\ SingleSpaced (ParsedProvision.content p)
    /\ (forall c t, ParsedProvision.content p = c :: t -> is_space c = false).
Proof.
  exists (ParsedProvision.mk (lit "s1") (Some (lit "PART 1")) (lit "1")
            (lit "Short title") (lit "1 This Act may be cited as the Test Act.")).
  assert (H : In (ParsedProvision.mk (lit "s1") (Some (lit "PART 1")) (lit "1")
                    (lit "Short title") (lit "1 This Act may be cited as the Test Act."))
                (ParsedAct.provisions
                   (fst (parseFullTextHtml (engine := AsciiEngine) Sample.page Sample.act [])))).
  { vm_compute. left. reflexivity. }
  split; [exact H|].
  exact (provisions_whitespace_normalised (engine := AsciiEngine)
           Sample.page Sample.act [] _ H).
Defined.

(** ** Properties of the definitions *)

(** X12.  Every definition of the document comes from a block that holds a
    [<dfn>] element with text and no [<] inside: the term is that text,
    stripped, the definition is the whole block, stripped, and neither is
    empty; both are whitespace-normalised. *)
Theorem definitions_from_dfn_blocks {engine : Engine} html act out d :
  In d (ParsedAct.definitions (fst (parseFullTextHtml html act out))) ->
  exists block pre t post,
    block = pre ++ lit "<dfn>" ++ t ++ lit "</dfn>" ++ post
    /\ t <> [] /\ includes t (lit "<") = false
    /\ ParsedDefinition.term d = stripHtml t
    /\ ParsedDefinition.definition d = stripHtml block
    /\ ParsedDefinition.term d <> []
    /\ ParsedDefinition.definition d <> []
    /\ Normalised (ParsedDefinition.term d)
    /\ Normalised (ParsedDefinition.definition d).
Proof.
  rewrite parse_definitions. destruct (hasMarker html); [intros []|].
  rewrite extractDefinitions_eq, in_flat_map. intros (m & _ & Hd).
  apply definitionOf_shape in Hd.
  destruct Hd as (pre & t & post & Hb & Hne & Hlt & Ht & Hdef & Hn1 & Hn2).
  exists (group 1 m), pre, t, post.
  repeat (split; [assumption|]).
  rewrite Ht, Hdef. split; apply Normalised_stripHtml.
Qed.

Lemma definitions_from_dfn_blocks_witness :
  exists d,
    In d (ParsedAct.definitions
            (fst (parseFullTextHtml (engine := AsciiEngine) Sample.page Sample.act [])))
    /\ exists block pre t post,
         block = pre ++ lit "<dfn>" ++ t ++ lit "</dfn>" ++ post
         /\ t <> [] /\ includes t (lit "<") = false
         /\ ParsedDefinition.term d = stripHtml t
         /\ ParsedDefinition.definition d = stripHtml block
         /\ ParsedDefinition.term d <> []
         /\ ParsedDefinition.definition d <> []
         /\ Normalised (ParsedDefinition.term d)
         /\ Normalised (ParsedDefinition.definition d).
Proof.
  exists (ParsedDefinition.mk (lit "record") (lit "record means any document.")
            (Some (lit "s2"))).
  assert (H : In (ParsedDefinition.mk (lit "record") (lit "record means any document.")
                    (Some (lit "s2")))
                (ParsedAct.definitions
                   (fst (parseFullTextHtml (engine := AsciiEngine) Sample.page Sample.act [])))).
  { vm_compute. left. reflexivity. }
  split; [exact H|].
  exact (definitions_from_dfn_blocks (engine := AsciiEngine)
           Sample.page Sample.act [] _ H).
Defined.

(** ** The keys of the schedules *)

Lemma filter_not_space_prefix : forall a s,
  Forall (fun c => not_space c = true) a ->
  filter not_space (a ++ s) = a ++ filter not_space s.
Proof.
  induction a as [|c a IH]; intros s Ha; [reflexivity|].
  inversion Ha as [|? ? Hc Ha']; subst. cbn [app filter]. rewrite Hc.
  f_equal. apply IH. exact Ha'.
Qed.

Lemma filter_not_space_run : forall w s,
  Forall (fun c => is_space c = true) w ->
  filter not_space (w ++ s) = filter not_space s.
Proof.
  induction w as [|c w IH]; intros s Hw; [reflexivity|].
  inversion Hw as [|? ? Hc Hw']; subst. cbn [app filter].
  unfold not_space at 1. rewrite Hc. cbn [negb]. apply IH. exact Hw'.
Qed.

Lemma spaces_removed : forall fuel s pos,
  pos <= length s -> length s < fuel + pos ->
  splice (exec_loop fuel Rx.spaces s pos) [] pos (skipn pos s) =
  filter not_space (skipn pos s).
Proof.
  induction fuel as [|fuel IH]; intros s pos Hpos Hfuel; [lia|].
  cbn [exec_loop]. unfold exec.
  destruct (Nat.ltb_spec (length s) pos) as [Hlt|_]; [lia|].
  rewrite spaces_search.
  pose proof (span_app not_space (skipn pos s)) as Hsplit.
  pose proof (span_all not_space (skipn pos s)) as Hall.
  pose proof (span_stop not_space (skipn pos s)) as Hstop.
  pose proof (span_firstn not_space (skipn pos s)) as Hfirst.
  pose proof (span_skipn not_space (skipn pos s)) as Hskip.
  destruct (span not_space (skipn pos s)) as [a b]. cbn [fst snd] in *.
  destruct b as [|c r].
  - cbn [splice]. rewrite Hsplit, filter_not_space_prefix by exact Hall.
    reflexivity.
  - assert (Hc : is_space c = true).
    { destruct Hstop as [Hs | (c' & t & Hs & Hc')]; [discriminate|].
      inversion Hs; subst. unfold not_space in Hc'.
      apply negb_false_iff in Hc'. exact Hc'. }
    pose proof (span_app is_space r) as Hsplit2.
    pose proof (span_all is_space r) as Hall2.
    pose proof (span_skipn is_space r) as Hskip2.
    destruct (span is_space r) as [w b]. cbn [fst snd] in *.
    assert (Hlen : length (skipn pos s) = length a + S (length w + length b)).
    { rewrite Hsplit, Hsplit2, !length_app. simpl. rewrite length_app. lia. }
    rewrite length_skipn in Hlen.
    cbn [splice index mend].
    replace (pos + length a - pos) with (length a) by lia.
    replace (pos + length a + S (length w) - pos) with (length a + S (length w)) by lia.
    rewrite Hfirst.
    assert (Hb : skipn (length a + S (length w)) (skipn pos s) = b).
    { rewrite Nat.add_comm, <- skipn_skipn, Hskip. cbn [skipn]. exact Hskip2. }
    rewrite Hb.
    assert (Hb' : b = skipn (pos + length a + S (length w)) s).
    { rewrite <- Hb, skipn_skipn. f_equal. lia. }
    rewrite Hb' at 1. rewrite IH by lia. rewrite <- Hb'.
    rewrite Hsplit at 1. rewrite filter_not_space_prefix by exact Hall.
    f_equal. cbn [app].
    change (c :: r) with ([c] ++ r). rewrite Hsplit2.
    rewrite (filter_not_space_run [c]) by (constructor; [exact Hc | constructor]).
    rewrite filter_not_space_run by exact Hall2. reflexivity.
Qed.

(** The pass [.replace(/\s+/g, '')] removes the white space. *)
Lemma replace_spaces_removed s : replace Rx.spaces [] s = filter not_space s.
Proof.
  unfold replace. cbn [Rx.spaces global]. unfold exec_all.
  apply (spaces_removed (S (length s)) s 0); lia.
Qed.

Lemma headingRef_match title refMatch :
  match_first Rx.headingRef title = Some refMatch ->
  LeadingNumber title (group 1 refMatch).
Proof.
  unfold match_first. intros E. apply exec_sound in E.
  destruct E as (pre & b & st & -> & Hpre & Hst & _ & Hg).
  unfold Rx.headingRef in Hst. cbn [source ignoreCase dotAll] in Hst.
  pose proof (match_at_begin _ _ _ _ _ _ Hst) as Hzero.
  rewrite Hzero in Hpre. apply length_zero_iff_nil in Hpre. subst pre.
  apply match_at_group_mid in Hst; [|reflexivity].
  destruct Hst as (w0 & w & w1 & -> & _ & L0 & Lw & L1 & Hc).
  cbn [lang] in L0, L1. subst w0. destruct L1 as (c & -> & Hsp).
  unfold group. rewrite Hg, Hc. cbn [app].
  exists c, (mrest st). split; [reflexivity|].
  split; [apply number_lang; exact Lw | exact Hsp].
Qed.

Lemma space_not_digit c : is_space c = true -> is_digit c = false.
Proof.
  intros H. destruct (is_digit c) eqn:E; [|reflexivity].
  apply digit_not_space in E. unfold not_space in E. rewrite H in E. discriminate E.
Qed.

Lemma space_not_point c : is_space c = true -> char_eqb 46%N c = false.
Proof.
  unfold char_eqb. intros H. destruct (N.eqb_spec 46 c) as [<-|]; [|reflexivity].
  vm_compute in H. discriminate H.
Qed.

(** A title that starts with a number and a white-space character matches
    the expression of the heading reference. *)
Lemma headingRef_complete title n :
  LeadingNumber title n -> match_first Rx.headingRef title <> None.
Proof.
  intros (c & rest & -> & (a & b & -> & Ha & Fa & Hb) & Hc).
  unfold match_first, exec. cbn [Nat.ltb Nat.leb skipn].
  rewrite search_from_eq.
  assert (M : match_at (ignoreCase Rx.headingRef) (dotAll Rx.headingRef)
                (source Rx.headingRef) 0 ((a ++ b) ++ c :: rest) <> None);
    [|destruct (match_at _ _ _ _ _); [discriminate | congruence]].
  unfold Rx.headingRef, match_at. cbn [source ignoreCase dotAll rmatch mpos mrest mcaps
                                         Nat.eqb].
  destruct a as [|a0 a]; [congruence|].
  inversion Fa as [|? ? Ha0 Fa']; subst. rewrite <- !app_assoc. cbn [app cls_match].
  rewrite Ha0.
  assert (Hlast : forall pos taken caps,
            (match (c :: rest) with
             | x :: rest' =>
                 if cls_match false CSpace x
                 then Some (mkState (S pos) rest' ((1, taken) :: caps))
                 else None
             | [] => None
             end) <> None).
  { intros pos taken caps. cbn [cls_match]. rewrite Hc. discriminate. }
  destruct Hb as [-> | (f & -> & Hf & Ff)].
  - cbn [app].
    erewrite star_greedy_max with (res := mkState _ rest _); [discriminate | exact Fa' | |].
    + right. exists c, rest. split; [reflexivity|]. cbn [cls_match].
      apply space_not_digit. exact Hc.
    + cbn [rmatch mpos mrest mcaps].
      change (lit ".") with (@cons char 46%N []). cbn [lit_match]. unfold chr_match.
      rewrite (space_not_point c Hc). cbn [orelse cls_match]. rewrite Hc. reflexivity.
  - destruct f as [|f0 f]; [congruence|].
    inversion Ff as [|? ? Hf0 Ff']; subst.
    erewrite star_greedy_max with (res := mkState _ rest _); [discriminate | exact Fa' | |].
    + right. exists 46%N, ((f0 :: f) ++ c :: rest). split; [reflexivity|]. reflexivity.
    + cbn [rmatch mpos mrest mcaps].
      change (lit "." ++ f0 :: f) with (lit "." ++ (f0 :: f)).
      rewrite <- app_assoc. rewrite lit_match_app. cbn [app cls_match mpos mrest mcaps].
      rewrite Hf0.
      erewrite star_greedy_max with (res := mkState _ rest _);
        [reflexivity | exact Ff' | |].
      * right. exists c, rest. split; [reflexivity|]. cbn [cls_match].
        apply space_not_digit. exact Hc.
      * cbn [mpos mrest mcaps].
        match goal with
        | |- (if Nat.eqb ?x ?y then _ else _) = _ =>
            destruct (Nat.eqb_spec x y) as [E|_]; [change (length (lit ".")) with 1 in E; lia|]
        end.
        cbn [cls_match]. rewrite Hc. reflexivity.
Qed.

Lemma span_prefix (p : char -> bool) a c rest :
  Forall (fun x => p x = true) a -> p c = false ->
  span p (a ++ c :: rest) = (a, c :: rest).
Proof.
  intros Ha Hc. induction Ha as [|x a Hx Ha IH]; cbn [app span].
  - rewrite Hc. reflexivity.
  - rewrite Hx, IH. reflexivity.
Qed.

(** A title has at most one leading number: the characters before its
    first white-space character. *)
Lemma LeadingNumber_unique title n :
  LeadingNumber title n -> n = fst (span not_space title).
Proof.
  intros (c & rest & -> & Hn & Hc).
  rewrite span_prefix; [reflexivity | apply sectionNumber_no_space; exact Hn |].
  unfold not_space. rewrite Hc. reflexivity.
Qed.

Section ScheduleKeys.
Context {engine : Engine}.

Lemma labelSlug_eq label : labelSlug label = filter not_space (toLowerCase label).
Proof. unfold labelSlug. apply replace_spaces_removed. Qed.

Lemma headingProvisions_keyed scheduleHtml scheduleLabel scheduleTitle headings i p :
  i < length headings ->
  In p (headingProvisions scheduleHtml scheduleLabel scheduleTitle headings i) ->
  exists heading,
    In heading headings
    /\ ParsedProvision.title p = Heading.title heading
    /\ ParsedProvision.provision_ref p
       = lit "sched-" ++ filter not_space (toLowerCase scheduleLabel) ++ lit "-"
         ++ ParsedProvision.section p
    /\ ((LeadingNumber (ParsedProvision.title p) (ParsedProvision.section p)
         /\ forall n, LeadingNumber (ParsedProvision.title p) n ->
                      n = ParsedProvision.section p)
        \/ ((forall n, ~ LeadingNumber (ParsedProvision.title p) n)
            /\ ParsedProvision.section p = firstn 20 (ParsedProvision.title p))).
Proof.
  intros Hi. unfold headingProvisions, headingIteration. cbv zeta.
  destruct (10 <? length _); [|intros []].
  intros [<-|[]]. exists (nth i headings noHeading).
  cbn [ParsedProvision.provision_ref ParsedProvision.section ParsedProvision.title].
  split; [apply nth_In; exact Hi|]. split; [reflexivity|].
  rewrite labelSlug_eq. split; [reflexivity|].
  destruct (match_first Rx.headingRef _) as [refMatch|] eqn:E.
  - left. pose proof (headingRef_match _ _ E) as L. split; [exact L|].
    intros n Hn. apply LeadingNumber_unique in Hn, L. congruence.
  - right. split; [|apply substring_0].
    intros n Hn. apply headingRef_complete in Hn. congruence.
Qed.

Lemma scheduleProvisions_keyed schedMatch p :
  In p (scheduleProvisions schedMatch) -> ScheduleKeyed schedMatch p.
Proof.
  unfold scheduleProvisions, scheduleIteration, ScheduleKeyed. cbv zeta.
  destruct (match_first Rx.scheduleLabel _) as [labelMatch|]; [|intros []].
  intros Hp. exists labelMatch. split; [reflexivity|].
  destruct (Nat.ltb_spec 0 (length (headingPositions (group 1 schedMatch))))
    as [Hpos|Hzero].
  - right. rewrite heading_loop in Hp. cbn [app] in Hp. rewrite in_flat_map in Hp.
    destruct Hp as (i & Hi & Hp). apply in_seq in Hi.
    eapply headingProvisions_keyed; [|exact Hp]. lia.
  - left. split; [apply length_zero_iff_nil; lia|].
    destruct (10 <? length _); [|destruct Hp].
    destruct Hp as [<-|[]].
    cbn [ParsedProvision.provision_ref ParsedProvision.section].
    rewrite labelSlug_eq. split; reflexivity.
Qed.

End ScheduleKeys.

(** ** Properties of the schedule keys *)

(** X26.  Every schedule provision comes from a schedule block of the page,
    and its key is [sched-] followed by the label of that block (the
    stripped text of its first [scheduleLabel] element) in lower case with
    all white space removed.  For a block without principle headings the
    section is the label.  Under a principle heading the title is that of
    the heading and the key goes on with [-] and the section, which is the
    number that starts the title (a section number followed by a white-space
    character) or, when the title starts with no such number, the first 20
    characters of the title. *)
Theorem schedule_keys_from_labels {engine : Engine} html p :
  In p (fst (extractSchedules html)) ->
  exists schedMatch,
    In schedMatch (exec_all Rx.scheduleRe html) /\ ScheduleKeyed schedMatch p.
Proof.
  rewrite extractSchedules_eq, in_flat_map.
  intros (m & Hm & Hp). exists m. split; [exact Hm|].
  apply scheduleProvisions_keyed. exact Hp.
Qed.

Lemma schedule_keys_from_labels_witness :
  exists p,
    In p (fst (extractSchedules (engine := AsciiEngine) Sample.page))
    /\ ParsedProvision.provision_ref p = lit "sched-schedule1-1"
    /\ exists schedMatch,
         In schedMatch (exec_all Rx.scheduleRe Sample.page)
         /\ ScheduleKeyed (engine := AsciiEngine) schedMatch p.
Proof.
  destruct (fst (extractSchedules (engine := AsciiEngine) Sample.page))
    as [|p ps] eqn:E; [vm_compute in E; discriminate E|].
  exists p. assert (H : In p (p :: ps)) by (left; reflexivity).
  split; [exact H|].
  split; [vm_compute in E; injection E as <- _; reflexivity|].
  rewrite <- E in H.
  exact (schedule_keys_from_labels (engine := AsciiEngine) Sample.page p H).
Defined.

(** ** Runs of the scripts *)

Lemma requests_app a b : requests (a ++ b) = requests a ++ requests b.
Proof. unfold requests. apply flat_map_app. Qed.

Lemma timers_app a b : timers (a ++ b) = timers a ++ timers b.
Proof. unfold timers. apply flat_map_app. Qed.

Lemma writes_app a b : writes (a ++ b) = writes a ++ writes b.
Proof. unfold writes. apply flat_map_app. Qed.

Lemma reads_app a b : reads (a ++ b) = reads a ++ reads b.
Proof. unfold reads. apply flat_map_app. Qed.

Lemma post_ret {A} (x : A) w (Q : Outcome A -> list Event -> Z -> Prop) :
  Q (Returns x) [] (lastRequestTime w) -> post (ioret x) w Q.
Proof. intros H. exists []. simpl. rewrite app_nil_r. split; [reflexivity | exact H]. Qed.

Lemma post_throw {A} e w (Q : Outcome A -> list Event -> Z -> Prop) :
  Q (Throws e) [] (lastRequestTime w) -> post (throw e) w Q.
Proof. intros H. exists []. simpl. rewrite app_nil_r. split; [reflexivity | exact H]. Qed.

Lemma post_call {A} e (answer : list Event -> A) w
  (Q : Outcome A -> list Event -> Z -> Prop) :
  Q (Returns (answer (history w ++ [e]))) [e] (lastRequestTime w) ->
  post (call e answer) w Q.
Proof. intros H. exists [e]. simpl. split; [reflexivity | exact H]. Qed.

Lemma post_conseq {A} (c : IO A) w (Q Q' : Outcome A -> list Event -> Z -> Prop) :
  post c w Q -> (forall o evs l, Q o evs l -> Q' o evs l) -> post c w Q'.
Proof. intros (evs & H1 & H2) H. exists evs. split; [exact H1 | apply H; exact H2]. Qed.

(** A bind runs its first part and, when that returns, the rest from the
    world it left. *)
Lemma post_bind {A B} (c : IO A) (f : A -> IO B) w
  (Q : Outcome B -> list Event -> Z -> Prop) :
  post c w
    (fun o evs1 last1 =>
       match o with
       | Returns x =>
           post (f x) (mkWorld last1 (history w ++ evs1))
             (fun o2 evs2 last2 => Q o2 (evs1 ++ evs2) last2)
       | Throws e => Q (Throws e) evs1 last1
       | OutOfFuel => Q OutOfFuel evs1 last1
       end) ->
  post (iobind c f) w Q.
Proof.
  unfold post, iobind. destruct (c w) as [o [last1 h1]]. simpl.
  intros (evs1 & -> & H). destruct o as [x|e|]; try (exists evs1; split; [reflexivity | exact H]).
  destruct H as (evs2 & H2 & H). exists (evs1 ++ evs2).
  split; [rewrite H2, app_assoc; reflexivity | exact H].
Qed.

Lemma post_try_catch {A} (body : IO A) (handler : jsstring -> IO A) w
  (Q : Outcome A -> list Event -> Z -> Prop) :
  post body w
    (fun o evs1 last1 =>
       match o with
       | Throws e =>
           post (handler e) (mkWorld last1 (history w ++ evs1))
             (fun o2 evs2 last2 => Q o2 (evs1 ++ evs2) last2)
       | Returns x => Q (Returns x) evs1 last1
       | OutOfFuel => Q OutOfFuel evs1 last1
       end) ->
  post (try_catch body handler) w Q.
Proof.
  unfold post, try_catch. destruct (body w) as [o [last1 h1]]. simpl.
  intros (evs1 & -> & H). destruct o as [x|e|]; try (exists evs1; split; [reflexivity | exact H]).
  destruct H as (evs2 & H2 & H). exists (evs1 ++ evs2).
  split; [rewrite H2, app_assoc; reflexivity | exact H].
Qed.

Lemma post_rejecting {A} (c : IO (jsstring + A)) w
  (Q : Outcome A -> list Event -> Z -> Prop) :
  post c w
    (fun o evs last =>
       match o with
       | Returns (inr x) => Q (Returns x) evs last
       | Returns (inl e) => Q (Throws e) evs last
       | Throws e => Q (Throws e) evs last
       | OutOfFuel => Q OutOfFuel evs last
       end) ->
  post (rejecting c) w Q.
Proof.
  intros H. unfold rejecting. apply post_bind. eapply post_conseq; [exact H|].
  intros [[e|x]|e|] evs l HQ; cbv beta iota; try exact HQ.
  - apply post_throw. rewrite app_nil_r. exact HQ.
  - apply post_ret. rewrite app_nil_r. exact HQ.
Qed.

Lemma post_throwing (c : IO (option jsstring)) w
  (Q : Outcome unit -> list Event -> Z -> Prop) :
  post c w
    (fun o evs last =>
       match o with
       | Returns None => Q (Returns tt) evs last
       | Returns (Some e) => Q (Throws e) evs last
       | Throws e => Q (Throws e) evs last
       | OutOfFuel => Q OutOfFuel evs last
       end) ->
  post (throwing c) w Q.
Proof.
  intros H. unfold throwing. apply post_bind. eapply post_conseq; [exact H|].
  intros [[e|]|e|] evs l HQ; cbv beta iota; try exact HQ.
  - apply post_throw. rewrite app_nil_r. exact HQ.
  - apply post_ret. rewrite app_nil_r. exact HQ.
Qed.

(** ** The fetcher *)

Section FetcherFacts.
Context {host : Host}.

Lemma rateLimit_post w :
  post rateLimit w
    (fun o evs last' =>
       o = Returns tt
       /\ evs = rateLimitEvents (history w) (lastRequestTime w)
       /\ last' = dateNow (history w ++ evs)).
Proof.
  unfold post, rateLimit, rateLimitEvents, iobind, date_now, set_timeout, call,
    record, ioret, MIN_DELAY_MS.
  cbn [history lastRequestTime fst snd].
  destruct (dateNow (history w ++ [DateNow]) - lastRequestTime w <? 500)%Z;
    cbn [history lastRequestTime fst snd app].
  - eexists. split; [rewrite <- !app_assoc; reflexivity|].
    split; [reflexivity|]. split; [reflexivity|].
    rewrite <- !app_assoc. reflexivity.
  - eexists. split; [rewrite <- !app_assoc; reflexivity|].
    split; [reflexivity|]. split; [reflexivity|].
    rewrite <- !app_assoc. reflexivity.
Qed.

Lemma backoff_attempt attempt :
  (0 <= attempt)%Z -> backoff (Z.to_nat attempt) = (2 ^ (attempt + 1) * 1000)%Z.
Proof.
  intros H. unfold backoff.
  replace (Z.of_nat (Z.to_nat attempt)) with attempt by lia. reflexivity.
Qed.

Lemma attempts_post url maxRetries : forall fuel attempt w,
  (0 <= attempt)%Z ->
  Z.to_nat (maxRetries + 1 - attempt) <= fuel ->
  post (attempts fuel url maxRetries attempt) w
    (fun o evs last' =>
       last' = lastRequestTime w /\ AttemptsSpec url maxRetries attempt o evs).
Proof.
  induction fuel as [|fuel IH]; intros attempt w Hpos Hfuel.
  - assert (Hlt : (maxRetries < attempt)%Z) by lia.
    cbn [attempts]. destruct (Z.leb_spec attempt maxRetries) as [Hle|_]; [lia|].
    apply post_throw. split; [reflexivity|].
    unfold AttemptsSpec. cbn.
    repeat split; try discriminate; try reflexivity; try lia.
    eexists. reflexivity.
  - cbn [attempts]. destruct (Z.leb_spec attempt maxRetries) as [Hle|Hlt].
    + apply post_bind. unfold fetch. apply post_rejecting. apply post_call.
      destruct (fetchResponse _) as [e|response].
      * split; [reflexivity|]. unfold AttemptsSpec. cbn.
        repeat split; try discriminate; try reflexivity; try lia.
      * destruct (retryable (Response.status response)) eqn:Hretry; cbn [andb].
        -- destruct (Z.ltb_spec attempt maxRetries) as [Hless|Hlast].
           ++ apply post_bind. apply post_call. apply post_bind. apply post_call.
              eapply post_conseq; [apply (IH (attempt + 1)%Z); lia|].
              cbn [lastRequestTime]. intros o evs l [-> Hspec].
              split; [reflexivity|].
              destruct Hspec as (H1 & H2 & H3 & H4 & H5 & H6 & H7 & H8 & H9).
              assert (Hne : requests evs <> []) by (apply H8; lia).
              unfold AttemptsSpec.
              rewrite !requests_app, !timers_app, !writes_app, !reads_app.
              cbn [requests timers writes reads flat_map app length].
              split; [exact H1|].
              split; [cbn [repeat]; f_equal; exact H2|].
              split; [lia|].
              split.
              { destruct (requests evs) as [|u us] eqn:Eu; [congruence|].
                replace (S (length (u :: us)) - 1) with (S (length us))
                  by (cbn [length]; lia).
                replace (length (u :: us) - 1) with (length us) in H4
                  by (cbn [length]; lia).
                rewrite H4. cbn [seq map]. f_equal.
                - rewrite Nat.add_0_r. symmetry. apply backoff_attempt. exact Hpos.
                - rewrite <- seq_shift, map_map. apply map_ext. intros i.
                  f_equal. lia. }
              split; [exact H5|]. split; [exact H6|].
              split.
              { intros r Hr. destruct (H7 r Hr) as [Hu Hs]. split; [exact Hu|].
                intros Hret. specialize (Hs Hret). lia. }
              split; [discriminate|]. intros Hcontra. lia.
           ++ apply post_bind. unfold response_text. apply post_rejecting.
              apply post_call.
              destruct (responseText _) as [e|body].
              ** split; [reflexivity|]. unfold AttemptsSpec. cbn.
                 repeat split; try discriminate; try reflexivity; try lia.
              ** apply post_ret. split; [reflexivity|]. unfold AttemptsSpec. cbn.
                 repeat split; try discriminate; try reflexivity; try lia.
                 all: try (match goal with H : Returns _ = Returns _ |- _ => injection H as <- end;
                           cbn [FetchResult.status FetchResult.url] in *;
                           try reflexivity; try congruence; try lia).
        -- apply post_bind. unfold response_text. apply post_rejecting.
           apply post_call.
           destruct (responseText _) as [e|body].
           ++ split; [reflexivity|]. unfold AttemptsSpec. cbn.
              repeat split; try discriminate; try reflexivity; try lia.
           ++ apply post_ret. split; [reflexivity|]. unfold AttemptsSpec. cbn.
              repeat split; try discriminate; try reflexivity; try lia.
              all: try (match goal with H : Returns _ = Returns _ |- _ => injection H as <- end;
                           cbn [FetchResult.status FetchResult.url] in *;
                           try reflexivity; try congruence; try lia).
    + apply post_throw. split; [reflexivity|].
      unfold AttemptsSpec. cbn.
      repeat split; try discriminate; try reflexivity; try lia.
      eexists. reflexivity.
Qed.

Lemma rateLimitEvents_quiet h last :
  requests (rateLimitEvents h last) = []
  /\ writes (rateLimitEvents h last) = []
  /\ reads (rateLimitEvents h last) = [].
Proof.
  unfold rateLimitEvents. cbv zeta.
  destruct (_ <? 500)%Z; repeat split; reflexivity.
Qed.

Lemma fetchWithRateLimit_post url maxRetries w :
  post (fetchWithRateLimit url maxRetries) w
    (fun o evs last' =>
       exists evs2,
         evs = rateLimitEvents (history w) (lastRequestTime w) ++ evs2
         /\ last' = dateNow (history w ++ rateLimitEvents (history w) (lastRequestTime w))
         /\ AttemptsSpec url maxRetries 0 o evs2).
Proof.
  unfold fetchWithRateLimit. apply post_bind.
  eapply post_conseq; [apply rateLimit_post|].
  intros o evs l (-> & -> & ->).
  eapply post_conseq; [apply attempts_post; lia|].
  cbn [lastRequestTime]. intros o evs2 l [-> Hspec].
  exists evs2. split; [reflexivity|]. split; [reflexivity | exact Hspec].
Qed.

(** When the host answers every request and gives every body, the loop
    returns a result. *)
Lemma attempts_returns url maxRetries :
  (forall h, exists r, fetchResponse h = inr r) ->
  (forall h, exists b, responseText h = inr b) ->
  forall fuel attempt w,
    (0 <= attempt <= maxRetries)%Z ->
    Z.to_nat (maxRetries + 1 - attempt) <= fuel ->
    exists r, fst (attempts fuel url maxRetries attempt w) = Returns r.
Proof.
  intros Hfetch Htext.
  induction fuel as [|fuel IH]; intros attempt w Hrange Hfuel; [lia|].
  cbn [attempts]. destruct (Z.leb_spec attempt maxRetries) as [_|Hlt]; [|lia].
  unfold iobind at 1. unfold fetch, rejecting, iobind at 1. unfold call at 1.
  cbv zeta.
  destruct (Hfetch (history (record (FetchUrl url
              [(lit "User-Agent", USER_AGENT); (lit "Accept", lit "text/html, */*")])
              w))) as (response & ->).
  cbn [ioret].
  assert (Hbody : forall w0,
            exists r,
              fst ((body <- response_text ;;
                    ioret (FetchResult.mk (Response.status response) body
                             (match Response.contentType response with
                              | Some c => c
                              | None => []
                              end) url))%io w0) = Returns r).
  { intros w0. unfold response_text, rejecting, iobind, call. cbv zeta.
    destruct (Htext (history (record ResponseText w0))) as (b & ->).
    cbn. eexists. reflexivity. }
  destruct (retryable (Response.status response) && (attempt <? maxRetries)%Z) eqn:E.
  - apply andb_true_iff in E. destruct E as [_ E]. apply Z.ltb_lt in E.
    unfold iobind at 1. unfold log, call at 1. cbv zeta.
    unfold iobind at 1. unfold set_timeout, call at 1. cbv zeta.
    apply IH; lia.
  - apply Hbody.
Qed.

End FetcherFacts.

(** ** The sample host *)

Lemma timersTotal_app h1 h2 :
  timersTotal (h1 ++ h2) = (timersTotal h1 + timersTotal h2)%Z.
Proof.
  induction h1 as [|e h1 IH]; [reflexivity|].
  cbn [app timersTotal fold_right]. fold (timersTotal (h1 ++ h2)).
  fold (timersTotal h1). rewrite IH. destruct e; lia.
Qed.

Lemma timersTotal_nonneg h : (0 <= timersTotal h)%Z.
Proof.
  induction h as [|e h IH]; [cbn; lia|].
  cbn [timersTotal fold_right]. fold (timersTotal h). destruct e; lia.
Qed.

(** ** Properties of the fetcher *)

Lemma fetches_app a b : fetches (a ++ b) = fetches a ++ fetches b.
Proof. unfold fetches. apply flat_map_app. Qed.

Lemma requests_fetches evs : requests evs = map fst (fetches evs).
Proof.
  induction evs as [|e evs IH]; [reflexivity|].
  change (e :: evs) with ([e] ++ evs). rewrite requests_app, fetches_app, map_app, IH.
  destruct e; reflexivity.
Qed.

Section FetchHeaders.
Context {host : Host}.

(** Every request of the loop is for [url], with the headers of the
    source. *)
Lemma attempts_fetches url maxRetries : forall fuel attempt w,
  post (attempts fuel url maxRetries attempt) w
    (fun o evs last' =>
       Forall (fun request =>
                 request = (url, [ (lit "User-Agent", USER_AGENT);
                                   (lit "Accept", lit "text/html, */*") ]))
         (fetches evs)).
Proof.
  induction fuel as [|fuel IH]; intros attempt w.
  - cbn [attempts]. destruct (attempt <=? maxRetries)%Z.
    + exists []. cbn [fst snd]. rewrite app_nil_r. split; [reflexivity | constructor].
    + apply post_throw. constructor.
  - cbn [attempts]. destruct (attempt <=? maxRetries)%Z; [|apply post_throw; constructor].
    apply post_bind. unfold fetch. apply post_rejecting. apply post_call.
    destruct (fetchResponse _) as [e|response].
    + repeat constructor.
    + destruct (retryable (Response.status response) && (attempt <? maxRetries)%Z).
      * apply post_bind. apply post_call. apply post_bind. apply post_call.
        eapply post_conseq; [apply (IH (attempt + 1)%Z)|].
        intros o evs l H. rewrite !fetches_app. cbn [fetches flat_map app].
        constructor; [reflexivity | exact H].
      * apply post_bind. unfold response_text. apply post_rejecting. apply post_call.
        destruct (responseText _) as [e|body].
        -- repeat constructor.
        -- apply post_ret. repeat constructor.
Qed.

Lemma rateLimitEvents_no_fetch h last : fetches (rateLimitEvents h last) = [].
Proof. unfold rateLimitEvents. cbv zeta. destruct (_ <? 500)%Z; reflexivity. Qed.

Lemma fetchWithRateLimit_fetches url maxRetries w :
  post (fetchWithRateLimit url maxRetries) w
    (fun o evs last' =>
       Forall (fun request =>
                 request = (url, [ (lit "User-Agent", USER_AGENT);
                                   (lit "Accept", lit "text/html, */*") ]))
         (fetches evs)).
Proof.
  unfold fetchWithRateLimit. apply post_bind.
  eapply post_conseq; [apply rateLimit_post|].
  intros o evs l (-> & -> & ->).
  eapply post_conseq; [apply attempts_fetches|].
  intros o evs2 l H. rewrite fetches_app, rateLimitEvents_no_fetch. exact H.
Qed.

End FetchHeaders.

Lemma post_and {A} (c : IO A) w (Q1 Q2 : Outcome A -> list Event -> Z -> Prop) :
  post c w Q1 -> post c w Q2 -> post c w (fun o evs l => Q1 o evs l /\ Q2 o evs l).
Proof.
  intros (evs1 & E1 & H1) (evs2 & E2 & H2). exists evs1.
  split; [exact E1|]. split; [exact H1|].
  rewrite E1 in E2. apply app_inv_head in E2. subst evs2. exact H2.
Qed.

(** X13.  [fetchWithRateLimit] makes at most [maxRetries + 1] requests, all
    of them for the URL it was given and with the two headers of the source
    ([User-Agent] and [Accept]), and at least one when [maxRetries] is not
    negative; it reads and writes no file, its loop ends within the
    [maxRetries + 1] iterations it is given, and a result it returns
    carries the URL. *)
Theorem fetch_attempts_bounded {host : Host} url maxRetries w :
  post (fetchWithRateLimit url maxRetries) w
    (fun o evs last' =>
       o <> OutOfFuel
       /\ fetches evs
          = repeat (url, [ (lit "User-Agent", USER_AGENT);
                           (lit "Accept", lit "text/html, */*") ])
              (length (fetches evs))
       /\ requests evs = map fst (fetches evs)
       /\ requests evs = repeat url (length (requests evs))
       /\ (Z.of_nat (length (requests evs)) <= Z.max 0 (maxRetries + 1))%Z
       /\ ((0 <= maxRetries)%Z -> requests evs <> [])
       /\ writes evs = [] /\ reads evs = []
       /\ (forall r, o = Returns r -> FetchResult.url r = url)).
Proof.
  eapply post_conseq;
    [apply post_and; [apply fetchWithRateLimit_post | apply fetchWithRateLimit_fetches]|].
  intros o evs l [(evs2 & -> & _ & Hspec) Hf].
  destruct Hspec as (H1 & H2 & H3 & _ & H5 & H6 & H7 & H8 & _).
  destruct (rateLimitEvents_quiet (history w) (lastRequestTime w)) as (Q1 & Q2 & Q3).
  split; [exact H1|].
  split; [apply Forall_eq_repeat; revert Hf; apply Forall_impl; intros a Ha;
          symmetry; exact Ha|].
  split; [apply requests_fetches|].
  rewrite requests_app, writes_app, reads_app, Q1, Q2, Q3. cbn [app].
  split; [exact H2|]. split; [lia|].
  split; [intros Hm; apply H8; lia|]. split; [exact H5|]. split; [exact H6|].
  intros r Hr. apply (H7 r Hr).
Qed.

(** X14.  A result with a status that is tried again (429 or 5xx) is
    returned only by the last attempt: [maxRetries + 1] requests were made
    before it. *)
Theorem retryable_result_only_after_last_attempt {host : Host} url maxRetries w :
  post (fetchWithRateLimit url maxRetries) w
    (fun o evs last' =>
       forall r,
         o = Returns r ->
         retryable (FetchResult.status r) = true ->
         Z.of_nat (length (requests evs)) = (maxRetries + 1)%Z).
Proof.
  eapply post_conseq; [apply fetchWithRateLimit_post|].
  intros o evs l (evs2 & -> & _ & Hspec) r Hr Hretry.
  destruct Hspec as (_ & _ & _ & _ & _ & _ & H7 & _).
  destruct (rateLimitEvents_quiet (history w) (lastRequestTime w)) as (Q1 & _).
  rewrite requests_app, Q1. cbn [app].
  destruct (H7 r Hr) as [_ Hcount]. specialize (Hcount Hretry). lia.
Qed.

Lemma retryable_result_only_after_last_attempt_witness :
  exists r,
    fst (fetchWithRateLimit (host := SampleHost 503 false)
           (lit "https://laws-lois.justice.gc.ca/eng/acts/P-21/FullText.html") 3
           initialWorld) = Returns r
    /\ retryable (FetchResult.status r) = true
    /\ length (requests
                 (history
                    (snd (fetchWithRateLimit (host := SampleHost 503 false)
                            (lit "https://laws-lois.justice.gc.ca/eng/acts/P-21/FullText.html")
                            3 initialWorld)))) = 4.
Proof.
  destruct (retryable_result_only_after_last_attempt (host := SampleHost 503 false)
              (lit "https://laws-lois.justice.gc.ca/eng/acts/P-21/FullText.html") 3
              initialWorld) as (evs & Hh & H).
  eexists. split; [vm_compute; reflexivity|]. split; [reflexivity|].
  rewrite Hh. cbn [initialWorld history app].
  specialize (H _ ltac:(vm_compute; reflexivity) eq_refl). lia.
Defined.

(** X15.  The timers of [fetchWithRateLimit] are the one of [rateLimit], if
    it sets one, and then one before each retry: 2000 ms before the first,
    and twice the previous delay before each next one. *)
Theorem backoff_doubles {host : Host} url maxRetries w :
  post (fetchWithRateLimit url maxRetries) w
    (fun o evs last' =>
       timers evs
       = timers (rateLimitEvents (history w) (lastRequestTime w))
         ++ map backoff (seq 0 (length (requests evs) - 1)))
  /\ backoff 0 = 2000%Z
  /\ (forall i, backoff (S i) = (2 * backoff i)%Z).
Proof.
  split; [|split; [reflexivity|]].
  - eapply post_conseq; [apply fetchWithRateLimit_post|].
    intros o evs l (evs2 & -> & _ & Hspec).
    destruct Hspec as (_ & _ & _ & H4 & _).
    destruct (rateLimitEvents_quiet (history w) (lastRequestTime w)) as (Q1 & _).
    rewrite timers_app, requests_app, Q1, H4. reflexivity.
  - intros i. unfold backoff.
    replace (Z.of_nat (S i) + 1)%Z with (Z.succ (Z.of_nat i + 1)) by lia.
    rewrite Z.pow_succ_r by lia. lia.
Qed.

(** X16.  When the host answers every request and gives every body, and
    [maxRetries] is not negative, [fetchWithRateLimit] returns a result: the
    [throw] after its loop is not reached. *)
Theorem fetch_returns_when_host_answers {host : Host} url maxRetries w :
  (forall h, exists r, fetchResponse h = inr r) ->
  (forall h, exists b, responseText h = inr b) ->
  (0 <= maxRetries)%Z ->
  exists r, fst (fetchWithRateLimit url maxRetries w) = Returns r.
Proof.
  intros Hfetch Htext Hm. unfold fetchWithRateLimit.
  destruct (rateLimit_post w) as (evs & Hh & Ho & _).
  unfold iobind. destruct (rateLimit w) as [o w1]. cbn [fst] in Ho. subst o.
  apply (attempts_returns url maxRetries Hfetch Htext); lia.
Qed.

Lemma fetch_returns_when_host_answers_witness :
  exists r,
    fst (fetchWithRateLimit (host := SampleHost 503 false)
           (lit "https://laws-lois.justice.gc.ca/eng/acts/P-21/FullText.html") 3
           initialWorld) = Returns r.
Proof.
  apply (fetch_returns_when_host_answers (host := SampleHost 503 false)).
  - intros h. eexists. reflexivity.
  - intros h. eexists. reflexivity.
  - lia.
Defined.

(** X17.  With a negative [maxRetries] the loop is not entered: no request
    is made and the error [Failed to fetch ... after ... retries] is
    thrown. *)
Theorem negative_retries_throw {host : Host} url maxRetries w :
  (maxRetries < 0)%Z ->
  post (fetchWithRateLimit url maxRetries) w
    (fun o evs last' =>
       o = Throws (lit "Failed to fetch " ++ url ++ lit " after "
                   ++ show maxRetries ++ lit " retries")
       /\ requests evs = []).
Proof.
  intros Hm. unfold fetchWithRateLimit. apply post_bind.
  eapply post_conseq; [apply rateLimit_post|].
  intros o evs l (-> & -> & _).
  replace (Z.to_nat (maxRetries + 1)) with 0 by lia. cbn [attempts].
  destruct (Z.leb_spec 0 maxRetries) as [Hle|_]; [lia|].
  apply post_throw. rewrite app_nil_r.
  split; [reflexivity|].
  apply (rateLimitEvents_quiet (history w) (lastRequestTime w)).
Qed.

Lemma negative_retries_throw_witness :
  post (fetchWithRateLimit (host := SampleHost 200 false)
          (lit "https://laws-lois.justice.gc.ca/eng/acts/P-21/FullText.html") (-1))
    initialWorld
    (fun o evs last' =>
       o = Throws (lit "Failed to fetch "
                   ++ lit "https://laws-lois.justice.gc.ca/eng/acts/P-21/FullText.html"
                   ++ lit " after " ++ show (host := SampleHost 200 false) (-1)
                   ++ lit " retries")
       /\ requests evs = []).
Proof.
  apply (negative_retries_throw (host := SampleHost 200 false)). lia.
Defined.

(** X18.  When the clock of the host never goes back and an awaited timer
    takes at least its delay, [fetchWithRateLimit] leaves a
    [lastRequestTime] at least [MIN_DELAY_MS] after the one it found: two
    calls are at least 500 ms apart. *)
Theorem rate_limit_spacing {host : Host} url maxRetries w :
  (forall h1 h2, (dateNow h1 <= dateNow (h1 ++ h2))%Z) ->
  (forall h ms h2, (dateNow h + ms <= dateNow (h ++ SetTimeout ms :: h2))%Z) ->
  (lastRequestTime w + MIN_DELAY_MS
   <= lastRequestTime (snd (fetchWithRateLimit url maxRetries w)))%Z.
Proof.
  intros Hmono Htimer.
  destruct (fetchWithRateLimit_post url maxRetries w) as (evs & _ & evs2 & _ & -> & _).
  unfold rateLimitEvents, MIN_DELAY_MS. cbv zeta.
  destruct (Z.ltb_spec (dateNow (history w ++ [DateNow]) - lastRequestTime w) 500)
    as [Hsoon|Hlate].
  - cbn [app].
    pose proof (Htimer (history w ++ [DateNow])
                  (500 - (dateNow (history w ++ [DateNow]) - lastRequestTime w))%Z
                  [DateNow]) as Ht.
    rewrite <- app_assoc in Ht. cbn [app] in Ht. lia.
  - cbn [app].
    pose proof (Hmono (history w ++ [DateNow]) [DateNow]) as Hm.
    rewrite <- app_assoc in Hm. cbn [app] in Hm. lia.
Qed.

Lemma rate_limit_spacing_witness :
  (lastRequestTime initialWorld + MIN_DELAY_MS
   <= lastRequestTime
        (snd (fetchWithRateLimit (host := SampleHost 200 false)
                (lit "https://laws-lois.justice.gc.ca/eng/acts/P-21/FullText.html") 3
                initialWorld)))%Z.
Proof.
  apply (rate_limit_spacing (host := SampleHost 200 false)).
  - intros h1 h2. cbn [dateNow SampleHost]. rewrite timersTotal_app.
    pose proof (timersTotal_nonneg h2). lia.
  - intros h ms h2. cbn [dateNow SampleHost]. rewrite timersTotal_app.
    cbn [timersTotal fold_right]. fold (timersTotal h2).
    pose proof (timersTotal_nonneg h2). lia.
Defined.

(** ** The ingestion loop *)

Section IngestFacts.
Context {engine : Engine} {host : Host}.

Lemma fetchActFullText_post actPath w :
  post (fetchActFullText actPath None) w
    (fun o evs last' =>
       o <> OutOfFuel
       /\ writes evs = [] /\ reads evs = []
       /\ requests evs
          = repeat (fullTextUrl actPath (lit "eng")) (length (requests evs))
       /\ 1 <= length (requests evs) <= 4
       /\ (forall r, o = Returns r ->
             FetchResult.url r = fullTextUrl actPath (lit "eng"))).
Proof.
  unfold fetchActFullText. cbv zeta.
  eapply post_conseq; [apply fetchWithRateLimit_post|].
  intros o evs l (evs2 & -> & _ & Hspec).
  destruct Hspec as (H1 & H2 & H3 & _ & H5 & H6 & H7 & H8 & _).
  destruct (rateLimitEvents_quiet (history w) (lastRequestTime w)) as (Q1 & Q2 & Q3).
  rewrite requests_app, writes_app, reads_app, Q1, Q2, Q3. cbn [app].
  split; [exact H1|]. split; [exact H5|]. split; [exact H6|].
  split; [exact H2|]. split.
  - assert (Hne : requests evs2 <> []) by (apply H8; lia).
    destruct (requests evs2); [congruence|]. cbn [length] in *. lia.
  - intros r Hr. apply (H7 r Hr).
Qed.

(** *** The counters and the report *)

Lemma rowsWith_push status rows r :
  rowsWith status (push rows r)
  = rowsWith status rows ++ (if str_eqb (Row.status r) status then [r] else []).
Proof. unfold rowsWith, push. rewrite filter_app. cbn [filter]. reflexivity. Qed.

Lemma length_push {A} (l : list A) x : length (push l x) = S (length l).
Proof. unfold push. rewrite length_app. simpl. lia. Qed.

Lemma Advanced_row t r p' s' f' tp td :
  p' = processed t + 1 ->
  (Consistent t ->
   s' = skipped t + length (if str_eqb (Row.status r) (lit "cached") then [r] else [])
   /\ p' = s' + f' + length (rowsWith (lit "OK") (report t))
            + length (if str_eqb (Row.status r) (lit "OK") then [r] else [])) ->
  Advanced t (mkTally p' s' f' tp td (push (report t) r)).
Proof.
  intros -> H. unfold Advanced. cbn [processed report skipped failed].
  split; [reflexivity|]. split; [rewrite length_push; lia|].
  intros Hc. destruct (H Hc) as [Hs Hp]. destruct Hc as (C1 & C2 & C3).
  unfold Consistent. cbn [processed report skipped failed].
  rewrite !rowsWith_push, !length_app, length_push. lia.
Qed.

Lemma Advanced_failure t act status :
  str_eqb status (lit "cached") = false ->
  str_eqb status (lit "OK") = false ->
  Advanced t
    (mkTally (processed t + 1) (skipped t) (failed t + 1)
       (totalProvisions t) (totalDefinitions t)
       (push (report t) (emptyRow act status))).
Proof.
  intros H1 H2. apply Advanced_row; [reflexivity|].
  intros (C1 & C2 & C3). cbn [emptyRow Row.status]. rewrite H1, H2.
  cbn [length]. lia.
Qed.

Lemma Advanced_ok t act p d tp td :
  Advanced t
    (mkTally (processed t + 1) (skipped t) (failed t) tp td
       (push (report t) (Row.mk (ActIndexEntry.shortName act) p d (lit "OK")))).
Proof.
  apply Advanced_row; [reflexivity|].
  intros (C1 & C2 & C3). cbn [Row.status].
  change (str_eqb (lit "OK") (lit "cached")) with false.
  change (str_eqb (lit "OK") (lit "OK")) with true.
  cbn [length]. lia.
Qed.

Lemma Advanced_cached t act p d tp td :
  Advanced t
    (mkTally (processed t + 1) (skipped t + 1) (failed t) tp td
       (push (report t) (Row.mk (ActIndexEntry.shortName act) p d (lit "cached")))).
Proof.
  apply Advanced_row; [reflexivity|].
  intros (C1 & C2 & C3). cbn [Row.status].
  change (str_eqb (lit "cached") (lit "cached")) with true.
  change (str_eqb (lit "cached") (lit "OK")) with false.
  cbn [length]. lia.
Qed.

(** *** One iteration *)

Lemma parse_post html act w (Q : Outcome ParsedAct.t -> list Event -> Z -> Prop) :
  Q (Returns (fst (parseFullTextHtml html act [])))
    (map ConsoleLog (snd (parseFullTextHtml html act []))) (lastRequestTime w) ->
  post (parse html act) w Q.
Proof.
  intros H. unfold post, parse.
  destruct (parseFullTextHtml html act []) as [parsed lines].
  eexists. split; [reflexivity | exact H].
Qed.

Lemma map_ConsoleLog_quiet lines :
  requests (map ConsoleLog lines) = []
  /\ writes (map ConsoleLog lines) = []
  /\ reads (map ConsoleLog lines) = [].
Proof.
  induction lines as [|l lines (IH1 & IH2 & IH3)]; [repeat split|].
  cbn. repeat split; assumption.
Qed.

(** What the end of the [try] block does: it writes the seed file, and
    nothing else. *)
Lemma parseAndStore_post skipFetch act t html w :
  (skipFetch = false -> hasMarker html = false) ->
  post (parseAndStore act t html) w
    (fun o evs last' =>
       o <> OutOfFuel
       /\ Forall (CleanWrite skipFetch act) (writes evs)
       /\ requests evs = [] /\ reads evs = []
       /\ (forall flow, o = Returns flow -> Advanced t (afterTry flow))).
Proof.
  intros Hclean. unfold parseAndStore.
  apply post_bind. apply parse_post.
  destruct (map_ConsoleLog_quiet (snd (parseFullTextHtml html act []))) as (Q1 & Q2 & Q3).
  set (parsed := fst (parseFullTextHtml html act [])).
  set (lines := map ConsoleLog (snd (parseFullTextHtml html act []))) in *.
  assert (Hw : CleanWrite skipFetch act (seedFile act, stringify parsed)).
  { right. split; [reflexivity|]. exists html. split; [reflexivity | exact Hclean]. }
  apply post_bind. unfold write_file. apply post_throwing. apply post_call.
  destruct (writeFileSync _) as [e|].
  - rewrite requests_app, writes_app, reads_app, Q1, Q2, Q3. cbn.
    split; [discriminate|]. split; [constructor; [exact Hw | constructor]|].
    split; [reflexivity|]. split; [reflexivity|]. intros flow Hf. discriminate.
  - cbv zeta. apply post_bind. apply post_call. apply post_ret.
    rewrite !requests_app, !writes_app, !reads_app, Q1, Q2, Q3. cbn.
    split; [discriminate|]. split; [constructor; [exact Hw | constructor]|].
    split; [reflexivity|]. split; [reflexivity|].
    intros flow Hf. injection Hf as <-. cbn [afterTry processed skipped failed
      totalProvisions totalDefinitions report].
    apply Advanced_ok.
Qed.

Lemma tryBlock_post skipFetch act t w :
  post (tryBlock skipFetch act t) w
    (fun o evs last' =>
       o <> OutOfFuel
       /\ Forall (CleanWrite skipFetch act) (writes evs)
       /\ length (requests evs) <= 4
       /\ requests evs
          = repeat (fullTextUrl (ActIndexEntry.actPath act) (lit "eng"))
              (length (requests evs))
       /\ (skipFetch = false -> reads evs = [])
       /\ (forall flow, o = Returns flow -> Advanced t (afterTry flow))).
Proof.
  unfold tryBlock. apply post_bind. unfold exists_sync. apply post_call.
  destruct (existsSync _ && skipFetch) eqn:Ecached.
  - apply andb_true_iff in Ecached. destruct Ecached as [_ ->].
    apply post_bind. unfold read_file. apply post_rejecting. apply post_call.
    destruct (readFileSync _) as [e|html].
    + cbn. split; [discriminate|]. split; [constructor|]. split; [lia|]. split; [reflexivity|].
      split; [discriminate|]. intros flow Hf. discriminate.
    + apply post_bind. apply post_call.
      eapply post_conseq; [apply (parseAndStore_post true); discriminate|].
      intros o evs l (H1 & H2 & H3 & H4 & H5).
      rewrite !requests_app, !writes_app, H3. cbn.
      split; [exact H1|]. split; [exact H2|]. split; [lia|]. split; [reflexivity|].
      split; [discriminate | exact H5].
  - apply post_bind. apply post_call. apply post_bind.
    eapply post_conseq; [apply fetchActFullText_post|].
    intros o evs l (F1 & F2 & F3 & F4 & F5 & F6).
    destruct o as [result|e|]; [| |congruence].
    + destruct (negb (FetchResult.status result =? 200)) eqn:Estatus.
      * apply post_bind. apply post_call. apply post_ret.
        rewrite !requests_app, !writes_app, !reads_app, F2, F3. cbn.
        rewrite ?app_nil_r.
        split; [discriminate|]. split; [constructor|]. split; [lia|].
        split; [exact F4|]. split; [reflexivity|].
        intros flow Hf. injection Hf as <-. cbn [afterTry skipAct].
        apply Advanced_failure; reflexivity.
      * destruct (includes (FetchResult.body result) (lit "Page not Found")
                  || includes (FetchResult.body result) (lit "Error 404")) eqn:Emarker.
        -- apply post_bind. apply post_call. apply post_ret.
           rewrite !requests_app, !writes_app, !reads_app, F2, F3. cbn.
           rewrite ?app_nil_r.
           split; [discriminate|]. split; [constructor|]. split; [lia|].
           split; [exact F4|]. split; [reflexivity|].
           intros flow Hf. injection Hf as <-. cbn [afterTry skipAct].
           apply Advanced_failure; reflexivity.
        -- cbv zeta. apply post_bind. unfold write_file. apply post_throwing.
           apply post_call.
           assert (Hw : CleanWrite skipFetch act
                          (sourceFile act, FetchResult.body result)).
           { left. split; [reflexivity | exact Emarker]. }
           destruct (writeFileSync _) as [e|].
           ++ rewrite !requests_app, !writes_app, !reads_app, F2, F3. cbn.
              rewrite ?app_nil_r.
              split; [discriminate|]. split; [constructor; [exact Hw | constructor]|].
              split; [lia|]. split; [exact F4|]. split; [reflexivity|].
              intros flow Hf. discriminate.
           ++ apply post_bind. apply post_call.
              eapply post_conseq;
                [apply (parseAndStore_post skipFetch); intros _; exact Emarker|].
              intros o evs3 l3 (H1 & H2 & H3 & H4 & H5).
              rewrite !requests_app, !writes_app, !reads_app, F2, F3, H3, H4. cbn.
              rewrite ?app_nil_r.
              split; [exact H1|]. split; [constructor; [exact Hw | exact H2]|].
              split; [lia|]. split; [exact F4|]. split; [reflexivity | exact H5].
    + rewrite !requests_app, !writes_app, !reads_app, F2, F3. cbn.
      rewrite ?app_nil_r.
      split; [discriminate|]. split; [constructor|]. split; [lia|].
      split; [exact F4|]. split; [reflexivity|]. intros flow Hf. discriminate.
Qed.

Lemma ExistsSync_quiet path evs :
  requests (ExistsSync path :: evs) = requests evs
  /\ writes (ExistsSync path :: evs) = writes evs
  /\ reads (ExistsSync path :: evs) = reads evs.
Proof. repeat split; reflexivity. Qed.

(** The [try ... catch] of an iteration and the statements after it: no
    error leaves it. *)
Lemma guarded_post skipFetch act t w :
  post (flow <- try_catch (tryBlock skipFetch act t) (catchBlock act t) ;;
        match flow with
        | Continue t' => ioret t'
        | Next t' =>
            ioret
              (mkTally (processed t' + 1) (skipped t') (failed t')
                 (totalProvisions t') (totalDefinitions t') (report t'))
        end)%io w
    (fun o evs last' =>
       Forall (CleanWrite skipFetch act) (writes evs)
       /\ length (requests evs) <= 4
       /\ requests evs
          = repeat (fullTextUrl (ActIndexEntry.actPath act) (lit "eng"))
              (length (requests evs))
       /\ (skipFetch = false -> reads evs = [])
       /\ exists t', o = Returns t' /\ Advanced t t').
Proof.
  apply post_bind. apply post_try_catch.
  eapply post_conseq; [apply tryBlock_post|].
  intros o evs l (H1 & H2 & H3 & H4 & H5 & H6).
  destruct o as [flow|e|]; [| |congruence].
  - specialize (H6 flow eq_refl).
    destruct flow as [t'|t']; apply post_ret; rewrite app_nil_r;
      (split; [exact H2|]; split; [exact H3|]; split; [exact H4|];
       split; [exact H5|]; eexists; split; [reflexivity | exact H6]).
  - unfold catchBlock. apply post_bind. apply post_call. apply post_ret.
    apply post_ret.
    rewrite !requests_app, !writes_app, !reads_app. cbn. rewrite ?app_nil_r.
    split; [exact H2|]. split; [exact H3|]. split; [exact H4|].
    split; [intros Hs; apply H5; exact Hs|].
    eexists. split; [reflexivity|]. cbn [processed skipped failed
      totalProvisions totalDefinitions report].
    pose proof (Advanced_failure t act (lit "ERROR: " ++ e) eq_refl eq_refl) as Ha.
    destruct Ha as (A1 & A2 & A3). unfold Advanced.
    cbn [processed report] in *. split; [lia|]. split; [exact A2|].
    intros Hc. specialize (A3 Hc). destruct A3 as (C1 & C2 & C3).
    unfold Consistent in *. cbn [processed skipped failed report] in *.
    rewrite length_push in *. lia.
Qed.

Lemma iteration_post skipFetch t act w :
  post (iteration skipFetch t act) w
    (fun o evs last' =>
       IterationSpec skipFetch act t
         (existsSync (history w ++ [ExistsSync (seedFile act)])) o evs
       /\ requests evs
          = repeat (fullTextUrl (ActIndexEntry.actPath act) (lit "eng"))
              (length (requests evs))).
Proof.
  unfold iteration. apply post_bind. destruct skipFetch.
  - unfold exists_sync. apply post_call.
    destruct (existsSync (history w ++ [ExistsSync (seedFile act)])) eqn:Eseed.
    + apply post_bind. unfold read_file. apply post_rejecting. apply post_call.
      destruct (readFileSync _) as [e|text].
      * cbn. split; [|reflexivity]. unfold IterationSpec. cbn.
        split; [discriminate|]. split; [constructor|]. split; [lia|].
        split; [discriminate|]. split; [split; reflexivity|].
        intros t' Ht. discriminate.
      * apply post_bind. apply post_rejecting. apply post_ret.
        destruct (seedLengths text) as [e|existing].
        -- cbn. split; [|reflexivity]. unfold IterationSpec. cbn.
           split; [discriminate|]. split; [constructor|]. split; [lia|].
           split; [discriminate|]. split; [split; reflexivity|].
           intros t' Ht. discriminate.
        -- apply post_ret. cbn. split; [|reflexivity]. unfold IterationSpec. cbn.
           split; [discriminate|]. split; [constructor|]. split; [lia|].
           split; [discriminate|]. split; [split; reflexivity|].
           intros t' Ht. injection Ht as <-. apply Advanced_cached.
    + eapply post_conseq; [apply guarded_post|].
      intros o evs l (H2 & H3 & H4 & H5 & t' & -> & Ha).
      destruct (ExistsSync_quiet (seedFile act) evs) as (Q1 & Q2 & Q3).
      cbn [app]. unfold IterationSpec. rewrite Q1, Q2. split; [|exact H4].
      split; [discriminate|]. split; [exact H2|]. split; [exact H3|].
      split; [discriminate|]. split; [discriminate|].
      intros t0 Ht. injection Ht as <-. exact Ha.
  - apply post_ret.
    eapply post_conseq; [apply guarded_post|].
    intros o evs l (H2 & H3 & H4 & H5 & t' & -> & Ha).
    cbn [app]. split; [|exact H4]. unfold IterationSpec.
    split; [discriminate|]. split; [exact H2|]. split; [exact H3|].
    split; [intros _; split; [apply H5; reflexivity | eexists; reflexivity]|].
    split; [discriminate|].
    intros t0 Ht. injection Ht as <-. exact Ha.
Qed.

(** *** The loop *)

Lemma repeat_Forall {A} (P : A -> Prop) x n l :
  l = repeat x n -> P x -> Forall P l.
Proof.
  intros -> H. induction n as [|n IH]; cbn [repeat]; constructor; assumption.
Qed.

Lemma actsLoop_post skipFetch : forall acts t w,
  post (actsLoop skipFetch acts t) w
    (fun o evs last' => LoopSpec skipFetch acts t o evs).
Proof.
  induction acts as [|act rest IH]; intros t w; cbn [actsLoop].
  - apply post_ret. unfold LoopSpec. cbn.
    split; [discriminate|]. split; [constructor|]. split; [constructor|].
    split; [lia|]. split; [intros _; split; [reflexivity | eexists; reflexivity]|].
    intros t' Ht. injection Ht as <-. split; [lia|]. split; [lia|].
    intros Hc. exact Hc.
  - apply post_bind. eapply post_conseq; [apply iteration_post|].
    intros o evs1 l [(I1 & I2 & I3 & I4 & _ & I6) I7].
    assert (Hw1 : Forall (fun write => exists a, In a (act :: rest)
                                                 /\ CleanWrite skipFetch a write)
                    (writes evs1)).
    { eapply Forall_impl; [|exact I2]. intros wr Hwr. exists act.
      split; [left; reflexivity | exact Hwr]. }
    assert (Hr1 : Forall (fun url => exists a,
                            In a (act :: rest)
                            /\ url = fullTextUrl (ActIndexEntry.actPath a) (lit "eng"))
                    (requests evs1)).
    { eapply repeat_Forall; [exact I7|]. exists act.
      split; [left; reflexivity | reflexivity]. }
    destruct o as [t1|e|]; [| |congruence].
    + eapply post_conseq; [apply IH|].
      intros o evs2 l2 (L1 & L2 & L3 & L4 & L5 & L6).
      unfold LoopSpec. rewrite requests_app, writes_app, reads_app, length_app.
      split; [exact L1|].
      split.
      { apply Forall_app. split; [exact Hw1|].
        eapply Forall_impl; [|exact L2]. intros wr (a & Ha & Hwr).
        exists a. split; [right; exact Ha | exact Hwr]. }
      split.
      { apply Forall_app. split; [exact Hr1|].
        eapply Forall_impl; [|exact L3]. intros u (a & Ha & Hu).
        exists a. split; [right; exact Ha | exact Hu]. }
      split; [cbn [length]; lia|].
      split.
      { intros Hs. destruct (I4 Hs) as [R1 _]. destruct (L5 Hs) as [R2 Hex].
        rewrite R1, R2. split; [reflexivity | exact Hex]. }
      intros t' Ht. destruct (L6 t' Ht) as (P1 & P2 & P3).
      destruct (I6 t1 eq_refl) as (A1 & A2 & A3).
      cbn [length]. split; [lia|]. split; [lia|].
      intros Hc. apply P3. apply A3. exact Hc.
    + unfold LoopSpec.
      split; [discriminate|]. split; [exact Hw1|]. split; [exact Hr1|].
      split; [cbn [length]; lia|].
      split.
      { intros Hs. destruct (I4 Hs) as [_ (t' & Ht)]. discriminate. }
      intros t' Ht. discriminate.
Qed.

(** With the seed of every act in place, a run with [--skip-fetch] makes no
    request and writes nothing. *)
Lemma actsLoop_cached : forall acts t w,
  SeedsCached acts ->
  post (actsLoop true acts t) w
    (fun o evs last' => requests evs = [] /\ writes evs = []).
Proof.
  induction acts as [|act rest IH]; intros t w Hseeds; cbn [actsLoop].
  - apply post_ret. split; reflexivity.
  - apply post_bind. eapply post_conseq; [apply iteration_post|].
    intros o evs1 l [(_ & _ & _ & _ & I5 & _) _].
    destruct (I5 eq_refl (Hseeds _ act (or_introl eq_refl))) as [R W].
    destruct o as [t1|e|]; try (split; assumption).
    eapply post_conseq; [apply IH|].
    + intros h a Ha. apply Hseeds. right. exact Ha.
    + intros o evs2 l2 [R2 W2]. rewrite requests_app, writes_app, R, W, R2, W2.
      split; reflexivity.
Qed.

(** *** The report *)

Ltac find_in :=
  match goal with
  | |- In _ (_ ++ _) =>
      apply in_or_app; first [left; solve [find_in] | right; find_in]
  | |- In _ (_ :: _) => first [left; reflexivity | right; find_in]
  end.

Lemma logRows_post : forall rows w,
  post (logRows rows) w
    (fun o evs last' =>
       o = Returns tt /\ requests evs = [] /\ writes evs = [] /\ reads evs = []).
Proof.
  induction rows as [|r rows IH]; intros w; cbn [logRows].
  - apply post_ret. repeat split.
  - apply post_bind. apply post_call. eapply post_conseq; [apply IH|].
    intros o evs l (-> & H1 & H2 & H3). cbn. repeat split; assumption.
Qed.

Lemma printReport_post t w :
  post (printReport t) w
    (fun o evs last' =>
       o = Returns tt
       /\ requests evs = [] /\ writes evs = [] /\ reads evs = []
       /\ In (ConsoleLog (newline ++ lit "  Acts processed: " ++ show_nat (processed t)))
            evs
       /\ In (ConsoleLog (lit "  Acts cached:    " ++ show_nat (skipped t))) evs
       /\ In (ConsoleLog (lit "  Acts failed:    " ++ show_nat (failed t))) evs).
Proof.
  unfold printReport.
  do 5 (apply post_bind; apply post_call).
  apply post_bind. eapply post_conseq; [apply logRows_post|].
  intros o evs l (-> & H1 & H2 & H3).
  do 6 (apply post_bind; apply post_call). apply post_call.
  rewrite !requests_app, !writes_app, !reads_app, H1, H2, H3.
  split; [reflexivity|]. split; [reflexivity|]. split; [reflexivity|].
  split; [reflexivity|].
  repeat split; find_in.
Qed.

End IngestFacts.

(** ** The arguments and the selection of the acts *)

Lemma firstn_incl {A} n (l : list A) x : In x (firstn n l) -> In x l.
Proof.
  intros H. rewrite <- (firstn_skipn n l). apply in_or_app. left. exact H.
Qed.

Lemma slice0_positive {A} (l : list A) z :
  (0 < z)%Z -> slice0 l z = firstn (Z.to_nat z) l.
Proof.
  intros Hz. unfold slice0. cbv zeta.
  destruct (Z.ltb_spec z 0) as [Hneg|_]; [lia|].
  destruct (Z.le_ge_cases z (Z.of_nat (length l))) as [Hle|Hge].
  - rewrite Z.min_l by exact Hle. reflexivity.
  - rewrite Z.min_r by lia.
    replace (Z.to_nat (Z.of_nat (length l))) with (length l) by lia.
    rewrite !firstn_all2 by lia. reflexivity.
Qed.

Lemma slice0_negative {A} (l : list A) z :
  (z < 0)%Z -> slice0 l z = firstn (length l - Z.to_nat (- z)) l.
Proof.
  intros Hz. unfold slice0. cbv zeta.
  destruct (Z.ltb_spec z 0) as [_|Hpos]; [|lia].
  f_equal. lia.
Qed.

Lemma selectActs_incl limit acts act : In act (selectActs limit acts) -> In act acts.
Proof.
  unfold selectActs. destruct limit as [[|z]|]; try (intros H; exact H).
  destruct (number_truthy (Int z)); [|intros H; exact H].
  unfold slice0. apply firstn_incl.
Qed.

Lemma selectActs_length limit acts : length (selectActs limit acts) <= length acts.
Proof.
  unfold selectActs. destruct limit as [[|z]|]; try lia.
  destruct (number_truthy (Int z)); [|lia].
  unfold slice0. rewrite length_firstn. lia.
Qed.

Lemma parseArgsFrom_no_limit : forall args limit skipFetch,
  ~ In (lit "--limit") args ->
  parseArgsFrom args limit skipFetch
  = (limit, skipFetch || existsb (str_eqb (lit "--skip-fetch")) args).
Proof.
  induction args as [|arg rest IH]; intros limit skipFetch Hno.
  - cbn. rewrite orb_false_r. reflexivity.
  - assert (Harg : str_eqb arg (lit "--limit") = false).
    { destruct (str_eqb arg (lit "--limit")) eqn:E; [|reflexivity].
      apply str_eqb_eq in E. exfalso. apply Hno. left. exact E. }
    assert (Hrest : ~ In (lit "--limit") rest) by (intros H; apply Hno; right; exact H).
    assert (Hsym : str_eqb (lit "--skip-fetch") arg = str_eqb arg (lit "--skip-fetch")).
    { destruct (str_eqb arg (lit "--skip-fetch")) eqn:E.
      - apply str_eqb_eq in E. subst arg. reflexivity.
      - destruct (str_eqb (lit "--skip-fetch") arg) eqn:E'; [|reflexivity].
        apply str_eqb_eq in E'. subst arg. discriminate E. }
    cbn [parseArgsFrom existsb]. rewrite Harg, Hsym. cbn [andb].
    destruct rest as [|next rest'];
      destruct (str_eqb arg (lit "--skip-fetch")); rewrite IH by exact Hrest;
      rewrite ?orb_true_r, ?orb_false_r, ?orb_true_l, ?orb_false_l; reflexivity.
Qed.

(** ** The script *)

Section ScriptFacts.
Context {engine : Engine} {host : Host}.

Lemma emptyTally_Consistent : Consistent emptyTally.
Proof. repeat split. Qed.

(** What a run of [fetchAndParseActs] does. *)
Lemma fetchAndParseActs_post acts skipFetch w :
  post (fetchAndParseActs acts skipFetch) w
    (fun o evs last' =>
       o <> OutOfFuel
       /\ Forall (fun write => exists act, In act acts /\ CleanWrite skipFetch act write)
            (writes evs)
       /\ Forall (fun url => exists act,
                    In act acts
                    /\ url = fullTextUrl (ActIndexEntry.actPath act) (lit "eng"))
            (requests evs)
       /\ length (requests evs) <= 4 * length acts
       /\ (skipFetch = false -> reads evs = [])
       /\ (o = Returns tt ->
           exists t,
             Consistent t /\ processed t = length acts
             /\ length (report t) = length acts
             /\ In (ConsoleLog (newline ++ lit "  Acts processed: "
                                ++ show_nat (length acts))) evs
             /\ In (ConsoleLog (lit "  Acts cached:    " ++ show_nat (skipped t))) evs
             /\ In (ConsoleLog (lit "  Acts failed:    " ++ show_nat (failed t))) evs)).
Proof.
  unfold fetchAndParseActs.
  apply post_bind. apply post_call.
  apply post_bind. unfold mkdir at 1. apply post_throwing. apply post_call.
  destruct (mkdirSync _) as [e|].
  { cbn. split; [discriminate|]. split; [constructor|]. split; [constructor|].
    split; [lia|]. split; [reflexivity|]. discriminate. }
  apply post_bind. unfold mkdir. apply post_throwing. apply post_call.
  destruct (mkdirSync _) as [e|].
  { cbn. split; [discriminate|]. split; [constructor|]. split; [constructor|].
    split; [lia|]. split; [reflexivity|]. discriminate. }
  apply post_bind. eapply post_conseq; [apply actsLoop_post|].
  intros o evs l (L1 & L2 & L3 & L4 & L5 & L6).
  destruct o as [t|e|]; [| |congruence].
  - eapply post_conseq; [apply printReport_post|].
    intros o evs2 l2 (-> & P1 & P2 & P3 & P4 & P5 & P6).
    rewrite !requests_app, !writes_app, !reads_app, P1, P2, P3. cbn.
    rewrite ?app_nil_r.
    split; [discriminate|]. split; [exact L2|]. split; [exact L3|].
    split; [exact L4|]. split; [intros Hs; apply (L5 Hs)|].
    intros _. exists t.
    destruct (L6 t eq_refl) as (C1 & C2 & C3). cbn in C1, C2.
    split; [apply C3; apply emptyTally_Consistent|]. split; [exact C1|].
    split; [exact C2|]. rewrite <- C1.
    repeat split; right; right; right; apply in_or_app; right; assumption.
  - rewrite !requests_app, !writes_app, !reads_app. cbn.
    split; [discriminate|]. split; [exact L2|]. split; [exact L3|].
    split; [exact L4|]. split; [intros Hs; apply (L5 Hs)|]. discriminate.
Qed.

(** The log lines at the start of [main]. *)
Lemma main_post argv w
  (Q : Outcome unit -> list Event -> Z -> Prop) :
  (forall w1 lines,
     post (fetchAndParseActs
             (selectActs (fst (parseArgs argv)) KEY_CANADIAN_ACTS)
             (snd (parseArgs argv))) w1
       (fun o evs last' => Q o (map ConsoleLog lines ++ evs) last')) ->
  post (main argv) w Q.
Proof.
  intros H. unfold main. destruct (parseArgs argv) as [limit skipFetch].
  cbn [fst snd] in H.
  do 5 (apply post_bind; apply post_call).
  apply post_bind.
  assert (Hlogs : forall (c : IO unit) w0
                    (Q0 : Outcome unit -> list Event -> Z -> Prop),
            (c = ioret tt \/ exists line, c = log line) ->
            (forall lines, Q0 (Returns tt) (map ConsoleLog lines) (lastRequestTime w0)) ->
            post c w0 Q0).
  { intros c w0 Q0 [-> | (line & ->)] HQ.
    - apply post_ret. apply (HQ []).
    - apply post_call. apply (HQ [line]). }
  apply Hlogs.
  { destruct limit as [[|z]|]; try (left; reflexivity).
    destruct (number_truthy (Int z)); [right; eexists; reflexivity | left; reflexivity]. }
  intros lines1. apply post_bind. apply Hlogs.
  { destruct skipFetch; [right; eexists; reflexivity | left; reflexivity]. }
  intros lines2. cbv zeta.
  eapply post_conseq;
    [apply (H _ ([ lit "Canadian Law MCP -- Ingestion Pipeline";
                   lit "======================================" ++ newline;
                   lit "  Source:  Justice Laws Website (laws-lois.justice.gc.ca)";
                   lit "  Method:  FullText.html (structured HTML)";
                   lit "  License: Open Government Licence - Canada" ]
                 ++ lines1 ++ lines2))|].
  intros o evs l HQ. cbn beta in HQ.
  rewrite !map_app in HQ. cbn [map app] in HQ. cbn [app].
  rewrite <- app_assoc in HQ. exact HQ.
Qed.

End ScriptFacts.

(** ** The catalog *)

Lemma catalog_urls :
  Forall (fun act =>
            fullTextUrl (ActIndexEntry.actPath act) (lit "eng")
            = ActIndexEntry.url act ++ lit "FullText.html")
    KEY_CANADIAN_ACTS.
Proof. repeat constructor. Qed.

(** ** Properties of the ingestion script *)

(** X19.  Without [--skip-fetch] no error leaves the loop over the acts:
    whatever the host does (requests that fail, bodies that cannot be read,
    files that cannot be written), every iteration ends, the loop returns,
    and it has processed every act; it reads no file. *)
Theorem loop_contains_errors {engine : Engine} {host : Host} acts t w :
  post (actsLoop false acts t) w
    (fun o evs last' =>
       reads evs = []
       /\ exists t',
            o = Returns t'
            /\ processed t' = processed t + length acts
            /\ length (report t') = length (report t) + length acts).
Proof.
  eapply post_conseq; [apply actsLoop_post|].
  intros o evs l (_ & _ & _ & _ & H5 & H6).
  destruct (H5 eq_refl) as [Hr (t' & ->)]. split; [exact Hr|].
  exists t'. split; [reflexivity|].
  destruct (H6 t' eq_refl) as (P1 & P2 & _). split; assumption.
Qed.

(** X20.  Whatever [fetchAndParseActs] writes is, for one of the acts,
    either the page it fetched, which has no failure marker, written to the
    source file of the act, or the document that [parseFullTextHtml] returns
    for a page, written to the seed file of the act; without [--skip-fetch]
    that page has no failure marker, so no error page is stored or parsed. *)
Theorem only_clean_writes {engine : Engine} {host : Host} acts skipFetch w :
  post (fetchAndParseActs acts skipFetch) w
    (fun o evs last' =>
       Forall (fun write => exists act, In act acts /\ CleanWrite skipFetch act write)
         (writes evs)).
Proof.
  eapply post_conseq; [apply fetchAndParseActs_post|].
  intros o evs l (_ & H & _). exact H.
Qed.

(** X21.  With [--skip-fetch], when the host finds the seed file of every
    act, [fetchAndParseActs] makes no request and writes no file. *)
Theorem cached_seeds_not_refetched {engine : Engine} {host : Host} acts w :
  SeedsCached acts ->
  post (fetchAndParseActs acts true) w
    (fun o evs last' => requests evs = [] /\ writes evs = []).
Proof.
  intros Hseeds. unfold fetchAndParseActs.
  apply post_bind. apply post_call.
  apply post_bind. unfold mkdir at 1. apply post_throwing. apply post_call.
  destruct (mkdirSync _) as [e|]; [split; reflexivity|].
  apply post_bind. unfold mkdir. apply post_throwing. apply post_call.
  destruct (mkdirSync _) as [e|]; [split; reflexivity|].
  apply post_bind. eapply post_conseq; [apply (actsLoop_cached acts _ _ Hseeds)|].
  intros o evs l [R W].
  destruct o as [t|e|]; rewrite ?requests_app, ?writes_app, ?R, ?W;
    try (split; reflexivity).
  eapply post_conseq; [apply printReport_post|].
  intros o evs2 l2 (_ & P1 & P2 & _).
  rewrite !requests_app, !writes_app, R, W, P1, P2. split; reflexivity.
Qed.

Lemma cached_seeds_not_refetched_witness :
  post (fetchAndParseActs (engine := AsciiEngine) (host := SampleHost 200 true)
          KEY_CANADIAN_ACTS true)
    initialWorld
    (fun o evs last' => requests evs = [] /\ writes evs = []).
Proof.
  apply (cached_seeds_not_refetched (engine := AsciiEngine)
           (host := SampleHost 200 true)).
  intros h act Hact. reflexivity.
Defined.

(** X22.  The counters of the loop agree with its report: started from
    the empty tally, as [fetchAndParseActs] starts it, a loop that returns
    has pushed one row per act and counted every act as processed, one
    [cached] row per act counted as cached, and as many failures as rows
    that are neither [cached] nor [OK]; and when [fetchAndParseActs]
    returns, the number of acts processed that it has printed is the number
    of acts it was given. *)
Theorem counters_agree_with_report {engine : Engine} {host : Host} acts skipFetch w :
  post (actsLoop skipFetch acts emptyTally) w
    (fun o evs last' =>
       forall t,
         o = Returns t ->
         Consistent t /\ processed t = length acts
         /\ length (report t) = length acts)
  /\ post (fetchAndParseActs acts skipFetch) w
       (fun o evs last' =>
          o = Returns tt ->
          In (ConsoleLog (newline ++ lit "  Acts processed: "
                          ++ show_nat (length acts))) evs).
Proof.
  split.
  - eapply post_conseq; [apply actsLoop_post|].
    intros o evs l (_ & _ & _ & _ & _ & H) t Ht.
    destruct (H t Ht) as (P1 & P2 & P3).
    split; [apply P3; apply emptyTally_Consistent|]. split; assumption.
  - eapply post_conseq; [apply fetchAndParseActs_post|].
    intros o evs l (_ & _ & _ & _ & _ & H) Ho.
    destruct (H Ho) as (t & _ & _ & _ & Hin & _). exact Hin.
Qed.

(** X23.  Every request of [main] is for the full text of an act of the
    catalog, at the URL of the act followed by [FullText.html]; at most four
    requests are made for each selected act, 36 in all. *)
Theorem main_requests_catalog_pages {engine : Engine} {host : Host} argv w :
  post (main argv) w
    (fun o evs last' =>
       Forall (fun url => exists act,
                 In act KEY_CANADIAN_ACTS
                 /\ url = ActIndexEntry.url act ++ lit "FullText.html")
         (requests evs)
       /\ length (requests evs) <= 36).
Proof.
  apply main_post. intros w1 lines.
  eapply post_conseq; [apply fetchAndParseActs_post|].
  intros o evs l (_ & _ & H3 & H4 & _).
  destruct (map_ConsoleLog_quiet lines) as (Q1 & _).
  rewrite requests_app, Q1. cbn [app]. split.
  - eapply Forall_impl; [|exact H3]. intros url (act & Hact & ->).
    apply selectActs_incl in Hact. exists act. split; [exact Hact|].
    pose proof catalog_urls as Hc. rewrite Forall_forall in Hc.
    apply (Hc act Hact).
  - pose proof (selectActs_length (fst (parseArgs argv)) KEY_CANADIAN_ACTS) as Hl.
    change (length KEY_CANADIAN_ACTS) with 9 in Hl. lia.
Qed.

(** ** Properties of the arguments *)

(** X24.  The acts [main] selects: all of them when the limit is absent,
    unreadable ([NaN]) or zero; the first [n] for a positive limit [n]; and
    for a negative limit [-k], all but the last [k]. *)
Theorem limit_selects_acts limit (acts : list ActIndexEntry.t) :
  selectActs limit acts =
  match limit with
  | Some (Int z) =>
      if (0 <? z)%Z then firstn (Z.to_nat z) acts
      else if (z <? 0)%Z then firstn (length acts - Z.to_nat (- z)) acts
      else acts
  | Some NaN => acts
  | None => acts
  end.
Proof.
  unfold selectActs. destruct limit as [[|z]|]; try reflexivity.
  unfold number_truthy.
  destruct (Z.eqb_spec z 0) as [->|Hz]; [reflexivity|]. cbn [negb].
  destruct (Z.ltb_spec 0 z) as [Hpos|Hle].
  - apply slice0_positive. exact Hpos.
  - destruct (Z.ltb_spec z 0) as [Hneg|Hge]; [|lia].
    apply slice0_negative. exact Hneg.
Qed.

(** X25.  Without [--limit] among the arguments, [parseArgs] returns no
    limit, and [skipFetch] is set exactly when [--skip-fetch] is among
    them. *)
Theorem arguments_without_limit argv :
  ~ In (lit "--limit") (skipn 2 argv) ->
  parseArgs argv
  = (None, existsb (str_eqb (lit "--skip-fetch")) (skipn 2 argv)).
Proof.
  intros H. unfold parseArgs. cbv zeta.
  rewrite (parseArgsFrom_no_limit _ None false H). reflexivity.
Qed.

Lemma arguments_without_limit_witness :
  parseArgs [lit "node"; lit "ingest.ts"; lit "--skip-fetch"] = (None, true).
Proof.
  apply (arguments_without_limit [lit "node"; lit "ingest.ts"; lit "--skip-fetch"]).
  intros H. vm_compute in H. intuition discriminate.
Defined.

(** ** The citation formatter *)

(** A group without groups inside records its word on top of the
    captures it found. *)
Lemma rmatch_cap_capfree icase dotall i r st k res :
  capfree r = true ->
  rmatch icase dotall (RCap i r) st k = Some res ->
  exists st' w,
    k (mkState (mpos st') (mrest st') ((i, w) :: mcaps st)) = Some res
    /\ consumed st w st' /\ lang icase dotall r w.
Proof.
  intros Hfree. cbn [rmatch]. intros H.
  apply (rmatch_capfree _ _ _ _ _ _ Hfree) in H.
  destruct H as (st' & w & H & [Hr Hp] & L & K).
  exists st', w. split; [|split; [split; assumption | exact L]].
  replace (mpos st' - mpos st) with (length w) in H by lia.
  rewrite Hr, firstn_app, Nat.sub_diag, firstn_all in H. simpl in H.
  rewrite app_nil_r, K in H. exact H.
Qed.

(** A match of [before (group 1) mid (group 2) after]. *)
Lemma match_at_two_groups icase dotall before body1 mid body2 after pos b st :
  capfree mid = true ->
  capfree body2 = true ->
  capfree after = true ->
  match_at icase dotall
    (RSeq before (RSeq (RCap 1 body1) (RSeq mid (RSeq (RCap 2 body2) after))))
    pos b = Some st ->
  exists w0 w1 wm w2 wa,
    b = w0 ++ w1 ++ wm ++ w2 ++ wa ++ mrest st
    /\ lang icase dotall before w0 /\ lang icase dotall body1 w1
    /\ lang icase dotall mid wm /\ lang icase dotall body2 w2
    /\ lang icase dotall after wa
    /\ group_lookup 1 (mcaps st) = Some w1
    /\ group_lookup 2 (mcaps st) = Some w2.
Proof.
  unfold match_at. intros Fmid Fbody Fafter H.
  rewrite rmatch_seq in H. apply rmatch_sound in H.
  destruct H as (st0 & w0 & H & [R0 P0] & L0).
  rewrite rmatch_seq in H. apply rmatch_cap_sound in H.
  destruct H as (st1 & w1 & H & [R1 P1] & L1).
  rewrite rmatch_seq in H. apply (rmatch_capfree _ _ _ _ _ _ Fmid) in H.
  destruct H as (st2 & wm & H & [R2 P2] & Lm & K2).
  rewrite rmatch_seq in H. apply (rmatch_cap_capfree _ _ _ _ _ _ _ Fbody) in H.
  destruct H as (st3 & w2 & H & [R3 P3] & L2).
  apply (rmatch_capfree _ _ _ _ _ _ Fafter) in H.
  destruct H as (st4 & wa & H & [R4 P4] & La & K4). injection H as ->.
  cbn [mrest mpos mcaps] in *.
  exists w0, w1, wm, w2, wa.
  split; [rewrite R0, R1, R2, R3, R4; reflexivity|].
  repeat (split; [assumption|]).
  rewrite K4. cbn [group_lookup Nat.eqb].
  rewrite K2. cbn [mcaps group_lookup Nat.eqb]. split; reflexivity.
Qed.

Lemma chr_match_symbol a c :
  ((65 <=? a) && (a <=? 90))%N || ((97 <=? a) && (a <=? 122))%N = false ->
  chr_match true a c = true -> c = a.
Proof.
  unfold chr_match, canon. intros Ha H. apply char_eqb_eq in H.
  apply orb_false_iff in Ha. destruct Ha as [Hup Hlow]. rewrite Hlow in H.
  destruct ((97 <=? c) && (c <=? 122))%N eqn:Ec; [|symmetry; exact H].
  exfalso. apply andb_true_iff in Ec. destruct Ec as [E1 E2].
  apply N.leb_le in E1, E2.
  assert (Hin : ((65 <=? a) && (a <=? 90))%N = true).
  { apply andb_true_iff. split; apply N.leb_le; lia. }
  congruence.
Qed.

Lemma symbols_exact p : forall w,
  Forall (fun a => ((65 <=? a) && (a <=? 90))%N || ((97 <=? a) && (a <=? 122))%N = false) p ->
  Forall2 (fun a c => chr_match true a c = true) p w -> w = p.
Proof.
  induction p as [|a p IH]; intros w Hp H; inversion H; subst; [reflexivity|].
  inversion Hp; subst. f_equal; [|apply IH; assumption].
  apply chr_match_symbol; assumption.
Qed.

Lemma citation_number_lang w :
  lang true false Cite.number w -> citationNumber w.
Proof.
  unfold Cite.number. cbn [lang].
  intros (a & r1 & -> & [Ha Fa] & b & c & -> & Hb & Hc).
  exists a, b, c. split; [reflexivity|]. split; [exact Ha|]. split; [exact Fa|].
  split.
  - destruct Hb as [-> | (u & f & -> & Hu & Hf & Ff)]; [left; reflexivity|].
    apply symbols_exact in Hu; [|repeat constructor]. subst u.
    right. exists f. split; [reflexivity|]. split; assumption.
  - destruct Hc as [-> | (u & r2 & -> & Hu & g & v & -> & [Hg Fg] & Hv)];
      [left; reflexivity|].
    apply symbols_exact in Hu; [|repeat constructor]. subst u.
    apply symbols_exact in Hv; [|repeat constructor]. subst v.
    right. exists g. split; [reflexivity|]. split; assumption.
Qed.

Lemma citationNumber_digit n : citationNumber n -> existsb is_digit n = true.
Proof.
  intros (a & b & c & -> & Ha & Fa & _). destruct a as [|x a]; [congruence|].
  inversion Fa; subst. cbn [app existsb].
  match goal with H : is_digit x = true |- _ => rewrite H end. reflexivity.
Qed.

Lemma citationNumber_truthy n : citationNumber n -> truthy n = true.
Proof.
  intros (a & b & c & -> & Ha & _). destruct a; [congruence | reflexivity].
Qed.

(** A citation that starts with the section. *)
Lemma sectionFirst_match s m :
  match_first Cite.sectionFirst s = Some m ->
  exists before between,
    s = before ++ group 1 m ++ between ++ group 2 m
    /\ citationNumber (group 1 m)
    /\ group 2 m <> [].
Proof.
  unfold match_first. intros E. apply exec_sound in E.
  destruct E as (pre & b & st & -> & Hpre & Hst & _ & Hg).
  unfold Cite.sectionFirst in Hst. cbn [source ignoreCase dotAll] in Hst.
  pose proof (match_at_begin _ _ _ _ _ _ Hst) as Hzero.
  rewrite Hzero in Hpre. apply length_zero_iff_nil in Hpre. subst pre.
  assert (Hend : mrest st = []).
  { apply (match_at_end true false
             (RSeq RBegin (RSeq Cite.keyword (RSeq (RStar CSpace)
                (RSeq (RCap 1 Cite.number) (RSeq (RPlus CSpace)
                   (RCap 2 (RPlus CDot)))))))
             (index m) b st).
    exact Hst. }
  assert (H2 : match_at true false
                 (RSeq (RSeq RBegin (RSeq Cite.keyword (RStar CSpace)))
                    (RSeq (RCap 1 Cite.number)
                       (RSeq (RPlus CSpace) (RSeq (RCap 2 (RPlus CDot)) REnd))))
                 (index m) b = Some st) by exact Hst.
  apply match_at_two_groups in H2; try reflexivity.
  destruct H2 as (w0 & w1 & wm & w2 & wa & -> & _ & L1 & _ & [Hne _] & La & G1 & G2).
  cbn [lang] in La. subst wa. rewrite Hend.
  exists w0, wm. unfold group. rewrite Hg, G1, G2. cbn [app].
  rewrite !app_nil_r.
  split; [reflexivity|]. split; [apply citation_number_lang; exact L1 | exact Hne].
Qed.

(** A citation that ends with the section. *)
Lemma sectionLast_match s m :
  match_first Cite.sectionLast s = Some m ->
  exists between,
    s = group 1 m ++ between ++ group 2 m
    /\ citationNumber (group 2 m)
    /\ group 1 m <> [].
Proof.
  unfold match_first. intros E. apply exec_sound in E.
  destruct E as (pre & b & st & -> & Hpre & Hst & _ & Hg).
  unfold Cite.sectionLast in Hst. cbn [source ignoreCase dotAll] in Hst.
  pose proof (match_at_begin _ _ _ _ _ _ Hst) as Hzero.
  rewrite Hzero in Hpre. apply length_zero_iff_nil in Hpre. subst pre.
  assert (Hend : mrest st = []).
  { apply (match_at_end true false
             (RSeq RBegin (RSeq (RCap 1 (RSeq (RSet CDot) (RLazy CDot)))
                (RSeq (ROpt (RSet (CUnion (CChar (ch ",")) (CChar (ch ";")))))
                   (RSeq (RStar CSpace) (RSeq Cite.keyword (RSeq (RStar CSpace)
                      (RCap 2 Cite.number)))))))
             (index m) b st).
    exact Hst. }
  assert (H2 : match_at true false
                 (RSeq RBegin
                    (RSeq (RCap 1 (RSeq (RSet CDot) (RLazy CDot)))
                       (RSeq (RSeq (ROpt (RSet (CUnion (CChar (ch ",")) (CChar (ch ";")))))
                                (RSeq (RStar CSpace)
                                   (RSeq Cite.keyword (RStar CSpace))))
                          (RSeq (RCap 2 Cite.number) REnd))))
                 (index m) b = Some st) by exact Hst.
  apply match_at_two_groups in H2; try reflexivity.
  destruct H2 as (w0 & w1 & wm & w2 & wa & -> & L0 & L1 & _ & L2 & La & G1 & G2).
  cbn [lang] in La, L0. subst wa w0. rewrite Hend.
  exists wm. unfold group. rewrite Hg, G1, G2. cbn [app]. rewrite !app_nil_r.
  split; [reflexivity|]. split; [apply citation_number_lang; exact L2|].
  cbn [lang] in L1. destruct L1 as (x & y & -> & (c & -> & _) & _). discriminate.
Qed.

(** ** Properties of the citation formatter *)

(** X27.  A citation without a digit holds no section: whatever the format,
    [formatCitationTool] returns the citation trimmed, with the original
    citation and the format it was asked for ([full] by default). *)
Theorem citation_without_digit_unchanged input :
  existsb is_digit (trim (FormatCitationInput.citation input)) = false ->
  formatCitationTool input =
  FormatCitationResult.mk
    (FormatCitationInput.citation input)
    (trim (FormatCitationInput.citation input))
    (match FormatCitationInput.format input with
     | Some f => f
     | None => lit "full"
     end).
Proof.
  intros Hno. unfold formatCitationTool. cbv zeta.
  set (trimmed := trim (FormatCitationInput.citation input)) in *.
  assert (Hfirst : match_first Cite.sectionFirst trimmed = None).
  { destruct (match_first Cite.sectionFirst trimmed) as [m|] eqn:E; [|reflexivity].
    apply sectionFirst_match in E. destruct E as (before & between & Hs & Hn & _).
    apply citationNumber_digit in Hn. exfalso.
    rewrite Hs, !existsb_app, Hn in Hno.
    rewrite orb_true_l, orb_true_r in Hno. discriminate. }
  assert (Hlast : match_first Cite.sectionLast trimmed = None).
  { destruct (match_first Cite.sectionLast trimmed) as [m|] eqn:E; [|reflexivity].
    apply sectionLast_match in E. destruct E as (between & Hs & Hn & _).
    apply citationNumber_digit in Hn. exfalso.
    rewrite Hs, !existsb_app, Hn in Hno.
    rewrite !orb_true_r in Hno. discriminate. }
  rewrite Hfirst, Hlast. cbn [groupOr].
  destruct (str_eqb _ (lit "short")); [reflexivity|].
  destruct (str_eqb _ (lit "pinpoint")); reflexivity.
Qed.

Lemma citation_without_digit_unchanged_witness :
  formatCitationTool
    (FormatCitationInput.mk (lit "  Privacy Act  ") (Some (lit "pinpoint")))
  = FormatCitationResult.mk (lit "  Privacy Act  ") (trim (lit "  Privacy Act  "))
      (lit "pinpoint").
Proof.
  apply (citation_without_digit_unchanged
           (FormatCitationInput.mk (lit "  Privacy Act  ") (Some (lit "pinpoint")))).
  reflexivity.
Defined.

(** X28.  What [formatCitationTool] returns as formatted citation is the
    trimmed citation, or it is built from a section number and a law that
    both stand in the trimmed citation, the number before the law or after
    it: the number is made of digits, possibly a point and digits, possibly
    digits in parentheses, and the text is [s. N] for [pinpoint], [s. N] and
    the law up to its first parenthesis for [short], and [Section N] and the
    law otherwise. *)
Theorem formatted_citation_shape input :
  let result := formatCitationTool input in
  let trimmed := trim (FormatCitationInput.citation input) in
  FormatCitationResult.formatted result = trimmed
  \/ exists section law before between,
       (trimmed = before ++ section ++ between ++ law
        \/ trimmed = law ++ between ++ section)
       /\ citationNumber section
       /\ law <> []
       /\ FormatCitationResult.formatted result
          = citationText (FormatCitationResult.format result) section law.
Proof.
  cbv zeta. unfold formatCitationTool. cbv zeta.
  set (trimmed := trim (FormatCitationInput.citation input)).
  set (format := match FormatCitationInput.format input with
                 | Some f => f
                 | None => lit "full"
                 end).
  cbn [FormatCitationResult.formatted FormatCitationResult.format].
  destruct (match_first Cite.sectionFirst trimmed) as [m1|] eqn:E1.
  - right. apply sectionFirst_match in E1.
    destruct E1 as (before & between & Hs & Hn & Hlaw).
    exists (group 1 m1), (group 2 m1), before, between.
    split; [left; exact Hs|]. split; [exact Hn|]. split; [exact Hlaw|].
    cbn [groupOr]. rewrite (citationNumber_truthy _ Hn). unfold citationText.
    destruct (str_eqb format (lit "short")); [reflexivity|].
    destruct (str_eqb format (lit "pinpoint")); reflexivity.
  - destruct (match_first Cite.sectionLast trimmed) as [m2|] eqn:E2.
    + right. apply sectionLast_match in E2.
      destruct E2 as (between & Hs & Hn & Hlaw).
      exists (group 2 m2), (group 1 m2), [], between.
      split; [right; exact Hs|]. split; [exact Hn|]. split; [exact Hlaw|].
      cbn [groupOr]. rewrite (citationNumber_truthy _ Hn). unfold citationText.
      destruct (str_eqb format (lit "short")); [reflexivity|].
      destruct (str_eqb format (lit "pinpoint")); reflexivity.
    + left. cbn [groupOr].
      destruct (str_eqb format (lit "short")); [reflexivity|].
      destruct (str_eqb format (lit "pinpoint")); reflexivity.
Qed.

(** ** The definitions, block by block *)

Lemma definitionOf_block sectionNum m :
  definitionOf sectionNum m =
  if definesTerm m
  then match blockTerm m with
       | Some t => [ParsedDefinition.mk (stripHtml t) (stripHtml (group 1 m))
                      (Some (lit "s" ++ sectionNum))]
       | None => []
       end
  else [].
Proof.
  unfold definitionOf, definitionIteration, definesTerm, blockTerm. cbv zeta.
  destruct (match_first Rx.dfn (group 1 m)) as [termMatch|]; [|reflexivity].
  destruct (truthy _ && truthy _); reflexivity.
Qed.

Lemma definitions_of_blocks sectionNum ms :
  Forall2 DefinitionOfBlock (filter definesTerm ms)
    (flat_map (definitionOf sectionNum) ms).
Proof.
  induction ms as [|m ms IH]; [constructor|].
  cbn [filter flat_map]. rewrite definitionOf_block.
  destruct (definesTerm m) eqn:E; [|exact IH].
  unfold definesTerm in E. destruct (blockTerm m) as [t|] eqn:B; [|discriminate].
  cbn [app]. constructor; [|exact IH].
  exists t. split; [exact B|]. split; reflexivity.
Qed.

Lemma Forall2_count {A B} (R : A -> B -> Prop) (f : A -> bool) (g : B -> bool) l1 l2 :
  (forall a b, R a b -> f a = g b) ->
  Forall2 R l1 l2 ->
  length (filter f l1) = length (filter g l2).
Proof.
  intros H F. induction F as [|a b l1 l2 Hab F IH]; [reflexivity|].
  cbn [filter]. rewrite (H a b Hab). destruct (g b); cbn [length]; congruence.
Qed.

Lemma filter_filter_and {A} (f g : A -> bool) l :
  filter g (filter f l) = filter (fun x => f x && g x) l.
Proof.
  induction l as [|x l IH]; [reflexivity|].
  cbn [filter]. destruct (f x); cbn [filter andb]; [|exact IH].
  destruct (g x); congruence.
Qed.

Lemma dfn_at pos c inner post :
  includes (c :: inner) (lit "<") = false ->
  match_at false false (source Rx.dfn) pos
    (lit "<dfn>" ++ (c :: inner) ++ lit "</dfn>" ++ post)
  = Some (mkState (pos + 5 + S (length inner) + 6) post [(1, c :: inner)]).
Proof.
  intros Hlt. apply includes_char in Hlt.
  unfold match_at, Rx.dfn. cbn [source rmatch mpos mrest mcaps].
  rewrite lit_match_app. cbn [app mrest mpos mcaps].
  assert (Hc : forall x, In x (c :: inner) -> cls_match false not_lt x = true).
  { intros x Hx. unfold not_lt, ch. cbn [cls_match].
    destruct (char_eqb _ x) eqn:E; [|reflexivity].
    apply char_eqb_eq in E. subst x. contradiction. }
  rewrite (Hc c (or_introl eq_refl)).
  apply star_greedy_max.
  - apply Forall_forall. intros x Hx. apply Hc. right. exact Hx.
  - right. eexists. eexists. split; [reflexivity | reflexivity].
  - cbn [mpos mrest mcaps].
    rewrite lit_match_app. change (length (lit "<dfn>")) with 5.
    change (length (lit "</dfn>")) with 6.
    replace (S (pos + 5) + length inner - (pos + 5)) with (length (c :: inner))
      by (cbn [length]; lia).
    change (c :: inner ++ lit "</dfn>" ++ post)
      with ((c :: inner) ++ (lit "</dfn>" ++ post)).
    rewrite firstn_app, Nat.sub_diag, firstn_all. cbn [firstn].
    rewrite app_nil_r. f_equal. f_equal. lia.
Qed.

(** The term of a block is the text of its first [<dfn>] element. *)
Lemma blockTerm_first m pre t post :
  group 1 m = pre ++ lit "<dfn>" ++ t ++ lit "</dfn>" ++ post ->
  includes pre (lit "<dfn>") = false ->
  t <> [] ->
  includes t (lit "<") = false ->
  blockTerm m = Some t.
Proof.
  intros Hg Hpre Hne Hlt. destruct t as [|c inner]; [congruence|].
  unfold blockTerm. rewrite Hg.
  pose proof (dfn_at (length pre) c inner post Hlt) as Hst.
  change (lit "<dfn>") with (@cons char 60%N (lit "dfn>")) in *.
  rewrite (match_first_at Rx.dfn 60%N (lit "dfn>") pre _ _
             eq_refl eq_refl (fun H => ltac:(vm_compute in H; intuition discriminate))
             Hpre Hst).
  unfold group. cbn [groups mcaps group_lookup Nat.eqb]. reflexivity.
Qed.

(** C6.  Every definition of the document carries the source provision
    [s2], whatever section contains it.  The definitions are those of the
    definition blocks of the page that define a term, one definition per
    such block and in the order of the blocks in the page: the term is the
    stripped text of the first [<dfn>] element of the block, the definition
    the stripped block.  A term that several blocks define is therefore
    kept once per block. *)
Theorem definitions_fixed_source {engine : Engine} html act out :
  Forall (fun d => ParsedDefinition.source_provision d = Some (lit "s2"))
    (ParsedAct.definitions (fst (parseFullTextHtml html act out)))
  /\ (if includes html (lit "Page not Found") || includes html (lit "Error 404")
      then ParsedAct.definitions (fst (parseFullTextHtml html act out)) = []
      else
        Forall2 DefinitionOfBlock
          (filter definesTerm (exec_all Rx.defRe html))
          (ParsedAct.definitions (fst (parseFullTextHtml html act out)))
        /\ forall term,
             length (filter (fun d => str_eqb (ParsedDefinition.term d) term)
                       (ParsedAct.definitions (fst (parseFullTextHtml html act out))))
             = length (filter (definesTheTerm term) (exec_all Rx.defRe html)))
  /\ ExecRun Rx.defRe html 0 (exec_all Rx.defRe html)
  /\ StronglySorted (fun a b => index a < index b) (exec_all Rx.defRe html)
  /\ (forall m pre t post,
        group 1 m = pre ++ lit "<dfn>" ++ t ++ lit "</dfn>" ++ post ->
        includes pre (lit "<dfn>") = false ->
        t <> [] ->
        includes t (lit "<") = false ->
        blockTerm m = Some t).
Proof.
  rewrite parse_definitions, extractDefinitions_eq. fold (hasMarker html).
  split; [|split; [|split; [|split]]].
  - destruct (hasMarker html); [constructor|].
    apply Forall_forall. intros d Hd. apply in_flat_map in Hd.
    destruct Hd as (m & _ & Hd). apply definitionOf_source in Hd. exact Hd.
  - destruct (hasMarker html); [reflexivity|].
    pose proof (definitions_of_blocks (lit "2") (exec_all Rx.defRe html)) as F.
    split; [exact F|]. intros term. symmetry.
    unfold definesTheTerm. rewrite <- filter_filter_and.
    apply (Forall2_count DefinitionOfBlock); [|exact F].
    intros m d (t & Hb & Ht & _). rewrite Hb, Ht. reflexivity.
  - apply exec_all_complete. exact defRe_consumes.
  - apply exec_all_increasing. exact defRe_consumes.
  - apply blockTerm_first.
Qed.

(** A term defined twice is kept twice, in document order; the block
    without a [dfn] element is skipped. *)
Example duplicate_terms_kept :
  map (fun d => (ParsedDefinition.term d, ParsedDefinition.definition d,
                 ParsedDefinition.source_provision d))
    (ParsedAct.definitions
       (fst (parseFullTextHtml (engine := AsciiEngine) Sample.twoDefs Sample.act [])))
  = [ (lit "record", lit "record means any document.", Some (lit "s2"));
      (lit "record", lit "record includes a copy.", Some (lit "s2")) ].
Proof. vm_compute. reflexivity. Qed.

(** ** The parser in a realm *)

Lemma computes_ret {A} (v : A) : computes (InRealm.ret v) v.
Proof.
  intros [objs out]. exists [], out. cbn [objects]. rewrite app_nil_r.
  split; [reflexivity | constructor].
Qed.

Lemma computes_bind {A B} (c : Run A) (f : A -> Run B) v w :
  computes c v -> computes (f v) w -> computes (InRealm.bind c f) w.
Proof.
  intros Hc Hf realm. unfold InRealm.bind.
  destruct (Hc realm) as (created & out & -> & Hz).
  destruct (Hf (mkRealm (objects realm ++ created) out)) as (created' & out' & -> & Hz').
  exists (created ++ created'), out'. cbn [objects]. rewrite app_assoc.
  split; [reflexivity | apply Forall_app; split; assumption].
Qed.

Lemma fold_left_push {A} (xs : list A) : forall acc,
  fold_left (fun ms m => push ms m) xs acc = acc ++ xs.
Proof.
  induction xs as [|x xs IH]; intros acc; cbn [fold_left].
  - symmetry. apply app_nil_r.
  - rewrite IH. unfold push. rewrite <- app_assoc. reflexivity.
Qed.

(** [exec] on the object that follows [before]. *)
Lemma exec_object before re li after out s :
  InRealm.exec (length before) s
    (mkRealm (before ++ RegExpObject.mk re li :: after) out)
  = if global re
    then (exec re s li,
          mkRealm
            (before
             ++ RegExpObject.mk re
                  (match exec re s li with Some m => mend m | None => 0 end)
                :: after) out)
    else (exec re s 0, mkRealm (before ++ RegExpObject.mk re li :: after) out).
Proof.
  unfold InRealm.exec, InRealm.objectAt, InRealm.setLastIndex.
  cbn [objects lines snd]. rewrite nth_middle.
  cbn [RegExpObject.pattern RegExpObject.lastIndex].
  destruct (global re); [|reflexivity].
  rewrite firstn_app, Nat.sub_diag, firstn_all. cbn [firstn]. rewrite app_nil_r.
  rewrite skipn_app, Nat.sub_diag, skipn_all. cbn [skipn app RegExpObject.pattern].
  reflexivity.
Qed.

(** A loop over the matches of an object with the [g] flag visits the
    matches of [exec_loop], whatever objects its body creates: the body
    runs between two calls of [exec] and leaves the object of the loop as
    it is.  When each match consumes a character the loop ends on a
    [null], which leaves [lastIndex] at 0. *)
Lemma while_exec_run {A} (body : A -> rmatch_result -> Run A)
  (g : A -> rmatch_result -> A) re s :
  global re = true ->
  0 < minlen (source re) ->
  (forall vars m, computes (body vars m) (g vars m)) ->
  forall fuel before li after out vars,
    li <= length s ->
    length s < fuel + li ->
    exists created out',
      InRealm.while_exec fuel (length before) s body vars
        (mkRealm (before ++ RegExpObject.mk re li :: after) out)
      = (fold_left g (exec_loop fuel re s li) vars,
         mkRealm (before ++ RegExpObject.mk re 0 :: after ++ created) out')
      /\ Forall (fun o => RegExpObject.lastIndex o = 0) created.
Proof.
  intros Hg Hmin Hbody.
  induction fuel as [|fuel IH]; intros before li after out vars Hli Hfuel; [lia|].
  cbn [InRealm.while_exec exec_loop]. unfold InRealm.bind at 1.
  rewrite exec_object, Hg.
  destruct (exec re s li) as [m|] eqn:E.
  - apply exec_bounds in E. unfold InRealm.bind.
    destruct (Hbody vars m (mkRealm (before ++ RegExpObject.mk re (mend m) :: after) out))
      as (created & out' & -> & Hz).
    cbn [objects]. rewrite <- app_assoc. cbn [app].
    destruct (IH before (mend m) (after ++ created) out' (g vars m))
      as (created' & out'' & -> & Hz'); [lia | lia |].
    cbn [fold_left]. exists (created ++ created'), out''.
    rewrite <- app_assoc.
    split; [reflexivity | apply Forall_app; split; assumption].
  - cbn [InRealm.ret fold_left]. exists [], out. rewrite app_nil_r.
    split; [reflexivity | constructor].
Qed.

(** A literal with the [g] flag and the loop over its matches. *)
Lemma computes_loop {A B} (body : A -> rmatch_result -> Run A)
  (g : A -> rmatch_result -> A) re s vars (k : A -> Run B) w :
  global re = true ->
  0 < minlen (source re) ->
  (forall vars m, computes (body vars m) (g vars m)) ->
  computes (k (fold_left g (exec_all re s) vars)) w ->
  computes
    (InRealm.bind (InRealm.literal re)
       (fun r =>
          InRealm.bind (InRealm.while_exec (S (length s)) r s body vars) k))
    w.
Proof.
  intros Hg Hmin Hbody Hk [objs out]. unfold InRealm.bind at 1, InRealm.literal.
  cbn [objects lines]. unfold InRealm.bind.
  destruct (while_exec_run body g re s Hg Hmin Hbody (S (length s)) objs 0 [] out vars)
    as (created & out' & -> & Hz); [lia | lia |].
  fold (exec_all re s).
  destruct (Hk (mkRealm (objs ++ RegExpObject.mk re 0 :: [] ++ created) out'))
    as (created' & out'' & -> & Hz').
  exists (RegExpObject.mk re 0 :: created ++ created'), out''.
  cbn [objects app]. rewrite <- app_assoc.
  split; [reflexivity|]. constructor; [reflexivity|].
  apply Forall_app; split; assumption.
Qed.

Lemma computes_loop_last {A} (body : A -> rmatch_result -> Run A)
  (g : A -> rmatch_result -> A) re s vars :
  global re = true ->
  0 < minlen (source re) ->
  (forall vars m, computes (body vars m) (g vars m)) ->
  computes
    (InRealm.bind (InRealm.literal re)
       (fun r => InRealm.while_exec (S (length s)) r s body vars))
    (fold_left g (exec_all re s) vars).
Proof.
  intros Hg Hmin Hbody [objs out]. unfold InRealm.bind, InRealm.literal.
  cbn [objects lines].
  destruct (while_exec_run body g re s Hg Hmin Hbody (S (length s)) objs 0 [] out vars)
    as (created & out' & -> & Hz); [lia | lia |].
  exists (RegExpObject.mk re 0 :: created), out'.
  split; [reflexivity|]. constructor; [reflexivity | exact Hz].
Qed.

Lemma computes_for_each {A B} (body : B -> A -> Run B) (g : B -> A -> B) :
  (forall vars x, computes (body vars x) (g vars x)) ->
  forall xs vars, computes (InRealm.for_each xs body vars) (fold_left g xs vars).
Proof.
  intros Hbody. induction xs as [|x xs IH]; intros vars; cbn [InRealm.for_each fold_left].
  - apply computes_ret.
  - eapply computes_bind; [apply Hbody | apply IH].
Qed.

(** [s.match(/re/)]: without the [g] flag [exec] leaves the object as the
    literal made it. *)
Lemma computes_match_first re s :
  global re = false ->
  computes (InRealm.match_first re s) (match_first re s).
Proof.
  intros Hg [objs out]. unfold InRealm.match_first, InRealm.bind, InRealm.literal.
  cbn [objects lines]. rewrite (exec_object objs re 0 [] out s), Hg.
  unfold match_first. eexists. eexists. split; [reflexivity|].
  constructor; [reflexivity | constructor].
Qed.

Lemma computes_replace re repl s :
  (global re = true -> 0 < minlen (source re)) ->
  computes (InRealm.replace re repl s) (replace re repl s).
Proof.
  intros Hmin. unfold InRealm.replace, replace. destruct (global re) eqn:Hg.
  - intros [objs out]. unfold InRealm.bind at 1, InRealm.literal. cbn [objects lines].
    unfold InRealm.bind at 1, InRealm.setLastIndex. cbn [objects lines].
    rewrite firstn_app, Nat.sub_diag, firstn_all. cbn [firstn]. rewrite app_nil_r.
    rewrite skipn_app, Nat.sub_diag, skipn_all. cbn [skipn app RegExpObject.pattern].
    unfold InRealm.bind.
    destruct (while_exec_run (fun ms m => InRealm.ret (push ms m))
                (fun ms m => push ms m) re s Hg (Hmin eq_refl)
                (fun vars m => computes_ret (push vars m))
                (S (length s)) objs 0 [] out [])
      as (created & out' & -> & Hz); [lia | lia |].
    rewrite fold_left_push. cbn [app InRealm.ret]. fold (exec_all re s).
    eexists. eexists. split; [reflexivity|]. constructor; [reflexivity | exact Hz].
  - intros [objs out]. unfold InRealm.bind at 1, InRealm.literal. cbn [objects lines].
    unfold InRealm.bind. rewrite (exec_object objs re 0 [] out s), Hg.
    cbn [InRealm.ret]. eexists. eexists. split; [reflexivity|].
    constructor; [reflexivity | constructor].
Qed.

Ltac consumes := first [reflexivity | intros _; vm_compute; lia | vm_compute; lia].

Ltac computes_step :=
  first
    [ apply computes_ret
    | eapply computes_bind; [apply computes_replace; consumes|]
    | eapply computes_bind; [apply computes_match_first; reflexivity|] ].

Lemma computes_stripHtml html : computes (InRealm.stripHtml html) (stripHtml html).
Proof. unfold InRealm.stripHtml, stripHtml. repeat computes_step. Qed.

Lemma computes_extractDescription html act :
  computes (InRealm.extractDescription html act) (extractDescription html act).
Proof.
  unfold InRealm.extractDescription, extractDescription.
  eapply computes_bind; [apply computes_match_first; reflexivity|].
  destruct (match_first Rx.titleTag html) as [titleMatch|]; [|apply computes_ret].
  eapply computes_bind; [apply computes_stripHtml | apply computes_ret].
Qed.

Lemma computes_extractCurrentToDate html :
  computes (InRealm.extractCurrentToDate html) (extractCurrentToDate html).
Proof.
  unfold InRealm.extractCurrentToDate, extractCurrentToDate.
  eapply computes_bind; [apply computes_match_first; reflexivity | apply computes_ret].
Qed.

Lemma computes_sectionText html num anchorPos nextAnchorPos :
  computes (InRealm.sectionText html num anchorPos nextAnchorPos)
    (sectionText html num anchorPos nextAnchorPos).
Proof.
  unfold InRealm.sectionText, sectionText. cbv zeta.
  do 5 computes_step.
  eapply computes_bind; [apply computes_stripHtml|].
  repeat computes_step.
Qed.

Lemma computes_sectionIteration html anchors parts notes st i :
  computes (InRealm.sectionIteration html anchors parts notes st i)
    (sectionIteration html anchors parts notes st i).
Proof.
  unfold InRealm.sectionIteration, sectionIteration. cbv zeta.
  eapply computes_bind; [apply computes_sectionText|].
  destruct (length _ <? 10); apply computes_ret.
Qed.

Lemma computes_extractSections html :
  computes (InRealm.extractSections html) (extractSections html).
Proof.
  unfold InRealm.extractSections, extractSections, sectionAnchors, partPositions,
    marginalNotes. cbv zeta.
  eapply computes_loop; [reflexivity | consumes | intros vars m; apply computes_ret |].
  destruct (length _ =? 0); [apply computes_ret|].
  eapply computes_loop;
    [reflexivity
    | consumes
    | intros vars m; eapply computes_bind; [apply computes_stripHtml | apply computes_ret]
    |].
  eapply computes_loop;
    [reflexivity
    | consumes
    | intros vars m; eapply computes_bind; [apply computes_stripHtml | apply computes_ret]
    |].
  eapply computes_bind; [|apply computes_ret].
  apply computes_for_each. intros vars i. apply computes_sectionIteration.
Qed.

Lemma computes_extractDefinitions html sectionNum :
  computes (InRealm.extractDefinitions html sectionNum)
    (extractDefinitions html sectionNum).
Proof.
  unfold InRealm.extractDefinitions, extractDefinitions.
  apply computes_loop_last; [reflexivity | consumes |].
  intros defs m. unfold definitionIteration. cbv zeta.
  eapply computes_bind; [apply computes_match_first; reflexivity|].
  destruct (match_first Rx.dfn (group 1 m)) as [termMatch|]; [|apply computes_ret].
  eapply computes_bind; [apply computes_stripHtml|].
  eapply computes_bind; [apply computes_stripHtml | apply computes_ret].
Qed.

Section RealmSchedules.
Context {engine : Engine}.

Lemma computes_headingIteration scheduleHtml scheduleLabel scheduleTitle headings
  provisions i :
  computes
    (InRealm.headingIteration scheduleHtml scheduleLabel scheduleTitle headings
       provisions i)
    (headingIteration scheduleHtml scheduleLabel scheduleTitle headings provisions i).
Proof.
  unfold InRealm.headingIteration, headingIteration, labelSlug. cbv zeta.
  eapply computes_bind; [apply computes_stripHtml|].
  destruct (10 <? length _); [|apply computes_ret].
  repeat computes_step.
Qed.

Lemma computes_scheduleIteration provisions schedMatch :
  computes (InRealm.scheduleIteration provisions schedMatch)
    (scheduleIteration provisions schedMatch).
Proof.
  unfold InRealm.scheduleIteration, scheduleIteration, headingPositions, labelSlug.
  cbv zeta.
  eapply computes_bind; [apply computes_match_first; reflexivity|].
  destruct (match_first Rx.scheduleLabel _) as [labelMatch|]; [|apply computes_ret].
  eapply computes_bind; [apply computes_stripHtml|].
  eapply computes_bind; [apply computes_match_first; reflexivity|].
  eapply computes_bind
    with (v := match match_first Rx.scheduleTitleText (group 1 schedMatch) with
               | Some titleMatch => stripHtml (group 1 titleMatch)
               | None => []
               end).
  { destruct (match_first Rx.scheduleTitleText _) as [titleMatch|];
      [apply computes_stripHtml | apply computes_ret]. }
  eapply computes_loop;
    [reflexivity
    | consumes
    | intros vars m; eapply computes_bind; [apply computes_stripHtml | apply computes_ret]
    |].
  destruct (0 <? length _).
  - apply computes_for_each. intros vars i. apply computes_headingIteration.
  - eapply computes_bind; [apply computes_replace; consumes|].
    eapply computes_bind; [apply computes_stripHtml|].
    destruct (10 <? length _); [|apply computes_ret].
    repeat computes_step.
Qed.

Lemma computes_extractSchedules html :
  computes (InRealm.extractSchedules html) (extractSchedules html).
Proof.
  unfold InRealm.extractSchedules, extractSchedules.
  eapply computes_loop;
    [reflexivity | consumes | intros vars m; apply computes_scheduleIteration
    | apply computes_ret].
Qed.

(** The parser run in a realm returns, from every realm, the document of
    [parseFullTextHtml]. *)
Lemma computes_parseFullTextHtml html act out :
  computes (InRealm.parseFullTextHtml html act) (fst (parseFullTextHtml html act out)).
Proof.
  unfold InRealm.parseFullTextHtml, parseFullTextHtml.
  destruct (includes html _ || includes html _).
  - intros [objs lns].
    exists [], (lns ++ [lit "    WARNING: " ++ ActIndexEntry.shortName act
                        ++ lit " returned a 404 page"]).
    cbn [objects]. rewrite app_nil_r. split; [reflexivity | constructor].
  - cbv zeta. cbn [ret fst].
    eapply computes_bind; [apply computes_extractDescription|].
    eapply computes_bind; [apply computes_extractCurrentToDate|].
    eapply computes_bind; [apply computes_extractSections|].
    eapply computes_bind; [apply computes_extractDefinitions|].
    eapply computes_bind; [apply computes_extractSchedules|].
    apply computes_ret.
Qed.

End RealmSchedules.

(** C8.  Parsing is deterministic.  The parser is run in a realm that holds
    the RegExp objects created so far, each with its [lastIndex], and the
    lines of the console.  Two invocations on the same page and catalog
    entry return the same document from any two realms, and so does a
    second invocation run in the realm the first one left.  An invocation
    leaves the objects it found as they were and every object it created
    with [lastIndex = 0], and the document is the one [parseFullTextHtml]
    computes from the page and the entry alone. *)
Theorem parse_deterministic {engine : Engine} html act :
  (forall realm1 realm2,
     fst (InRealm.parseFullTextHtml html act realm1)
     = fst (InRealm.parseFullTextHtml html act realm2))
  /\ (forall realm,
        let first := InRealm.parseFullTextHtml html act realm in
        let second := InRealm.parseFullTextHtml html act (snd first) in
        fst second = fst first)
  /\ (forall realm,
        exists created,
          objects (snd (InRealm.parseFullTextHtml html act realm))
          = objects realm ++ created
          /\ Forall (fun o => RegExpObject.lastIndex o = 0) created)
  /\ (forall realm out,
        fst (InRealm.parseFullTextHtml html act realm)
        = fst (parseFullTextHtml html act out)).
Proof.
  assert (H : forall realm out,
            fst (InRealm.parseFullTextHtml html act realm)
            = fst (parseFullTextHtml html act out)).
  { intros realm out.
    destruct (computes_parseFullTextHtml html act out realm) as (created & lns & -> & _).
    reflexivity. }
  split; [|split; [|split]].
  - intros realm1 realm2. rewrite (H realm1 []), (H realm2 []). reflexivity.
  - intros realm. cbv zeta.
    rewrite (H (snd (InRealm.parseFullTextHtml html act realm)) []), (H realm []).
    reflexivity.
  - intros realm.
    destruct (computes_parseFullTextHtml html act [] realm) as (created & lns & -> & Hz).
    exists created. split; [reflexivity | exact Hz].
  - exact H.
Qed.

(** The sample page parsed twice in a row, in a realm that already holds
    an object in the middle of a loop: the same document, 223 objects
    created by each call. *)
Example parse_twice_in_a_realm :
  let realm := mkRealm [RegExpObject.mk Rx.anchorRe 7] [] in
  let first := InRealm.parseFullTextHtml (engine := AsciiEngine)
                 Sample.page Sample.act realm in
  let second := InRealm.parseFullTextHtml (engine := AsciiEngine)
                  Sample.page Sample.act (snd first) in
  fst first = fst (parseFullTextHtml (engine := AsciiEngine) Sample.page Sample.act [])
  /\ fst second = fst first
  /\ length (objects (snd first)) = 1 + 223
  /\ length (objects (snd second)) = 1 + 223 + 223
  /\ map RegExpObject.lastIndex (objects (snd second)) = 7 :: repeat 0 (223 + 223).
Proof. vm_compute. repeat split. Qed.
